(** * Stack-table transforms and the transform-stack codec

    A shallow embedding of [src/profile-logic/transforms.js]: the URL codec
    of a transform stack ([parseTransforms], [stringifyTransforms]) and the
    transforms that rewrite a thread's stack table ([mergeCallNode],
    [dropFunction], [collapseResource], ...), followed by the properties
    proved about them.

    Conventions of the embedding.
    - A JavaScript number that is used as an index is a [Z]; reading an array
      out of range gives [undefined], here [None].  Where a number is
      printed or read, the integers that are Number values are told apart
      ([JsString.numberValue]).
    - [undefined] and [null] are each modelled by [None] of an option type;
      where a variable can hold both, a dedicated type is used.
    - A function that can throw returns a [result]. *)

From stdpp Require Import gmap strings list.
From Stdlib Require Import ZArith Lia Ascii.

#[local] Open Scope Z_scope.

(** ** Outcomes of a call *)

Inductive result (A : Type) : Type :=
| Ok (a : A)
| Throw (msg : string)
| Diverge.
Arguments Ok {A} a.
Arguments Throw {A} msg.
Arguments Diverge {A}.

#[global] Instance result_ret : MRet result := λ A a, Ok a.
#[global] Instance result_bind : MBind result := λ A B f m,
  match m with
  | Ok a => f a
  | Throw msg => Throw msg
  | Diverge => Diverge
  end.

(** ** Array reads *)

(** [arr[i]] for a number [i]: [None] stands for [undefined]. *)
Definition elemAt {A} (arr : list A) (i : Z) : option A :=
  if decide (0 ≤ i) then arr !! Z.to_nat i else None.

(** [arr[i]] where [i] itself may be [undefined]. *)
Definition elemAtU {A} (arr : list A) (i : option Z) : option A :=
  i ≫= elemAt arr.

(** [x === y] where either side may be [undefined]. *)
Definition sameValue (x y : option Z) : bool := bool_decide (x = y).

(** ** Strings *)

Module JsString.

#[local] Open Scope string_scope.

(** [s.split(sep)] for a one-character separator. *)
Fixpoint split (sep : ascii) (s : string) : list string :=
  match s with
  | EmptyString => [EmptyString]
  | String c rest =>
      if Ascii.eqb c sep then EmptyString :: split sep rest
      else match split sep rest with
           | [] => [String c EmptyString]
           | w :: ws => String c w :: ws
           end
  end.

(** [arr.join(sep)]. *)
Definition join (sep : ascii) (arr : list string) : string :=
  String.concat (String sep EmptyString) arr.

(** Whether the character [c] occurs in [s]. *)
Fixpoint contains (c : ascii) (s : string) : bool :=
  match s with
  | EmptyString => false
  | String d rest => Ascii.eqb d c || contains c rest
  end.

(** [s.startsWith(p)]. *)
Definition startsWith (p s : string) : bool := String.prefix p s.

(** The white space that [parseInt] skips, among the code units below 256. *)
Definition isStrWhiteSpace (c : ascii) : bool :=
  let n := N_of_ascii c in
  ((n =? 9) || (n =? 10) || (n =? 11) || (n =? 12) || (n =? 13)
   || (n =? 32) || (n =? 160))%N.

Fixpoint trimStart (s : string) : string :=
  match s with
  | EmptyString => EmptyString
  | String c rest => if isStrWhiteSpace c then trimStart rest else s
  end.

Definition digitValue (c : ascii) : option N :=
  let n := N_of_ascii c in
  if ((48 <=? n) && (n <=? 57))%N then Some (n - 48)%N else None.

Definition digitChar (d : N) : ascii := ascii_of_N (48 + d).

(** The value of the longest prefix of decimal digits; [acc] is [None]
    until a digit has been read. *)
Fixpoint readDigits (s : string) (acc : option N) : option N :=
  match s with
  | EmptyString => acc
  | String c rest =>
      match digitValue c with
      | Some d => readDigits rest (Some (10 * default 0 acc + d)%N)
      | None => acc
      end
  end.

(** The Number value of an integer: the integer itself below 2^53, and from
    there on the nearest integer that has a significand of 53 bits, a tie
    going to the even significand.  The largest finite Number is not
    modelled: an integer of 2^1024 or more, which the source holds as
    [Infinity], keeps a finite value here. *)
Definition numberValue (x : Z) : Z :=
  let m := Z.abs x in
  if (m <? 2 ^ 53)%Z then x
  else
    let e := (Z.log2 m - 52)%Z in
    let q := (m / 2 ^ e)%Z in
    let r := (m mod 2 ^ e)%Z in
    let half := (2 ^ (e - 1))%Z in
    let significand :=
      if (r <? half)%Z then q
      else if (half <? r)%Z then (q + 1)%Z
      else if Z.even q then q else (q + 1)%Z in
    (Z.sgn x * (significand * 2 ^ e))%Z.

(** [parseInt(x, 10)]; [None] is [NaN].  The argument may be [undefined],
    whose string form has no digit.  The result is the Number value of the
    integer that the digits write. *)
Definition parseInt (x : option string) : option Z :=
  match x with
  | None => None
  | Some s =>
      match trimStart s with
      | String "-"%char rest =>
          (λ n, numberValue (- Z.of_N n)) <$> readDigits rest None
      | String "+"%char rest =>
          (λ n, numberValue (Z.of_N n)) <$> readDigits rest None
      | rest => (λ n, numberValue (Z.of_N n)) <$> readDigits rest None
      end
  end.

(** Decimal digits of a natural number, most significant first. *)
Fixpoint digitsOf (fuel : nat) (n : N) : string :=
  match fuel with
  | O => EmptyString
  | S fuel' =>
      if (n <? 10)%N then String (digitChar n) EmptyString
      else digitsOf fuel' (n / 10)%N
             +:+ String (digitChar (n mod 10)%N) EmptyString
  end.

Definition decimal (n : N) : string := digitsOf (S (N.to_nat (N.log2 n))) n.

(** [p] zeros. *)
Fixpoint zeros (p : nat) : string :=
  match p with
  | O => EmptyString
  | S p' => String "0"%char (zeros p')
  end.

(** The digits [s] for which [s * 10^p] is read as the Number [x], if there
    are any: the nearest of them to [x], and of two equally near the even
    one.  Only the two multiples of [10^p] that enclose [x] can be
    nearest. *)
Definition digitsAt (x : Z) (p : nat) : option Z :=
  let unit := (10 ^ Z.of_nat p)%Z in
  let low := (x / unit)%Z in
  let high := (low + 1)%Z in
  let lowReads := ((0 <? low) && (numberValue (low * unit) =? x))%Z in
  let highReads := (numberValue (high * unit) =? x)%Z in
  if lowReads && highReads then
    let below := (x - low * unit)%Z in
    let above := (high * unit - x)%Z in
    if (below <? above)%Z then Some low
    else if (above <? below)%Z then Some high
    else if Z.even low then Some low else Some high
  else if lowReads then Some low
  else if highReads then Some high
  else None.

(** The fewest digits that read as the Number [x]: the largest [p], from
    [p] downwards, that has digits [s] with [s * 10^p] read as [x]. *)
Fixpoint shortestDigits (x : Z) (p : nat) : Z * nat :=
  match digitsAt x p with
  | Some s => (s, p)
  | None =>
      match p with
      | O => (x, O)
      | S p' => shortestDigits x p'
      end
  end.

(** The form with an exponent: [d.ddde+n], or [de+n] for a single digit. *)
Definition exponentForm (digits : string) (p : nat) : string :=
  let exponent := decimal (N.of_nat (String.length digits + p - 1)) in
  match digits with
  | EmptyString => EmptyString
  | String first EmptyString => String first ("e+" +:+ exponent)
  | String first rest => String first (String "."%char rest) +:+ "e+" +:+ exponent
  end.

(** [String(m)] for a non-negative integer [m], as a template literal
    prints the Number: the fewest digits that read back as it, followed by
    the zeros that fill up to the units, and from 10^21 on in the form with
    an exponent.  Below 2^53 the fewest digits with their zeros are the
    decimal digits of the integer, since every integer there is a Number of
    its own.  An integer that is not a Number stands for the Number it is
    read as. *)
Definition magnitudeToString (m : Z) : string :=
  let x := numberValue m in
  if (x <? 2 ^ 53)%Z then decimal (Z.to_N x)
  else
    let '(s, p) := shortestDigits x (S (Z.to_nat (Z.log2 x))) in
    if (x <? 10 ^ 21)%Z then decimal (Z.to_N s) +:+ zeros p
    else exponentForm (decimal (Z.to_N s)) p.

(** Neither separator of the transform-stack text occurs in [s]. *)
Definition numeric (s : string) : Prop :=
  contains "-" s = false ∧ contains "~" s = false.

(** [String(n)] for an integer [n]. *)
Definition numberToString (n : Z) : string :=
  if (n <? 0)%Z then String "-"%char (magnitudeToString (- n))
  else magnitudeToString n.

(** [Boolean(x)] for a string or [undefined]. *)
Definition toBoolean (x : option string) : bool :=
  match x with
  | None | Some EmptyString => false
  | Some _ => true
  end.

(** A decimal digit, and a string of decimal digits. *)
Definition isDigit (c : ascii) : Prop := is_Some (digitValue c).

Fixpoint allDigits (s : string) : Prop :=
  match s with
  | EmptyString => True
  | String c rest => isDigit c ∧ allDigits rest
  end.

End JsString.

(** ** Transforms *)

Inductive ImplementationFilter : Set := combined | js | cpp.

Inductive TransformType : Set :=
| focus_subtree
| focus_function
| merge_call_node
| merge_function
| drop_function
| collapse_resource
| collapse_direct_recursion
| collapse_function_subtree.

(** The tagged union [Transform]: one constructor per [type], carrying the
    fields of that kind. *)
Inductive Transform : Set :=
| FocusSubtree (callNodePath : list Z) (implementation : ImplementationFilter)
    (inverted : bool)
| FocusFunction (funcIndex : Z)
| MergeCallNode (callNodePath : list Z) (implementation : ImplementationFilter)
| MergeFunction (funcIndex : Z)
| DropFunction (funcIndex : Z)
| CollapseResource (resourceIndex collapsedFuncIndex : Z)
    (implementation : ImplementationFilter)
| CollapseDirectRecursion (funcIndex : Z) (implementation : ImplementationFilter)
| CollapseFunctionSubtree (funcIndex : Z).

#[global] Instance ImplementationFilter_eq_dec : EqDecision ImplementationFilter.
Proof. solve_decision. Defined.
#[global] Instance TransformType_eq_dec : EqDecision TransformType.
Proof. solve_decision. Defined.
#[global] Instance Transform_eq_dec : EqDecision Transform.
Proof. solve_decision. Defined.

Definition transformType (transform : Transform) : TransformType :=
  match transform with
  | FocusSubtree _ _ _ => focus_subtree
  | FocusFunction _ => focus_function
  | MergeCallNode _ _ => merge_call_node
  | MergeFunction _ => merge_function
  | DropFunction _ => drop_function
  | CollapseResource _ _ _ => collapse_resource
  | CollapseDirectRecursion _ _ => collapse_direct_recursion
  | CollapseFunctionSubtree _ => collapse_function_subtree
  end.

(** ** The URL codec of a transform stack *)

Definition TRANSFORM_TO_SHORT_KEY (type : TransformType) : string :=
  match type with
  | focus_subtree => "f"
  | focus_function => "ff"
  | merge_call_node => "mcn"
  | merge_function => "mf"
  | drop_function => "df"
  | collapse_resource => "cr"
  | collapse_direct_recursion => "rec"
  | collapse_function_subtree => "cfs"
  end.

(** [convertToTransformType(SHORT_KEY_TO_TRANSFORM[shortKey])].  The object
    has the eight short keys; [convertToTransformType] (in [utils/flow], not
    among the sources) is
    Modelled from the spec: "unrecognized short keys are logged and skipped",
    so every other value that the property read can give, [undefined]
    included, becomes [null], here [None]. *)
Definition SHORT_KEY_TO_TRANSFORM (shortKey : string) : option TransformType :=
  if String.eqb shortKey "f" then Some focus_subtree
  else if String.eqb shortKey "ff" then Some focus_function
  else if String.eqb shortKey "mcn" then Some merge_call_node
  else if String.eqb shortKey "mf" then Some merge_function
  else if String.eqb shortKey "df" then Some drop_function
  else if String.eqb shortKey "cr" then Some collapse_resource
  else if String.eqb shortKey "rec" then Some collapse_direct_recursion
  else if String.eqb shortKey "cfs" then Some collapse_function_subtree
  else None.

(** Modelled from the spec: [toValidImplementationFilter] lives in
    [profile-data], which is not among the sources.  The spec names the three
    filters [combined], [cpp] and [js]; any other text, and [undefined], is
    taken to the filter [combined]. *)
Definition toValidImplementationFilter (implementation : option string)
  : ImplementationFilter :=
  match implementation with
  | Some s =>
      if String.eqb s "cpp" then cpp
      else if String.eqb s "js" then js
      else combined
  | None => combined
  end.

(** The text of an implementation filter inside a template literal. *)
Definition implementationToString (implementation : ImplementationFilter)
  : string :=
  match implementation with
  | combined => "combined"
  | js => "js"
  | cpp => "cpp"
  end.

Section Codec.

(** The two functions of [utils/uintarray-encoding], which is not among the
    sources.  The decoder receives [tuple[2]], which is [undefined] when the
    token has fewer fields. *)
Variable encodeUintArrayForUrlComponent : list Z → string.
Variable decodeUintArrayFromUrlComponent : option string → result (list Z).

(** What [parseTransforms] has built so far: the [transforms] array and the
    short keys handed to [console.error]. *)
Definition ParseState : Type := list Transform * list string.

(** The callback of [transformString.split('~').forEach], from the line
    after [const tuple = s.split('-')] on. *)
Definition parseTuple (tuple : list string) (st : ParseState) : result ParseState :=
  let '(transforms, logged) := st in
  let shortKey := default EmptyString (tuple !! 0%nat) in
  match SHORT_KEY_TO_TRANSFORM shortKey with
  | None => Ok (transforms, logged ++ [shortKey])
  | Some type =>
      match type with
      | collapse_resource =>
          let implementation := tuple !! 1%nat in
          let resourceIndexRaw := tuple !! 2%nat in
          let collapsedFuncIndexRaw := tuple !! 3%nat in
          match JsString.parseInt resourceIndexRaw,
                JsString.parseInt collapsedFuncIndexRaw with
          | Some resourceIndex, Some collapsedFuncIndex =>
              if bool_decide (0 ≤ resourceIndex) then
                Ok (transforms ++
                      [CollapseResource resourceIndex collapsedFuncIndex
                         (toValidImplementationFilter implementation)],
                    logged)
              else Ok st
          | _, _ => Ok st
          end
      | collapse_direct_recursion =>
          let implementation := tuple !! 1%nat in
          let funcIndexRaw := tuple !! 2%nat in
          match JsString.parseInt funcIndexRaw with
          | None => Ok st
          | Some funcIndex =>
              if bool_decide (funcIndex < 0) then Ok st
              else Ok (transforms ++
                         [CollapseDirectRecursion funcIndex
                            (toValidImplementationFilter implementation)],
                       logged)
          end
      | merge_function | focus_function | drop_function
      | collapse_function_subtree =>
          let funcIndexRaw := tuple !! 1%nat in
          match JsString.parseInt funcIndexRaw with
          | Some funcIndex =>
              if bool_decide (0 ≤ funcIndex) then
                match type with
                | merge_function =>
                    Ok (transforms ++ [MergeFunction funcIndex], logged)
                | focus_function =>
                    Ok (transforms ++ [FocusFunction funcIndex], logged)
                | drop_function =>
                    Ok (transforms ++ [DropFunction funcIndex], logged)
                | collapse_function_subtree =>
                    Ok (transforms ++ [CollapseFunctionSubtree funcIndex], logged)
                | _ => Throw "Unmatched transform."
                end
              else Ok st
          | None => Ok st
          end
      | focus_subtree | merge_call_node =>
          let implementationRaw := tuple !! 1%nat in
          let serializedCallNodePath := tuple !! 2%nat in
          let invertedRaw := tuple !! 3%nat in
          let implementation := toValidImplementationFilter implementationRaw in
          callNodePath ← decodeUintArrayFromUrlComponent serializedCallNodePath;
          let inverted := JsString.toBoolean invertedRaw in
          match type with
          | focus_subtree =>
              Ok (transforms ++ [FocusSubtree callNodePath implementation inverted],
                  logged)
          | merge_call_node =>
              Ok (transforms ++ [MergeCallNode callNodePath implementation],
                  logged)
          | _ => Throw "Unmatched transform."
          end
      end
  end.

(** The callback of [transformString.split('~').forEach]. *)
Definition parseTransform (s : string) (st : ParseState) : result ParseState :=
  parseTuple (JsString.split "-" s) st.

(** [array.forEach(callback)] for a callback that updates the state. *)
Fixpoint forEach {A S : Type} (callback : A → S → result S) (array : list A)
    (st : S) : result S :=
  match array with
  | [] => Ok st
  | x :: rest => st' ← callback x st; forEach callback rest st'
  end.

(** [parseTransforms(transformString)], with what it logged. *)
Definition parseTransforms (transformString : string) : result ParseState :=
  if String.eqb transformString EmptyString then Ok ([], [])
  else forEach parseTransform (JsString.split "~" transformString) ([], []).

(** The callback of [transformStack.map]: the text of one transform.  The
    two [throw]s of the source cannot be reached from a [Transform]: every
    [type] has a short key and a case. *)
Definition stringifyTransform (transform : Transform) : string :=
  let shortKey := TRANSFORM_TO_SHORT_KEY (transformType transform) in
  match transform with
  | MergeFunction funcIndex
  | DropFunction funcIndex
  | CollapseFunctionSubtree funcIndex
  | FocusFunction funcIndex =>
      shortKey +:+ "-" +:+ JsString.numberToString funcIndex
  | CollapseResource resourceIndex collapsedFuncIndex implementation =>
      shortKey +:+ "-" +:+ implementationToString implementation
        +:+ "-" +:+ JsString.numberToString resourceIndex
        +:+ "-" +:+ JsString.numberToString collapsedFuncIndex
  | CollapseDirectRecursion funcIndex implementation =>
      shortKey +:+ "-" +:+ implementationToString implementation
        +:+ "-" +:+ JsString.numberToString funcIndex
  | FocusSubtree callNodePath implementation inverted =>
      let string :=
        JsString.join "-"
          [shortKey; implementationToString implementation;
           encodeUintArrayForUrlComponent callNodePath] in
      if inverted then string +:+ "-i" else string
  | MergeCallNode callNodePath implementation =>
      JsString.join "-"
        [shortKey; implementationToString implementation;
         encodeUintArrayForUrlComponent callNodePath]
  end.

Definition stringifyTransforms (transformStack : list Transform) : string :=
  JsString.join "~" (map stringifyTransform transformStack).

End Codec.

(** ** A codec for call node paths *)

Module UintArrayEncoding.

(** Modelled from the spec: [utils/uintarray-encoding.js] is not among the
    sources.  The spec asks for call node paths "encoded as a compact
    reversible integer-array string" that is safe inside a URL and inside a
    [-]/[~] separated transform string.  The model writes each number in base
    32, most significant digit first, one character per digit out of 64
    characters; a character of value 32 to 63 announces that a further digit
    of the same number follows.  What the decoder does with text that the
    encoder never writes, and with [undefined], is not in the spec: the
    model returns the numbers it could read, and none for [undefined], and
    no property below depends on it. *)
Definition encodingChars : string :=
  "0123456789abcdefghijklmnopqrstuvwxyzABCDEFGHIJKLMNOPQRSTUVWXYZ._".

Definition charOfValue (v : N) : ascii :=
  default "0"%char (String.get (N.to_nat v) encodingChars).

Fixpoint indexIn (c : ascii) (s : string) (i : N) : option N :=
  match s with
  | EmptyString => None
  | String d rest => if Ascii.eqb d c then Some i else indexIn c rest (i + 1)%N
  end.

Definition valueOfChar (c : ascii) : option N := indexIn c encodingChars 0%N.

(** The digits of [n] that are followed by a further digit. *)
Fixpoint leadingDigits (fuel : nat) (n : N) : string :=
  match fuel with
  | O => EmptyString
  | S fuel' =>
      if (n =? 0)%N then EmptyString
      else leadingDigits fuel' (n / 32)%N
             +:+ String (charOfValue (32 + n mod 32)%N) EmptyString
  end.

Definition encodeUint (n : N) : string :=
  leadingDigits (N.to_nat (N.size (n / 32))) (n / 32)%N
    +:+ String (charOfValue (n mod 32)%N) EmptyString.

Definition encodeUintArrayForUrlComponent (numbers : list Z) : string :=
  String.concat EmptyString (map (λ n, encodeUint (Z.to_N n)) numbers).

Fixpoint decodeFrom (s : string) (val : N) : list Z :=
  match s with
  | EmptyString => []
  | String c rest =>
      match valueOfChar c with
      | None => decodeFrom rest val
      | Some v =>
          let val' := (val * 32 + v mod 32)%N in
          if (v <? 32)%N then Z.of_N val' :: decodeFrom rest 0%N
          else decodeFrom rest val'
      end
  end.

Definition decodeUintArrayFromUrlComponent (s : option string)
  : result (list Z) :=
  match s with
  | None => Ok []
  | Some s => Ok (decodeFrom s 0%N)
  end.

End UintArrayEncoding.

(** ** The tables of a thread *)

(** One row of the stack table: the entries of the columns [prefix],
    [frame], [category] and [subcategory] at one index.  The table is the
    list of its rows, and its [length] the length of that list. *)
Record StackRow : Set := mkStackRow {
  s_prefix : option Z;
  s_frame : Z;
  s_category : Z;
  s_subcategory : Z;
}.

Abbreviation StackTable := (list StackRow).

(** The column of the frame table that the transforms read, and its
    [length] field. *)
Record FrameTable : Set := mkFrameTable {
  frame_func : list Z;
  frame_length : Z;
}.

(** The columns of the func table that the transforms read or write.  An
    entry [-1] of [func_name] also stands for an absent name: neither is
    the index of a string. *)
Record FuncTable : Set := mkFuncTable {
  func_isJS : list bool;
  func_relevantForJS : list bool;
  func_name : list Z;
  func_resource : list Z;
  func_length : Z;
}.

(** A thread: the [stack] column of each sample-like table ([jsAllocations]
    and [nativeAllocations] are optional), and the tables that the stacks
    refer to.  The other columns and fields travel unchanged through every
    transform and are left out. *)
Record Thread : Set := mkThread {
  samples : list (option Z);
  jsAllocations : option (list (option Z));
  nativeAllocations : option (list (option Z));
  stackTable : StackTable;
  frameTable : FrameTable;
  funcTable : FuncTable;
  stringTable : list string;
  resourceTable_name : list Z;
}.

Definition getEmptyStackTable : StackTable := [].

(** The number of rows, as the [length] field has it. *)
Definition tableLength {A} (rows : list A) : Z := Z.of_nat (length rows).

(** [frameTable.func[stackTable.frame[stackIndex]]] for the row at
    [stackIndex]. *)
Definition funcOfRow (thread : Thread) (row : StackRow) : option Z :=
  elemAt (frame_func (frameTable thread)) (s_frame row).

(** Modelled from the spec: [stringTable.getString(index)] of
    [utils/unique-string-array], not among the sources.  The spec gives
    [getString(index) -> string]; an index that has no string is an invariant
    violation, which "signals with a hard failure". *)
Definition getString (strings : list string) (index : option Z) : result string :=
  match elemAtU strings index with
  | Some s => Ok s
  | None => Throw "index not in UniqueStringArray"
  end.

(** [FUNC_MATCHES[implementation](thread, funcIndex)]; [funcIndex] may be
    [undefined]. *)
Definition FUNC_MATCHES (implementation : ImplementationFilter) (thread : Thread)
    (funcIndex : option Z) : result bool :=
  let funcTable := funcTable thread in
  match implementation with
  | combined => Ok true
  | cpp =>
      if default false (elemAtU (func_isJS funcTable) funcIndex) then Ok false
      else
        locationString ←
          getString (stringTable thread) (elemAtU (func_name funcTable) funcIndex);
        let isProbablyJitCode :=
          sameValue (elemAtU (func_resource funcTable) funcIndex) (Some (-1))
          && JsString.startsWith "0x" locationString in
        Ok (negb isProbablyJitCode)
  | js =>
      Ok (default false (elemAtU (func_isJS funcTable) funcIndex)
          || default false (elemAtU (func_relevantForJS funcTable) funcIndex))
  end.

(** ** Rewriting the stacks of a thread *)

(** [for (let stackIndex = 0; stackIndex < stackTable.length; stackIndex++)]
    over the rows of the table, threading the variables that the body
    updates. *)
Fixpoint forStacks {S : Type} (body : Z → StackRow → S → result S)
    (stackIndex : Z) (rows : list StackRow) (st : S) : result S :=
  match rows with
  | [] => Ok st
  | row :: rest =>
      st' ← body stackIndex row st;
      forStacks body (stackIndex + 1) rest st'
  end.

(** [oldStackToNewStack]: a [Map] whose keys are [null] and stack indexes.
    Every transform sets [null -> null] first and never sets that key again,
    so the finite map holds the number keys only.  The value [None] is
    [null]. *)
Abbreviation StackMap := (gmap Z (option Z)).

(** [oldStackToNewStack.get(key)]: the outer [None] is [undefined]. *)
Definition mapGet (oldStackToNewStack : StackMap) (key : option Z)
  : option (option Z) :=
  match key with
  | None => Some None
  | Some stack => oldStackToNewStack !! stack
  end.

(** A [convertStack] callback: a closure that may keep a state of type [S]
    between the calls. *)
Definition StackUpdater (S : Type) : Type :=
  option Z → S → result (option Z * S).

Definition pureUpdater (f : option Z → option Z) : StackUpdater unit :=
  λ stack st, Ok (f stack, st).

(** [stacks.map(convertStack)]. *)
Fixpoint mapStacks {S : Type} (convertStack : StackUpdater S)
    (stacks : list (option Z)) (st : S) : result (list (option Z) * S) :=
  match stacks with
  | [] => Ok ([], st)
  | oldStack :: rest =>
      '(newStack, st1) ← convertStack oldStack st;
      '(rest', st2) ← mapStacks convertStack rest st1;
      Ok (newStack :: rest', st2)
  end.

Definition mapStacksOpt {S : Type} (convertStack : StackUpdater S)
    (table : option (list (option Z))) (st : S)
  : result (option (list (option Z)) * S) :=
  match table with
  | None => Ok (None, st)
  | Some stacks =>
      '(stacks', st') ← mapStacks convertStack stacks st;
      Ok (Some stacks', st')
  end.

(** Modelled from the spec: [updateThreadStacks] of [profile-data], not among
    the sources.  "Each transform [produces] a new thread with a new stack
    table and a remapping function applied to all sample-like tables":
    the [stack] column of [samples], of [jsAllocations] and of
    [nativeAllocations] is mapped through [convertStack], and the stack
    table is replaced. *)
Definition updateThreadStacks {S : Type} (thread : Thread)
    (newStackTable : StackTable) (convertStack : StackUpdater S) (st : S)
  : result Thread :=
  '(newSamples, st1) ← mapStacks convertStack (samples thread) st;
  '(newJsAllocations, st2) ←
    mapStacksOpt convertStack (jsAllocations thread) st1;
  '(newNativeAllocations, _) ←
    mapStacksOpt convertStack (nativeAllocations thread) st2;
  Ok {| samples := newSamples;
        jsAllocations := newJsAllocations;
        nativeAllocations := newNativeAllocations;
        stackTable := newStackTable;
        frameTable := frameTable thread;
        funcTable := funcTable thread;
        stringTable := stringTable thread;
        resourceTable_name := resourceTable_name thread |}.

(** Modelled from the spec: [getMapStackUpdater] of [profile-data], not among
    the sources.  The mapping is "seeded with null -> null", and "a stack
    index with no entry in the old->new mapping when one is required" is a
    hard failure. *)
Definition getMapStackUpdater (oldStackToNewStack : StackMap)
  : StackUpdater unit :=
  λ oldStack st,
    match mapGet oldStackToNewStack oldStack with
    | None =>
        Throw "Could not find a stack when converting from an old stack to new stack."
    | Some newStack => Ok (newStack, st)
    end.

(** ** The transforms *)

(** The two variables that every rewriting transform builds in its forward
    pass over the stack table. *)
Record Rewrite : Type := mkRewrite {
  newStackTable : StackTable;
  oldStackToNewStack : StackMap;
}.

Definition emptyRewrite : Rewrite :=
  {| newStackTable := getEmptyStackTable; oldStackToNewStack := ∅ |}.

(** The block that re-emits a stack:
    [const newStackIndex = newStackTable.length++], the four column writes
    at [newStackIndex], and [oldStackToNewStack.set(stackIndex, newStackIndex)]. *)
Definition emitStack (rw : Rewrite) (stackIndex : Z) (newStackPrefix : option Z)
    (frameIndex category subcategory : Z) : Rewrite :=
  let newStackIndex := tableLength (newStackTable rw) in
  {| newStackTable :=
       newStackTable rw
         ++ [mkStackRow newStackPrefix frameIndex category subcategory];
     oldStackToNewStack :=
       <[stackIndex := Some newStackIndex]> (oldStackToNewStack rw) |}.

(** [oldStackToNewStack.set(stackIndex, newStack)] alone: the stack is not
    re-emitted. *)
Definition redirectStack (rw : Rewrite) (stackIndex : Z) (newStack : option Z)
  : Rewrite :=
  {| newStackTable := newStackTable rw;
     oldStackToNewStack := <[stackIndex := newStack]> (oldStackToNewStack rw) |}.

(** [newStackPrefix === undefined ? null : newStackPrefix]. *)
Definition orNull (newStackPrefix : option (option Z)) : option Z :=
  default None newStackPrefix.

(** *** merge-call-node *)

(** [stackDepths] and [stackMatches] are filled at [stackIndex] in each
    iteration, so they are the lists of the values written so far.  A depth
    is [None] when the source stored [undefined]. *)
Record MergeCallNodeState : Type := mkMergeCallNodeState {
  mcn_rewrite : Rewrite;
  stackDepths : list (option Z);
  stackMatches : list bool;
}.

Definition mergeCallNodeBody (thread : Thread) (callNodePath : list Z)
    (implementation : ImplementationFilter) (stackIndex : Z) (row : StackRow)
    (st : MergeCallNodeState) : result MergeCallNodeState :=
  let depthAtCallNodePathLeaf := tableLength callNodePath - 1 in
  let prefix := s_prefix row in
  let funcIndex := funcOfRow thread row in
  let doesPrefixMatch :=
    match prefix with
    | None => true
    | Some p => default false (elemAt (stackMatches st) p)
    end in
  let prefixDepth :=
    match prefix with
    | None => Some (-1)
    | Some p => mjoin (elemAt (stackDepths st) p)
    end in
  let currentFuncOnPath := prefixDepth ≫= λ d, elemAt callNodePath (d + 1) in
  '(doMerge, stackDepth, doesMatchCallNodePath) ←
    match prefixDepth with
    | Some depth =>
        if doesPrefixMatch && bool_decide (depth < depthAtCallNodePathLeaf) then
          if sameValue currentFuncOnPath funcIndex then
            if bool_decide (depth + 1 = depthAtCallNodePathLeaf)
            then Ok (true, Some depth, true)
            else Ok (false, Some (depth + 1), true)
          else
            matchesImplementation ← FUNC_MATCHES implementation thread funcIndex;
            if negb matchesImplementation
            then Ok (false, Some depth, true)
            else Ok (false, Some depth, false)
        else Ok (false, Some depth, false)
    | None => Ok (false, None, false)
    end;
  let newStackPrefix := orNull (mapGet (oldStackToNewStack (mcn_rewrite st)) prefix) in
  Ok {| mcn_rewrite :=
          if (doMerge : bool)
          then redirectStack (mcn_rewrite st) stackIndex newStackPrefix
          else emitStack (mcn_rewrite st) stackIndex newStackPrefix
                 (s_frame row) (s_category row) (s_subcategory row);
        stackDepths := stackDepths st ++ [stackDepth];
        stackMatches := stackMatches st ++ [doesMatchCallNodePath] |}.

Definition mergeCallNodeLoop (thread : Thread) (callNodePath : list Z)
    (implementation : ImplementationFilter) : result MergeCallNodeState :=
  forStacks (mergeCallNodeBody thread callNodePath implementation) 0
    (stackTable thread)
    {| mcn_rewrite := emptyRewrite; stackDepths := []; stackMatches := [] |}.

Definition mergeCallNode (thread : Thread) (callNodePath : list Z)
    (implementation : ImplementationFilter) : result Thread :=
  st ← mergeCallNodeLoop thread callNodePath implementation;
  updateThreadStacks thread (newStackTable (mcn_rewrite st))
    (getMapStackUpdater (oldStackToNewStack (mcn_rewrite st))) ().

(** *** merge-function *)

Definition mergeFunctionBody (thread : Thread) (funcIndexToMerge : Z)
    (stackIndex : Z) (row : StackRow) (rw : Rewrite) : result Rewrite :=
  let funcIndex := funcOfRow thread row in
  let newStackPrefix := orNull (mapGet (oldStackToNewStack rw) (s_prefix row)) in
  if sameValue funcIndex (Some funcIndexToMerge)
  then Ok (redirectStack rw stackIndex newStackPrefix)
  else Ok (emitStack rw stackIndex newStackPrefix
             (s_frame row) (s_category row) (s_subcategory row)).

Definition mergeFunctionLoop (thread : Thread) (funcIndexToMerge : Z)
  : result Rewrite :=
  forStacks (mergeFunctionBody thread funcIndexToMerge) 0 (stackTable thread)
    emptyRewrite.

Definition mergeFunction (thread : Thread) (funcIndexToMerge : Z)
  : result Thread :=
  rw ← mergeFunctionLoop thread funcIndexToMerge;
  updateThreadStacks thread (newStackTable rw)
    (getMapStackUpdater (oldStackToNewStack rw)) ().

(** *** drop-function *)

(** [stackContainsFunc] gets [true] at [stackIndex] or is left with a hole
    there; a hole reads as [undefined], which the source uses as false.  The
    list holds one boolean per stack visited so far. *)
Definition dropFunctionBody (thread : Thread) (funcIndexToDrop : Z)
    (stackIndex : Z) (row : StackRow) (stackContainsFunc : list bool)
  : result (list bool) :=
  let funcIndex := funcOfRow thread row in
  Ok (stackContainsFunc
        ++ [sameValue funcIndex (Some funcIndexToDrop)
            || match s_prefix row with
               | Some prefix => default false (elemAt stackContainsFunc prefix)
               | None => false
               end]).

Definition dropFunctionLoop (thread : Thread) (funcIndexToDrop : Z)
  : result (list bool) :=
  forStacks (dropFunctionBody thread funcIndexToDrop) 0 (stackTable thread) [].

(** The [convertStack] callback of [dropFunction]. *)
Definition dropStack (stackContainsFunc : list bool) (stack : option Z)
  : option Z :=
  match stack with
  | Some s => if default false (elemAt stackContainsFunc s) then None else Some s
  | None => None
  end.

Definition dropFunction (thread : Thread) (funcIndexToDrop : Z) : result Thread :=
  stackContainsFunc ← dropFunctionLoop thread funcIndexToDrop;
  updateThreadStacks thread (stackTable thread)
    (pureUpdater (dropStack stackContainsFunc)) ().

(** *** Category of a stack that other stacks collapse into *)

(** [newStackTable.category[stack] = category;
     newStackTable.subcategory[stack] = subcategory].  Every call writes at
    a row of the table (see [resolveCategory]'s callers); a row that does
    not exist is left alone here, where the source would grow the column. *)
Definition setCategory (table : StackTable) (stack category subcategory : Z)
  : StackTable :=
  match elemAt table stack with
  | Some row =>
      <[Z.to_nat stack :=
          mkStackRow (s_prefix row) (s_frame row) category subcategory]> table
  | None => table
  end.

(** The block shared by the two collapsing transforms:
    conflicting categories give the default category and subcategory 0,
    conflicting subcategories give subcategory 0. *)
Definition resolveCategory (table : StackTable) (stack : Z)
    (category subcategory defaultCategory : Z) : StackTable :=
  if negb (sameValue (s_category <$> elemAt table stack) (Some category))
  then setCategory table stack defaultCategory 0
  else if negb (sameValue (s_subcategory <$> elemAt table stack) (Some subcategory))
  then setCategory table stack
         (default category (s_category <$> elemAt table stack)) 0
  else table.

(** [set.has(stack)] for a set of stack indexes; [stack] may be [null]. *)
Definition setHas (set : gset Z) (stack : option Z) : bool :=
  match stack with
  | Some s => bool_decide (s ∈ set)
  | None => false
  end.

(** *** collapse-resource *)

Record CollapseResourceState : Type := mkCollapseResourceState {
  cr_rewrite : Rewrite;
  newFrameTable : FrameTable;
  newFuncTable : FuncTable;
  prefixStackToCollapsedStack : gmap (option Z) (option Z);
  collapsedStacks : gset Z;
  collapsedFrameIndex : option Z;
  collapsedFuncIndex : option Z;
}.

(** The block under [if (collapsedFrameIndex === undefined)]: one frame and
    one func are appended.  [resourceNameIndex] is [undefined] when the
    resource table has no such row, and is then stored as [-1].  The
    [resource] pushed is [funcTable.resource[funcIndex]], which the
    enclosing test found equal to [resourceIndexToCollapse]. *)
Definition createCollapsedFrame (thread : Thread) (resourceIndexToCollapse : Z)
    (funcIndex : option Z) (st : CollapseResourceState) : CollapseResourceState :=
  match collapsedFrameIndex st with
  | Some _ => st
  | None =>
      let resourceNameIndex :=
        elemAt (resourceTable_name thread) resourceIndexToCollapse in
      let frames := newFrameTable st in
      let funcs := newFuncTable st in
      let newFrameIndex := frame_length frames in
      let newFuncIndex := func_length funcs in
      {| cr_rewrite := cr_rewrite st;
         newFrameTable :=
           {| frame_func := frame_func frames ++ [newFuncIndex];
              frame_length := frame_length frames + 1 |};
         newFuncTable :=
           {| func_isJS :=
                func_isJS funcs
                  ++ [default false
                        (elemAtU (func_isJS (funcTable thread)) funcIndex)];
              func_relevantForJS := func_relevantForJS funcs;
              func_name := func_name funcs ++ [default (-1) resourceNameIndex];
              func_resource := func_resource funcs ++ [resourceIndexToCollapse];
              func_length := func_length funcs + 1 |};
         prefixStackToCollapsedStack := prefixStackToCollapsedStack st;
         collapsedStacks := collapsedStacks st;
         collapsedFrameIndex := Some newFrameIndex;
         collapsedFuncIndex := Some newFuncIndex |}
  end.

Definition cr_withRewrite (st : CollapseResourceState) (rw : Rewrite)
  : CollapseResourceState :=
  {| cr_rewrite := rw;
     newFrameTable := newFrameTable st;
     newFuncTable := newFuncTable st;
     prefixStackToCollapsedStack := prefixStackToCollapsedStack st;
     collapsedStacks := collapsedStacks st;
     collapsedFrameIndex := collapsedFrameIndex st;
     collapsedFuncIndex := collapsedFuncIndex st |}.

Definition collapseResourceBody (thread : Thread) (resourceIndexToCollapse : Z)
    (implementation : ImplementationFilter) (defaultCategory : Z)
    (stackIndex : Z) (row : StackRow) (st : CollapseResourceState)
  : result CollapseResourceState :=
  let prefix := s_prefix row in
  let funcIndex := funcOfRow thread row in
  let resourceIndex := elemAtU (func_resource (funcTable thread)) funcIndex in
  match mapGet (oldStackToNewStack (cr_rewrite st)) prefix with
  | None => Throw "newStackPrefix must not be undefined"
  | Some newStackPrefix =>
      if sameValue resourceIndex (Some resourceIndexToCollapse) then
        if negb (setHas (collapsedStacks st) newStackPrefix) then
          match prefixStackToCollapsedStack st !! prefix with
          | None =>
              let newStackIndex := tableLength (newStackTable (cr_rewrite st)) in
              let st1 := createCollapsedFrame thread resourceIndexToCollapse funcIndex st in
              Ok {| cr_rewrite :=
                      emitStack (cr_rewrite st) stackIndex newStackPrefix
                        (default 0 (collapsedFrameIndex st1))
                        (s_category row) (s_subcategory row);
                    newFrameTable := newFrameTable st1;
                    newFuncTable := newFuncTable st1;
                    prefixStackToCollapsedStack :=
                      <[prefix := Some newStackIndex]> (prefixStackToCollapsedStack st);
                    collapsedStacks := {[newStackIndex]} ∪ collapsedStacks st;
                    collapsedFrameIndex := collapsedFrameIndex st1;
                    collapsedFuncIndex := collapsedFuncIndex st1 |}
          | Some None => Throw "existingCollapsedStack cannot be null"
          | Some (Some existingCollapsedStack) =>
              let rw := cr_rewrite st in
              Ok (cr_withRewrite st
                    {| newStackTable :=
                         resolveCategory (newStackTable rw) existingCollapsedStack
                           (s_category row) (s_subcategory row) defaultCategory;
                       oldStackToNewStack :=
                         <[stackIndex := Some existingCollapsedStack]>
                           (oldStackToNewStack rw) |})
          end
        else Ok (cr_withRewrite st (redirectStack (cr_rewrite st) stackIndex newStackPrefix))
      else
        matchesImplementation ← FUNC_MATCHES implementation thread funcIndex;
        let prefixFrame :=
          s_frame <$> (newStackPrefix ≫= elemAt (newStackTable (cr_rewrite st))) in
        let prefixFunc := elemAtU (frame_func (newFrameTable st)) prefixFrame in
        let prefixResource := elemAtU (func_resource (newFuncTable st)) prefixFunc in
        if negb matchesImplementation && bool_decide (newStackPrefix ≠ None)
           && sameValue prefixResource (Some resourceIndexToCollapse)
        then Ok (cr_withRewrite st (redirectStack (cr_rewrite st) stackIndex newStackPrefix))
        else Ok (cr_withRewrite st
                   (emitStack (cr_rewrite st) stackIndex newStackPrefix
                      (s_frame row) (s_category row) (s_subcategory row)))
  end.

Definition collapseResourceLoop (thread : Thread) (resourceIndexToCollapse : Z)
    (implementation : ImplementationFilter) (defaultCategory : Z)
  : result CollapseResourceState :=
  forStacks
    (collapseResourceBody thread resourceIndexToCollapse implementation
       defaultCategory)
    0 (stackTable thread)
    {| cr_rewrite := emptyRewrite;
       newFrameTable := frameTable thread;
       newFuncTable := funcTable thread;
       prefixStackToCollapsedStack := ∅;
       collapsedStacks := ∅;
       collapsedFrameIndex := None;
       collapsedFuncIndex := None |}.

Definition collapseResource (thread : Thread) (resourceIndexToCollapse : Z)
    (implementation : ImplementationFilter) (defaultCategory : Z)
  : result Thread :=
  st ← collapseResourceLoop thread resourceIndexToCollapse implementation
         defaultCategory;
  let newThread :=
    {| samples := samples thread;
       jsAllocations := jsAllocations thread;
       nativeAllocations := nativeAllocations thread;
       stackTable := stackTable thread;
       frameTable := newFrameTable st;
       funcTable := newFuncTable st;
       stringTable := stringTable thread;
       resourceTable_name := resourceTable_name thread |} in
  updateThreadStacks newThread (newStackTable (cr_rewrite st))
    (getMapStackUpdater (oldStackToNewStack (cr_rewrite st))) ().

(** *** collapse-direct-recursion *)

Record CollapseRecursionState : Type := mkCollapseRecursionState {
  rec_rewrite : Rewrite;
  recursiveStacks : gset Z;
}.

Definition collapseDirectRecursionBody (thread : Thread) (funcToCollapse : Z)
    (implementation : ImplementationFilter) (stackIndex : Z) (row : StackRow)
    (st : CollapseRecursionState) : result CollapseRecursionState :=
  let prefix := s_prefix row in
  let funcIndex := funcOfRow thread row in
  collapse ←
    (if setHas (recursiveStacks st) prefix then
       if sameValue (Some funcToCollapse) funcIndex then Ok true
       else
         matchesImplementation ← FUNC_MATCHES implementation thread funcIndex;
         Ok (negb matchesImplementation)
     else Ok false);
  if (collapse : bool) then
    match mapGet (oldStackToNewStack (rec_rewrite st)) prefix with
    | None => Throw "newPrefixStackIndex cannot be undefined"
    | Some newPrefixStackIndex =>
        Ok {| rec_rewrite :=
                redirectStack (rec_rewrite st) stackIndex newPrefixStackIndex;
              recursiveStacks := {[stackIndex]} ∪ recursiveStacks st |}
    end
  else
    match mapGet (oldStackToNewStack (rec_rewrite st)) prefix with
    | None =>
        Throw "The newStackPrefix must exist because prefix < stackIndex as the StackTable is ordered."
    | Some newStackPrefix =>
        Ok {| rec_rewrite :=
                emitStack (rec_rewrite st) stackIndex newStackPrefix
                  (s_frame row) (s_category row) (s_subcategory row);
              recursiveStacks :=
                if sameValue (Some funcToCollapse) funcIndex
                then {[stackIndex]} ∪ recursiveStacks st
                else recursiveStacks st |}
    end.

Definition collapseDirectRecursionLoop (thread : Thread) (funcToCollapse : Z)
    (implementation : ImplementationFilter) : result CollapseRecursionState :=
  forStacks (collapseDirectRecursionBody thread funcToCollapse implementation)
    0 (stackTable thread)
    {| rec_rewrite := emptyRewrite; recursiveStacks := ∅ |}.

Definition collapseDirectRecursion (thread : Thread) (funcToCollapse : Z)
    (implementation : ImplementationFilter) : result Thread :=
  st ← collapseDirectRecursionLoop thread funcToCollapse implementation;
  updateThreadStacks thread (newStackTable (rec_rewrite st))
    (getMapStackUpdater (oldStackToNewStack (rec_rewrite st))) ().

(** *** collapse-function-subtree *)

Record CollapseSubtreeState : Type := mkCollapseSubtreeState {
  cfs_rewrite : Rewrite;
  cfs_collapsedStacks : gset Z;
}.

Definition collapseFunctionSubtreeBody (thread : Thread) (funcToCollapse : Z)
    (defaultCategory : Z) (stackIndex : Z) (row : StackRow)
    (st : CollapseSubtreeState) : result CollapseSubtreeState :=
  let prefix := s_prefix row in
  let rw := cfs_rewrite st in
  if setHas (cfs_collapsedStacks st) prefix then
    match mapGet (oldStackToNewStack rw) prefix with
    | None => Throw "newPrefixStackIndex cannot be undefined"
    | Some newPrefixStackIndex =>
        Ok {| cfs_rewrite :=
                {| newStackTable :=
                     match newPrefixStackIndex with
                     | Some newPrefix =>
                         resolveCategory (newStackTable rw) newPrefix
                           (s_category row) (s_subcategory row) defaultCategory
                     | None => newStackTable rw
                     end;
                   oldStackToNewStack :=
                     <[stackIndex := newPrefixStackIndex]> (oldStackToNewStack rw) |};
              cfs_collapsedStacks := {[stackIndex]} ∪ cfs_collapsedStacks st |}
    end
  else
    match mapGet (oldStackToNewStack rw) prefix with
    | None =>
        Throw "The newStackPrefix must exist because prefix < stackIndex as the StackTable is ordered."
    | Some newStackPrefix =>
        let funcIndex := funcOfRow thread row in
        Ok {| cfs_rewrite :=
                emitStack rw stackIndex newStackPrefix
                  (s_frame row) (s_category row) (s_subcategory row);
              cfs_collapsedStacks :=
                if sameValue (Some funcToCollapse) funcIndex
                then {[stackIndex]} ∪ cfs_collapsedStacks st
                else cfs_collapsedStacks st |}
    end.

Definition collapseFunctionSubtreeLoop (thread : Thread) (funcToCollapse : Z)
    (defaultCategory : Z) : result CollapseSubtreeState :=
  forStacks (collapseFunctionSubtreeBody thread funcToCollapse defaultCategory)
    0 (stackTable thread)
    {| cfs_rewrite := emptyRewrite; cfs_collapsedStacks := ∅ |}.

Definition collapseFunctionSubtree (thread : Thread) (funcToCollapse : Z)
    (defaultCategory : Z) : result Thread :=
  st ← collapseFunctionSubtreeLoop thread funcToCollapse defaultCategory;
  updateThreadStacks thread (newStackTable (cfs_rewrite st))
    (getMapStackUpdater (oldStackToNewStack (cfs_rewrite st))) ().

(** *** focus-subtree *)

(** [stackMatches] is an [Int32Array] of [stackTable.length] zeros that the
    loop fills at [stackIndex]; the list holds the entries written so far. *)
Record FocusSubtreeState : Type := mkFocusSubtreeState {
  fs_rewrite : Rewrite;
  fs_stackMatches : list Z;
}.

(** [stackMatches[stack]] during the loop: [0] at an index not yet written,
    [undefined] outside the array. *)
Definition readStackMatches (length : Z) (written : list Z) (stack : Z)
  : option Z :=
  if bool_decide (0 ≤ stack < length) then Some (default 0 (elemAt written stack))
  else None.

Definition focusSubtreeBody (thread : Thread) (callNodePath : list Z)
    (implementation : ImplementationFilter) (stackIndex : Z) (row : StackRow)
    (st : FocusSubtreeState) : result FocusSubtreeState :=
  let prefixDepth := tableLength callNodePath in
  let prefix := s_prefix row in
  let funcIndex := funcOfRow thread row in
  let prefixMatchesUpTo :=
    match prefix with
    | Some p =>
        readStackMatches (tableLength (stackTable thread)) (fs_stackMatches st) p
    | None => Some 0
    end in
  (* [None] is a [NaN] or [undefined] value of [stackMatchesUpTo], which the
     typed array stores as [0]. *)
  stackMatchesUpTo ←
    match prefixMatchesUpTo with
    | Some upTo =>
        if bool_decide (upTo = -1) then Ok (Some (-1))
        else if bool_decide (upTo = prefixDepth) then Ok (Some prefixDepth)
        else if sameValue funcIndex (elemAt callNodePath upTo) then Ok (Some (upTo + 1))
        else
          matchesImplementation ← FUNC_MATCHES implementation thread funcIndex;
          Ok (if negb matchesImplementation then Some upTo else Some (-1))
    | None =>
        if sameValue funcIndex None then Ok None
        else
          matchesImplementation ← FUNC_MATCHES implementation thread funcIndex;
          Ok (if negb matchesImplementation then None else Some (-1))
    end;
  Ok {| fs_rewrite :=
          if sameValue stackMatchesUpTo (Some prefixDepth) then
            emitStack (fs_rewrite st) stackIndex
              (orNull (mapGet (oldStackToNewStack (fs_rewrite st)) prefix))
              (s_frame row) (s_category row) (s_subcategory row)
          else fs_rewrite st;
        fs_stackMatches := fs_stackMatches st ++ [default 0 stackMatchesUpTo] |}.

Definition focusSubtreeLoop (thread : Thread) (callNodePath : list Z)
    (implementation : ImplementationFilter) : result FocusSubtreeState :=
  forStacks (focusSubtreeBody thread callNodePath implementation) 0
    (stackTable thread)
    {| fs_rewrite := emptyRewrite; fs_stackMatches := [] |}.

(** The [convertStack] callback of [focusSubtree]. *)
Definition focusSubtreeUpdater (prefixDepth : Z) (st : FocusSubtreeState)
  : StackUpdater unit :=
  λ oldStack u,
    match oldStack with
    | None => Ok (None, u)
    | Some s =>
        if negb (sameValue (elemAt (fs_stackMatches st) s) (Some prefixDepth))
        then Ok (None, u)
        else
          match oldStackToNewStack (fs_rewrite st) !! s with
          | None =>
              Throw "Converting from the old stack to a new stack cannot be undefined"
          | Some newStack => Ok (newStack, u)
          end
    end.

Definition focusSubtree (thread : Thread) (callNodePath : list Z)
    (implementation : ImplementationFilter) : result Thread :=
  st ← focusSubtreeLoop thread callNodePath implementation;
  updateThreadStacks thread (newStackTable (fs_rewrite st))
    (focusSubtreeUpdater (tableLength callNodePath) st) ().

(** *** focus-subtree, inverted *)

(** [convertStack(leaf)]: the walk from [stack] towards the root.  The walk
    of the source ends only at [null] or at a [return]; it has no bound of
    its own, so the model counts the steps and answers [Diverge] when the
    count is used up.  A stack index without a row reads [undefined] in
    every column, also as the next [stack]: that walk returns or throws in
    its first step or goes on for ever. *)
Fixpoint convertStackFrom (thread : Thread) (postfixCallNodePath : list Z)
    (implementation : ImplementationFilter) (fuel : nat) (stack : Z)
    (matchesUpToDepth : Z) : result (option Z) :=
  match fuel with
  | O => Diverge
  | S fuel' =>
      match elemAt (stackTable thread) stack with
      | Some row =>
          let funcIndex := funcOfRow thread row in
          let next matchesUpToDepth :=
            match s_prefix row with
            | Some prefix =>
                convertStackFrom thread postfixCallNodePath implementation
                  fuel' prefix matchesUpToDepth
            | None => Ok None
            end in
          if sameValue funcIndex (elemAt postfixCallNodePath matchesUpToDepth) then
            if bool_decide (matchesUpToDepth + 1 = tableLength postfixCallNodePath)
            then Ok (Some stack)
            else next (matchesUpToDepth + 1)
          else
            matchesImplementation ← FUNC_MATCHES implementation thread funcIndex;
            if (matchesImplementation : bool) then Ok None
            else next matchesUpToDepth
      | None =>
          if sameValue None (elemAt postfixCallNodePath matchesUpToDepth)
          then Diverge
          else
            matchesImplementation ← FUNC_MATCHES implementation thread None;
            if (matchesImplementation : bool) then Ok None else Diverge
      end
  end.

(** The steps after which a walk that has not returned never will.  What a
    step does is decided by the stack and by [matchesUpToDepth], which only
    grows and stays below the length of a path that is not empty; with the
    empty path it is decided by the stack alone, the path having no entry
    at any depth.  A walk of more steps than there are such pairs has come
    back to one of them, and goes on as it did from there.  On an ordered
    table no walk is longer than the table. *)
Definition walkBound (thread : Thread) (postfixCallNodePath : list Z) : nat :=
  S (S (length postfixCallNodePath) * length (stackTable thread)).

Definition convertStack (thread : Thread) (postfixCallNodePath : list Z)
    (implementation : ImplementationFilter) (leaf : Z) : result (option Z) :=
  convertStackFrom thread postfixCallNodePath implementation
    (walkBound thread postfixCallNodePath) leaf 0.

(** The [convertStack] callback of [focusInvertedSubtree]; its state is the
    [Map] in which it keeps the stacks already converted. *)
Definition focusInvertedSubtreeUpdater (thread : Thread)
    (postfixCallNodePath : list Z) (implementation : ImplementationFilter)
  : StackUpdater StackMap :=
  λ stackIndex oldStackToNewStack,
    match stackIndex with
    | None => Ok (None, oldStackToNewStack)
    | Some leaf =>
        match oldStackToNewStack !! leaf with
        | Some newStackIndex => Ok (newStackIndex, oldStackToNewStack)
        | None =>
            newStackIndex ←
              convertStack thread postfixCallNodePath implementation leaf;
            Ok (newStackIndex, <[leaf := newStackIndex]> oldStackToNewStack)
        end
    end.

Definition focusInvertedSubtree (thread : Thread) (postfixCallNodePath : list Z)
    (implementation : ImplementationFilter) : result Thread :=
  updateThreadStacks thread (stackTable thread)
    (focusInvertedSubtreeUpdater thread postfixCallNodePath implementation) ∅.

(** *** focus-function *)

Definition focusFunctionBody (thread : Thread) (funcIndexToFocus : Z)
    (stackIndex : Z) (row : StackRow) (rw : Rewrite) : result Rewrite :=
  let funcIndex := funcOfRow thread row in
  let matchesFocusFunc := sameValue funcIndex (Some funcIndexToFocus) in
  match mapGet (oldStackToNewStack rw) (s_prefix row) with
  | None => Throw "The prefix should not map to an undefined value"
  | Some newPrefix =>
      if bool_decide (newPrefix ≠ None) || matchesFocusFunc
      then Ok (emitStack rw stackIndex newPrefix
                 (s_frame row) (s_category row) (s_subcategory row))
      else Ok (redirectStack rw stackIndex None)
  end.

Definition focusFunctionLoop (thread : Thread) (funcIndexToFocus : Z)
  : result Rewrite :=
  forStacks (focusFunctionBody thread funcIndexToFocus) 0 (stackTable thread)
    emptyRewrite.

Definition focusFunction (thread : Thread) (funcIndexToFocus : Z)
  : result Thread :=
  rw ← focusFunctionLoop thread funcIndexToFocus;
  updateThreadStacks thread (newStackTable rw)
    (getMapStackUpdater (oldStackToNewStack rw)) ().

(** *** The dispatch *)

Definition applyTransform (thread : Thread) (transform : Transform)
    (defaultCategory : Z) : result Thread :=
  match transform with
  | FocusSubtree callNodePath implementation inverted =>
      if inverted
      then focusInvertedSubtree thread callNodePath implementation
      else focusSubtree thread callNodePath implementation
  | MergeCallNode callNodePath implementation =>
      mergeCallNode thread callNodePath implementation
  | MergeFunction funcIndex => mergeFunction thread funcIndex
  | DropFunction funcIndex => dropFunction thread funcIndex
  | FocusFunction funcIndex => focusFunction thread funcIndex
  | CollapseResource resourceIndex _ implementation =>
      collapseResource thread resourceIndex implementation defaultCategory
  | CollapseDirectRecursion funcIndex implementation =>
      collapseDirectRecursion thread funcIndex implementation
  | CollapseFunctionSubtree funcIndex =>
      collapseFunctionSubtree thread funcIndex defaultCategory
  end.

(** ** Transforms of a call node path *)

Definition _callNodePathHasPrefixPath (prefixPath callNodePath : list Z) : bool :=
  bool_decide (length prefixPath ≤ length callNodePath)%nat
  && forallb (λ '(i, prefixFunc),
                sameValue (Some prefixFunc) (callNodePath !! (i : nat)))
       (imap (λ i prefixFunc, (i, prefixFunc)) prefixPath).

Definition _mergeNodeInCallNodePath (prefixPath callNodePath : list Z) : list Z :=
  if _callNodePathHasPrefixPath prefixPath callNodePath
  then
    omap (λ '(i, nodeFunc),
            if bool_decide (Z.of_nat i ≠ tableLength prefixPath - 1)
            then Some nodeFunc else None)
      (imap (λ i nodeFunc, (i, nodeFunc)) callNodePath)
  else callNodePath.

(** The loop of [_collapseDirectRecursionInCallNodePath] from index [i] on;
    [previousFunc] is [undefined] at first. *)
Fixpoint collapseDirectRecursionFrom (funcIndex : Z) (callNodePath : list Z)
    (previousFunc : option Z) : list Z :=
  match callNodePath with
  | [] => []
  | pathFunc :: rest =>
      (if bool_decide (pathFunc ≠ funcIndex)
          || negb (sameValue (Some pathFunc) previousFunc)
       then [pathFunc] else [])
        ++ collapseDirectRecursionFrom funcIndex rest (Some pathFunc)
  end.

Definition _collapseDirectRecursionInCallNodePath (funcIndex : Z)
    (callNodePath : list Z) : list Z :=
  collapseDirectRecursionFrom funcIndex callNodePath None.

(** ** Notions used to state the properties of the codec *)

(** A well-formed transform: its index fields and the entries of its call
    node path are non-negative integers.  That the implementation filter is
    one of the three and that [inverted] is a boolean is in the types. *)
Definition wellFormedTransform (transform : Transform) : Prop :=
  match transform with
  | FocusSubtree callNodePath _ _ | MergeCallNode callNodePath _ =>
      Forall (λ funcIndex, 0 ≤ funcIndex) callNodePath
  | FocusFunction funcIndex | MergeFunction funcIndex | DropFunction funcIndex
  | CollapseFunctionSubtree funcIndex | CollapseDirectRecursion funcIndex _ =>
      0 ≤ funcIndex
  | CollapseResource resourceIndex collapsedFuncIndex _ =>
      0 ≤ resourceIndex ∧ 0 ≤ collapsedFuncIndex
  end.

(** A non-negative integer that is a Number and is printed in digits: from
    10^21 on a Number is printed with an exponent. *)
Definition printedInDigits (n : Z) : Prop :=
  0 ≤ n < 10 ^ 21 ∧ JsString.numberValue n = n.

(** A well-formed transform whose index fields are printed in digits. *)
Definition boundedTransform (transform : Transform) : Prop :=
  match transform with
  | FocusSubtree callNodePath _ _ | MergeCallNode callNodePath _ =>
      Forall (λ funcIndex, 0 ≤ funcIndex) callNodePath
  | FocusFunction funcIndex | MergeFunction funcIndex | DropFunction funcIndex
  | CollapseFunctionSubtree funcIndex | CollapseDirectRecursion funcIndex _ =>
      printedInDigits funcIndex
  | CollapseResource resourceIndex collapsedFuncIndex _ =>
      printedInDigits resourceIndex ∧ printedInDigits collapsedFuncIndex
  end.

(** A transform of a kind that has index fields, one of which is negative. *)
Definition hasNegativeIndex (transform : Transform) : Prop :=
  match transform with
  | FocusSubtree _ _ _ | MergeCallNode _ _ => False
  | FocusFunction funcIndex | MergeFunction funcIndex | DropFunction funcIndex
  | CollapseFunctionSubtree funcIndex | CollapseDirectRecursion funcIndex _ =>
      funcIndex < 0
  | CollapseResource resourceIndex collapsedFuncIndex _ =>
      resourceIndex < 0 ∨ collapsedFuncIndex < 0
  end.

(** The index fields of a transform are non-negative; nothing is asked of a
    call node path. *)
Definition indexFieldsNonNegative (transform : Transform) : Prop :=
  match transform with
  | FocusSubtree _ _ _ | MergeCallNode _ _ => True
  | FocusFunction funcIndex | MergeFunction funcIndex | DropFunction funcIndex
  | CollapseFunctionSubtree funcIndex | CollapseDirectRecursion funcIndex _ =>
      0 ≤ funcIndex
  | CollapseResource resourceIndex collapsedFuncIndex _ =>
      0 ≤ resourceIndex ∧ 0 ≤ collapsedFuncIndex
  end.

(** What one token contributes: the callback run on its own. *)
Definition parseToken (decodeUintArrayFromUrlComponent : option string → result (list Z))
    (token : string) : result ParseState :=
  parseTransform decodeUintArrayFromUrlComponent token ([], []).

(** The position of the numeric index fields in the tuple of a token. *)
Definition indexFieldPositions (type : TransformType) : list nat :=
  match type with
  | collapse_resource => [2; 3]%nat
  | collapse_direct_recursion => [2]%nat
  | merge_function | focus_function | drop_function
  | collapse_function_subtree => [1]%nat
  | focus_subtree | merge_call_node => []
  end.

(** The fields that [stringifyTransform] joins with [-]. *)
Definition tokenFields (encodeUintArrayForUrlComponent : list Z → string)
    (transform : Transform) : list string :=
  let shortKey := TRANSFORM_TO_SHORT_KEY (transformType transform) in
  match transform with
  | MergeFunction funcIndex
  | DropFunction funcIndex
  | CollapseFunctionSubtree funcIndex
  | FocusFunction funcIndex => [shortKey; JsString.numberToString funcIndex]
  | CollapseResource resourceIndex collapsedFuncIndex implementation =>
      [shortKey; implementationToString implementation;
       JsString.numberToString resourceIndex;
       JsString.numberToString collapsedFuncIndex]
  | CollapseDirectRecursion funcIndex implementation =>
      [shortKey; implementationToString implementation;
       JsString.numberToString funcIndex]
  | FocusSubtree callNodePath implementation inverted =>
      [shortKey; implementationToString implementation;
       encodeUintArrayForUrlComponent callNodePath]
        ++ (if inverted then ["i"%string] else [])
  | MergeCallNode callNodePath implementation =>
      [shortKey; implementationToString implementation;
       encodeUintArrayForUrlComponent callNodePath]
  end.

(** ** Notions used to state the properties of the transforms *)

(** The ordering invariant of a stack table: the prefix of a row is [null]
    or the index of an earlier row. *)
Definition stackTableOrdered (table : StackTable) : Prop :=
  ∀ stack row prefix,
    elemAt table stack = Some row → s_prefix row = Some prefix →
    0 ≤ prefix < stack.

(** A reference to a stack is [null] or the index of a row of [table]. *)
Definition validStack (table : StackTable) (stack : option Z) : Prop :=
  match stack with
  | None => True
  | Some s => 0 ≤ s < tableLength table
  end.

(** The [stack] columns of the sample-like tables of a thread. *)
Definition sampleLikeTables (thread : Thread) : list (list (option Z)) :=
  samples thread
    :: option_list (jsAllocations thread)
    ++ option_list (nativeAllocations thread).

(** Every sample-like row refers to [null] or to a row of the thread's own
    stack table. *)
Definition samplesValid (thread : Thread) : Prop :=
  Forall (Forall (validStack (stackTable thread))) (sampleLikeTables thread).

(** [ancestor] is [stack] or one of the stacks on its chain of prefixes. *)
Inductive inAncestry (table : StackTable) : Z → Z → Prop :=
| ancestry_self stack row :
    elemAt table stack = Some row → inAncestry table stack stack
| ancestry_prefix stack row prefix ancestor :
    elemAt table stack = Some row → s_prefix row = Some prefix →
    inAncestry table prefix ancestor →
    inAncestry table stack ancestor.

(** The stack has [funcIndex] in its ancestry: the func of its own frame or
    of the frame of a stack on its chain of prefixes is [funcIndex]. *)
Definition stackContainsFunc (thread : Thread) (funcIndex : Z) (stack : option Z)
  : Prop :=
  ∃ s ancestor row,
    stack = Some s
    ∧ inAncestry (stackTable thread) s ancestor
    ∧ elemAt (stackTable thread) ancestor = Some row
    ∧ funcOfRow thread row = Some funcIndex.

(** What the claim about [dropFunction] says of one sample-like row. *)
Definition droppedStack (thread : Thread) (funcIndex : Z)
    (oldStack newStack : option Z) : Prop :=
  (stackContainsFunc thread funcIndex oldStack → newStack = None)
  ∧ (¬ stackContainsFunc thread funcIndex oldStack → newStack = oldStack).

(** What every forward pass maintains: the table built so far is ordered,
    and the stacks that [oldStackToNewStack] maps to are rows of it. *)
Definition RewriteInv (rw : Rewrite) : Prop :=
  stackTableOrdered (newStackTable rw)
  ∧ ∀ oldStack newStack,
      oldStackToNewStack rw !! oldStack = Some (Some newStack) →
      0 ≤ newStack < tableLength (newStackTable rw).

(** The state of the callback of [focusInvertedSubtree]: the stacks it
    remembers are rows of the table. *)
Definition cacheValid (table : StackTable) (cache : StackMap) : Prop :=
  ∀ leaf newStack, cache !! leaf = Some newStack → validStack table newStack.

(** ** Notions used to state the properties of collapse-resource *)

(** The func of the row's frame belongs to the resource. *)
Definition inResource (thread : Thread) (resourceIndex : Z) (row : StackRow)
  : Prop :=
  elemAtU (func_resource (funcTable thread)) (funcOfRow thread row)
  = Some resourceIndex.

#[global] Instance inResource_dec thread resourceIndex row :
  Decision (inResource thread resourceIndex row).
Proof. unfold inResource. apply _. Defined.

(** The category and subcategory of a node after one more stack has
    collapsed into it as a sibling. *)
Definition mergeCategory (defaultCategory : Z) (node stack : Z * Z) : Z * Z :=
  if decide (node.1 ≠ stack.1) then (defaultCategory, 0)
  else if decide (node.2 ≠ stack.2) then (node.1, 0)
  else node.

(** The category and subcategory of a node that the stacks of [stacks]
    collapsed into, in this order. *)
Definition mergedCategory (defaultCategory : Z) (stacks : list (Z * Z))
  : option (Z * Z) :=
  match stacks with
  | [] => None
  | first :: rest => Some (fold_left (mergeCategory defaultCategory) rest first)
  end.

Definition categoryOf (row : StackRow) : Z * Z :=
  (s_category row, s_subcategory row).

(** Among [rows], the stacks under [parent] whose func belongs to the
    resource. *)
Definition siblingsInResource (thread : Thread) (resourceIndex : Z)
    (parent : option Z) (rows : list StackRow) : list StackRow :=
  filter (λ row, s_prefix row = parent ∧ inResource thread resourceIndex row) rows.

(** The [length] fields of the frame and func tables are the lengths of
    their columns. *)
Definition tablesConsistent (thread : Thread) : Prop :=
  frame_length (frameTable thread) = tableLength (frame_func (frameTable thread))
  ∧ func_length (funcTable thread) = tableLength (func_resource (funcTable thread))
  ∧ func_length (funcTable thread) = tableLength (func_name (funcTable thread)).

(** The frame and the func that [collapseResource] appends. *)
Definition collapsedFrameOf (thread : Thread) : Z := frame_length (frameTable thread).
Definition collapsedFuncOf (thread : Thread) : Z := func_length (funcTable thread).

(** The state of the forward pass of [collapseResource] after the stacks
    below [n]. *)
Record CollapseResourceInv (thread : Thread) (resourceIndex defaultCategory : Z)
    (n : Z) (st : CollapseResourceState) : Prop := {
  cri_rewrite : RewriteInv (cr_rewrite st);
  (* every stack visited is mapped to a row, and no other stack is mapped *)
  cri_mapped : ∀ stack, 0 ≤ stack < n →
    ∃ node, oldStackToNewStack (cr_rewrite st) !! stack = Some (Some node);
  cri_unmapped : ∀ stack, ¬ 0 ≤ stack < n →
    oldStackToNewStack (cr_rewrite st) !! stack = None;
  (* the collapsed stacks are the nodes created for a parent *)
  cri_collapsed : ∀ node, node ∈ collapsedStacks st ↔
    ∃ parent, prefixStackToCollapsedStack st !! parent = Some (Some node);
  cri_collapsed_valid : ∀ node, node ∈ collapsedStacks st →
    ∃ row, elemAt (newStackTable (cr_rewrite st)) node = Some row
           ∧ s_frame row = collapsedFrameOf thread;
  cri_no_null : ∀ parent,
    prefixStackToCollapsedStack st !! parent ≠ Some None;
  cri_injective : ∀ parent parent' node,
    prefixStackToCollapsedStack st !! parent = Some (Some node) →
    prefixStackToCollapsedStack st !! parent' = Some (Some node) →
    parent = parent';
  (* a parent that has a node of its own for the resource did not collapse *)
  cri_parent : ∀ parent node,
    prefixStackToCollapsedStack st !! parent = Some (Some node) →
    ∃ newParent, mapGet (oldStackToNewStack (cr_rewrite st)) parent = Some newParent
                 ∧ setHas (collapsedStacks st) newParent = false;
  (* where the stacks of the resource went *)
  cri_siblings : ∀ stack row,
    0 ≤ stack < n → elemAt (stackTable thread) stack = Some row →
    inResource thread resourceIndex row →
    ∃ newParent node,
      mapGet (oldStackToNewStack (cr_rewrite st)) (s_prefix row) = Some newParent
      ∧ oldStackToNewStack (cr_rewrite st) !! stack = Some (Some node)
      ∧ node ∈ collapsedStacks st
      ∧ if setHas (collapsedStacks st) newParent
        then newParent = Some node
        else prefixStackToCollapsedStack st !! s_prefix row = Some (Some node);
  (* the category of a node is merged from the siblings it was made for *)
  cri_category : ∀ parent node,
    prefixStackToCollapsedStack st !! parent = Some (Some node) →
    categoryOf <$> elemAt (newStackTable (cr_rewrite st)) node
    = mergedCategory defaultCategory
        (categoryOf <$>
           siblingsInResource thread resourceIndex parent
             (take (Z.to_nat n) (stackTable thread)));
  (* the frame and the func appended, once there is a collapsed stack *)
  cri_frame : (collapsedFrameIndex st = None ∧ collapsedStacks st = ∅
               ∧ newFrameTable st = frameTable thread
               ∧ newFuncTable st = funcTable thread)
    ∨ (collapsedFrameIndex st = Some (collapsedFrameOf thread)
       ∧ frame_func (newFrameTable st)
         = frame_func (frameTable thread) ++ [collapsedFuncOf thread]
       ∧ func_resource (newFuncTable st)
         = func_resource (funcTable thread) ++ [resourceIndex]
       ∧ func_name (newFuncTable st)
         = func_name (funcTable thread)
             ++ [default (-1) (elemAt (resourceTable_name thread) resourceIndex)]);
}.

(** ** Notions used to state the properties of collapse-direct-recursion *)

(** The call path of a stack: the funcs of the frames of the stacks on its
    chain of prefixes, root first.  A frame without a func contributes
    [None]. *)
Inductive callPath (table : StackTable) (frames : FrameTable)
  : option Z → list (option Z) → Prop :=
| callPath_null : callPath table frames None []
| callPath_stack stack row path :
    elemAt table stack = Some row →
    callPath table frames (s_prefix row) path →
    callPath table frames (Some stack)
      (path ++ [elemAt (frame_func frames) (s_frame row)]).

(** What the implementation filter answers for a func; the choice for a
    call that throws does not matter where the transform returns. *)
Definition matchesImplementation (implementation : ImplementationFilter)
    (thread : Thread) (funcIndex : option Z) : bool :=
  match FUNC_MATCHES implementation thread funcIndex with
  | Ok matches => matches
  | _ => true
  end.

(** Whether a func, met while a run of [funcToCollapse] is open, is merged
    into the run: it is the function again, or it does not match the
    implementation filter. *)
Definition joinsRun (matches : option Z → bool) (funcToCollapse : Z)
    (funcIndex : option Z) : bool :=
  sameValue (Some funcToCollapse) funcIndex || negb (matches funcIndex).

(** What the loop of [collapseDirectRecursion] does to the call path of a
    stack, read off the loop: an occurrence of the function opens a run;
    while the run is open, further occurrences and funcs outside the
    implementation filter are dropped, whether or not a further occurrence
    follows them; any other func is kept and closes the run.  [inRun] tells
    whether a run is open where the path starts. *)
Fixpoint collapseRuns (matches : option Z → bool) (funcToCollapse : Z)
    (inRun : bool) (path : list (option Z)) : list (option Z) :=
  match path with
  | [] => []
  | funcIndex :: rest =>
      if inRun && joinsRun matches funcToCollapse funcIndex
      then collapseRuns matches funcToCollapse true rest
      else funcIndex
             :: collapseRuns matches funcToCollapse
                  (sameValue (Some funcToCollapse) funcIndex) rest
  end.

(** Whether a run is open at the end of the path. *)
Fixpoint runOpen (matches : option Z → bool) (funcToCollapse : Z)
    (inRun : bool) (path : list (option Z)) : bool :=
  match path with
  | [] => inRun
  | funcIndex :: rest =>
      runOpen matches funcToCollapse
        (if inRun && joinsRun matches funcToCollapse funcIndex then true
         else sameValue (Some funcToCollapse) funcIndex)
        rest
  end.

(** No two neighbours of the path are both [funcIndex]. *)
Fixpoint noRepeat (funcIndex : Z) (path : list (option Z)) : Prop :=
  match path with
  | first :: (second :: _) as rest =>
      ¬ (first = Some funcIndex ∧ second = Some funcIndex)
      ∧ noRepeat funcIndex rest
  | _ => True
  end.

(** The state of the forward pass of [collapseDirectRecursion] after the
    stacks below [n]. *)
Record CollapseRecursionInv (thread : Thread) (funcToCollapse : Z)
    (implementation : ImplementationFilter) (n : Z)
    (st : CollapseRecursionState) : Prop := {
  rci_visited : ∀ stack newStack,
    oldStackToNewStack (rec_rewrite st) !! stack = Some newStack → 0 ≤ stack < n;
  rci_recursive : ∀ stack, stack ∈ recursiveStacks st → 0 ≤ stack < n;
  rci_paths : ∀ stack path,
    0 ≤ stack < n →
    callPath (stackTable thread) (frameTable thread) (Some stack) path →
    ∃ newStack,
      oldStackToNewStack (rec_rewrite st) !! stack = Some newStack
      ∧ callPath (newStackTable (rec_rewrite st)) (frameTable thread) newStack
          (collapseRuns (matchesImplementation implementation thread)
             funcToCollapse false path)
      ∧ (stack ∈ recursiveStacks st ↔
         runOpen (matchesImplementation implementation thread)
           funcToCollapse false path = true);
}.

(** ** Decidable forms and example threads *)

(** The ordering invariant as a test. *)
Definition stackTableOrderedb (table : StackTable) : bool :=
  forallb
    (λ '(stack, row),
       match s_prefix row with
       | Some prefix => bool_decide (0 ≤ prefix < Z.of_nat stack)
       | None => true
       end)
    (imap (λ stack row, (stack, row)) table).

#[global] Instance validStack_dec table stack : Decision (validStack table stack).
Proof. destruct stack; simpl; apply _. Defined.

#[global] Instance samplesValid_dec thread : Decision (samplesValid thread).
Proof. unfold samplesValid. apply _. Defined.

Module Examples.

(** Four funcs [A = 0], [B = 1], [C = 2], [D = 3], one frame for each; the
    first three belong to resource [0], the last to resource [1]. *)
Definition frames : FrameTable :=
  {| frame_func := [0; 1; 2; 3]; frame_length := 4 |}.

Definition funcs : FuncTable :=
  {| func_isJS := [false; false; false; true];
     func_relevantForJS := [false; false; false; false];
     func_name := [0; 1; 2; 3];
     func_resource := [0; 0; 0; 1];
     func_length := 4 |}.

Definition threadOf (stacks : StackTable) (sampleStacks : list (option Z))
  : Thread :=
  {| samples := sampleStacks;
     jsAllocations := None;
     nativeAllocations := Some sampleStacks;
     stackTable := stacks;
     frameTable := frames;
     funcTable := funcs;
     stringTable := ["A"; "B"; "C"; "D"; "lib"; "host"]%string;
     resourceTable_name := [4; 5] |}.

(** The stacks [A], [A -> B], [A -> B -> B] and [A -> C], and a sample on
    each. *)
Definition repeatedTip : Thread :=
  threadOf
    [mkStackRow None 0 0 0; mkStackRow (Some 0) 1 0 0;
     mkStackRow (Some 1) 1 0 0; mkStackRow (Some 0) 2 0 0]
    [Some 0; Some 1; Some 2; Some 3; None].

(** The stacks [A] (category 1), [A -> B] (category 2) and [A -> C]
    (category 3): two siblings under [A], all funcs in resource [0]. *)
Definition nestedSiblings : Thread :=
  threadOf
    [mkStackRow None 0 1 0; mkStackRow (Some 0) 1 2 0;
     mkStackRow (Some 0) 2 3 0]
    [Some 1; Some 2].

(** The stacks [D], [D -> B] (category 2) and [D -> C] (category 3): two
    siblings in resource [0] under a parent outside it. *)
Definition siblingsUnderHost : Thread :=
  threadOf
    [mkStackRow None 3 1 0; mkStackRow (Some 0) 1 2 0;
     mkStackRow (Some 0) 2 3 0]
    [Some 1; Some 2].

(** One chain of stacks with the call path [A, A, A, B, A, A]. *)
Definition recursion : Thread :=
  threadOf
    [mkStackRow None 0 0 0; mkStackRow (Some 0) 0 0 0;
     mkStackRow (Some 1) 0 0 0; mkStackRow (Some 2) 1 0 0;
     mkStackRow (Some 3) 0 0 0; mkStackRow (Some 4) 0 0 0]
    [Some 5; Some 2; None].


Definition transforms : list Transform :=
  [FocusSubtree [42297; 25109] js true; MergeCallNode [0; 31; 32] cpp;
   FocusFunction 7; MergeFunction 325; DropFunction 0;
   CollapseResource 3 1200 combined; CollapseDirectRecursion 12 js;
   CollapseFunctionSubtree 9].

End Examples.


(** ** The other transforms of a call node path *)

(** [arr.slice(start, end)]: a negative index counts from the end of the
    array, every index is clamped to the array, and [end] left out is the
    length. *)
Definition slice {A} (arr : list A) (start : Z) (end_ : option Z) : list A :=
  let len := tableLength arr in
  let relative i := if bool_decide (i < 0) then Z.max (len + i) 0 else Z.min i len in
  let k := relative start in
  let final := match end_ with Some e => relative e | None => len end in
  take (Z.to_nat (final - k)) (drop (Z.to_nat k) arr).

(** [arr.indexOf(x)], the search from index [i] on: [-1] when [x] is not
    found. *)
Fixpoint indexOfFrom (x : Z) (arr : list Z) (i : Z) : Z :=
  match arr with
  | [] => -1
  | y :: rest => if bool_decide (y = x) then i else indexOfFrom x rest (i + 1)
  end.

Definition indexOf (x : Z) (arr : list Z) : Z := indexOfFrom x arr 0.

(** [arr.includes(x)]. *)
Definition includes (x : Z) (arr : list Z) : bool := bool_decide (x ∈ arr).

Definition _removePrefixPathFromCallNodePath (prefixPath callNodePath : list Z)
  : list Z :=
  if _callNodePathHasPrefixPath prefixPath callNodePath
  then slice callNodePath (tableLength prefixPath - 1) None
  else [].

Definition _startCallNodePathWithFunction (funcIndex : Z) (callNodePath : list Z)
  : list Z :=
  let startIndex := indexOf funcIndex callNodePath in
  if bool_decide (startIndex = -1) then [] else slice callNodePath startIndex None.

Definition _mergeFunctionInCallNodePath (funcIndex : Z) (callNodePath : list Z)
  : list Z :=
  filter (λ nodeFunc, nodeFunc ≠ funcIndex) callNodePath.

Definition _dropFunctionInCallNodePath (funcIndex : Z) (callNodePath : list Z)
  : list Z :=
  if includes funcIndex callNodePath then [] else callNodePath.

(** The callback of [map] in [_collapseResourceInCallNodePath]. *)
Definition collapsedPathFunc (resourceIndex collapsedFuncIndex : Z)
    (funcTable : FuncTable) (pathFuncIndex : Z) : Z :=
  if sameValue (elemAt (func_resource funcTable) pathFuncIndex) (Some resourceIndex)
  then collapsedFuncIndex
  else pathFuncIndex.

(** The callback of [filter] in [_collapseResourceInCallNodePath]; at
    index 0 the func before is [path[-1]], which is [undefined]. *)
Definition keepsPathFunc (collapsedFuncIndex : Z) (path : list Z)
    (pathIndex : nat) (pathFuncIndex : Z) : bool :=
  negb (sameValue (Some pathFuncIndex) (elemAt path (Z.of_nat pathIndex - 1)))
  || bool_decide (pathFuncIndex ≠ collapsedFuncIndex).

Definition _collapseResourceInCallNodePath (resourceIndex collapsedFuncIndex : Z)
    (funcTable : FuncTable) (callNodePath : list Z) : list Z :=
  let path :=
    map (collapsedPathFunc resourceIndex collapsedFuncIndex funcTable)
      callNodePath in
  omap (λ '(pathIndex, pathFuncIndex),
          if keepsPathFunc collapsedFuncIndex path pathIndex pathFuncIndex
          then Some pathFuncIndex else None)
    (imap (λ pathIndex pathFuncIndex, (pathIndex, pathFuncIndex)) path).

Definition _collapseFunctionSubtreeInCallNodePath (funcIndex : Z)
    (callNodePath : list Z) : list Z :=
  let index := indexOf funcIndex callNodePath in
  if bool_decide (index = -1) then callNodePath
  else slice callNodePath 0 (Some (index + 1)).

(** The [default] case of the source cannot be reached from a
    [Transform]. *)
Definition applyTransformToCallNodePath (callNodePath : list Z)
    (transform : Transform) (transformedThread : Thread) : list Z :=
  match transform with
  | FocusSubtree prefixPath _ _ =>
      _removePrefixPathFromCallNodePath prefixPath callNodePath
  | FocusFunction funcIndex =>
      _startCallNodePathWithFunction funcIndex callNodePath
  | MergeCallNode prefixPath _ =>
      _mergeNodeInCallNodePath prefixPath callNodePath
  | MergeFunction funcIndex =>
      _mergeFunctionInCallNodePath funcIndex callNodePath
  | DropFunction funcIndex =>
      _dropFunctionInCallNodePath funcIndex callNodePath
  | CollapseResource resourceIndex collapsedFuncIndex _ =>
      _collapseResourceInCallNodePath resourceIndex collapsedFuncIndex
        (funcTable transformedThread) callNodePath
  | CollapseDirectRecursion funcIndex _ =>
      _collapseDirectRecursionInCallNodePath funcIndex callNodePath
  | CollapseFunctionSubtree funcIndex =>
      _collapseFunctionSubtreeInCallNodePath funcIndex callNodePath
  end.

(** ** Questions about the funcs of a thread *)

Inductive StackType : Set := native | js_stack | unsymbolicated.

Definition getStackType (thread : Thread) (funcIndex : Z) : result StackType :=
  isCpp ← FUNC_MATCHES cpp thread (Some funcIndex);
  if (isCpp : bool) then Ok native
  else
    isJs ← FUNC_MATCHES js thread (Some funcIndex);
    if (isJs : bool) then Ok js_stack else Ok unsymbolicated.

(** [callNodePath.filter(funcIndex => funcMatchesImplementation(thread,
    funcIndex))]; the callback can throw. *)
Fixpoint filterCallNodePathByImplementation (thread : Thread)
    (implementationFilter : ImplementationFilter) (callNodePath : list Z)
  : result (list Z) :=
  match callNodePath with
  | [] => Ok []
  | funcIndex :: rest =>
      matchesImplementation ←
        FUNC_MATCHES implementationFilter thread (Some funcIndex);
      rest' ← filterCallNodePathByImplementation thread implementationFilter rest;
      Ok (if (matchesImplementation : bool) then funcIndex :: rest' else rest')
  end.

(** The loop of [funcHasRecursiveCall] over the rows from [stackIndex] on;
    [return true] leaves it. *)
Fixpoint funcHasRecursiveCallFrom (thread : Thread)
    (implementation : ImplementationFilter) (funcToCheck : Z)
    (stackIndex : Z) (rows : list StackRow) (recursiveStacks : gset Z)
  : result bool :=
  match rows with
  | [] => Ok false
  | row :: rest =>
      let prefix := s_prefix row in
      let funcIndex := funcOfRow thread row in
      let recursivePrefix := setHas recursiveStacks prefix in
      if sameValue (Some funcToCheck) funcIndex then
        if recursivePrefix then Ok true
        else
          funcHasRecursiveCallFrom thread implementation funcToCheck
            (stackIndex + 1) rest ({[stackIndex]} ∪ recursiveStacks)
      else
        add ←
          (if recursivePrefix then
             matchesImplementation ← FUNC_MATCHES implementation thread funcIndex;
             Ok (negb matchesImplementation)
           else Ok false);
        funcHasRecursiveCallFrom thread implementation funcToCheck
          (stackIndex + 1) rest
          (if (add : bool) then {[stackIndex]} ∪ recursiveStacks
           else recursiveStacks)
  end.

Definition funcHasRecursiveCall (thread : Thread)
    (implementation : ImplementationFilter) (funcToCheck : Z) : result bool :=
  funcHasRecursiveCallFrom thread implementation funcToCheck 0
    (stackTable thread) ∅.

(** ** Restoring the funcs that an implementation filter took out *)

(** An entry of [matchesUpToDepth]: a depth, [null], a hole of the array
    (which reads as [undefined]), or the [NaN] that [undefined + 1]
    gives. *)
Inductive PathDepth : Set :=
| depthNumber (depth : Z)
| depthNull
| depthUndefined
| depthNaN.

#[global] Instance PathDepth_eq_dec : EqDecision PathDepth.
Proof. solve_decision. Defined.

(** [prefixPathDepth + 1]. *)
Definition nextDepth (prefixPathDepth : PathDepth) : PathDepth :=
  match prefixPathDepth with
  | depthNumber depth => depthNumber (depth + 1)
  | _ => depthNaN
  end.

(** [callNodePath[pathDepth]]. *)
Definition funcAtDepth (callNodePath : list Z) (pathDepth : PathDepth)
  : option Z :=
  match pathDepth with
  | depthNumber depth => elemAt callNodePath depth
  | _ => None
  end.

(** The first loop of [restoreAllFunctionsInCallNodePath] over the rows
    from [stackIndex] on; the list holds the entries of [matchesUpToDepth]
    for the stacks visited, a hole where the loop went on without writing.
    The answer is [tipStackIndex]. *)
Fixpoint restoreFindTip (thread : Thread)
    (previousImplementationFilter : ImplementationFilter)
    (callNodePath : list Z) (stackIndex : Z) (rows : list StackRow)
    (matchesUpToDepth : list PathDepth) : result (option Z) :=
  match rows with
  | [] => Ok None
  | row :: rest =>
      let funcIndex := funcOfRow thread row in
      let prefixPathDepth :=
        match s_prefix row with
        | None => depthNumber (-1)
        | Some prefix => default depthUndefined (elemAt matchesUpToDepth prefix)
        end in
      let continue entry :=
        restoreFindTip thread previousImplementationFilter callNodePath
          (stackIndex + 1) rest (matchesUpToDepth ++ [entry]) in
      if bool_decide (prefixPathDepth = depthNull) then continue depthUndefined
      else
        let pathDepth := nextDepth prefixPathDepth in
        let nextPathFuncIndex := funcAtDepth callNodePath pathDepth in
        if sameValue nextPathFuncIndex funcIndex then
          if bool_decide (pathDepth = depthNumber (tableLength callNodePath - 1))
          then Ok (Some stackIndex)
          else continue pathDepth
        else
          matchesImplementation ←
            FUNC_MATCHES previousImplementationFilter thread funcIndex;
          if negb matchesImplementation then continue prefixPathDepth
          else continue depthNull
  end.

(** The second loop: the funcs from [stackIndex] to the root, in the order
    in which they are pushed.  The loop has no bound of its own, so the
    model counts the steps; a stack index without a row reads [undefined]
    as its prefix, which is not [null], and the loop goes on for ever. *)
Fixpoint pathToRoot (thread : Thread) (fuel : nat) (stackIndex : Z)
  : result (list (option Z)) :=
  match fuel with
  | O => Diverge
  | S fuel' =>
      match elemAt (stackTable thread) stackIndex with
      | Some row =>
          rest ←
            match s_prefix row with
            | Some prefix => pathToRoot thread fuel' prefix
            | None => Ok []
            end;
          Ok (funcOfRow thread row :: rest)
      | None => Diverge
      end
  end.

(** The path returned holds [undefined] where a frame has no func.  On an
    ordered table the walk to the root visits each row at most once: one
    step more than there are rows is enough. *)
Definition restoreAllFunctionsInCallNodePath (thread : Thread)
    (previousImplementationFilter : ImplementationFilter)
    (callNodePath : list Z) : result (list (option Z)) :=
  tipStackIndex ←
    restoreFindTip thread previousImplementationFilter callNodePath 0
      (stackTable thread) [];
  match tipStackIndex with
  | None => Ok []
  | Some tip =>
      newCallNodePath ← pathToRoot thread (S (length (stackTable thread))) tip;
      Ok (rev newCallNodePath)
  end.

(** An element of a [CallNodeAndCategoryPath]. *)
Record CallNodeAndCategory : Set := mkCallNodeAndCategory {
  cnc_func : Z;
  cnc_category : Z;
}.

(** [path.filter(funcIndex => funcMatchesImplementation(thread,
    funcIndex.func))]. *)
Fixpoint filterCallNodeAndCategoryPathByImplementation (thread : Thread)
    (implementationFilter : ImplementationFilter)
    (path : list CallNodeAndCategory) : result (list CallNodeAndCategory) :=
  match path with
  | [] => Ok []
  | node :: rest =>
      matchesImplementation ←
        FUNC_MATCHES implementationFilter thread (Some (cnc_func node));
      rest' ←
        filterCallNodeAndCategoryPathByImplementation thread
          implementationFilter rest;
      Ok (if (matchesImplementation : bool) then node :: rest' else rest')
  end.

(** ** Notions used to state how a transform rewrites the call paths *)

(** The part of a call path from the first occurrence of the function on;
    empty when the function does not occur. *)
Fixpoint fromFirst (funcIndex : Z) (path : list (option Z)) : list (option Z) :=
  match path with
  | [] => []
  | first :: rest =>
      if sameValue first (Some funcIndex) then path else fromFirst funcIndex rest
  end.

(** The part of a call path up to the first occurrence of the function,
    that occurrence included; the whole path when the function does not
    occur. *)
Fixpoint upToFirst (funcIndex : Z) (path : list (option Z)) : list (option Z) :=
  match path with
  | [] => []
  | first :: rest =>
      first :: (if sameValue first (Some funcIndex) then []
                else upToFirst funcIndex rest)
  end.

(** The state of a forward pass after the stacks below [n], for a transform
    that takes the call path [path] of a stack to [g path]: each stack
    visited is mapped, and the stack it is mapped to has the call path that
    [g] gives. *)
Record PathsInv (thread : Thread) (g : list (option Z) → list (option Z))
    (n : Z) (rw : Rewrite) : Prop := {
  pi_mapped : ∀ stack,
    0 ≤ stack < n → is_Some (oldStackToNewStack rw !! stack);
  pi_visited : ∀ stack newStack,
    oldStackToNewStack rw !! stack = Some newStack → 0 ≤ stack < n;
  pi_paths : ∀ stack newStack path,
    oldStackToNewStack rw !! stack = Some newStack →
    callPath (stackTable thread) (frameTable thread) (Some stack) path →
    callPath (newStackTable rw) (frameTable thread) newStack (g path);
}.

(** What a transform does to one sample-like row, in terms of call node
    paths: when the old stack has the call path [callNodePath], the new
    stack has the call path [g callNodePath] in the new thread. *)
Definition pathRewritten (thread thread' : Thread) (g : list Z → list Z)
    (oldStack newStack : option Z) : Prop :=
  ∀ callNodePath,
    callPath (stackTable thread) (frameTable thread) oldStack
      (Some <$> callNodePath) →
    callPath (stackTable thread') (frameTable thread') newStack
      (Some <$> g callNodePath).

(** The state of the forward pass of [collapseFunctionSubtree] after the
    stacks below [n]. *)
Record CollapseSubtreeInv (thread : Thread) (funcToCollapse : Z) (n : Z)
    (st : CollapseSubtreeState) : Prop := {
  csi_paths : PathsInv thread (upToFirst funcToCollapse) n (cfs_rewrite st);
  csi_visited : ∀ stack, stack ∈ cfs_collapsedStacks st → 0 ≤ stack < n;
  csi_collapsed : ∀ stack path,
    0 ≤ stack < n →
    callPath (stackTable thread) (frameTable thread) (Some stack) path →
    stack ∈ cfs_collapsedStacks st ↔ Some funcToCollapse ∈ path;
}.

(** The set of the loop of [funcHasRecursiveCall] after the stacks below
    [n]: it holds the stacks at the end of whose call path a run of the
    function is open. *)
Definition recursiveStacksInv (thread : Thread)
    (implementation : ImplementationFilter) (funcToCheck : Z) (n : Z)
    (recursiveStacks : gset Z) : Prop :=
  (∀ stack, stack ∈ recursiveStacks → 0 ≤ stack < n)
  ∧ ∀ stack path,
      0 ≤ stack < n →
      callPath (stackTable thread) (frameTable thread) (Some stack) path →
      stack ∈ recursiveStacks
      ↔ runOpen (matchesImplementation implementation thread) funcToCheck
          false path = true.

(** A stack that ends a call of the function from within a run of the
    function. *)
Definition recursiveCallAt (thread : Thread)
    (implementation : ImplementationFilter) (funcToCheck : Z) (stack : Z)
  : Prop :=
  ∃ path,
    callPath (stackTable thread) (frameTable thread) (Some stack)
      (path ++ [Some funcToCheck])
    ∧ runOpen (matchesImplementation implementation thread) funcToCheck
        false path = true.

(** What focusing on the inverted tree does to a call path (root first):
    the path read from the leaf is the inverted call node path, which
    [_removePrefixPathFromCallNodePath] rewrites. *)
Definition invertedFocus (postfixCallNodePath callNodePath : list Z) : list Z :=
  rev (_removePrefixPathFromCallNodePath postfixCallNodePath (rev callNodePath)).

(** One step of the matching in [focusSubtree] under the filter
    [combined]: from the depth up to which the prefix of a stack matches
    the path, to the depth up to which the stack matches; [-1] when it does
    not. *)
Definition matchStep (callNodePath : list Z) (prefixMatchesUpTo : Z)
    (funcIndex : option Z) : Z :=
  if bool_decide (prefixMatchesUpTo = -1) then -1
  else if bool_decide (prefixMatchesUpTo = tableLength callNodePath)
  then tableLength callNodePath
  else if sameValue funcIndex (elemAt callNodePath prefixMatchesUpTo)
  then prefixMatchesUpTo + 1
  else -1.

(** The depth up to which a call path matches the path of [focusSubtree]:
    the whole path when the call path goes through its node, the length of
    the call path when it is on the way to the node, [-1] anywhere else. *)
Definition matchedDepth (focusPath callPathOfStack : list Z) : Z :=
  if decide (focusPath `prefix_of` callPathOfStack) then tableLength focusPath
  else if decide (callPathOfStack `prefix_of` focusPath)
  then tableLength callPathOfStack
  else -1.

(** What the stack visited in the loop of [focusSubtree] reads as the depth
    of its prefix, in an ordered table. *)
Definition prefixDepthRead (st : FocusSubtreeState) (row : StackRow) : Z :=
  match s_prefix row with
  | Some prefix => default 0 (elemAt (fs_stackMatches st) prefix)
  | None => 0
  end.

(** The state of the forward pass of [focusSubtree] (filter [combined])
    after the stacks below [n]. *)
Record FocusSubtreeInv (thread : Thread) (focusPath : list Z) (n : Z)
    (st : FocusSubtreeState) : Prop := {
  fsi_length : tableLength (fs_stackMatches st) = n;
  fsi_visited : ∀ stack newStack,
    oldStackToNewStack (fs_rewrite st) !! stack = Some newStack → 0 ≤ stack < n;
  fsi_mapped : ∀ stack,
    elemAt (fs_stackMatches st) stack = Some (tableLength focusPath) →
    is_Some (oldStackToNewStack (fs_rewrite st) !! stack);
  fsi_depth : ∀ stack callNodePath,
    0 ≤ stack < n →
    callPath (stackTable thread) (frameTable thread) (Some stack)
      (Some <$> callNodePath) →
    elemAt (fs_stackMatches st) stack = Some (matchedDepth focusPath callNodePath);
  fsi_paths : ∀ stack callNodePath,
    0 ≤ stack < n →
    callPath (stackTable thread) (frameTable thread) (Some stack)
      (Some <$> callNodePath) →
    if decide (focusPath `prefix_of` callNodePath)
    then ∃ newStack,
           oldStackToNewStack (fs_rewrite st) !! stack = Some (Some newStack)
           ∧ callPath (newStackTable (fs_rewrite st)) (frameTable thread)
               (Some newStack)
               (Some <$> drop (length focusPath - 1) callNodePath)
    else oldStackToNewStack (fs_rewrite st) !! stack = None;
}.

(** The implementation filter that a transform consults; [combined], which
    matches every func, for a transform without one. *)
Definition implementationOf (transform : Transform) : ImplementationFilter :=
  match transform with
  | FocusSubtree _ implementation _ | MergeCallNode _ implementation
  | CollapseResource _ _ implementation
  | CollapseDirectRecursion _ implementation => implementation
  | FocusFunction _ | MergeFunction _ | DropFunction _
  | CollapseFunctionSubtree _ => combined
  end.

(** The implementation filter answers for the func of every stack: it does
    not throw there.  The filters [combined] and [js] answer for every
    func; [cpp] reads the name of the func from the string table. *)
Definition filterReturns (thread : Thread)
    (implementation : ImplementationFilter) : Prop :=
  ∀ stack row,
    elemAt (stackTable thread) stack = Some row →
    ∃ matches,
      FUNC_MATCHES implementation thread (funcOfRow thread row) = Ok matches.

(** Every stack below [n] has an entry in [oldStackToNewStack]. *)
Definition mappedBelow (n : Z) (oldStackToNewStack : StackMap) : Prop :=
  ∀ stack, 0 ≤ stack < n → is_Some (oldStackToNewStack !! stack).

(** The entries of [matchesUpToDepth] after the stacks below [n]: a stack
    with the depth [depth] has a call path whose funcs of the previous
    implementation are the path up to [depth]. *)
Definition restoreInv (thread : Thread) (implementation : ImplementationFilter)
    (callNodePath : list Z) (n : Z) (matchesUpToDepth : list PathDepth) : Prop :=
  tableLength matchesUpToDepth = n
  ∧ ∀ stack full depth,
      0 ≤ stack < n →
      callPath (stackTable thread) (frameTable thread) (Some stack)
        (Some <$> full) →
      elemAt matchesUpToDepth stack = Some (depthNumber depth) →
      -1 ≤ depth
      ∧ (depth < tableLength callNodePath →
         filterCallNodePathByImplementation thread implementation full
         = Ok (take (Z.to_nat (depth + 1)) callNodePath)).

(** The state of a forward pass that has re-emitted every stack below [n]
    as it is: the new table is the old one up to [n], and each stack is
    mapped to itself. *)
Definition identityRewrite (table : StackTable) (n : Z) (rw : Rewrite) : Prop :=
  newStackTable rw = take (Z.to_nat n) table
  ∧ ∀ stack,
      oldStackToNewStack rw !! stack
      = if bool_decide (0 ≤ stack < n) then Some (Some stack) else None.

(** The frame table and the func table after [collapseResource] has
    created its frame and func: one frame is appended, which refers to the
    func appended, and the func has the resource, the name of the resource
    ([-1] when the resource has no row) and an [isJS] flag.  The column
    [relevantForJS] gets no entry. *)
Definition collapsedTables (thread : Thread) (resourceIndex : Z)
    (frames : FrameTable) (funcs : FuncTable) : Prop :=
  frame_func frames
  = frame_func (frameTable thread) ++ [func_length (funcTable thread)]
  ∧ frame_length frames = frame_length (frameTable thread) + 1
  ∧ func_length funcs = func_length (funcTable thread) + 1
  ∧ func_resource funcs = func_resource (funcTable thread) ++ [resourceIndex]
  ∧ func_name funcs
    = func_name (funcTable thread)
        ++ [default (-1) (elemAt (resourceTable_name thread) resourceIndex)]
  ∧ (∃ isJS, func_isJS funcs = func_isJS (funcTable thread) ++ [isJS])
  ∧ func_relevantForJS funcs = func_relevantForJS (funcTable thread).

(** No stack of the table has a parent whose func is [funcIndex]: the
    stacks of the function are leaves. *)
Definition funcIsLeaf (table : StackTable) (frames : FrameTable) (funcIndex : Z)
  : Prop :=
  ∀ stack row prefix prefixRow,
    elemAt table stack = Some row → s_prefix row = Some prefix →
    elemAt table prefix = Some prefixRow →
    elemAt (frame_func frames) (s_frame prefixRow) ≠ Some funcIndex.

(** What the loop of [collapseFunctionSubtree] keeps: in the new table the
    function has leaves only, and a stack visited that is not collapsed has
    a new stack of another function. *)
Record LeafInv (thread : Thread) (funcToCollapse : Z)
    (st : CollapseSubtreeState) : Prop := mkLeafInv {
  li_rewrite : RewriteInv (cfs_rewrite st);
  li_leaf :
    funcIsLeaf (newStackTable (cfs_rewrite st)) (frameTable thread)
      funcToCollapse;
  li_kept :
    ∀ stack newStack newRow,
      stack ∉ cfs_collapsedStacks st →
      oldStackToNewStack (cfs_rewrite st) !! stack = Some (Some newStack) →
      elemAt (newStackTable (cfs_rewrite st)) newStack = Some newRow →
      elemAt (frame_func (frameTable thread)) (s_frame newRow)
      ≠ Some funcToCollapse;
}.

(** The rows of the table that a forward pass has written after the stacks
    below [n]: there are at most [n] of them, and each has the frame of a
    stack of the table given, or the frame [extraFrame]. *)
Definition RowsInv (table : StackTable) (extraFrame : option Z) (n : Z)
    (newTable : StackTable) : Prop :=
  tableLength newTable ≤ n
  ∧ ∀ stack row,
      elemAt newTable stack = Some row →
      (∃ old oldRow,
         elemAt table old = Some oldRow ∧ s_frame row = s_frame oldRow)
      ∨ Some (s_frame row) = extraFrame.

(** The state of the forward pass of [collapseResource] after the stacks
    below [n], as to the frame and the func that it appends: nothing is
    appended as long as no stack of the resource has been met, and from the
    first such stack on the one frame and the one func are there. *)
Definition CollapsedFrameInv (thread : Thread) (resourceIndex : Z) (n : Z)
    (st : CollapseResourceState) : Prop :=
  (collapsedFrameIndex st = None
   ∧ collapsedStacks st = ∅
   ∧ prefixStackToCollapsedStack st = ∅
   ∧ newFrameTable st = frameTable thread
   ∧ newFuncTable st = funcTable thread
   ∧ ∀ stack row,
       0 ≤ stack < n → elemAt (stackTable thread) stack = Some row →
       ¬ inResource thread resourceIndex row)
  ∨ (collapsedFrameIndex st = Some (frame_length (frameTable thread))
     ∧ collapsedTables thread resourceIndex (newFrameTable st) (newFuncTable st)
     ∧ ∃ stack row,
         0 ≤ stack < n ∧ elemAt (stackTable thread) stack = Some row
         ∧ inResource thread resourceIndex row).
(** * Properties *)

(** ** The result monad and array reads *)

Lemma bind_Ok {A B} (m : result A) (f : A → result B) (b : B) :
  m ≫= f = Ok b ↔ ∃ a, m = Ok a ∧ f a = Ok b.
Proof.
  destruct m as [a| |]; simpl; split.
  - eauto.
  - by intros (? & [= <-] & ?).
  - done.
  - by intros (? & ? & ?).
  - done.
  - by intros (? & ? & ?).
Qed.

Lemma elemAt_Some {A} (arr : list A) i x :
  elemAt arr i = Some x → 0 ≤ i < Z.of_nat (length arr).
Proof.
  unfold elemAt. case_decide; [|done].
  intros Hl%lookup_lt_Some. lia.
Qed.

Lemma elemAt_is_Some {A} (arr : list A) i :
  0 ≤ i < Z.of_nat (length arr) → is_Some (elemAt arr i).
Proof.
  intros [? ?]. unfold elemAt. rewrite decide_True by done.
  apply lookup_lt_is_Some. lia.
Qed.

Lemma elemAt_None {A} (arr : list A) i :
  elemAt arr i = None → i < 0 ∨ Z.of_nat (length arr) ≤ i.
Proof.
  intros Hn. destruct (decide (0 ≤ i < Z.of_nat (length arr))) as [Hr|Hr]; [|lia].
  apply elemAt_is_Some in Hr as [? ?]. congruence.
Qed.

Lemma elemAt_app_l {A} (arr more : list A) i x :
  elemAt arr i = Some x → elemAt (arr ++ more) i = Some x.
Proof.
  unfold elemAt. case_decide; [|done].
  intros Hl. by apply lookup_app_l_Some.
Qed.

Lemma elemAt_app_length {A} (arr : list A) x :
  elemAt (arr ++ [x]) (Z.of_nat (length arr)) = Some x.
Proof.
  unfold elemAt. rewrite decide_True by lia.
  rewrite Nat2Z.id. by rewrite lookup_app_r, Nat.sub_diag.
Qed.

Lemma elemAt_snoc {A} (arr : list A) x i y :
  elemAt (arr ++ [x]) i = Some y →
  (i = Z.of_nat (length arr) ∧ y = x) ∨ elemAt arr i = Some y.
Proof.
  unfold elemAt. case_decide; [|done].
  intros Hl. destruct (decide (Z.to_nat i < length arr)%nat) as [Hlt|Hge].
  - right. by rewrite lookup_app_l in Hl.
  - left. rewrite lookup_app_r in Hl by lia.
    destruct (Z.to_nat i - length arr)%nat as [|k] eqn:E; simpl in Hl.
    + split; [lia | congruence].
    + by destruct k.
Qed.

Example split_tokens :
  JsString.split "-" "f-js-xFFpUMl-i" = ["f"; "js"; "xFFpUMl"; "i"]%string.
Proof. reflexivity. Qed.

Example parseInt_samples :
  JsString.parseInt (Some " 325x"%string) = Some 325
  ∧ JsString.parseInt (Some "-7"%string) = Some (-7)
  ∧ JsString.parseInt (Some ""%string) = None
  ∧ JsString.parseInt None = None
  ∧ JsString.numberToString 3250 = "3250"%string.
Proof. by vm_compute. Qed.

Example encode_samples :
  UintArrayEncoding.encodeUintArrayForUrlComponent [42297; 25109] = "xFFpUMl"%string
  ∧ UintArrayEncoding.decodeUintArrayFromUrlComponent (Some "xFFpUMl"%string)
    = Ok [42297; 25109].
Proof. by vm_compute. Qed.

Example parse_samples :
  parseTransforms UintArrayEncoding.decodeUintArrayFromUrlComponent
    "f-js-xFFpUMl-i~mf-325~zz-1~rec-js-x~cr-cpp-3-8"
  = Ok ([FocusSubtree [42297; 25109] js true; MergeFunction 325;
         CollapseResource 3 8 cpp], ["zz"%string]).
Proof. by vm_compute. Qed.

(** ** Strings: splitting, joining and decimal numbers *)

Module JsStringFacts.
Import JsString.

#[local] Open Scope string_scope.

Lemma append_assoc (a b c : string) : (a +:+ b) +:+ c = a +:+ (b +:+ c).
Proof.
  induction a as [|x a IH]; [done|].
  unfold String.append in *; fold String.append in *. by rewrite IH.
Qed.

Lemma append_cons (x : ascii) (a b : string) :
  String x a +:+ b = String x (a +:+ b).
Proof. done. Qed.

Lemma append_nil_l (a : string) : "" +:+ a = a.
Proof. done. Qed.

Lemma contains_app (c : ascii) (a b : string) :
  contains c (a +:+ b) = contains c a || contains c b.
Proof.
  induction a as [|x a IH]; [done|].
  rewrite append_cons. simpl. rewrite IH. by rewrite orb_assoc.
Qed.

Lemma split_nosep (sep : ascii) (s : string) :
  contains sep s = false → split sep s = [s].
Proof.
  induction s as [|c s IH]; [done|].
  simpl. intros [Hc Hs]%orb_false_elim.
  rewrite Hc, (IH Hs). done.
Qed.

Lemma split_app (sep : ascii) (s rest : string) :
  contains sep s = false →
  split sep (s +:+ String sep rest) = s :: split sep rest.
Proof.
  induction s as [|c s IH].
  - intros _. rewrite append_nil_l. simpl. by rewrite Ascii.eqb_refl.
  - intros [Hc Hs]%orb_false_elim.
    rewrite append_cons. simpl. rewrite Hc, (IH Hs). done.
Qed.

Lemma join_cons (sep : ascii) (s t : string) (l : list string) :
  join sep (s :: t :: l) = s +:+ String sep (join sep (t :: l)).
Proof. done. Qed.

Lemma split_join (sep : ascii) (l : list string) :
  l ≠ [] →
  Forall (λ s, contains sep s = false) l →
  split sep (join sep l) = l.
Proof.
  intros Hne Hall. induction Hall as [|s l Hs Hl IH]; [done|].
  destruct l as [|t l].
  - by apply split_nosep.
  - rewrite join_cons, split_app by done. by rewrite IH.
Qed.

Lemma join_snoc (sep : ascii) (l : list string) (s : string) :
  l ≠ [] → join sep l +:+ String sep s = join sep (l ++ [s])%list.
Proof.
  intros Hne. induction l as [|a l IH]; [done|].
  destruct l as [|b l].
  - done.
  - rewrite <- !app_comm_cons in *.
    rewrite !join_cons. rewrite append_assoc, append_cons.
    f_equal. f_equal. by apply IH.
Qed.

(** *** Decimal digits *)

Lemma digitValue_digitChar (d : N) : (d < 10)%N → digitValue (digitChar d) = Some d.
Proof.
  intros Hd.
  destruct d as [|p]; [done|].
  do 4 (destruct p as [p|p|]; try done); lia.
Qed.

Lemma digit_not_separator (c : ascii) :
  isDigit c → Ascii.eqb c "-" = false ∧ Ascii.eqb c "~" = false.
Proof.
  intros [d Hd]. revert Hd.
  destruct c as [[] [] [] [] [] [] [] []]; by vm_compute.
Qed.

Lemma allDigits_app (a b : string) :
  allDigits a → allDigits b → allDigits (a +:+ b).
Proof.
  induction a as [|c a IH]; [done|].
  intros [Hc Ha] Hb. rewrite append_cons. split; [done|]. by apply IH.
Qed.

Lemma allDigits_no_separator (s : string) :
  allDigits s → contains "-" s = false ∧ contains "~" s = false.
Proof.
  induction s as [|c s IH]; [done|].
  intros [Hc Hs]. destruct (IH Hs) as [H1 H2].
  destruct (digit_not_separator c Hc) as [H3 H4].
  simpl. by rewrite H1, H2, H3, H4.
Qed.

Lemma readDigits_snoc (s : string) (c : ascii) (acc : option N) :
  allDigits s →
  readDigits (s +:+ String c "") acc =
    match digitValue c with
    | Some d => Some (10 * default 0%N (readDigits s acc) + d)%N
    | None => readDigits s acc
    end.
Proof.
  revert acc. induction s as [|x s IH]; intros acc.
  - intros _. rewrite append_nil_l. simpl. by destruct (digitValue c).
  - intros [[d Hd] Hs]. rewrite append_cons. simpl. rewrite Hd. by apply IH.
Qed.

Lemma digitsOf_spec (fuel : nat) (n : N) :
  (n < 2 ^ N.of_nat (S fuel))%N →
  allDigits (digitsOf (S fuel) n)
  ∧ digitsOf (S fuel) n ≠ ""
  ∧ readDigits (digitsOf (S fuel) n) None = Some n.
Proof.
  revert n. induction fuel as [|fuel IH]; intros n Hn.
  - assert (n < 10)%N as Hlt by (simpl in Hn; lia).
    simpl. rewrite (proj2 (N.ltb_lt _ _) Hlt). simpl.
    rewrite (digitValue_digitChar n Hlt). simpl.
    split_and!; try done; try (f_equal; lia).
    all: unfold isDigit; rewrite digitValue_digitChar by done; by eexists.
  - change (digitsOf (S (S fuel)) n) with
      (if (n <? 10)%N then String (digitChar n) EmptyString
       else digitsOf (S fuel) (n / 10)%N
              +:+ String (digitChar (n mod 10)%N) EmptyString).
    destruct (n <? 10)%N eqn:Hlt.
    + apply N.ltb_lt in Hlt. simpl.
      rewrite (digitValue_digitChar n Hlt). simpl.
      split_and!; try done; try (f_equal; lia).
    all: unfold isDigit; rewrite digitValue_digitChar by done; by eexists.
    + apply N.ltb_ge in Hlt.
      assert (n / 10 < 2 ^ N.of_nat (S fuel))%N as Hq.
      { rewrite (Nat2N.inj_succ (S fuel)), N.pow_succ_r' in Hn.
        apply N.Div0.div_lt_upper_bound. lia. }
      destruct (IH _ Hq) as (Hall & Hne & Hread).
      assert (n mod 10 < 10)%N as Hm by (apply N.mod_lt; lia).
      split_and!.
      * apply allDigits_app; [done|]. simpl. split; [|done].
        unfold isDigit. rewrite (digitValue_digitChar _ Hm). by eexists.
      * destruct (digitsOf (S fuel) (n / 10)); done.
      * rewrite readDigits_snoc by done.
        rewrite (digitValue_digitChar _ Hm), Hread. simpl.
        f_equal. pose proof (N.div_mod n 10). lia.
Qed.

Lemma decimal_spec (n : N) :
  allDigits (decimal n) ∧ decimal n ≠ "" ∧ readDigits (decimal n) None = Some n.
Proof.
  apply digitsOf_spec. rewrite Nat2N.inj_succ, N2Nat.id.
  destruct (decide (n = 0%N)) as [->|Hn]; [done|].
  apply N.log2_spec. lia.
Qed.

Lemma readDigits_app (a b : string) (acc : option N) :
  allDigits a → readDigits (a +:+ b) acc = readDigits b (readDigits a acc).
Proof.
  revert acc. induction a as [|c a IH]; intros acc; [done|].
  intros [[d Hd] Ha]. rewrite append_cons. simpl. rewrite Hd. by apply IH.
Qed.

Lemma readDigits_Some (s : string) (v : N) :
  ∃ w, readDigits s (Some v) = Some w.
Proof.
  revert v. induction s as [|c s IH]; intros v; [by eexists|].
  simpl. destruct (digitValue c); [apply IH|by eexists].
Qed.

Lemma allDigits_zeros (p : nat) : allDigits (zeros p).
Proof.
  induction p as [|p IH]; [done|]. split; [by exists 0%N|done].
Qed.

Lemma readDigits_zeros (p : nat) (v : N) :
  readDigits (zeros p) (Some v) = Some (v * 10 ^ N.of_nat p)%N.
Proof.
  revert v. induction p as [|p IH]; intros v.
  - simpl. f_equal. lia.
  - change (readDigits (zeros (S p)) (Some v))
      with (readDigits (zeros p) (Some (10 * v + 0)%N)).
    rewrite IH. f_equal. rewrite Nat2N.inj_succ, N.pow_succ_r'. lia.
Qed.

(** *** Number values *)

Lemma numberValue_small (x : Z) : (Z.abs x < 2 ^ 53)%Z → numberValue x = x.
Proof.
  intros Hx. unfold numberValue.
  by rewrite (proj2 (Z.ltb_lt _ _) Hx).
Qed.

Lemma numberValue_nonnegative (x : Z) : (0 ≤ x)%Z → (0 ≤ numberValue x)%Z.
Proof.
  intros Hx. unfold numberValue.
  destruct (Z.abs x <? 2 ^ 53)%Z eqn:Hs; [done|].
  apply Z.ltb_ge in Hs.
  assert (0 < x)%Z as Hpos by lia.
  rewrite (Z.sgn_pos x Hpos), Z.mul_1_l.
  set (e := (Z.log2 (Z.abs x) - 52)%Z).
  assert (0 ≤ Z.abs x / 2 ^ e)%Z as Hq.
  { apply Z.div_pos; [lia|]. apply Z.pow_pos_nonneg; [lia|].
    unfold e. assert (53 ≤ Z.log2 (Z.abs x))%Z; [|lia].
    apply Z.log2_le_pow2; lia. }
  assert (0 ≤ 2 ^ e)%Z by (apply Z.pow_nonneg; lia).
  repeat case_match; lia.
Qed.

(** The digits found read as the Number, when it is one. *)
Lemma shortestDigits_reads (x : Z) (p : nat) :
  (0 < x)%Z → numberValue x = x →
  let '(s, q) := shortestDigits x p in
  (0 < s)%Z ∧ numberValue (s * 10 ^ Z.of_nat q) = x.
Proof.
  intros Hx Hnum. induction p as [|p IH].
  - unfold shortestDigits.
    destruct (digitsAt x 0) as [s|] eqn:Hs;
      [|split; [done|]; by rewrite Z.mul_1_r].
    revert Hs. unfold digitsAt.
    repeat case_match; intros [= <-];
      repeat match goal with
      | H : _ && _ = true |- _ => apply andb_true_iff in H as [? ?]
      | H : (_ <? _)%Z = true |- _ => apply Z.ltb_lt in H
      | H : (_ =? _)%Z = true |- _ => apply Z.eqb_eq in H
      end; split; try done; try lia.
    all: try (pose proof (Z.div_pos x (10 ^ Z.of_nat 0) ltac:(lia) ltac:(lia));
              lia).
  - simpl. destruct (digitsAt x (S p)) as [s|] eqn:Hs; [|exact IH].
    revert Hs. unfold digitsAt.
    assert (0 ≤ x / 10 ^ Z.of_nat (S p))%Z
      by (apply Z.div_pos; [lia|]; apply Z.pow_pos_nonneg; lia).
    repeat case_match; intros [= <-];
      repeat match goal with
      | H : _ && _ = true |- _ => apply andb_true_iff in H as [? ?]
      | H : (_ <? _)%Z = true |- _ => apply Z.ltb_lt in H
      | H : (_ =? _)%Z = true |- _ => apply Z.eqb_eq in H
      end; split; try done; try lia.
Qed.

Lemma parseInt_digit_first (c : ascii) (s : string) :
  isDigit c →
  parseInt (Some (String c s))
  = (λ n, numberValue (Z.of_N n)) <$> readDigits (String c s) None.
Proof.
  intros [d Hd]. unfold parseInt. revert Hd.
  destruct c as [[] [] [] [] [] [] [] []]; lazy -[numberValue fmap readDigits];
    done.
Qed.

(** *** What a printed number is made of *)

Lemma numeric_app (a b : string) : numeric a → numeric b → numeric (a +:+ b).
Proof.
  intros [H1 H2] [H3 H4]. split; rewrite contains_app; by rewrite ?H1, ?H2, ?H3, ?H4.
Qed.

Lemma numeric_cons (c : ascii) (s : string) :
  Ascii.eqb c "-" = false → Ascii.eqb c "~" = false → numeric s →
  numeric (String c s).
Proof. intros Hd Ht [H1 H2]. split; simpl; by rewrite ?Hd, ?Ht, ?H1, ?H2. Qed.

Lemma numeric_digits (s : string) : allDigits s → numeric s.
Proof. apply allDigits_no_separator. Qed.

Lemma numeric_exponentForm (digits : string) (p : nat) :
  allDigits digits → numeric (exponentForm digits p).
Proof.
  intros Hall. unfold exponentForm.
  set (exponent := decimal _).
  assert (numeric ("e+" +:+ exponent)) as Hexp.
  { apply numeric_app; [done|]. apply numeric_digits, decimal_spec. }
  destruct digits as [|first rest]; [done|].
  destruct Hall as [Hfirst Hrest].
  destruct (digit_not_separator first Hfirst) as [Hd Ht].
  destruct rest as [|second rest'].
  - by apply numeric_cons.
  - apply numeric_app; [|done].
    apply numeric_cons; [done|done|].
    apply numeric_cons; [done|done|]. by apply numeric_digits.
Qed.

Lemma magnitudeToString_numeric (m : Z) : numeric (magnitudeToString m).
Proof.
  unfold magnitudeToString.
  destruct (numberValue m <? 2 ^ 53)%Z; [apply numeric_digits, decimal_spec|].
  destruct (shortestDigits _ _) as [s p].
  destruct (numberValue m <? 10 ^ 21)%Z.
  - apply numeric_app; apply numeric_digits;
      [apply decimal_spec|apply allDigits_zeros].
  - apply numeric_exponentForm, decimal_spec.
Qed.

(** A non-negative integer is printed without a separator in it. *)
Lemma numberToString_numeric (n : Z) :
  (0 ≤ n)%Z →
  contains "-" (numberToString n) = false
  ∧ contains "~" (numberToString n) = false.
Proof.
  intros Hn. unfold numberToString.
  replace (n <? 0)%Z with false by (symmetry; apply Z.ltb_ge; lia).
  apply magnitudeToString_numeric.
Qed.

(** A non-negative Number below 10^21 reads back from its printed form,
    which has neither separator in it. *)
Lemma numberToString_spec (n : Z) :
  (0 ≤ n < 10 ^ 21)%Z → numberValue n = n →
  parseInt (Some (numberToString n)) = Some n
  ∧ contains "-" (numberToString n) = false
  ∧ contains "~" (numberToString n) = false.
Proof.
  intros [Hn Hbound] Hnum.
  destruct (numberToString_numeric n Hn) as [Hdash Htilde].
  split_and!; [|done|done].
  unfold numberToString.
  replace (n <? 0)%Z with false by (symmetry; apply Z.ltb_ge; lia).
  unfold magnitudeToString. rewrite Hnum.
  destruct (n <? 2 ^ 53)%Z eqn:Hsmall.
  - apply Z.ltb_lt in Hsmall.
    destruct (decimal_spec (Z.to_N n)) as (Hall & Hne & Hread).
    destruct (decimal (Z.to_N n)) as [|c s] eqn:E; [done|].
    destruct Hall as [Hc _].
    rewrite parseInt_digit_first by done.
    rewrite Hread. simpl. f_equal. by rewrite Z2N.id.
  - apply Z.ltb_ge in Hsmall.
    pose proof (shortestDigits_reads n (S (Z.to_nat (Z.log2 n)))
                  ltac:(lia) Hnum) as Hshort.
    destruct (shortestDigits _ _) as [s p]. destruct Hshort as [Hs Hreads].
    rewrite (proj2 (Z.ltb_lt _ _) Hbound).
    destruct (decimal_spec (Z.to_N s)) as (Hall & Hne & Hread).
    assert (readDigits (decimal (Z.to_N s) +:+ zeros p) None
            = Some (Z.to_N s * 10 ^ N.of_nat p)%N) as Hvalue.
    { rewrite readDigits_app by done. rewrite Hread. apply readDigits_zeros. }
    destruct (decimal (Z.to_N s)) as [|c rest] eqn:E; [done|].
    destruct Hall as [Hc _]. rewrite append_cons.
    rewrite parseInt_digit_first by done.
    rewrite <- append_cons, Hvalue. simpl. f_equal.
    rewrite N2Z.inj_mul, N2Z.inj_pow, Z2N.id, nat_N_Z by lia. done.
Qed.

End JsStringFacts.

(** ** The model codec of call node paths is reversible and URL safe *)

Module UintArrayEncodingFacts.
Import JsString JsStringFacts UintArrayEncoding.

#[local] Open Scope string_scope.

Lemma valueOfChar_charOfValue (v : N) :
  (v < 64)%N → valueOfChar (charOfValue v) = Some v.
Proof.
  intros Hv. destruct v as [|p]; [done|].
  do 6 (destruct p as [p|p|]; try done); lia.
Qed.

Lemma get_contains (n : nat) (s : string) (c : ascii) :
  String.get n s = Some c → contains c s = true.
Proof.
  revert n. induction s as [|d s IH]; intros n; [done|].
  destruct n as [|n]; simpl.
  - intros [= ->]. by rewrite Ascii.eqb_refl.
  - intros Hg. rewrite (IH _ Hg). by rewrite orb_true_r.
Qed.

Lemma charOfValue_not_separator (v : N) :
  Ascii.eqb (charOfValue v) "-" = false ∧ Ascii.eqb (charOfValue v) "~" = false.
Proof.
  unfold charOfValue.
  destruct (String.get (N.to_nat v) encodingChars) as [c|] eqn:Hg; [|done].
  apply get_contains in Hg. simpl.
  split; apply not_true_iff_false; intros ->%Ascii.eqb_eq; by vm_compute in Hg.
Qed.

Lemma leadingDigits_no_separator (fuel : nat) (n : N) :
  contains "-" (leadingDigits fuel n) = false
  ∧ contains "~" (leadingDigits fuel n) = false.
Proof.
  revert n. induction fuel as [|fuel IH]; intros n; [done|].
  simpl. destruct (n =? 0)%N; [done|].
  rewrite !contains_app. destruct (IH (n / 32)%N) as [-> ->].
  destruct (charOfValue_not_separator (32 + n mod 32)) as [H1 H2].
  simpl. by rewrite H1, H2.
Qed.

Lemma encodeUint_no_separator (n : N) :
  contains "-" (encodeUint n) = false ∧ contains "~" (encodeUint n) = false.
Proof.
  unfold encodeUint. rewrite !contains_app.
  destruct (leadingDigits_no_separator (N.to_nat (N.size (n / 32))) (n / 32))
    as [-> ->].
  destruct (charOfValue_not_separator (n mod 32)) as [H1 H2].
  simpl. by rewrite H1, H2.
Qed.

Lemma encode_no_separator (numbers : list Z) :
  contains "-" (encodeUintArrayForUrlComponent numbers) = false
  ∧ contains "~" (encodeUintArrayForUrlComponent numbers) = false.
Proof.
  unfold encodeUintArrayForUrlComponent.
  induction numbers as [|n l IH]; [done|].
  destruct (encodeUint_no_separator (Z.to_N n)) as [H1 H2].
  destruct l as [|m l]; [done|].
  change (String.concat "" (map (λ n, encodeUint (Z.to_N n)) (n :: m :: l)))
    with (encodeUint (Z.to_N n)
          +:+ String.concat "" (map (λ n, encodeUint (Z.to_N n)) (m :: l))).
  rewrite !contains_app, H1, H2. exact IH.
Qed.

Lemma decodeFrom_leadingDigits (fuel : nat) (n : N) (rest : string) :
  (n < 2 ^ N.of_nat fuel)%N →
  decodeFrom (leadingDigits fuel n +:+ rest) 0 = decodeFrom rest n.
Proof.
  revert n rest. induction fuel as [|fuel IH]; intros n rest Hn.
  - simpl in Hn. by replace n with 0%N by lia.
  - simpl. destruct (n =? 0)%N eqn:Hz.
    + apply N.eqb_eq in Hz. by subst.
    + apply N.eqb_neq in Hz.
      rewrite append_assoc, append_cons, append_nil_l.
      rewrite IH.
      2:{ rewrite Nat2N.inj_succ, N.pow_succ_r' in Hn.
          apply N.Div0.div_lt_upper_bound. lia. }
      assert (n mod 32 < 32)%N as Hm by (apply N.mod_lt; lia).
      assert ((32 + n mod 32) mod 32 = n mod 32)%N as Hr.
      { rewrite N.add_comm. replace 32%N with (1 * 32)%N at 2 by done.
        rewrite N.Div0.mod_add. by rewrite N.Div0.mod_mod. }
      pose proof (N.div_mod n 32) as Hdm.
      assert (32 + n mod 32 < 64)%N as Hlt64
        by (revert Hm; generalize (n mod 32)%N; intros; lia).
      simpl. rewrite valueOfChar_charOfValue by done. rewrite Hr.
      clear Hr Hlt64.
      generalize dependent (n mod 32)%N. intros r Hm Hdm.
      generalize dependent (n / 32)%N. intros q Hdm.
      destruct (N.ltb_spec (32 + r) 32) as [Hlt|_]; [lia|].
      f_equal. lia.
Qed.

Lemma decodeFrom_encodeUint (n : N) (rest : string) :
  decodeFrom (encodeUint n +:+ rest) 0 = Z.of_N n :: decodeFrom rest 0.
Proof.
  unfold encodeUint. rewrite append_assoc, append_cons, append_nil_l.
  rewrite decodeFrom_leadingDigits.
  2:{ rewrite N2Nat.id. apply N.size_gt. }
  assert (n mod 32 < 32)%N as Hm by (apply N.mod_lt; lia).
  pose proof (N.div_mod n 32) as Hdm.
  assert (n mod 32 < 64)%N as Hlt64
    by (revert Hm; generalize (n mod 32)%N; intros; lia).
  simpl. rewrite valueOfChar_charOfValue by done. rewrite N.Div0.mod_mod.
  clear Hlt64.
  generalize dependent (n mod 32)%N. intros r Hm Hdm.
  generalize dependent (n / 32)%N. intros q Hdm.
  destruct (N.ltb_spec r 32) as [_|Hge]; [|lia].
  f_equal. f_equal. lia.
Qed.

Lemma append_nil_r (a : string) : a +:+ "" = a.
Proof.
  induction a as [|c a IH]; [done|]. rewrite append_cons. by rewrite IH.
Qed.

Lemma decode_encode (numbers : list Z) :
  Forall (λ n, (0 ≤ n)%Z) numbers →
  decodeUintArrayFromUrlComponent (Some (encodeUintArrayForUrlComponent numbers))
  = Ok numbers.
Proof.
  intros Hnn. unfold decodeUintArrayFromUrlComponent. f_equal.
  unfold encodeUintArrayForUrlComponent.
  induction Hnn as [|n l Hn Hl IH]; [done|].
  destruct l as [|m l].
  - simpl. rewrite <- (append_nil_r (encodeUint (Z.to_N n))).
    rewrite decodeFrom_encodeUint. simpl. f_equal. lia.
  - change (String.concat "" (map (λ n, encodeUint (Z.to_N n)) (n :: m :: l)))
      with (encodeUint (Z.to_N n)
            +:+ String.concat "" (map (λ n, encodeUint (Z.to_N n)) (m :: l))).
    rewrite decodeFrom_encodeUint, IH. f_equal. lia.
Qed.

End UintArrayEncodingFacts.

(** ** The transform-stack codec *)

Section CodecLaws.
Import JsString JsStringFacts.

#[local] Open Scope string_scope.

Variable encode : list Z → string.
Variable decode : option string → result (list Z).

Lemma toValidImplementationFilter_toString (implementation : ImplementationFilter) :
  toValidImplementationFilter (Some (implementationToString implementation))
  = implementation.
Proof. by destruct implementation. Qed.

Lemma stringifyTransform_fields (transform : Transform) :
  stringifyTransform encode transform = join "-" (tokenFields encode transform).
Proof.
  destruct transform as [path impl [|] | | | | | | |]; try reflexivity.
  unfold stringifyTransform. cbv zeta. by rewrite join_snoc.
Qed.

Lemma contains_join (c sep : ascii) (l : list string) :
  Ascii.eqb sep c = false →
  Forall (λ s, contains c s = false) l →
  contains c (join sep l) = false.
Proof.
  intros Hsep Hall. induction Hall as [|s l Hs Hl IH]; [done|].
  destruct l as [|t l]; [done|].
  rewrite join_cons, contains_app, Hs. simpl. by rewrite Hsep, IH.
Qed.

Lemma join_head (sep c : ascii) (s : string) (l : list string) :
  ∃ rest, join sep (String c s :: l) = String c rest.
Proof. destruct l; [by eexists|]. rewrite join_cons, append_cons. by eexists. Qed.

Lemma tokenFields_head (transform : Transform) :
  ∃ c s l, tokenFields encode transform = String c s :: l.
Proof. destruct transform; by do 3 eexists. Qed.

Lemma stringifyTransform_nonempty (transform : Transform) :
  ∃ c rest, stringifyTransform encode transform = String c rest.
Proof.
  rewrite stringifyTransform_fields.
  destruct (tokenFields_head transform) as (c & s & l & ->).
  destruct (join_head "-" c s l) as [rest ->]. by do 2 eexists.
Qed.

(** The state that the callback starts from only gets longer: a token
    contributes what it contributes on its own. *)
Lemma parseTuple_state (tuple : list string) (transforms : list Transform)
    (logged : list string) :
  parseTuple decode tuple (transforms, logged) =
    '(ts, lg) ← parseTuple decode tuple ([], []);
    Ok (transforms ++ ts, logged ++ lg)%list.
Proof.
  unfold parseTuple.
  destruct (SHORT_KEY_TO_TRANSFORM _) as [[]|]; simpl;
    repeat case_match; simpl; rewrite ?app_nil_r; try done.
  all: destruct (decode _); simpl; by rewrite ?app_nil_r.
Qed.

Lemma parseTransform_state (token : string) (transforms : list Transform)
    (logged : list string) :
  parseTransform decode token (transforms, logged) =
    '(ts, lg) ← parseToken decode token;
    Ok (transforms ++ ts, logged ++ lg)%list.
Proof. apply parseTuple_state. Qed.

Lemma forEach_cons {A S : Type} (callback : A → S → result S) (x : A)
    (rest : list A) (st : S) :
  forEach callback (x :: rest) st
  = callback x st ≫= λ st', forEach callback rest st'.
Proof. done. Qed.

Lemma forEach_parseTransform (tokens : list string) (transforms : list Transform)
    (logged : list string) (results : list ParseState) :
  Forall2 (λ token r, parseToken decode token = Ok r) tokens results →
  forEach (parseTransform decode) tokens (transforms, logged)
  = Ok (transforms ++ concat results.*1, logged ++ concat results.*2)%list.
Proof.
  intros Hall. revert transforms logged.
  induction Hall as [|token [ts lg] tokens results Htok Hall IH];
    intros transforms logged.
  - simpl. by rewrite !app_nil_r.
  - rewrite forEach_cons, parseTransform_state, Htok.
    change (forEach (parseTransform decode) tokens
              ((transforms ++ ts)%list, (logged ++ lg)%list)
            = Ok ((transforms ++ concat (ts :: results.*1))%list,
                  (logged ++ concat (lg :: results.*2))%list)).
    rewrite IH. simpl. by rewrite !app_assoc.
Qed.

Section RoundTrip.

Hypothesis decode_encode : ∀ path,
  Forall (λ funcIndex, 0 ≤ funcIndex)%Z path → decode (Some (encode path)) = Ok path.
Hypothesis encode_url_safe : ∀ path,
  Forall (λ funcIndex, 0 ≤ funcIndex)%Z path →
  contains "-" (encode path) = false ∧ contains "~" (encode path) = false.

Lemma tokenFields_no_separator (transform : Transform) :
  wellFormedTransform transform →
  Forall (λ s, contains "-" s = false) (tokenFields encode transform)
  ∧ Forall (λ s, contains "~" s = false) (tokenFields encode transform).
Proof.
  destruct transform as [path impl inv|f|path impl|f|f|r c impl|f impl|f];
    simpl; intros Hwf;
    repeat match goal with
    | H : _ ∧ _ |- _ => destruct H
    | H : (0 ≤ ?n)%Z |- _ =>
        destruct (numberToString_numeric n H) as [? ?]; clear H
    | H : Forall _ ?p |- _ =>
        destruct (encode_url_safe p H); clear H
    end;
    try destruct impl; try destruct inv; simpl;
    split; repeat constructor; done.
Qed.

Lemma boundedTransform_wellFormed (transform : Transform) :
  boundedTransform transform → wellFormedTransform transform.
Proof.
  destruct transform; simpl; unfold printedInDigits; try done;
    intros; split_and?; lia.
Qed.

Lemma parseTuple_fields (transform : Transform) (transforms : list Transform)
    (logged : list string) :
  boundedTransform transform →
  parseTuple decode (tokenFields encode transform) (transforms, logged)
  = Ok ((transforms ++ [transform])%list, logged).
Proof.
  destruct transform as [path impl inv|f|path impl|f|f|r c impl|f impl|f];
    simpl boundedTransform; unfold printedInDigits; intros Hwf;
    unfold parseTuple; try destruct impl; try destruct inv;
    repeat match goal with
    | H : _ ∧ _ |- _ => destruct H
    end;
    cbn -[parseInt numberToString];
    repeat match goal with
    | H : numberValue ?n = ?n |- _ =>
        rewrite (proj1 (numberToString_spec n ltac:(lia) H)); clear H
    end;
    rewrite ?decode_encode by done;
    rewrite ?bool_decide_true by lia; rewrite ?bool_decide_false by lia;
    done.
Qed.

Lemma parseToken_stringifyTransform (transform : Transform) :
  boundedTransform transform →
  parseToken decode (stringifyTransform encode transform) = Ok ([transform], []).
Proof.
  intros Hwf. unfold parseToken, parseTransform.
  rewrite stringifyTransform_fields.
  destruct (tokenFields_no_separator _ (boundedTransform_wellFormed _ Hwf))
    as [Hdash _].
  rewrite split_join; [|by destruct (tokenFields_head transform) as (?&?&?&->)|done].
  by rewrite parseTuple_fields.
Qed.

Lemma stringifyTransform_no_tilde (transform : Transform) :
  wellFormedTransform transform →
  contains "~" (stringifyTransform encode transform) = false.
Proof.
  intros Hwf. rewrite stringifyTransform_fields.
  apply contains_join; [done|]. by apply tokenFields_no_separator.
Qed.

(** C3, as amended.  Parsing the text of a well-formed transform stack gives
    the stack back, and logs nothing: [parseTransforms(stringifyTransforms(ts))]
    equals [ts] whenever the call node paths of [ts] hold non-negative
    integers and its index fields hold non-negative integers below 10^21,
    the Numbers that are printed in digits.  The statement is for every
    codec of call node paths that decodes what it encodes and writes neither
    [-] nor [~]. *)
Theorem parseTransforms_stringifyTransforms (transformStack : list Transform) :
  Forall boundedTransform transformStack →
  parseTransforms decode (stringifyTransforms encode transformStack)
  = Ok (transformStack, []).
Proof.
  intros Hwf. unfold parseTransforms, stringifyTransforms.
  destruct transformStack as [|t ts]; [done|].
  assert (∃ c rest,
    join "~" (map (stringifyTransform encode) (t :: ts)) = String c rest)
    as (c & rest & Hrest).
  { simpl map. destruct (stringifyTransform_nonempty t) as (c & r & ->).
    destruct (join_head "~" c r (map (stringifyTransform encode) ts)) as [? ->].
    by do 2 eexists. }
  rewrite Hrest. simpl String.eqb. cbv iota. rewrite <- Hrest.
  rewrite split_join; [|done|].
  2:{ apply Forall_map. eapply Forall_impl; [exact Hwf|].
      intros ? ?. by apply stringifyTransform_no_tilde,
        boundedTransform_wellFormed. }
  rewrite (forEach_parseTransform _ [] [] (map (λ t, ([t], [])) (t :: ts))).
  - rewrite !app_nil_l. f_equal. f_equal.
    + clear. induction (t :: ts) as [|x l IH]; [done|].
      rewrite fmap_cons, fmap_cons. simpl. by f_equal.
    + clear. induction (t :: ts) as [|x l IH]; [done|].
      rewrite fmap_cons, fmap_cons. simpl. done.
  - apply Forall2_fmap, Forall_Forall2_diag.
    eapply Forall_impl; [exact Hwf|].
    intros ? ?. by apply parseToken_stringifyTransform.
Qed.

End RoundTrip.

(** *** Tolerance *)

Lemma parseToken_unknown_key (token : string) :
  let shortKey := default "" (split "-" token !! 0%nat) in
  SHORT_KEY_TO_TRANSFORM shortKey = None →
  parseToken decode token = Ok ([], [shortKey]).
Proof.
  intros shortKey Hkey. unfold parseToken, parseTransform, parseTuple.
  fold shortKey. by rewrite Hkey.
Qed.

Lemma parseToken_bad_number (token : string) (type : TransformType)
    (position : nat) :
  SHORT_KEY_TO_TRANSFORM (default "" (split "-" token !! 0%nat)) = Some type →
  position ∈ indexFieldPositions type →
  parseInt (split "-" token !! position) = None →
  parseToken decode token = Ok ([], []).
Proof.
  intros Hkey Hpos Hnan. unfold parseToken, parseTransform, parseTuple.
  rewrite Hkey.
  destruct type; simpl in Hpos;
    repeat match goal with
    | H : _ ∈ [] |- _ => by apply elem_of_nil in H
    | H : _ ∈ _ :: _ |- _ => apply elem_of_cons in H as [->|H]
    end;
    rewrite ?Hnan; try done.
  by destruct (parseInt (split "-" token !! 2%nat)).
Qed.

(** The decoder of call node paths is called for the tokens of the kinds
    focus-subtree and merge-call-node only, with the third field of the
    token, which is [undefined] when the token has fewer fields.  What the
    decoder does then is not in the sources: a token returns when that one
    call returns. *)
Lemma parseTuple_returns (tuple : list string) (st : ParseState) :
  (∀ type,
     SHORT_KEY_TO_TRANSFORM (default "" (tuple !! 0%nat)) = Some type →
     type = focus_subtree ∨ type = merge_call_node →
     ∃ path, decode (tuple !! 2%nat) = Ok path) →
  ∃ r, parseTuple decode tuple st = Ok r.
Proof.
  intros Hdecode. unfold parseTuple. destruct st as [transforms logged].
  destruct (SHORT_KEY_TO_TRANSFORM _) as [type|]; [|by eauto].
  destruct type; simpl; repeat case_match; eauto.
  - destruct (Hdecode focus_subtree eq_refl) as [path ->]; [by left|].
    simpl. eauto.
  - destruct (Hdecode merge_call_node eq_refl) as [path ->]; [by right|].
    simpl. eauto.
Qed.

(** What [parseTransforms] returns is put together token by token: where
    the calls of the decoder return, the result is the concatenation of what
    each [~]-separated token contributes on its own, so a token that
    contributes nothing takes no other token with it. *)
Lemma parseTransforms_tokens (s : string) :
  s ≠ "" →
  (∀ token type,
     token ∈ split "~" s →
     SHORT_KEY_TO_TRANSFORM (default "" (split "-" token !! 0%nat)) = Some type →
     type = focus_subtree ∨ type = merge_call_node →
     ∃ path, decode (split "-" token !! 2%nat) = Ok path) →
  ∃ results,
    Forall2 (λ token r, parseToken decode token = Ok r) (split "~" s) results
    ∧ parseTransforms decode s = Ok (concat results.*1, concat results.*2).
Proof.
  intros Hs Hdecode.
  assert (∃ results,
    Forall2 (λ token r, parseToken decode token = Ok r) (split "~" s) results)
    as [results Hres].
  { induction (split "~" s) as [|token tokens IH]; [by exists []|].
    destruct IH as [results IH].
    { intros token' type Hin. apply Hdecode. by apply elem_of_cons; right. }
    destruct (parseTuple_returns (split "-" token) ([], [])) as [r Hr].
    { intros type. apply Hdecode. by apply elem_of_cons; left. }
    exists (r :: results). by constructor. }
  exists results. split; [done|]. unfold parseTransforms.
  destruct (String.eqb_spec s ""); [done|].
  by rewrite (forEach_parseTransform _ [] [] results Hres).
Qed.

(** *** Negative indexes *)

Lemma split_no_separator (sep : ascii) (s : string) :
  Forall (λ field, contains sep field = false) (split sep s).
Proof.
  induction s as [|c s IH]; [by repeat constructor|].
  simpl. destruct (Ascii.eqb c sep) eqn:Hc.
  - by constructor.
  - destruct (split sep s) as [|w ws].
    { repeat constructor. simpl. by rewrite Hc. }
    apply Forall_cons in IH as [Hw Hws].
    constructor; [|done]. simpl. by rewrite Hc, Hw.
Qed.

Lemma trimStart_contains (c : ascii) (s : string) :
  contains c s = false → contains c (trimStart s) = false.
Proof.
  induction s as [|d s IH]; [done|].
  simpl. destruct (isStrWhiteSpace d); [|done].
  intros [_ Hs]%orb_false_elim. by apply IH.
Qed.

(** A field without a minus sign does not parse as a negative number. *)
Lemma parseInt_nonnegative (field : option string) (n : Z) :
  (∀ s, field = Some s → contains "-" s = false) →
  parseInt field = Some n → (0 ≤ n)%Z.
Proof.
  intros Hno. destruct field as [s|]; [|done].
  specialize (Hno s eq_refl). apply trimStart_contains in Hno.
  unfold parseInt. destruct (trimStart s) as [|c rest] eqn:Ht.
  - simpl. done.
  - assert (c ≠ "-"%char) as Hc.
    { intros ->. simpl in Hno. done. }
    assert (∀ r, (λ m, numberValue (Z.of_N m)) <$> r = Some n → (0 ≤ n)%Z)
      as Hpos.
    { intros [m|]; simpl; [|done]. intros [= <-].
      apply numberValue_nonnegative. lia. }
    destruct c as [[] [] [] [] [] [] [] []]; try done; apply Hpos.
Qed.

Lemma parseTuple_nonnegative (tuple : list string) (transforms : list Transform)
    (logged : list string) :
  Forall (λ field, contains "-" field = false) tuple →
  parseTuple decode tuple ([], []) = Ok (transforms, logged) →
  Forall indexFieldsNonNegative transforms.
Proof.
  intros Hfields. unfold parseTuple.
  assert (∀ k n, parseInt (tuple !! k) = Some n → (0 ≤ n)%Z) as Hnn.
  { intros k n. apply parseInt_nonnegative. intros s Hs.
    by eapply (proj1 (Forall_lookup _ _) Hfields). }
  destruct (SHORT_KEY_TO_TRANSFORM _) as [[]|]; simpl;
    repeat case_match; simpl; intros ?; simplify_eq;
    repeat match goal with
    | H : decode _ ≫= _ = Ok _ |- _ =>
        apply bind_Ok in H as (? & _ & ?); simplify_eq
    | H : bool_decide _ = true |- _ => apply bool_decide_eq_true in H
    | H : bool_decide _ = false |- _ => apply bool_decide_eq_false in H
    end;
    repeat constructor; simpl; eauto; lia.
Qed.

Lemma forEach_parseTransform_inv (P : Transform → Prop) (tokens : list string)
    (st st' : ParseState) :
  (∀ token ts lg, parseToken decode token = Ok (ts, lg) → Forall P ts) →
  forEach (parseTransform decode) tokens st = Ok st' →
  Forall P st.1 → Forall P st'.1.
Proof.
  intros Htoken. revert st. induction tokens as [|token tokens IH]; intros st.
  - simpl. by intros [= <-].
  - rewrite forEach_cons. destruct st as [ts0 lg0].
    rewrite parseTransform_state.
    intros (st1 & Hst1 & Hrest)%bind_Ok Hts0.
    apply bind_Ok in Hst1 as ([ts lg] & Htok & [= <-]).
    apply (IH _ Hrest). simpl. apply Forall_app. split; [done|].
    by eapply Htoken.
Qed.

Lemma parseTransforms_nonnegative (s : string) (transforms : list Transform)
    (logged : list string) :
  parseTransforms decode s = Ok (transforms, logged) →
  Forall indexFieldsNonNegative transforms.
Proof.
  unfold parseTransforms. destruct (String.eqb s ""); [by intros [= <- <-]|].
  intros Hrun.
  apply (forEach_parseTransform_inv indexFieldsNonNegative _ _ _) in Hrun;
    [done| |done].
  intros token ts lg. apply parseTuple_nonnegative, split_no_separator.
Qed.

Lemma split_nonempty (sep : ascii) (s : string) : split sep s ≠ [].
Proof.
  destruct s as [|c s]; [done|]. simpl.
  destruct (Ascii.eqb c sep); [done|]. by destruct (split sep s).
Qed.

Lemma split_app_sep (sep : ascii) (a b : string) :
  split sep (a +:+ String sep b) = (split sep a ++ split sep b)%list.
Proof.
  induction a as [|c a IH].
  - rewrite append_nil_l. simpl. by rewrite Ascii.eqb_refl.
  - rewrite append_cons. simpl. rewrite IH.
    destruct (Ascii.eqb c sep); [done|].
    pose proof (split_nonempty sep a). by destruct (split sep a).
Qed.

Lemma split_join_fields (sep : ascii) (fields : list string) :
  fields ≠ [] →
  split sep (join sep fields) = concat (map (split sep) fields).
Proof.
  induction fields as [|a l IH]; [done|]. intros _.
  destruct l as [|b l].
  - simpl. by rewrite app_nil_r.
  - rewrite join_cons, split_app_sep, IH by done. done.
Qed.

Lemma numberToString_negative (n : Z) :
  (n < 0)%Z →
  ∃ magnitude, numberToString n = String "-" magnitude ∧ numeric magnitude.
Proof.
  intros Hn. unfold numberToString.
  replace (n <? 0)%Z with true by (symmetry; apply Z.ltb_lt; lia).
  eexists. split; [done|]. apply magnitudeToString_numeric.
Qed.

Lemma split_numberToString (n : Z) :
  match split "-" (numberToString n) with
  | [field] => (0 ≤ n)%Z
  | [minus; magnitude] => (n < 0)%Z ∧ minus = ""
  | _ => False
  end.
Proof.
  destruct (decide (0 ≤ n)%Z) as [Hn|Hn].
  - destruct (numberToString_numeric n Hn) as [Hdash _].
    by rewrite split_nosep.
  - destruct (numberToString_negative n) as (magnitude & -> & Hdash & _); [lia|].
    rewrite <- (append_nil_l (String "-" magnitude)), split_app_sep.
    rewrite (split_nosep _ magnitude) by done.
    simpl. split; [lia|done].
Qed.

Lemma numberToString_no_tilde (n : Z) : contains "~" (numberToString n) = false.
Proof.
  destruct (decide (0 ≤ n)%Z) as [Hn|Hn].
  - by apply numberToString_numeric.
  - destruct (numberToString_negative n) as (magnitude & -> & _ & Htilde); [lia|].
    done.
Qed.

(** A token written from a transform with a negative index has an empty
    field where the index should be, and contributes nothing. *)
Lemma parseToken_negative_index (transform : Transform) :
  hasNegativeIndex transform →
  parseToken decode (stringifyTransform encode transform) = Ok ([], []).
Proof.
  intros Hneg. unfold parseToken, parseTransform.
  rewrite stringifyTransform_fields, split_join_fields
    by by destruct (tokenFields_head transform) as (?&?&?&->).
  destruct transform as [path impl inv|f|path impl|f|f|r c impl|f impl|f];
    simpl in Hneg; try done; try destruct impl; cbn -[numberToString split];
    repeat match goal with
    | |- context [split "-" (numberToString ?n)] =>
        let H := fresh in
        pose proof (split_numberToString n) as H;
        destruct (split "-" (numberToString n)) as [|? [|? [|? ?]]];
        try done; try (destruct H as [? ->])
    end;
    try lia; unfold parseTuple; cbn -[parseInt];
    try change (parseInt (Some "")) with (@None Z);
    repeat case_match; try done; destruct Hneg; lia.
Qed.

Lemma stringifyTransform_negative_no_tilde (transform : Transform) :
  hasNegativeIndex transform →
  contains "~" (stringifyTransform encode transform) = false.
Proof.
  intros Hneg. rewrite stringifyTransform_fields.
  apply contains_join; [done|].
  destruct transform as [path impl inv|f|path impl|f|f|r c impl|f impl|f];
    simpl in Hneg; try done; try destruct impl; simpl;
    repeat constructor; try done; apply numberToString_no_tilde.
Qed.

Lemma parseTransforms_single_token (token : string) :
  token ≠ "" → contains "~" token = false →
  parseTransforms decode token = parseToken decode token.
Proof.
  intros Hne Htilde. unfold parseTransforms.
  destruct (String.eqb_spec token ""); [done|].
  rewrite split_nosep by done. rewrite forEach_cons.
  unfold parseToken. by destruct (parseTransform decode token ([], [])).
Qed.

(** C10, as amended.  [parseTransforms] never returns a transform with a
    negative index field, [collapsedFuncIndex] included: the fields of a
    token are what stands between its [-] signs, so no field holds a minus
    sign and none parses as a negative number.  A token written with a
    negative [resourceIndex], [funcIndex] or [collapsedFuncIndex] has an
    empty field in that place; it contributes no transform and nothing is
    logged. *)
Theorem parseTransforms_negative_index :
  (∀ s transforms logged,
     parseTransforms decode s = Ok (transforms, logged) →
     Forall indexFieldsNonNegative transforms)
  ∧ (∀ transform,
       hasNegativeIndex transform →
       parseTransforms decode (stringifyTransform encode transform)
       = Ok ([], [])).
Proof.
  split; [exact parseTransforms_nonnegative|].
  intros transform Hneg.
  rewrite parseTransforms_single_token.
  - by apply parseToken_negative_index.
  - by destruct (stringifyTransform_nonempty transform) as (? & ? & ->).
  - by apply stringifyTransform_negative_no_tilde.
Qed.

End CodecLaws.

(** ** The forward pass and the rewriting of the sample-like tables *)

Lemma elemAt_middle {A} (before after : list A) (x : A) :
  elemAt (before ++ x :: after) (tableLength before) = Some x.
Proof.
  unfold elemAt, tableLength. rewrite decide_True by lia.
  rewrite Nat2Z.id. by rewrite list_lookup_middle.
Qed.

(** An invariant of the loop, for bodies that may throw: it holds of the
    final state whenever the loop returns. *)
Lemma forStacks_invariant {S : Type} (Inv : Z → S → Prop)
    (body : Z → StackRow → S → result S) (table : StackTable) (st0 st' : S) :
  Inv 0 st0 →
  (∀ stackIndex row st st1,
     elemAt table stackIndex = Some row → Inv stackIndex st →
     body stackIndex row st = Ok st1 → Inv (stackIndex + 1) st1) →
  forStacks body 0 table st0 = Ok st' →
  Inv (tableLength table) st'.
Proof.
  intros Hinit Hstep.
  assert (∀ rows before st,
    table = before ++ rows → Inv (tableLength before) st →
    forStacks body (tableLength before) rows st = Ok st' →
    Inv (tableLength table) st') as Hgen.
  { induction rows as [|row rows IH]; intros before st Htable Hinv.
    - simpl. intros [= <-]. by rewrite Htable, app_nil_r.
    - simpl. intros (st1 & Hbody & Hrest)%bind_Ok.
      apply (IH (before ++ [row]) st1).
      + by rewrite <- app_assoc.
      + unfold tableLength. rewrite length_app, Nat2Z.inj_add. simpl.
        eapply Hstep; [|done..]. rewrite Htable. apply elemAt_middle.
      + unfold tableLength in *. rewrite length_app, Nat2Z.inj_add. done. }
  by apply (Hgen table [] st0).
Qed.

(** The same for a body that returns under the invariant: then the loop
    returns. *)
Lemma forStacks_total {S : Type} (Inv : Z → S → Prop)
    (body : Z → StackRow → S → result S) (table : StackTable) (st0 : S) :
  Inv 0 st0 →
  (∀ stackIndex row st,
     elemAt table stackIndex = Some row → Inv stackIndex st →
     ∃ st1, body stackIndex row st = Ok st1 ∧ Inv (stackIndex + 1) st1) →
  ∃ st', forStacks body 0 table st0 = Ok st' ∧ Inv (tableLength table) st'.
Proof.
  intros Hinit Hstep.
  assert (∀ rows before st,
    table = before ++ rows → Inv (tableLength before) st →
    ∃ st', forStacks body (tableLength before) rows st = Ok st'
           ∧ Inv (tableLength table) st') as Hgen.
  { induction rows as [|row rows IH]; intros before st Htable Hinv.
    - exists st. split; [done|]. by rewrite Htable, app_nil_r.
    - destruct (Hstep (tableLength before) row st) as (st1 & Hbody & Hinv1);
        [rewrite Htable; apply elemAt_middle|done|].
      destruct (IH (before ++ [row]) st1) as (st' & Hrest & Hfinal).
      + by rewrite <- app_assoc.
      + unfold tableLength in *. by rewrite length_app, Nat2Z.inj_add.
      + exists st'. split; [|done]. simpl. rewrite Hbody. simpl.
        unfold tableLength in *. by rewrite length_app, Nat2Z.inj_add in Hrest. }
  by apply (Hgen table [] st0).
Qed.

Lemma mapStacks_pure (f : option Z → option Z) (stacks : list (option Z)) (u : unit) :
  mapStacks (pureUpdater f) stacks u = Ok (map f stacks, u).
Proof.
  induction stacks as [|s l IH]; [done|]. simpl. by rewrite IH.
Qed.

Lemma updateThreadStacks_pure (thread : Thread) (table : StackTable)
    (f : option Z → option Z) :
  updateThreadStacks thread table (pureUpdater f) () =
  Ok {| samples := map f (samples thread);
        jsAllocations := map f <$> jsAllocations thread;
        nativeAllocations := map f <$> nativeAllocations thread;
        stackTable := table;
        frameTable := frameTable thread;
        funcTable := funcTable thread;
        stringTable := stringTable thread;
        resourceTable_name := resourceTable_name thread |}.
Proof.
  unfold updateThreadStacks, mapStacksOpt. rewrite mapStacks_pure. simpl.
  destruct (jsAllocations thread) as [js|];
    destruct (nativeAllocations thread) as [na|]; simpl;
    rewrite ?mapStacks_pure; simpl; rewrite ?mapStacks_pure; done.
Qed.

(** What a [convertStack] callback guarantees of one stack, it guarantees of
    every sample-like row; [Inv] is an invariant of the callback's state. *)
Lemma mapStacks_related {S : Type} (convertStack : StackUpdater S)
    (Inv : S → Prop) (P : option Z → option Z → Prop)
    (stacks stacks' : list (option Z)) (st st' : S) :
  (∀ oldStack s newStack s',
     Inv s → convertStack oldStack s = Ok (newStack, s') →
     P oldStack newStack ∧ Inv s') →
  Inv st → mapStacks convertStack stacks st = Ok (stacks', st') →
  Forall2 P stacks stacks' ∧ Inv st'.
Proof.
  intros Hconv. revert stacks' st.
  induction stacks as [|s l IH]; intros stacks' st Hinv.
  - simpl. intros [= <- <-]. by split.
  - simpl. intros ([v st1] & Hs & Hrest)%bind_Ok.
    apply bind_Ok in Hrest as ([l' st2] & Hl & [= <- <-]).
    destruct (Hconv _ _ _ _ Hinv Hs) as [HP Hinv1].
    destruct (IH _ _ Hinv1 Hl) as [Hall Hinv2].
    split; [by constructor|done].
Qed.

Lemma updateThreadStacks_related {S : Type} (convertStack : StackUpdater S)
    (Inv : S → Prop) (P : option Z → option Z → Prop)
    (thread thread' : Thread) (table : StackTable) (st : S) :
  (∀ oldStack s newStack s',
     Inv s → convertStack oldStack s = Ok (newStack, s') →
     P oldStack newStack ∧ Inv s') →
  Inv st →
  updateThreadStacks thread table convertStack st = Ok thread' →
  stackTable thread' = table
  ∧ frameTable thread' = frameTable thread
  ∧ funcTable thread' = funcTable thread
  ∧ stringTable thread' = stringTable thread
  ∧ resourceTable_name thread' = resourceTable_name thread
  ∧ Forall2 (Forall2 P) (sampleLikeTables thread) (sampleLikeTables thread').
Proof.
  intros Hconv Hinv. unfold updateThreadStacks.
  intros ([smp st1] & Hsmp & Hrest)%bind_Ok.
  apply bind_Ok in Hrest as ([js st2] & Hjs & Hrest).
  apply bind_Ok in Hrest as ([na st3] & Hna & [= <-]).
  simpl. split_and!; try done.
  destruct (mapStacks_related _ _ _ _ _ _ _ Hconv Hinv Hsmp) as [Hsmp' Hinv1].
  unfold sampleLikeTables. simpl. constructor; [done|].
  assert (Forall2 (Forall2 P) (option_list (jsAllocations thread)) (option_list js)
          ∧ Inv st2) as [Hjs' Hinv2].
  { unfold mapStacksOpt in Hjs. destruct (jsAllocations thread) as [l|].
    - apply bind_Ok in Hjs as ([l' s'] & Hl & [= <- <-]).
      destruct (mapStacks_related _ _ _ _ _ _ _ Hconv Hinv1 Hl).
      split; [by repeat constructor|done].
    - injection Hjs as <- <-. split; [constructor|done]. }
  apply Forall2_app; [done|].
  unfold mapStacksOpt in Hna. destruct (nativeAllocations thread) as [l|].
  - apply bind_Ok in Hna as ([l' s'] & Hl & [= <- <-]).
    destruct (mapStacks_related _ _ _ _ _ _ _ Hconv Hinv2 Hl).
    by repeat constructor.
  - injection Hna as <- <-. constructor.
Qed.

(** ** drop-function *)

Lemma dropFunctionLoop_returns (thread : Thread) (funcIndexToDrop : Z) :
  ∃ stackContainsFunc, dropFunctionLoop thread funcIndexToDrop = Ok stackContainsFunc.
Proof.
  destruct (forStacks_total (λ _ _, True)
              (dropFunctionBody thread funcIndexToDrop) (stackTable thread) [])
    as (flags & Hloop & _); [done| |by exists flags].
  intros. by eexists.
Qed.

Lemma dropStack_idempotent (flags : list bool) (stack : option Z) :
  dropStack flags (dropStack flags stack) = dropStack flags stack.
Proof.
  destruct stack as [s|]; [|done]. simpl.
  destruct (default false (elemAt flags s)) eqn:E; [done|]. simpl. by rewrite E.
Qed.

(** C7.  Dropping a function twice gives the thread that dropping it once
    gives: [dropFunction] returns on every thread, and on its own result it
    returns that result. *)
Theorem dropFunction_idempotent (thread : Thread) (funcIndexToDrop : Z) :
  ∃ dropped,
    dropFunction thread funcIndexToDrop = Ok dropped
    ∧ dropFunction dropped funcIndexToDrop = Ok dropped.
Proof.
  destruct (dropFunctionLoop_returns thread funcIndexToDrop) as [flags Hloop].
  eexists. split.
  - unfold dropFunction. rewrite Hloop. simpl. apply updateThreadStacks_pure.
  - unfold dropFunction.
    match goal with
    | |- dropFunctionLoop ?t _ ≫= _ = _ =>
        change (dropFunctionLoop t funcIndexToDrop)
          with (dropFunctionLoop thread funcIndexToDrop)
    end.
    rewrite Hloop. simpl. rewrite updateThreadStacks_pure. simpl.
    f_equal. f_equal.
    + rewrite map_map. apply map_ext. intros. apply dropStack_idempotent.
    + destruct (jsAllocations thread) as [l|]; [|done]. simpl. f_equal.
      rewrite map_map. apply map_ext. intros. apply dropStack_idempotent.
    + destruct (nativeAllocations thread) as [l|]; [|done]. simpl. f_equal.
      rewrite map_map. apply map_ext. intros. apply dropStack_idempotent.
Qed.

Lemma stackContainsFunc_row (thread : Thread) (funcIndex stack : Z) (row : StackRow) :
  elemAt (stackTable thread) stack = Some row →
  stackContainsFunc thread funcIndex (Some stack) ↔
    funcOfRow thread row = Some funcIndex
    ∨ ∃ prefix, s_prefix row = Some prefix
                ∧ stackContainsFunc thread funcIndex (Some prefix).
Proof.
  intros Hrow. split.
  - intros (s & ancestor & arow & [= <-] & Hanc & Harow & Hfunc).
    inversion Hanc as [? ? Hs|? row' prefix ? Hs Hprefix Hrest]; subst.
    + left. congruence.
    + right. exists prefix. split; [congruence|].
      by exists prefix, ancestor, arow.
  - intros [Hfunc|(prefix & Hprefix & s & ancestor & arow & [= <-] & Hanc & Harow & Hfunc)].
    + exists stack, stack, row. split_and!; try done. by econstructor.
    + exists stack, ancestor, arow. split_and!; try done. by econstructor.
Qed.

Lemma stackContainsFunc_valid (thread : Thread) (funcIndex stack : Z) :
  stackContainsFunc thread funcIndex (Some stack) →
  is_Some (elemAt (stackTable thread) stack).
Proof.
  intros (s & ancestor & arow & [= <-] & Hanc & _). by inversion Hanc.
Qed.

(** After the loop, [stackContainsFunc[stack]] is set exactly for the stacks
    that have the function in their ancestry. *)
Lemma dropFunctionLoop_spec (thread : Thread) (funcIndexToDrop : Z) :
  stackTableOrdered (stackTable thread) →
  ∃ flags,
    dropFunctionLoop thread funcIndexToDrop = Ok flags
    ∧ ∀ stack,
        default false (elemAt flags stack) = true
        ↔ stackContainsFunc thread funcIndexToDrop (Some stack).
Proof.
  intros Hordered.
  destruct (forStacks_total
    (λ stackIndex flags,
       tableLength flags = stackIndex
       ∧ ∀ stack, 0 ≤ stack < stackIndex →
           default false (elemAt flags stack) = true
           ↔ stackContainsFunc thread funcIndexToDrop (Some stack))
    (dropFunctionBody thread funcIndexToDrop) (stackTable thread) [])
    as (flags & Hloop & Hlen & Hflags).
  - split; [done|]. intros; lia.
  - intros stackIndex row flags Hrow [Hlen Hflags]. eexists. split; [done|].
    split; [unfold tableLength in *; rewrite length_app; simpl; lia|].
    intros stack Hstack.
    destruct (decide (stack = stackIndex)) as [->|Hne].
    + rewrite <- Hlen at 1. unfold tableLength. rewrite elemAt_app_length. simpl.
      rewrite (stackContainsFunc_row _ _ _ _ Hrow).
      rewrite orb_true_iff. unfold sameValue. rewrite bool_decide_eq_true.
      apply or_iff_compat_l. destruct (s_prefix row) as [prefix|] eqn:Hprefix.
      * pose proof (Hordered _ _ _ Hrow Hprefix) as Hlt.
        rewrite (Hflags prefix) by lia. naive_solver.
      * naive_solver.
    + assert (0 ≤ stack < tableLength flags) as Hin by lia.
      apply elemAt_is_Some in Hin as [b Hb].
      rewrite (elemAt_app_l _ _ _ _ Hb). rewrite <- Hb. apply Hflags. lia.
  - exists flags. split; [done|]. intros stack.
    destruct (decide (0 ≤ stack < tableLength (stackTable thread))) as [Hin|Hout].
    + by apply Hflags.
    + split.
      * destruct (elemAt flags stack) eqn:E; [|done].
        apply elemAt_Some in E. unfold tableLength in *. lia.
      * intros [row Hrow%elemAt_Some]%stackContainsFunc_valid.
        unfold tableLength in *. lia.
Qed.

(** C8.  [dropFunction] leaves the stack table (and the other tables) as
    they are and rewrites the [stack] columns only: a sample whose stack has
    the function in its ancestry gets [null], every other sample keeps its
    stack.  The stack table is assumed to be ordered, as the data model
    requires. *)
Theorem dropFunction_spec (thread : Thread) (funcIndexToDrop : Z) :
  stackTableOrdered (stackTable thread) →
  ∃ dropped,
    dropFunction thread funcIndexToDrop = Ok dropped
    ∧ stackTable dropped = stackTable thread
    ∧ frameTable dropped = frameTable thread
    ∧ funcTable dropped = funcTable thread
    ∧ stringTable dropped = stringTable thread
    ∧ resourceTable_name dropped = resourceTable_name thread
    ∧ Forall2 (droppedStack thread funcIndexToDrop)
        (samples thread) (samples dropped)
    ∧ option_Forall2 (Forall2 (droppedStack thread funcIndexToDrop))
        (jsAllocations thread) (jsAllocations dropped)
    ∧ option_Forall2 (Forall2 (droppedStack thread funcIndexToDrop))
        (nativeAllocations thread) (nativeAllocations dropped).
Proof.
  intros Hordered.
  destruct (dropFunctionLoop_spec thread funcIndexToDrop Hordered)
    as (flags & Hloop & Hflags).
  assert (∀ stacks, Forall2 (droppedStack thread funcIndexToDrop) stacks
                      (map (dropStack flags) stacks)) as Hcolumn.
  { intros stacks. apply Forall2_fmap_r, Forall_Forall2_diag, Forall_forall.
    intros [s|] _; unfold compose, droppedStack, dropStack.
    - specialize (Hflags s).
      destruct (default false (elemAt flags s)); split; try done.
      + intros Hno. exfalso. by apply Hno, Hflags.
      + intros Hyes. by apply Hflags in Hyes.
    - split; [done|]. done. }
  eexists. split.
  { unfold dropFunction. rewrite Hloop. simpl. apply updateThreadStacks_pure. }
  simpl. split_and!; try done.
  - destruct (jsAllocations thread); constructor. apply Hcolumn.
  - destruct (nativeAllocations thread); constructor. apply Hcolumn.
Qed.

(** ** The invariants of the rewritten stack table *)

Lemma RewriteInv_empty : RewriteInv emptyRewrite.
Proof.
  split.
  - intros stack row prefix Hrow. by apply elemAt_Some in Hrow; simpl in Hrow; lia.
  - intros oldStack newStack. unfold emptyRewrite.
    cbn [oldStackToNewStack]. by rewrite lookup_empty.
Qed.

Lemma mapGet_valid (rw : Rewrite) (key newStack : option Z) :
  RewriteInv rw →
  mapGet (oldStackToNewStack rw) key = Some newStack →
  validStack (newStackTable rw) newStack.
Proof.
  intros [_ Hmap]. destruct key as [k|]; simpl.
  - destruct newStack as [n|]; [|done]. apply Hmap.
  - by intros [= <-].
Qed.

Lemma orNull_valid (rw : Rewrite) (key : option Z) :
  RewriteInv rw →
  validStack (newStackTable rw) (orNull (mapGet (oldStackToNewStack rw) key)).
Proof.
  intros Hinv. destruct (mapGet _ key) as [v|] eqn:E; [|done].
  by eapply mapGet_valid.
Qed.

Lemma RewriteInv_redirect (rw : Rewrite) (stackIndex : Z) (newStack : option Z) :
  RewriteInv rw → validStack (newStackTable rw) newStack →
  RewriteInv (redirectStack rw stackIndex newStack).
Proof.
  intros [Hord Hmap] Hvalid. split; [done|]. simpl.
  intros oldStack n [[<- [= ->]]|[_ Hold]]%lookup_insert_Some; [done|].
  by eapply Hmap.
Qed.

Lemma RewriteInv_emit (rw : Rewrite) (stackIndex : Z) (newStackPrefix : option Z)
    (frameIndex category subcategory : Z) :
  RewriteInv rw → validStack (newStackTable rw) newStackPrefix →
  RewriteInv (emitStack rw stackIndex newStackPrefix frameIndex category subcategory).
Proof.
  intros [Hord Hmap] Hvalid. split; simpl.
  - intros stack row prefix [[-> ->]|Hrow]%elemAt_snoc Hprefix.
    + simpl in Hprefix. subst. exact Hvalid.
    + by eapply Hord.
  - unfold tableLength. rewrite length_app. simpl.
    intros oldStack n [[<- [= <-]]|[_ Hold]]%lookup_insert_Some; [lia|].
    apply Hmap in Hold. unfold tableLength in Hold. lia.
Qed.

Lemma setCategory_length (table : StackTable) (stack category subcategory : Z) :
  tableLength (setCategory table stack category subcategory) = tableLength table.
Proof.
  unfold setCategory, tableLength. destruct (elemAt table stack); [|done].
  by rewrite length_insert.
Qed.

Lemma elemAt_insert {A} (l : list A) (j i : Z) (x y : A) :
  0 ≤ j →
  elemAt (<[Z.to_nat j := x]> l) i = Some y →
  (i = j ∧ y = x ∧ j < tableLength l) ∨ (i ≠ j ∧ elemAt l i = Some y).
Proof.
  intros Hj. unfold elemAt, tableLength. case_decide as Hi; [|done].
  destruct (decide (i = j)) as [->|Hne].
  - intros Hl. left.
    assert (Z.to_nat j < length l)%nat as Hlt.
    { apply lookup_lt_Some in Hl. by rewrite length_insert in Hl. }
    rewrite list_lookup_insert_eq in Hl by done.
    split_and!; [done|congruence|lia].
  - rewrite list_lookup_insert_ne by lia. by right.
Qed.

Lemma elemAt_insert_eq {A} (l : list A) (j : Z) (x : A) :
  0 ≤ j < tableLength l → elemAt (<[Z.to_nat j := x]> l) j = Some x.
Proof.
  intros Hj. unfold elemAt, tableLength in *. rewrite decide_True by lia.
  apply list_lookup_insert_eq. lia.
Qed.

Lemma elemAt_insert_ne {A} (l : list A) (j i : Z) (x : A) :
  0 ≤ j → i ≠ j → elemAt (<[Z.to_nat j := x]> l) i = elemAt l i.
Proof.
  intros Hj Hne. unfold elemAt. case_decide; [|done].
  apply list_lookup_insert_ne. lia.
Qed.

Lemma setCategory_elemAt (table : StackTable) (stack category subcategory i : Z)
    (row : StackRow) :
  elemAt (setCategory table stack category subcategory) i = Some row →
  ∃ row0, elemAt table i = Some row0
          ∧ s_prefix row = s_prefix row0 ∧ s_frame row = s_frame row0.
Proof.
  unfold setCategory. destruct (elemAt table stack) as [old|] eqn:Hold; [|by eauto].
  pose proof (elemAt_Some _ _ _ Hold) as [Hstack _].
  intros Hrow.
  destruct (elemAt_insert _ _ _ _ _ Hstack Hrow) as [(-> & -> & _)|[_ Hrow']].
  - by exists old.
  - by eauto.
Qed.

Lemma resolveCategory_length (table : StackTable) (stack c s d : Z) :
  tableLength (resolveCategory table stack c s d) = tableLength table.
Proof.
  unfold resolveCategory. repeat case_match; by rewrite ?setCategory_length.
Qed.

Lemma resolveCategory_elemAt (table : StackTable) (stack c s d i : Z)
    (row : StackRow) :
  elemAt (resolveCategory table stack c s d) i = Some row →
  ∃ row0, elemAt table i = Some row0
          ∧ s_prefix row = s_prefix row0 ∧ s_frame row = s_frame row0.
Proof.
  unfold resolveCategory. repeat case_match; eauto using setCategory_elemAt.
Qed.

Lemma RewriteInv_resolveCategory (rw : Rewrite) (stack c s d : Z) :
  RewriteInv rw →
  RewriteInv {| newStackTable := resolveCategory (newStackTable rw) stack c s d;
                oldStackToNewStack := oldStackToNewStack rw |}.
Proof.
  intros [Hord Hmap]. split; simpl.
  - intros i row prefix (row0 & Hrow0 & Hp & _)%resolveCategory_elemAt Hprefix.
    eapply Hord; [done|congruence].
  - rewrite resolveCategory_length. exact Hmap.
Qed.

Lemma RewriteInv_table_redirect (rw : Rewrite) (table : StackTable)
    (stackIndex : Z) (newStack : option Z) :
  RewriteInv {| newStackTable := table; oldStackToNewStack := oldStackToNewStack rw |} →
  validStack table newStack →
  RewriteInv {| newStackTable := table;
                oldStackToNewStack := <[stackIndex := newStack]> (oldStackToNewStack rw) |}.
Proof.
  intros Hinv Hvalid.
  by apply (RewriteInv_redirect
    {| newStackTable := table; oldStackToNewStack := oldStackToNewStack rw |}).
Qed.

(** *** Each forward pass keeps the invariant *)

Lemma mergeCallNodeLoop_inv (thread : Thread) (callNodePath : list Z)
    (implementation : ImplementationFilter) (st : MergeCallNodeState) :
  mergeCallNodeLoop thread callNodePath implementation = Ok st →
  RewriteInv (mcn_rewrite st).
Proof.
  apply (forStacks_invariant (λ _ st, RewriteInv (mcn_rewrite st)));
    [apply RewriteInv_empty|].
  intros stackIndex row s s1 _ Hinv. unfold mergeCallNodeBody.
  intros ([[doMerge depth] matches] & _ & [= <-])%bind_Ok. simpl.
  destruct doMerge;
    [apply RewriteInv_redirect|apply RewriteInv_emit]; auto using orNull_valid.
Qed.

Lemma mergeFunctionLoop_inv (thread : Thread) (funcIndexToMerge : Z) (rw : Rewrite) :
  mergeFunctionLoop thread funcIndexToMerge = Ok rw → RewriteInv rw.
Proof.
  apply (forStacks_invariant (λ _ rw, RewriteInv rw)); [apply RewriteInv_empty|].
  intros stackIndex row s s1 _ Hinv. unfold mergeFunctionBody.
  case_match; intros [= <-];
    [apply RewriteInv_redirect|apply RewriteInv_emit]; auto using orNull_valid.
Qed.

Lemma focusFunctionLoop_inv (thread : Thread) (funcIndexToFocus : Z) (rw : Rewrite) :
  focusFunctionLoop thread funcIndexToFocus = Ok rw → RewriteInv rw.
Proof.
  apply (forStacks_invariant (λ _ rw, RewriteInv rw)); [apply RewriteInv_empty|].
  intros stackIndex row s s1 _ Hinv. unfold focusFunctionBody.
  destruct (mapGet _ _) as [newPrefix|] eqn:Hget; [|done].
  case_match; intros [= <-];
    [apply RewriteInv_emit|apply RewriteInv_redirect];
    eauto using mapGet_valid. done.
Qed.

Lemma focusSubtreeLoop_inv (thread : Thread) (callNodePath : list Z)
    (implementation : ImplementationFilter) (st : FocusSubtreeState) :
  focusSubtreeLoop thread callNodePath implementation = Ok st →
  RewriteInv (fs_rewrite st).
Proof.
  apply (forStacks_invariant (λ _ st, RewriteInv (fs_rewrite st)));
    [apply RewriteInv_empty|].
  intros stackIndex row s s1 _ Hinv. unfold focusSubtreeBody.
  intros (upTo & _ & [= <-])%bind_Ok. simpl.
  case_match; [apply RewriteInv_emit|]; auto using orNull_valid.
Qed.

Lemma collapseDirectRecursionLoop_inv (thread : Thread) (funcToCollapse : Z)
    (implementation : ImplementationFilter) (st : CollapseRecursionState) :
  collapseDirectRecursionLoop thread funcToCollapse implementation = Ok st →
  RewriteInv (rec_rewrite st).
Proof.
  apply (forStacks_invariant (λ _ st, RewriteInv (rec_rewrite st)));
    [apply RewriteInv_empty|].
  intros stackIndex row s s1 _ Hinv. unfold collapseDirectRecursionBody.
  intros (collapse & _ & Hrest)%bind_Ok.
  destruct collapse; destruct (mapGet _ _) as [v|] eqn:Hget; try done;
    injection Hrest as <-; simpl;
    [apply RewriteInv_redirect|apply RewriteInv_emit]; eauto using mapGet_valid.
Qed.

Lemma collapseFunctionSubtreeLoop_inv (thread : Thread) (funcToCollapse : Z)
    (defaultCategory : Z) (st : CollapseSubtreeState) :
  collapseFunctionSubtreeLoop thread funcToCollapse defaultCategory = Ok st →
  RewriteInv (cfs_rewrite st).
Proof.
  apply (forStacks_invariant (λ _ st, RewriteInv (cfs_rewrite st)));
    [apply RewriteInv_empty|].
  intros stackIndex row s s1 _ Hinv. unfold collapseFunctionSubtreeBody.
  case_match; destruct (mapGet _ _) as [v|] eqn:Hget; try done;
    intros [= <-]; simpl.
  - pose proof (mapGet_valid _ _ _ Hinv Hget) as Hvalid.
    destruct v as [newPrefix|].
    + apply RewriteInv_table_redirect.
      * by apply RewriteInv_resolveCategory.
      * simpl. by rewrite resolveCategory_length.
    + apply (RewriteInv_redirect (cfs_rewrite s)); done.
  - apply RewriteInv_emit; eauto using mapGet_valid.
Qed.

Lemma collapseResourceLoop_inv (thread : Thread) (resourceIndexToCollapse : Z)
    (implementation : ImplementationFilter) (defaultCategory : Z)
    (st : CollapseResourceState) :
  collapseResourceLoop thread resourceIndexToCollapse implementation
    defaultCategory = Ok st →
  RewriteInv (cr_rewrite st)
  ∧ ∀ prefix stack,
      prefixStackToCollapsedStack st !! prefix = Some (Some stack) →
      0 ≤ stack < tableLength (newStackTable (cr_rewrite st)).
Proof.
  apply (forStacks_invariant
    (λ _ st, RewriteInv (cr_rewrite st)
       ∧ ∀ prefix stack,
           prefixStackToCollapsedStack st !! prefix = Some (Some stack) →
           0 ≤ stack < tableLength (newStackTable (cr_rewrite st)))).
  { split; [apply RewriteInv_empty|]. intros ? ?.
    cbn [prefixStackToCollapsedStack]. by rewrite lookup_empty. }
  intros stackIndex row s s1 _ [Hinv Hpsc]. unfold collapseResourceBody.
  destruct (mapGet _ _) as [newStackPrefix|] eqn:Hget; [|done].
  pose proof (mapGet_valid _ _ _ Hinv Hget) as Hvalid.
  destruct (sameValue _ (Some resourceIndexToCollapse)).
  - destruct (negb _).
    + destruct (prefixStackToCollapsedStack s !! s_prefix row)
        as [[existing|]|] eqn:Hexisting; [| done |].
      * intros [= <-]. simpl. pose proof (Hpsc _ _ Hexisting) as Hex.
        split.
        -- apply RewriteInv_table_redirect.
           ++ by apply RewriteInv_resolveCategory.
           ++ simpl. by rewrite resolveCategory_length.
        -- rewrite resolveCategory_length. exact Hpsc.
      * intros [= <-]. simpl. split; [by apply RewriteInv_emit|].
        unfold tableLength. rewrite length_app. simpl.
        intros prefix stack [[_ [= <-]]|[_ Hold]]%lookup_insert_Some; [lia|].
        apply Hpsc in Hold. unfold tableLength in Hold. lia.
    + intros [= <-]. simpl. split; [by apply RewriteInv_redirect|done].
  - intros (matches & _ & Hrest)%bind_Ok.
    case_match; injection Hrest as <-; simpl.
    + split; [by apply RewriteInv_redirect|done].
    + split; [by apply RewriteInv_emit|].
      unfold tableLength. rewrite length_app. simpl.
      intros prefix stack Hold. apply Hpsc in Hold.
      unfold tableLength in Hold. lia.
Qed.

(** ** The thread that a transform returns *)

(** *** No transform runs for ever on a well-formed thread *)

Lemma bind_not_Diverge {A B} (m : result A) (f : A → result B) :
  m ≠ Diverge → (∀ a, m = Ok a → f a ≠ Diverge) → m ≫= f ≠ Diverge.
Proof. destruct m; simpl; [by eauto|done|done]. Qed.

Lemma FUNC_MATCHES_not_Diverge (implementation : ImplementationFilter)
    (thread : Thread) (funcIndex : option Z) :
  FUNC_MATCHES implementation thread funcIndex ≠ Diverge.
Proof.
  unfold FUNC_MATCHES, getString. destruct implementation; try done.
  repeat case_match; done.
Qed.

Ltac not_diverge :=
  repeat first
    [ done
    | apply FUNC_MATCHES_not_Diverge
    | apply bind_not_Diverge; [|intros ? _]
    | case_match
    | progress simpl ].

Lemma forStacks_not_Diverge {S : Type} (body : Z → StackRow → S → result S)
    (stackIndex : Z) (rows : list StackRow) (st : S) :
  (∀ i row s, body i row s ≠ Diverge) →
  forStacks body stackIndex rows st ≠ Diverge.
Proof.
  intros Hbody. revert stackIndex st.
  induction rows as [|row rows IH]; intros stackIndex st; [done|].
  simpl. apply bind_not_Diverge; [apply Hbody|]. intros. apply IH.
Qed.

Lemma mapStacks_not_Diverge {S : Type} (convertStack : StackUpdater S)
    (Inv : S → Prop) (Q : option Z → Prop) (stacks : list (option Z)) (st : S) :
  (∀ oldStack s, Q oldStack → Inv s →
     convertStack oldStack s ≠ Diverge
     ∧ ∀ newStack s', convertStack oldStack s = Ok (newStack, s') → Inv s') →
  Forall Q stacks → Inv st →
  mapStacks convertStack stacks st ≠ Diverge
  ∧ ∀ stacks' st', mapStacks convertStack stacks st = Ok (stacks', st') → Inv st'.
Proof.
  intros Hconv Hall. revert st.
  induction Hall as [|s l Hs Hl IH]; intros st Hinv.
  - split; [done|]. simpl. by intros ? ? [= <- <-].
  - destruct (Hconv s st Hs Hinv) as [Hnd Hnext]. simpl. split.
    + apply bind_not_Diverge; [done|]. intros [v st1] Hv.
      destruct (IH st1 (Hnext _ _ Hv)) as [Hnd' _].
      apply bind_not_Diverge; [done|]. by intros [? ?] _.
    + intros stacks' st' ([v st1] & Hv & Hrest)%bind_Ok.
      apply bind_Ok in Hrest as ([l' st2] & Hl' & [= <- <-]).
      destruct (IH st1 (Hnext _ _ Hv)) as [_ Hfinal]. by eapply Hfinal.
Qed.

Lemma updateThreadStacks_not_Diverge {S : Type} (convertStack : StackUpdater S)
    (Inv : S → Prop) (Q : option Z → Prop) (thread : Thread)
    (table : StackTable) (st : S) :
  (∀ oldStack s, Q oldStack → Inv s →
     convertStack oldStack s ≠ Diverge
     ∧ ∀ newStack s', convertStack oldStack s = Ok (newStack, s') → Inv s') →
  Forall (Forall Q) (sampleLikeTables thread) → Inv st →
  updateThreadStacks thread table convertStack st ≠ Diverge.
Proof.
  intros Hconv Hall Hinv. unfold sampleLikeTables in Hall.
  apply Forall_cons in Hall as [Hsmp Hall].
  apply Forall_app in Hall as [Hjs Hna].
  unfold updateThreadStacks.
  destruct (mapStacks_not_Diverge _ _ _ _ _ Hconv Hsmp Hinv) as [Hnd1 Hinv1].
  apply bind_not_Diverge; [done|]. intros [smp st1] Hsmp'.
  specialize (Hinv1 _ _ Hsmp').
  assert (mapStacksOpt convertStack (jsAllocations thread) st1 ≠ Diverge
          ∧ ∀ r st2, mapStacksOpt convertStack (jsAllocations thread) st1
                     = Ok (r, st2) → Inv st2) as [Hnd2 Hinv2].
  { unfold mapStacksOpt. destruct (jsAllocations thread) as [l|].
    - apply Forall_cons in Hjs as [Hl _].
      destruct (mapStacks_not_Diverge _ _ _ _ _ Hconv Hl Hinv1) as [Hnd Hnext].
      split.
      + apply bind_not_Diverge; [done|]. by intros [? ?] _.
      + intros r st2 ([l' s'] & Hl' & [= <- <-])%bind_Ok. by eapply Hnext.
    - split; [done|]. by intros ? ? [= <- <-]. }
  apply bind_not_Diverge; [done|]. intros [js st2] Hjs'.
  specialize (Hinv2 _ _ Hjs').
  apply bind_not_Diverge; [|by intros [? ?] _].
  unfold mapStacksOpt. destruct (nativeAllocations thread) as [l|]; [|done].
  apply Forall_cons in Hna as [Hl _].
  destruct (mapStacks_not_Diverge _ _ _ _ _ Hconv Hl Hinv2) as [Hnd _].
  apply bind_not_Diverge; [done|]. by intros [? ?] _.
Qed.

Lemma getMapStackUpdater_not_Diverge (oldStackToNewStack : StackMap)
    (oldStack : option Z) (u : unit) :
  getMapStackUpdater oldStackToNewStack oldStack u ≠ Diverge
  ∧ ∀ newStack u', getMapStackUpdater oldStackToNewStack oldStack u
                   = Ok (newStack, u') → True.
Proof. unfold getMapStackUpdater. by case_match. Qed.

Lemma rewrite_not_Diverge (thread : Thread) (table : StackTable)
    (oldStackToNewStack : StackMap) :
  updateThreadStacks thread table (getMapStackUpdater oldStackToNewStack) ()
  ≠ Diverge.
Proof.
  apply (updateThreadStacks_not_Diverge _ (λ _, True) (λ _, True)); [|..|done].
  - intros. apply getMapStackUpdater_not_Diverge.
  - apply Forall_forall. intros ? _. by apply Forall_forall.
Qed.

Lemma mergeCallNode_not_Diverge thread callNodePath implementation :
  mergeCallNode thread callNodePath implementation ≠ Diverge.
Proof.
  unfold mergeCallNode. apply bind_not_Diverge; [|intros; apply rewrite_not_Diverge].
  apply forStacks_not_Diverge. intros. unfold mergeCallNodeBody. not_diverge.
Qed.

Lemma mergeFunction_not_Diverge thread funcIndex :
  mergeFunction thread funcIndex ≠ Diverge.
Proof.
  unfold mergeFunction. apply bind_not_Diverge; [|intros; apply rewrite_not_Diverge].
  apply forStacks_not_Diverge. intros. unfold mergeFunctionBody. not_diverge.
Qed.

Lemma focusFunction_not_Diverge thread funcIndex :
  focusFunction thread funcIndex ≠ Diverge.
Proof.
  unfold focusFunction. apply bind_not_Diverge; [|intros; apply rewrite_not_Diverge].
  apply forStacks_not_Diverge. intros. unfold focusFunctionBody. not_diverge.
Qed.

Lemma collapseResource_not_Diverge thread resourceIndex implementation defaultCategory :
  collapseResource thread resourceIndex implementation defaultCategory ≠ Diverge.
Proof.
  unfold collapseResource.
  apply bind_not_Diverge; [|intros; apply rewrite_not_Diverge].
  apply forStacks_not_Diverge. intros. unfold collapseResourceBody. not_diverge.
Qed.

Lemma collapseDirectRecursion_not_Diverge thread funcIndex implementation :
  collapseDirectRecursion thread funcIndex implementation ≠ Diverge.
Proof.
  unfold collapseDirectRecursion.
  apply bind_not_Diverge; [|intros; apply rewrite_not_Diverge].
  apply forStacks_not_Diverge. intros. unfold collapseDirectRecursionBody.
  not_diverge.
Qed.

Lemma collapseFunctionSubtree_not_Diverge thread funcIndex defaultCategory :
  collapseFunctionSubtree thread funcIndex defaultCategory ≠ Diverge.
Proof.
  unfold collapseFunctionSubtree.
  apply bind_not_Diverge; [|intros; apply rewrite_not_Diverge].
  apply forStacks_not_Diverge. intros. unfold collapseFunctionSubtreeBody.
  not_diverge.
Qed.

Lemma focusSubtree_not_Diverge thread callNodePath implementation :
  focusSubtree thread callNodePath implementation ≠ Diverge.
Proof.
  unfold focusSubtree. apply bind_not_Diverge.
  - apply forStacks_not_Diverge. intros. unfold focusSubtreeBody. not_diverge.
  - intros st _.
    apply (updateThreadStacks_not_Diverge _ (λ _, True) (λ _, True)); [|..|done].
    + intros oldStack u _ _. split; [|done].
      unfold focusSubtreeUpdater. not_diverge.
    + apply Forall_forall. intros ? _. by apply Forall_forall.
Qed.

Lemma dropFunction_not_Diverge thread funcIndex :
  dropFunction thread funcIndex ≠ Diverge.
Proof.
  unfold dropFunction.
  destruct (dropFunctionLoop_returns thread funcIndex) as [flags ->]. simpl.
  by rewrite updateThreadStacks_pure.
Qed.

(** The walk of [convertStack] ends on an ordered table: each step goes to
    a lower index. *)
Lemma convertStackFrom_not_Diverge (thread : Thread) (path : list Z)
    (implementation : ImplementationFilter) (fuel : nat) (stack depth : Z) :
  stackTableOrdered (stackTable thread) →
  0 ≤ stack < tableLength (stackTable thread) →
  stack < Z.of_nat fuel →
  convertStackFrom thread path implementation fuel stack depth ≠ Diverge.
Proof.
  intros Hord. revert stack depth.
  induction fuel as [|fuel IH]; intros stack depth Hvalid Hfuel; [lia|].
  simpl. destruct (elemAt_is_Some _ _ Hvalid) as [row Hrow]. rewrite Hrow.
  assert (∀ d, match s_prefix row with
               | Some prefix =>
                   convertStackFrom thread path implementation fuel prefix d
               | None => Ok None
               end ≠ Diverge) as Hnext.
  { intros d. destruct (s_prefix row) as [prefix|] eqn:Hprefix; [|done].
    pose proof (Hord _ _ _ Hrow Hprefix). apply IH; lia. }
  destruct (sameValue _ _).
  - destruct (bool_decide _); [done|apply Hnext].
  - apply bind_not_Diverge; [apply FUNC_MATCHES_not_Diverge|].
    intros [] _; [done|apply Hnext].
Qed.

Lemma walkBound_rows (thread : Thread) (path : list Z) :
  (length (stackTable thread) < walkBound thread path)%nat.
Proof. unfold walkBound. lia. Qed.

Lemma convertStackFrom_valid (thread : Thread) (path : list Z)
    (implementation : ImplementationFilter) (fuel : nat) (stack depth : Z)
    (newStack : option Z) :
  convertStackFrom thread path implementation fuel stack depth = Ok newStack →
  validStack (stackTable thread) newStack.
Proof.
  revert stack depth. induction fuel as [|fuel IH]; intros stack depth; [done|].
  simpl. destruct (elemAt (stackTable thread) stack) as [row|] eqn:Hrow.
  - assert (∀ d, match s_prefix row with
                 | Some prefix =>
                     convertStackFrom thread path implementation fuel prefix d
                 | None => Ok None
                 end = Ok newStack → validStack (stackTable thread) newStack)
      as Hnext.
    { intros d. destruct (s_prefix row) as [prefix|]; [apply IH|].
      by intros [= <-]. }
    destruct (sameValue _ _).
    + destruct (bool_decide _); [|apply Hnext].
      intros [= <-]. simpl. by apply elemAt_Some in Hrow.
    + intros (matches & _ & Hrest)%bind_Ok.
      destruct matches; [by injection Hrest as <-|by eapply Hnext].
  - case_match; [done|].
    intros (matches & _ & Hrest)%bind_Ok. destruct matches; [|done].
    by injection Hrest as <-.
Qed.

Lemma focusInvertedSubtreeUpdater_valid (thread : Thread) (path : list Z)
    (implementation : ImplementationFilter) (oldStack newStack : option Z)
    (cache cache' : StackMap) :
  cacheValid (stackTable thread) cache →
  focusInvertedSubtreeUpdater thread path implementation oldStack cache
    = Ok (newStack, cache') →
  validStack (stackTable thread) newStack ∧ cacheValid (stackTable thread) cache'.
Proof.
  intros Hcache. unfold focusInvertedSubtreeUpdater.
  destruct oldStack as [leaf|]; [|by intros [= <- <-]].
  destruct (cache !! leaf) as [v|] eqn:Hleaf.
  - intros [= <- <-]. split; [by eapply Hcache|done].
  - intros (v & Hv%convertStackFrom_valid & [= <- <-])%bind_Ok.
    split; [done|].
    intros k w [[<- <-]|[_ Hold]]%lookup_insert_Some; [done|by eapply Hcache].
Qed.

Lemma focusInvertedSubtree_not_Diverge thread path implementation :
  stackTableOrdered (stackTable thread) → samplesValid thread →
  focusInvertedSubtree thread path implementation ≠ Diverge.
Proof.
  intros Hord Hvalid. unfold focusInvertedSubtree.
  apply (updateThreadStacks_not_Diverge _ (cacheValid (stackTable thread))
           (validStack (stackTable thread))); [|done|done].
  intros oldStack cache Hold Hcache. split.
  - unfold focusInvertedSubtreeUpdater.
    destruct oldStack as [leaf|]; [|done]. destruct (cache !! leaf); [done|].
    apply bind_not_Diverge; [|done]. unfold convertStack.
    simpl in Hold. apply convertStackFrom_not_Diverge; [done|done|].
    pose proof (walkBound_rows thread path). unfold tableLength in Hold. lia.
  - intros newStack cache' Hrun.
    by eapply focusInvertedSubtreeUpdater_valid.
Qed.

Lemma applyTransform_not_Diverge (thread : Thread) (transform : Transform)
    (defaultCategory : Z) :
  stackTableOrdered (stackTable thread) → samplesValid thread →
  applyTransform thread transform defaultCategory ≠ Diverge.
Proof.
  intros Hord Hvalid. destruct transform as [path impl [|]| | | | | | |]; simpl.
  - by apply focusInvertedSubtree_not_Diverge.
  - apply focusSubtree_not_Diverge.
  - apply focusFunction_not_Diverge.
  - apply mergeCallNode_not_Diverge.
  - apply mergeFunction_not_Diverge.
  - apply dropFunction_not_Diverge.
  - apply collapseResource_not_Diverge.
  - apply collapseDirectRecursion_not_Diverge.
  - apply collapseFunctionSubtree_not_Diverge.
Qed.

(** *** The returned thread is well formed *)

Lemma Forall2_right {A B} (Q : B → Prop) (l : list A) (k : list B) :
  Forall2 (λ _ y, Q y) l k → Forall Q k.
Proof. induction 1; by constructor. Qed.

Lemma samplesValid_related (thread thread' : Thread) :
  Forall2 (Forall2 (λ _ newStack, validStack (stackTable thread') newStack))
    (sampleLikeTables thread) (sampleLikeTables thread') →
  samplesValid thread'.
Proof.
  intros Hrel. unfold samplesValid.
  apply (Forall2_right _ (sampleLikeTables thread)).
  eapply Forall2_impl; [exact Hrel|]. intros ? ?. apply Forall2_right.
Qed.

(** A thread rewritten through [oldStackToNewStack]: the new table is
    ordered and every sample refers into it. *)
Lemma rewritten_thread (thread thread' : Thread) (rw : Rewrite) :
  RewriteInv rw →
  updateThreadStacks thread (newStackTable rw)
    (getMapStackUpdater (oldStackToNewStack rw)) () = Ok thread' →
  stackTableOrdered (stackTable thread') ∧ samplesValid thread'.
Proof.
  intros Hinv Hupdate.
  apply (updateThreadStacks_related _ (λ _, True)
           (λ _ newStack, validStack (newStackTable rw) newStack)) in Hupdate
    as (Htable & _ & _ & _ & _ & Hrel); [| |done].
  - rewrite Htable. split; [apply Hinv|].
    apply (samplesValid_related thread). by rewrite Htable.
  - intros oldStack u newStack u' _. unfold getMapStackUpdater.
    destruct (mapGet _ oldStack) as [v|] eqn:Hget; [|done].
    intros [= <- <-]. split; [|done]. by eapply mapGet_valid.
Qed.

Lemma mergeCallNode_wf thread callNodePath implementation thread' :
  mergeCallNode thread callNodePath implementation = Ok thread' →
  stackTableOrdered (stackTable thread') ∧ samplesValid thread'.
Proof.
  unfold mergeCallNode. intros (st & Hloop%mergeCallNodeLoop_inv & Hup)%bind_Ok.
  by eapply rewritten_thread.
Qed.

Lemma mergeFunction_wf thread funcIndex thread' :
  mergeFunction thread funcIndex = Ok thread' →
  stackTableOrdered (stackTable thread') ∧ samplesValid thread'.
Proof.
  unfold mergeFunction. intros (st & Hloop%mergeFunctionLoop_inv & Hup)%bind_Ok.
  by eapply rewritten_thread.
Qed.

Lemma focusFunction_wf thread funcIndex thread' :
  focusFunction thread funcIndex = Ok thread' →
  stackTableOrdered (stackTable thread') ∧ samplesValid thread'.
Proof.
  unfold focusFunction. intros (st & Hloop%focusFunctionLoop_inv & Hup)%bind_Ok.
  by eapply rewritten_thread.
Qed.

Lemma collapseResource_wf thread resourceIndex implementation defaultCategory thread' :
  collapseResource thread resourceIndex implementation defaultCategory = Ok thread' →
  stackTableOrdered (stackTable thread') ∧ samplesValid thread'.
Proof.
  unfold collapseResource.
  intros (st & [Hloop _]%collapseResourceLoop_inv & Hup)%bind_Ok.
  by eapply rewritten_thread.
Qed.

Lemma collapseDirectRecursion_wf thread funcIndex implementation thread' :
  collapseDirectRecursion thread funcIndex implementation = Ok thread' →
  stackTableOrdered (stackTable thread') ∧ samplesValid thread'.
Proof.
  unfold collapseDirectRecursion.
  intros (st & Hloop%collapseDirectRecursionLoop_inv & Hup)%bind_Ok.
  by eapply rewritten_thread.
Qed.

Lemma collapseFunctionSubtree_wf thread funcIndex defaultCategory thread' :
  collapseFunctionSubtree thread funcIndex defaultCategory = Ok thread' →
  stackTableOrdered (stackTable thread') ∧ samplesValid thread'.
Proof.
  unfold collapseFunctionSubtree.
  intros (st & Hloop%collapseFunctionSubtreeLoop_inv & Hup)%bind_Ok.
  by eapply rewritten_thread.
Qed.

Lemma focusSubtree_wf thread callNodePath implementation thread' :
  focusSubtree thread callNodePath implementation = Ok thread' →
  stackTableOrdered (stackTable thread') ∧ samplesValid thread'.
Proof.
  unfold focusSubtree. intros (st & Hinv%focusSubtreeLoop_inv & Hup)%bind_Ok.
  apply (updateThreadStacks_related _ (λ _, True)
           (λ _ newStack, validStack (newStackTable (fs_rewrite st)) newStack))
    in Hup as (Htable & _ & _ & _ & _ & Hrel); [| |done].
  - rewrite Htable. split; [apply Hinv|].
    apply (samplesValid_related thread). by rewrite Htable.
  - intros oldStack u newStack u' _. unfold focusSubtreeUpdater.
    destruct oldStack as [s|]; [|by intros [= <- <-]].
    destruct (negb _); [by intros [= <- <-]|].
    destruct (oldStackToNewStack (fs_rewrite st) !! s) as [v|] eqn:Hget; [|done].
    intros [= <- <-]. split; [|done].
    by apply (mapGet_valid _ (Some s) v Hinv).
Qed.

(** The two transforms that keep the stack table need the thread they get
    to be well formed. *)
Lemma dropFunction_wf thread funcIndex thread' :
  dropFunction thread funcIndex = Ok thread' →
  stackTable thread' = stackTable thread
  ∧ (samplesValid thread → samplesValid thread').
Proof.
  unfold dropFunction. intros (flags & _ & Hup)%bind_Ok.
  rewrite updateThreadStacks_pure in Hup. injection Hup as <-.
  split; [done|]. unfold samplesValid, sampleLikeTables. simpl.
  assert (∀ stacks, Forall (validStack (stackTable thread)) stacks →
                    Forall (validStack (stackTable thread))
                      (map (dropStack flags) stacks)) as Hcolumn.
  { intros stacks Hall. apply Forall_fmap. eapply Forall_impl; [exact Hall|].
    intros [s|]; [|done]. simpl. by destruct (default false _). }
  intros [Hsmp [Hjs Hna]%Forall_app]%Forall_cons.
  constructor; [by apply Hcolumn|]. apply Forall_app. split.
  - destruct (jsAllocations thread); [|done]. simpl in *.
    apply Forall_cons in Hjs as [Hl _]. repeat constructor. by apply Hcolumn.
  - destruct (nativeAllocations thread); [|done]. simpl in *.
    apply Forall_cons in Hna as [Hl _]. repeat constructor. by apply Hcolumn.
Qed.

Lemma focusInvertedSubtree_wf thread path implementation thread' :
  focusInvertedSubtree thread path implementation = Ok thread' →
  stackTable thread' = stackTable thread ∧ samplesValid thread'.
Proof.
  unfold focusInvertedSubtree. intros Hup.
  apply (updateThreadStacks_related _ (cacheValid (stackTable thread))
           (λ _ newStack, validStack (stackTable thread) newStack)) in Hup
    as (Htable & _ & _ & _ & _ & Hrel).
  - split; [done|]. apply (samplesValid_related thread). by rewrite Htable.
  - intros oldStack cache newStack cache' Hcache Hrun.
    by eapply focusInvertedSubtreeUpdater_valid.
  - intros leaf newStack. by rewrite lookup_empty.
Qed.

Lemma applyTransform_wf (thread : Thread) (transform : Transform)
    (defaultCategory : Z) (thread' : Thread) :
  applyTransform thread transform defaultCategory = Ok thread' →
  (stackTableOrdered (stackTable thread) → stackTableOrdered (stackTable thread'))
  ∧ (samplesValid thread → samplesValid thread').
Proof.
  destruct transform as [path impl [|]| | | | | | |]; simpl; intros Hrun.
  - apply focusInvertedSubtree_wf in Hrun as [-> ?]. by split.
  - apply focusSubtree_wf in Hrun as [? ?]. by split.
  - apply focusFunction_wf in Hrun as [? ?]. by split.
  - apply mergeCallNode_wf in Hrun as [? ?]. by split.
  - apply mergeFunction_wf in Hrun as [? ?]. by split.
  - apply dropFunction_wf in Hrun as [-> ?]. by split.
  - apply collapseResource_wf in Hrun as [? ?]. by split.
  - apply collapseDirectRecursion_wf in Hrun as [? ?]. by split.
  - apply collapseFunctionSubtree_wf in Hrun as [? ?]. by split.
Qed.

(** C1.  After any transform every sample-like row refers to [null] or to a
    row of the returned thread's own stack table.  The thread given has an
    ordered stack table and samples that refer into it; on such a thread no
    transform runs for ever. *)
Theorem applyTransform_samples_valid (thread : Thread) (transform : Transform)
    (defaultCategory : Z) :
  stackTableOrdered (stackTable thread) →
  samplesValid thread →
  applyTransform thread transform defaultCategory ≠ Diverge
  ∧ ∀ thread',
      applyTransform thread transform defaultCategory = Ok thread' →
      samplesValid thread'.
Proof.
  intros Hord Hvalid. split; [by apply applyTransform_not_Diverge|].
  intros thread' Hrun. by apply (applyTransform_wf _ _ _ _ Hrun).
Qed.

(** C2.  Every transform preserves the ordering invariant: in the stack
    table of the returned thread each [prefix] is [null] or the index of an
    earlier row.  (When the samples of the thread given refer into its
    table, the transform does not run for ever either.) *)
Theorem applyTransform_ordered (thread : Thread) (transform : Transform)
    (defaultCategory : Z) :
  stackTableOrdered (stackTable thread) →
  (samplesValid thread →
   applyTransform thread transform defaultCategory ≠ Diverge)
  ∧ ∀ thread',
      applyTransform thread transform defaultCategory = Ok thread' →
      ∀ stack row prefix,
        elemAt (stackTable thread') stack = Some row →
        s_prefix row = Some prefix → 0 ≤ prefix < stack.
Proof.
  intros Hord. split; [by apply applyTransform_not_Diverge|].
  intros thread' Hrun. by apply (applyTransform_wf _ _ _ _ Hrun).
Qed.

(** ** collapse-resource *)

Lemma take_step (table : StackTable) (n : Z) (row : StackRow) :
  elemAt table n = Some row →
  take (Z.to_nat (n + 1)) table = take (Z.to_nat n) table ++ [row].
Proof.
  unfold elemAt. case_decide as Hn; [|done]. intros Hl.
  replace (Z.to_nat (n + 1)) with (S (Z.to_nat n)) by lia.
  by apply take_S_r.
Qed.

Lemma elem_of_take_elemAt (table : StackTable) (n : Z) (row : StackRow) :
  row ∈ take (Z.to_nat n) table →
  ∃ stack, 0 ≤ stack < n ∧ elemAt table stack = Some row.
Proof.
  intros (i & Hi)%list_elem_of_lookup.
  apply lookup_take_Some in Hi as [Hl Hlt].
  exists (Z.of_nat i). split; [lia|].
  unfold elemAt. rewrite decide_True by lia. by rewrite Nat2Z.id.
Qed.

Lemma siblingsInResource_snoc thread resourceIndex parent rows row :
  siblingsInResource thread resourceIndex parent (rows ++ [row]) =
  siblingsInResource thread resourceIndex parent rows
    ++ (if decide (s_prefix row = parent ∧ inResource thread resourceIndex row)
        then [row] else []).
Proof.
  unfold siblingsInResource. rewrite filter_app. f_equal.
Qed.

Lemma mergedCategory_snoc (defaultCategory : Z) (stacks : list (Z * Z)) (x : Z * Z) :
  mergedCategory defaultCategory (stacks ++ [x]) =
  match mergedCategory defaultCategory stacks with
  | Some node => Some (mergeCategory defaultCategory node x)
  | None => Some x
  end.
Proof.
  destruct stacks as [|first rest]; [done|].
  simpl. by rewrite fold_left_app.
Qed.

(** What [resolveCategory] writes at [stack], and that it writes nowhere
    else. *)
Lemma resolveCategory_at (table : StackTable) (stack c s d : Z) (row : StackRow) :
  elemAt table stack = Some row →
  ∃ row', elemAt (resolveCategory table stack c s d) stack = Some row'
          ∧ s_prefix row' = s_prefix row ∧ s_frame row' = s_frame row
          ∧ categoryOf row' = mergeCategory d (categoryOf row) (c, s).
Proof.
  intros Hrow. pose proof (elemAt_Some _ _ _ Hrow) as Hstack.
  unfold resolveCategory, setCategory, mergeCategory, sameValue, categoryOf.
  rewrite Hrow. simpl.
  destruct (decide (s_category row ≠ c)) as [Hc|Hc].
  - rewrite bool_decide_false by congruence. simpl.
    eexists. split; [by apply elemAt_insert_eq|done].
  - apply dec_stable in Hc. rewrite bool_decide_true by congruence. simpl.
    destruct (decide (s_subcategory row ≠ s)) as [Hs|Hs].
    + rewrite bool_decide_false by congruence. simpl.
      eexists. split; [by apply elemAt_insert_eq|done].
    + apply dec_stable in Hs. rewrite bool_decide_true by congruence. simpl.
      exists row. by destruct row.
Qed.

Lemma resolveCategory_other (table : StackTable) (stack c s d i : Z) :
  i ≠ stack →
  elemAt (resolveCategory table stack c s d) i = elemAt table i.
Proof.
  intros Hne. unfold resolveCategory, setCategory.
  destruct (elemAt table stack) as [row|] eqn:Hrow;
    [|by repeat case_match].
  pose proof (elemAt_Some _ _ _ Hrow) as [Hstack _].
  repeat case_match; try done; by apply elemAt_insert_ne.
Qed.

Lemma resolveCategory_frame (table : StackTable) (stack c s d i f : Z) :
  (∃ row, elemAt table i = Some row ∧ s_frame row = f) →
  ∃ row, elemAt (resolveCategory table stack c s d) i = Some row ∧ s_frame row = f.
Proof.
  intros (row & Hrow & Hf). destruct (decide (i = stack)) as [->|Hne].
  - destruct (resolveCategory_at table stack c s d row Hrow) as (row' & ? & ? & ? & ?).
    exists row'. split; [done|congruence].
  - exists row. by rewrite resolveCategory_other.
Qed.

Lemma mapGet_insert_ne (map : StackMap) (n : Z) (v : option Z) (key : option Z) :
  key ≠ Some n → mapGet (<[n := v]> map) key = mapGet map key.
Proof.
  intros Hne. destruct key as [k|]; [|done]. simpl.
  apply lookup_insert_ne. congruence.
Qed.

Section CollapseResource.

Variable thread : Thread.
Variables (resourceIndex defaultCategory : Z).
Variable implementation : ImplementationFilter.

Abbreviation Inv := (CollapseResourceInv thread resourceIndex defaultCategory).

Lemma cri_initial :
  Inv 0 {| cr_rewrite := emptyRewrite;
           newFrameTable := frameTable thread;
           newFuncTable := funcTable thread;
           prefixStackToCollapsedStack := ∅;
           collapsedStacks := ∅;
           collapsedFrameIndex := None;
           collapsedFuncIndex := None |}.
Proof.
  constructor; simpl.
  - apply RewriteInv_empty.
  - intros; lia.
  - intros. apply lookup_empty.
  - intros node. split; [set_solver|]. intros [parent Hp].
    by rewrite lookup_empty in Hp.
  - set_solver.
  - intros parent. by rewrite lookup_empty.
  - intros parent parent' node Hp. by rewrite lookup_empty in Hp.
  - intros parent node Hp. by rewrite lookup_empty in Hp.
  - intros; lia.
  - intros parent node Hp. by rewrite lookup_empty in Hp.
  - by left.
Qed.

(** Facts that every step uses. *)
Lemma cri_key_visited n st key v :
  Inv n st →
  mapGet (oldStackToNewStack (cr_rewrite st)) key = Some v → key ≠ Some n.
Proof.
  intros Hinv Hget ->. simpl in Hget.
  rewrite (cri_unmapped _ _ _ _ _ Hinv n) in Hget by lia. done.
Qed.

Lemma cri_collapsed_lt n st node :
  Inv n st → node ∈ collapsedStacks st →
  0 ≤ node < tableLength (newStackTable (cr_rewrite st)).
Proof.
  intros Hinv Hnode.
  destruct (cri_collapsed_valid _ _ _ _ _ Hinv node Hnode) as (row & Hrow & _).
  by apply elemAt_Some in Hrow.
Qed.

Lemma setHas_fresh (set : gset Z) (table : StackTable) (v : option Z) :
  validStack table v →
  setHas ({[tableLength table]} ∪ set) v = setHas set v.
Proof.
  destruct v as [s|]; [|done]. simpl. intros Hs.
  apply bool_decide_ext. set_solver by lia.
Qed.

Lemma cri_mapped_step n (map : StackMap) (v : Z) :
  0 ≤ n →
  (∀ stack, 0 ≤ stack < n → ∃ node, map !! stack = Some (Some node)) →
  ∀ stack, 0 ≤ stack < n + 1 →
    ∃ node, <[n := Some v]> map !! stack = Some (Some node).
Proof.
  intros Hn Hold stack Hstack. destruct (decide (stack = n)) as [->|Hne].
  - exists v. apply lookup_insert_eq.
  - rewrite lookup_insert_ne by done. apply Hold. lia.
Qed.

Lemma cri_unmapped_step n (map : StackMap) (v : option Z) :
  0 ≤ n →
  (∀ stack, ¬ 0 ≤ stack < n → map !! stack = None) →
  ∀ stack, ¬ 0 ≤ stack < n + 1 → <[n := v]> map !! stack = None.
Proof.
  intros Hn Hold stack Hstack.
  rewrite lookup_insert_ne by lia. apply Hold. lia.
Qed.

(** A stack that is mapped to the node of its parent. *)
Lemma cri_redirect n row st node :
  Inv n st → elemAt (stackTable thread) n = Some row →
  mapGet (oldStackToNewStack (cr_rewrite st)) (s_prefix row) = Some (Some node) →
  (inResource thread resourceIndex row → node ∈ collapsedStacks st) →
  Inv (n + 1) (cr_withRewrite st (redirectStack (cr_rewrite st) n (Some node))).
Proof.
  intros Hinv Hrow Hget Hres.
  pose proof (elemAt_Some _ _ _ Hrow) as [Hn _].
  pose proof (mapGet_valid _ _ _ (cri_rewrite _ _ _ _ _ Hinv) Hget) as Hvalid.
  constructor; simpl.
  - by apply RewriteInv_redirect; [apply Hinv|].
  - apply cri_mapped_step; [done|apply Hinv].
  - apply cri_unmapped_step; [done|apply Hinv].
  - apply Hinv.
  - apply Hinv.
  - apply Hinv.
  - apply Hinv.
  - intros parent node' Hp.
    destruct (cri_parent _ _ _ _ _ Hinv _ _ Hp) as (newParent & Hnp & Hhas).
    exists newParent. split; [|done].
    rewrite mapGet_insert_ne; [done|by eapply cri_key_visited].
  - intros stack row' Hstack Hrow' Hin.
    destruct (decide (stack = n)) as [->|Hne].
    + assert (row' = row) as -> by congruence.
      exists (Some node), node.
      rewrite mapGet_insert_ne by by eapply cri_key_visited.
      rewrite lookup_insert_eq. split_and!; try done; [by apply Hres|].
      simpl. rewrite bool_decide_true by by apply Hres. done.
    + destruct (cri_siblings _ _ _ _ _ Hinv stack row') as
        (newParent & node' & Hnp & Hmap & Hnode & Hcase); [lia|done|done|].
      exists newParent, node'.
      rewrite mapGet_insert_ne by by eapply cri_key_visited.
      by rewrite lookup_insert_ne.
  - intros parent node' Hp.
    rewrite (cri_category _ _ _ _ _ Hinv _ _ Hp).
    rewrite (take_step _ _ _ Hrow), siblingsInResource_snoc.
    case_decide as Hsib; [|by rewrite app_nil_r].
    destruct Hsib as [<- Hin].
    destruct (cri_parent _ _ _ _ _ Hinv _ _ Hp) as (newParent & Hnp & Hhas).
    rewrite Hget in Hnp. injection Hnp as <-. simpl in Hhas.
    apply bool_decide_eq_false in Hhas. by specialize (Hres Hin).
  - apply Hinv.
Qed.

(** A stack outside the resource that is copied. *)
Lemma cri_copy n row st newStackPrefix :
  Inv n st → elemAt (stackTable thread) n = Some row →
  mapGet (oldStackToNewStack (cr_rewrite st)) (s_prefix row) = Some newStackPrefix →
  ¬ inResource thread resourceIndex row →
  Inv (n + 1)
    (cr_withRewrite st
       (emitStack (cr_rewrite st) n newStackPrefix
          (s_frame row) (s_category row) (s_subcategory row))).
Proof.
  intros Hinv Hrow Hget Hres.
  pose proof (elemAt_Some _ _ _ Hrow) as [Hn _].
  pose proof (mapGet_valid _ _ _ (cri_rewrite _ _ _ _ _ Hinv) Hget) as Hvalid.
  constructor; simpl.
  - by apply RewriteInv_emit; [apply Hinv|].
  - apply cri_mapped_step; [done|apply Hinv].
  - apply cri_unmapped_step; [done|apply Hinv].
  - apply Hinv.
  - intros node Hnode.
    destruct (cri_collapsed_valid _ _ _ _ _ Hinv node Hnode) as (r & Hr & Hf).
    exists r. split; [by apply elemAt_app_l|done].
  - apply Hinv.
  - apply Hinv.
  - intros parent node' Hp.
    destruct (cri_parent _ _ _ _ _ Hinv _ _ Hp) as (newParent & Hnp & Hhas).
    exists newParent. split; [|done].
    rewrite mapGet_insert_ne; [done|by eapply cri_key_visited].
  - intros stack row' Hstack Hrow' Hin.
    destruct (decide (stack = n)) as [->|Hne].
    + assert (row' = row) as -> by congruence. done.
    + destruct (cri_siblings _ _ _ _ _ Hinv stack row') as
        (newParent & node' & Hnp & Hmap & Hnode & Hcase); [lia|done|done|].
      exists newParent, node'.
      rewrite mapGet_insert_ne by by eapply cri_key_visited.
      by rewrite lookup_insert_ne.
  - intros parent node' Hp.
    assert (node' ∈ collapsedStacks st) as Hnode
      by (apply (cri_collapsed _ _ _ _ _ Hinv); eauto).
    destruct (cri_collapsed_valid _ _ _ _ _ Hinv node' Hnode) as (r & Hr & _).
    rewrite (elemAt_app_l _ _ _ _ Hr), <- Hr.
    rewrite (cri_category _ _ _ _ _ Hinv _ _ Hp).
    rewrite (take_step _ _ _ Hrow), siblingsInResource_snoc.
    rewrite decide_False by tauto. by rewrite app_nil_r.
  - apply Hinv.
Qed.

(** A stack of the resource that joins the node made for an earlier
    sibling. *)
Lemma cri_join n row st newStackPrefix existing :
  Inv n st → elemAt (stackTable thread) n = Some row →
  mapGet (oldStackToNewStack (cr_rewrite st)) (s_prefix row) = Some newStackPrefix →
  inResource thread resourceIndex row →
  setHas (collapsedStacks st) newStackPrefix = false →
  prefixStackToCollapsedStack st !! s_prefix row = Some (Some existing) →
  Inv (n + 1)
    (cr_withRewrite st
       {| newStackTable :=
            resolveCategory (newStackTable (cr_rewrite st)) existing
              (s_category row) (s_subcategory row) defaultCategory;
          oldStackToNewStack :=
            <[n := Some existing]> (oldStackToNewStack (cr_rewrite st)) |}).
Proof.
  intros Hinv Hrow Hget Hres Hhas Hexisting.
  pose proof (elemAt_Some _ _ _ Hrow) as [Hn _].
  assert (existing ∈ collapsedStacks st) as Hcollapsed
    by (apply (cri_collapsed _ _ _ _ _ Hinv); eauto).
  pose proof (cri_collapsed_lt _ _ _ Hinv Hcollapsed) as Hlt.
  constructor; simpl.
  - apply RewriteInv_table_redirect.
    + apply RewriteInv_resolveCategory, Hinv.
    + simpl. by rewrite resolveCategory_length.
  - apply cri_mapped_step; [done|apply Hinv].
  - apply cri_unmapped_step; [done|apply Hinv].
  - apply Hinv.
  - intros node Hnode. apply resolveCategory_frame.
    by apply (cri_collapsed_valid _ _ _ _ _ Hinv).
  - apply Hinv.
  - apply Hinv.
  - intros parent node' Hp.
    destruct (cri_parent _ _ _ _ _ Hinv _ _ Hp) as (newParent & Hnp & Hhas').
    exists newParent. split; [|done].
    rewrite mapGet_insert_ne; [done|by eapply cri_key_visited].
  - intros stack row' Hstack Hrow' Hin.
    destruct (decide (stack = n)) as [->|Hne].
    + assert (row' = row) as -> by congruence.
      exists newStackPrefix, existing.
      rewrite mapGet_insert_ne by by eapply cri_key_visited.
      rewrite lookup_insert_eq, Hhas. done.
    + destruct (cri_siblings _ _ _ _ _ Hinv stack row') as
        (newParent & node' & Hnp & Hmap & Hnode & Hcase); [lia|done|done|].
      exists newParent, node'.
      rewrite mapGet_insert_ne by by eapply cri_key_visited.
      by rewrite lookup_insert_ne.
  - intros parent node' Hp.
    rewrite (take_step _ _ _ Hrow), siblingsInResource_snoc.
    pose proof (cri_category _ _ _ _ _ Hinv _ _ Hp) as Hcat.
    destruct (decide (parent = s_prefix row)) as [->|Hne].
    + assert (node' = existing) as -> by congruence.
      rewrite decide_True by done.
      rewrite fmap_app.
      change (categoryOf <$> [row]) with [categoryOf row].
      rewrite mergedCategory_snoc, <- Hcat.
      destruct (cri_collapsed_valid _ _ _ _ _ Hinv existing Hcollapsed)
        as (old & Hold & _).
      destruct (resolveCategory_at _ existing (s_category row)
                  (s_subcategory row) defaultCategory old Hold)
        as (new & -> & _ & _ & Hnew).
      rewrite Hold. simpl. by rewrite Hnew.
    + rewrite decide_False by (intros [? _]; congruence).
      rewrite app_nil_r, <- Hcat.
      rewrite resolveCategory_other; [done|].
      intros ->. apply Hne.
      by eapply (cri_injective _ _ _ _ _ Hinv).
  - apply Hinv.
Qed.

(** The first stack of the resource under its parent: a node, and at the
    first time the frame and the func, are created. *)
Lemma cri_create n row st newStackPrefix :
  Inv n st → elemAt (stackTable thread) n = Some row →
  mapGet (oldStackToNewStack (cr_rewrite st)) (s_prefix row) = Some newStackPrefix →
  inResource thread resourceIndex row →
  setHas (collapsedStacks st) newStackPrefix = false →
  prefixStackToCollapsedStack st !! s_prefix row = None →
  let st1 := createCollapsedFrame thread resourceIndex (funcOfRow thread row) st in
  let newStackIndex := tableLength (newStackTable (cr_rewrite st)) in
  Inv (n + 1)
    {| cr_rewrite :=
         emitStack (cr_rewrite st) n newStackPrefix
           (default 0 (collapsedFrameIndex st1)) (s_category row) (s_subcategory row);
       newFrameTable := newFrameTable st1;
       newFuncTable := newFuncTable st1;
       prefixStackToCollapsedStack :=
         <[s_prefix row := Some newStackIndex]> (prefixStackToCollapsedStack st);
       collapsedStacks := {[newStackIndex]} ∪ collapsedStacks st;
       collapsedFrameIndex := collapsedFrameIndex st1;
       collapsedFuncIndex := collapsedFuncIndex st1 |}.
Proof.
  intros Hinv Hrow Hget Hres Hhas Hnone st1 fresh.
  subst fresh. set (fresh := tableLength (newStackTable (cr_rewrite st))).
  pose proof (elemAt_Some _ _ _ Hrow) as [Hn _].
  pose proof (mapGet_valid _ _ _ (cri_rewrite _ _ _ _ _ Hinv) Hget) as Hvalid.
  assert (collapsedFrameIndex st1 = Some (collapsedFrameOf thread)
          ∧ frame_func (newFrameTable st1)
            = frame_func (frameTable thread) ++ [collapsedFuncOf thread]
          ∧ func_resource (newFuncTable st1)
            = func_resource (funcTable thread) ++ [resourceIndex]
          ∧ func_name (newFuncTable st1)
            = func_name (funcTable thread)
                ++ [default (-1) (elemAt (resourceTable_name thread) resourceIndex)])
    as Hframe.
  { unfold st1, createCollapsedFrame.
    destruct (cri_frame _ _ _ _ _ Hinv) as [(Hnone' & _ & Hft & Hfn)|Hsome].
    - rewrite Hnone'. simpl. by rewrite Hft, Hfn.
    - destruct Hsome as (Hcf & ? & ? & ?). by rewrite Hcf. }
  constructor; simpl.
  - by apply RewriteInv_emit; [apply Hinv|].
  - apply cri_mapped_step; [done|apply Hinv].
  - apply cri_unmapped_step; [done|apply Hinv].
  - intros node. split.
    + intros [->%elem_of_singleton|Hold]%elem_of_union.
      * exists (s_prefix row). apply lookup_insert_eq.
      * apply (cri_collapsed _ _ _ _ _ Hinv) in Hold as [parent Hp].
        exists parent. rewrite lookup_insert_ne; [done|]. congruence.
    + intros [parent [[_ [= <-]]|[_ Hold]]%lookup_insert_Some]; [set_solver|].
      apply elem_of_union. right. apply (cri_collapsed _ _ _ _ _ Hinv). eauto.
  - intros node [->%elem_of_singleton|Hold]%elem_of_union.
    + eexists. split; [apply elemAt_app_length|]. simpl.
      by rewrite (proj1 Hframe).
    + destruct (cri_collapsed_valid _ _ _ _ _ Hinv node Hold) as (r & Hr & Hf).
      exists r. split; [by apply elemAt_app_l|done].
  - intros parent [[_ ?]|[_ Hold]]%lookup_insert_Some; [done|].
    by apply (cri_no_null _ _ _ _ _ Hinv parent).
  - intros parent parent' node
      [[<- [= <-]]|[Hne1 Hold1]]%lookup_insert_Some
      [[<- Heq]|[Hne2 Hold2]]%lookup_insert_Some; try done.
    + assert (fresh ∈ collapsedStacks st) as Hin
        by (apply (cri_collapsed _ _ _ _ _ Hinv); eauto).
      apply (cri_collapsed_lt _ _ _ Hinv) in Hin. unfold fresh in *. lia.
    + injection Heq as <-.
      assert (fresh ∈ collapsedStacks st) as Hin
        by (apply (cri_collapsed _ _ _ _ _ Hinv); eauto).
      apply (cri_collapsed_lt _ _ _ Hinv) in Hin. unfold fresh in *. lia.
    + by eapply (cri_injective _ _ _ _ _ Hinv).
  - intros parent node [[<- [= <-]]|[Hne Hold]]%lookup_insert_Some.
    + exists newStackPrefix.
      rewrite mapGet_insert_ne by by eapply cri_key_visited.
      split; [done|]. unfold fresh. by rewrite setHas_fresh.
    + destruct (cri_parent _ _ _ _ _ Hinv _ _ Hold) as (newParent & Hnp & Hhas').
      exists newParent.
      rewrite mapGet_insert_ne by by eapply cri_key_visited.
      split; [done|]. unfold fresh. rewrite setHas_fresh; [done|].
      by eapply mapGet_valid; [apply Hinv|].
  - intros stack row' Hstack Hrow' Hin.
    destruct (decide (stack = n)) as [->|Hne].
    + assert (row' = row) as -> by congruence.
      exists newStackPrefix, fresh.
      rewrite mapGet_insert_ne by by eapply cri_key_visited.
      rewrite lookup_insert_eq. unfold fresh.
      rewrite setHas_fresh, Hhas by done.
      split_and!; [done|done|set_solver|apply lookup_insert_eq].
    + destruct (cri_siblings _ _ _ _ _ Hinv stack row') as
        (newParent & node' & Hnp & Hmap & Hnode & Hcase); [lia|done|done|].
      exists newParent, node'.
      rewrite mapGet_insert_ne by by eapply cri_key_visited.
      rewrite lookup_insert_ne by done.
      unfold fresh. rewrite setHas_fresh
        by by (eapply mapGet_valid; [apply Hinv|]).
      split_and!; [done|done|set_solver|].
      destruct (setHas (collapsedStacks st) newParent); [done|].
      rewrite lookup_insert_ne; [done|]. congruence.
  - intros parent node Hp.
    rewrite (take_step _ _ _ Hrow), siblingsInResource_snoc.
    apply lookup_insert_Some in Hp as [[<- [= <-]]|[Hne Hold]].
    + rewrite decide_True by done.
      unfold fresh, tableLength. rewrite elemAt_app_length.
      assert (siblingsInResource thread resourceIndex (s_prefix row)
                (take (Z.to_nat n) (stackTable thread)) = []) as ->.
      { apply elem_of_nil_inv. intros row' Hrow'.
        apply list_elem_of_filter in Hrow' as [[Hp Hin] Hel].
        apply elem_of_take_elemAt in Hel as (stack & Hstack & Hsrow).
        destruct (cri_siblings _ _ _ _ _ Hinv stack row' Hstack Hsrow Hin)
          as (newParent & node' & Hnp & _ & _ & Hcase).
        rewrite Hp, Hget in Hnp. injection Hnp as <-.
        rewrite Hhas, Hp in Hcase. congruence. }
      done.
    + rewrite decide_False by (intros [? _]; congruence).
      rewrite app_nil_r.
      assert (node ∈ collapsedStacks st) as Hnode
        by (apply (cri_collapsed _ _ _ _ _ Hinv); eauto).
      destruct (cri_collapsed_valid _ _ _ _ _ Hinv node Hnode) as (r & Hr & _).
      rewrite (elemAt_app_l _ _ _ _ Hr), <- Hr.
      by apply (cri_category _ _ _ _ _ Hinv).
  - by right.
Qed.

Lemma cri_step n row st st' :
  elemAt (stackTable thread) n = Some row → Inv n st →
  collapseResourceBody thread resourceIndex implementation defaultCategory
    n row st = Ok st' →
  Inv (n + 1) st'.
Proof.
  intros Hrow Hinv. unfold collapseResourceBody.
  destruct (mapGet _ _) as [newStackPrefix|] eqn:Hget; [|done].
  unfold sameValue at 1.
  destruct (decide
    (elemAtU (func_resource (funcTable thread)) (funcOfRow thread row)
     = Some resourceIndex)) as [Hres|Hres];
    [rewrite bool_decide_true by done|rewrite bool_decide_false by done].
  - destruct (setHas (collapsedStacks st) newStackPrefix) eqn:Hhas; simpl.
    + intros [= <-]. destruct newStackPrefix as [node|]; [|done].
      simpl in Hhas. apply bool_decide_eq_true in Hhas.
      by apply (cri_redirect n row).
    + destruct (prefixStackToCollapsedStack st !! s_prefix row)
        as [[existing|]|] eqn:Hexisting; [| done |].
      * intros [= <-]. by apply (cri_join n row st newStackPrefix).
      * intros [= <-]. by apply (cri_create n row st newStackPrefix).
  - intros (matches & _ & Hrest)%bind_Ok.
    destruct (negb matches && bool_decide (newStackPrefix ≠ None) && _) eqn:Hcond;
      injection Hrest as <-.
    + destruct newStackPrefix as [node|];
        [|by rewrite bool_decide_false, andb_false_r in Hcond by naive_solver].
      by apply (cri_redirect n row).
    + by apply (cri_copy n row).
Qed.

Lemma collapseResourceLoop_invariant st :
  collapseResourceLoop thread resourceIndex implementation defaultCategory = Ok st →
  Inv (tableLength (stackTable thread)) st.
Proof.
  apply (forStacks_invariant Inv); [apply cri_initial|].
  intros n row s s' Hrow Hinv Hbody. by eapply cri_step.
Qed.

End CollapseResource.

(** *** The category that the siblings merge to *)

Lemma mergeCategory_absorb (d : Z) (x : Z * Z) : mergeCategory d (d, 0) x = (d, 0).
Proof. unfold mergeCategory. simpl. by repeat case_decide. Qed.

Lemma fold_mergeCategory_absorb (d : Z) (rest : list (Z * Z)) :
  fold_left (mergeCategory d) rest (d, 0) = (d, 0).
Proof.
  induction rest as [|x rest IH]; [done|]. simpl. by rewrite mergeCategory_absorb.
Qed.

Lemma fold_mergeCategory_conflict (d : Z) (rest : list (Z * Z)) (node : Z * Z) :
  (∃ x, x ∈ rest ∧ x.1 ≠ node.1) →
  fold_left (mergeCategory d) rest node = (d, 0).
Proof.
  revert node. induction rest as [|x0 rest IH]; intros node (x & Hx & Hne).
  - by apply elem_of_nil in Hx.
  - simpl. unfold mergeCategory at 2.
    destruct (decide (node.1 ≠ x0.1)) as [Hc|Hc].
    + apply fold_mergeCategory_absorb.
    + apply dec_stable in Hc.
      apply elem_of_cons in Hx as [->|Hx]; [congruence|].
      apply IH. exists x. split; [done|]. by case_decide.
Qed.

Lemma fold_mergeCategory_zero (d c : Z) (rest : list (Z * Z)) :
  (∀ x, x ∈ rest → x.1 = c) →
  fold_left (mergeCategory d) rest (c, 0) = (c, 0).
Proof.
  induction rest as [|x0 rest IH]; intros Hall; [done|].
  simpl. unfold mergeCategory at 2. simpl.
  rewrite decide_False by (rewrite (Hall x0) by set_solver; auto).
  assert (∀ x, x ∈ rest → x.1 = c) as Hrest by (intros; apply Hall; set_solver).
  case_decide; by apply IH.
Qed.

Lemma fold_mergeCategory_subconflict (d : Z) (rest : list (Z * Z)) (node : Z * Z) :
  (∀ x, x ∈ rest → x.1 = node.1) →
  (∃ x, x ∈ rest ∧ x.2 ≠ node.2) →
  fold_left (mergeCategory d) rest node = (node.1, 0).
Proof.
  revert node. induction rest as [|x0 rest IH]; intros node Hall (x & Hx & Hne).
  - by apply elem_of_nil in Hx.
  - assert (∀ x, x ∈ rest → x.1 = node.1) as Hrest
      by (intros; apply Hall; set_solver).
    simpl. unfold mergeCategory at 2.
    rewrite decide_False by (rewrite (Hall x0) by set_solver; auto).
    destruct (decide (node.2 ≠ x0.2)) as [Hs|Hs].
    + by apply fold_mergeCategory_zero.
    + apply dec_stable in Hs.
      apply elem_of_cons in Hx as [->|Hx]; [congruence|].
      apply IH; [done|]. by exists x.
Qed.

Lemma mergedCategory_conflict (d : Z) (stacks : list (Z * Z)) (x y node : Z * Z) :
  mergedCategory d stacks = Some node →
  x ∈ stacks → y ∈ stacks → x.1 ≠ y.1 → node = (d, 0).
Proof.
  destruct stacks as [|first rest]; [done|]. simpl. intros [= <-] Hx Hy Hne.
  apply fold_mergeCategory_conflict.
  destruct (decide (x.1 = first.1)) as [Hxf|Hxf].
  - exists y. split; [|congruence].
    apply elem_of_cons in Hy as [->|Hy]; [congruence|done].
  - exists x. split; [|done].
    apply elem_of_cons in Hx as [->|Hx]; [congruence|done].
Qed.

Lemma mergedCategory_subconflict (d c : Z) (stacks : list (Z * Z)) (x y node : Z * Z) :
  mergedCategory d stacks = Some node →
  (∀ z, z ∈ stacks → z.1 = c) →
  x ∈ stacks → y ∈ stacks → x.2 ≠ y.2 → node = (c, 0).
Proof.
  destruct stacks as [|first rest]; [done|]. simpl. intros [= <-] Hall Hx Hy Hne.
  rewrite <- (Hall first) by set_solver.
  apply fold_mergeCategory_subconflict.
  - intros z Hz. rewrite (Hall z), (Hall first) by set_solver. done.
  - destruct (decide (x.2 = first.2)) as [Hxf|Hxf].
    + exists y. split; [|congruence].
      apply elem_of_cons in Hy as [->|Hy]; [congruence|done].
    + exists x. split; [|done].
      apply elem_of_cons in Hx as [->|Hx]; [congruence|done].
Qed.

Lemma elemAt_elem_of {A} (l : list A) (i : Z) (x : A) :
  elemAt l i = Some x → x ∈ l.
Proof.
  unfold elemAt. case_decide; [|done]. intros Hl.
  apply list_elem_of_lookup. eauto.
Qed.

(** C5, as amended.  Sibling stacks under the same parent whose func belongs
    to the resource collapse into one stack node, which refers to the one
    frame and the one func that [collapseResource] appends, the func having
    the resource and the name of the resource.  When that node is the
    siblings' own (it is not the node that their parent was mapped to),
    conflicting categories of the siblings give it the default category and
    subcategory 0, and conflicting subcategories alone give it subcategory
    0.  When the node is the one that their parent was mapped to, the
    siblings do not enter into its category: the node was made for the
    stacks of the resource under another parent, all of which are mapped to
    it, and its category is the one merged from those stacks alone. *)
Theorem collapseResource_siblings (thread thread' : Thread)
    (resourceIndex defaultCategory : Z) (implementation : ImplementationFilter) :
  tablesConsistent thread →
  collapseResource thread resourceIndex implementation defaultCategory = Ok thread' →
  ∃ st,
    collapseResourceLoop thread resourceIndex implementation defaultCategory = Ok st
    ∧ stackTable thread' = newStackTable (cr_rewrite st)
    ∧ ∀ stack1 stack2 row1 row2,
        elemAt (stackTable thread) stack1 = Some row1 →
        elemAt (stackTable thread) stack2 = Some row2 →
        s_prefix row1 = s_prefix row2 →
        inResource thread resourceIndex row1 →
        inResource thread resourceIndex row2 →
        ∃ node nodeRow newParent,
          oldStackToNewStack (cr_rewrite st) !! stack1 = Some (Some node)
          ∧ oldStackToNewStack (cr_rewrite st) !! stack2 = Some (Some node)
          ∧ elemAt (stackTable thread') node = Some nodeRow
          ∧ s_frame nodeRow = collapsedFrameOf thread
          ∧ elemAt (frame_func (frameTable thread')) (collapsedFrameOf thread)
            = Some (collapsedFuncOf thread)
          ∧ elemAt (func_resource (funcTable thread')) (collapsedFuncOf thread)
            = Some resourceIndex
          ∧ (∀ nameIndex,
               elemAt (resourceTable_name thread) resourceIndex = Some nameIndex →
               elemAt (func_name (funcTable thread')) (collapsedFuncOf thread)
               = Some nameIndex)
          ∧ mapGet (oldStackToNewStack (cr_rewrite st)) (s_prefix row1)
            = Some newParent
          ∧ (newParent ≠ Some node →
             (s_category row1 ≠ s_category row2 →
              categoryOf nodeRow = (defaultCategory, 0))
             ∧ (∀ category,
                  (∀ row,
                     row ∈ siblingsInResource thread resourceIndex (s_prefix row1)
                             (stackTable thread) →
                     s_category row = category) →
                  s_subcategory row1 ≠ s_subcategory row2 →
                  categoryOf nodeRow = (category, 0)))
          ∧ (newParent = Some node →
             ∃ headParent,
               s_prefix row1 ≠ headParent
               ∧ (∀ stack row,
                    elemAt (stackTable thread) stack = Some row →
                    s_prefix row = headParent →
                    inResource thread resourceIndex row →
                    oldStackToNewStack (cr_rewrite st) !! stack
                    = Some (Some node))
               ∧ Some (categoryOf nodeRow)
                 = mergedCategory defaultCategory
                     (categoryOf <$>
                        siblingsInResource thread resourceIndex headParent
                          (stackTable thread))).
Proof.
  intros (Hframes & Hfuncs & Hnames). unfold collapseResource.
  intros (st & Hloop & Hupdate)%bind_Ok.
  exists st. split; [done|].
  apply (updateThreadStacks_related _ (λ _, True) (λ _ _, True)) in Hupdate
    as (Htable & Hft & Hfn & _); [|done|done].
  simpl in Hft, Hfn. split; [done|].
  pose proof (collapseResourceLoop_invariant _ _ _ _ _ Hloop) as Hinv.
  intros stack1 stack2 row1 row2 Hrow1 Hrow2 Hprefix Hin1 Hin2.
  destruct (cri_siblings _ _ _ _ _ Hinv stack1 row1)
    as (newParent & node & Hnp & Hmap1 & Hnode & Hcase1);
    [by eapply elemAt_Some|done|done|].
  destruct (cri_siblings _ _ _ _ _ Hinv stack2 row2)
    as (newParent2 & node2 & Hnp2 & Hmap2 & Hnode2 & Hcase2);
    [by eapply elemAt_Some|done|done|].
  rewrite <- Hprefix, Hnp in Hnp2. injection Hnp2 as <-.
  assert (node2 = node) as ->.
  { destruct (setHas (collapsedStacks st) newParent); [congruence|].
    rewrite <- Hprefix in Hcase2. congruence. }
  destruct (cri_collapsed_valid _ _ _ _ _ Hinv node Hnode) as (nodeRow & HnodeRow & Hframe).
  destruct (cri_frame _ _ _ _ _ Hinv) as [(_ & Hempty & _)|(_ & Hff & Hfr & Hfnm)];
    [set_solver|].
  exists node, nodeRow, newParent. rewrite Htable, Hft, Hfn, Hff, Hfr, Hfnm.
  split_and!; try done.
  - unfold collapsedFrameOf. rewrite Hframes. apply elemAt_app_length.
  - unfold collapsedFuncOf. rewrite Hfuncs. apply elemAt_app_length.
  - intros nameIndex ->. unfold collapsedFuncOf. rewrite Hnames.
    apply elemAt_app_length.
  - intros Hown.
    destruct (setHas (collapsedStacks st) newParent); [done|].
    pose proof (cri_category _ _ _ _ _ Hinv _ _ Hcase1) as Hcat.
    rewrite HnodeRow in Hcat. simpl in Hcat. symmetry in Hcat.
    rewrite take_ge in Hcat by (unfold tableLength; lia).
    assert (∀ stack row, elemAt (stackTable thread) stack = Some row →
              s_prefix row = s_prefix row1 →
              inResource thread resourceIndex row →
              categoryOf row
              ∈ categoryOf <$> siblingsInResource thread resourceIndex
                                 (s_prefix row1) (stackTable thread)) as Hmem.
    { intros stack row Hrow Hp Hin. apply list_elem_of_fmap_2.
      apply list_elem_of_filter. split; [done|]. by eapply elemAt_elem_of. }
    pose proof (Hmem _ _ Hrow1 eq_refl Hin1) as Hm1.
    pose proof (Hmem _ _ Hrow2 (eq_sym Hprefix) Hin2) as Hm2.
    split.
    + intros Hne. by eapply (mergedCategory_conflict _ _ _ _ _ Hcat Hm1 Hm2).
    + intros category Hall Hne.
      eapply (mergedCategory_subconflict _ _ _ _ _ _ Hcat); [|exact Hm1|exact Hm2|done].
      intros z (row & -> & Hrow)%list_elem_of_fmap. by apply Hall.
  - intros ->.
    destruct (proj1 (cri_collapsed _ _ _ _ _ Hinv node) Hnode)
      as [headParent Hhead].
    destruct (cri_parent _ _ _ _ _ Hinv _ _ Hhead) as (headNew & HheadNew & Hfree).
    assert (setHas (collapsedStacks st) (Some node) = true) as Hhas
      by by apply bool_decide_eq_true.
    exists headParent. split_and!.
    + intros Heq. rewrite Heq, HheadNew in Hnp. congruence.
    + intros stack row Hrow Hp Hin.
      destruct (cri_siblings _ _ _ _ _ Hinv stack row)
        as (newParent' & node' & Hnp' & Hmap' & _ & Hcase');
        [by eapply elemAt_Some|done|done|].
      rewrite Hp, HheadNew in Hnp'. injection Hnp' as <-.
      rewrite Hfree, Hp, Hhead in Hcase'. congruence.
    + pose proof (cri_category _ _ _ _ _ Hinv _ _ Hhead) as Hcat.
      rewrite HnodeRow in Hcat. simpl in Hcat.
      by rewrite take_ge in Hcat by (unfold tableLength; lia).
Qed.

(** ** collapse-direct-recursion *)

Lemma collapseRuns_snoc matches funcToCollapse inRun path funcIndex :
  collapseRuns matches funcToCollapse inRun (path ++ [funcIndex]) =
  collapseRuns matches funcToCollapse inRun path
    ++ (if runOpen matches funcToCollapse inRun path
           && joinsRun matches funcToCollapse funcIndex
        then [] else [funcIndex]).
Proof.
  revert inRun. induction path as [|f path IH]; intros inRun.
  - simpl. by destruct (inRun && _).
  - simpl. destruct (inRun && joinsRun matches funcToCollapse f).
    + apply IH.
    + simpl. f_equal. apply IH.
Qed.

Lemma runOpen_snoc matches funcToCollapse inRun path funcIndex :
  runOpen matches funcToCollapse inRun (path ++ [funcIndex]) =
  if runOpen matches funcToCollapse inRun path
     && joinsRun matches funcToCollapse funcIndex
  then true else sameValue (Some funcToCollapse) funcIndex.
Proof.
  revert inRun. induction path as [|f path IH]; intros inRun; [done|].
  simpl. apply IH.
Qed.

Lemma callPath_app (table more : StackTable) (frames : FrameTable) stack path :
  callPath table frames stack path → callPath (table ++ more) frames stack path.
Proof.
  induction 1 as [|stack row path Hrow Hprefix IH]; [constructor|].
  econstructor; [by apply elemAt_app_l|done].
Qed.

Lemma callPath_inv (table : StackTable) (frames : FrameTable) stack row path :
  callPath table frames (Some stack) path →
  elemAt table stack = Some row →
  ∃ parentPath,
    path = parentPath ++ [elemAt (frame_func frames) (s_frame row)]
    ∧ callPath table frames (s_prefix row) parentPath.
Proof.
  inversion 1 as [|? row' parentPath Hrow' Hparent]; subst.
  intros Hrow. assert (row' = row) as -> by congruence. by eexists.
Qed.

Lemma callPath_snoc (table : StackTable) (frames : FrameTable) stack row
    parentPath path :
  elemAt table stack = Some row →
  path = parentPath ++ [elemAt (frame_func frames) (s_frame row)] →
  callPath table frames (s_prefix row) parentPath →
  callPath table frames (Some stack) path.
Proof. intros Hrow -> Hparent. by econstructor. Qed.

Lemma callPath_null_inv (table : StackTable) (frames : FrameTable) path :
  callPath table frames None path → path = [].
Proof. by inversion 1. Qed.

Section CollapseDirectRecursion.

Variable thread : Thread.
Variable funcToCollapse : Z.
Variable implementation : ImplementationFilter.

Abbreviation RInv := (CollapseRecursionInv thread funcToCollapse implementation).
Abbreviation matchesB := (matchesImplementation implementation thread).

Lemma rci_initial :
  RInv 0 {| rec_rewrite := emptyRewrite; recursiveStacks := ∅ |}.
Proof.
  constructor; simpl.
  - intros stack newStack Hs. by rewrite lookup_empty in Hs.
  - set_solver.
  - intros; lia.
Qed.

(** The test of the body, as a boolean. *)
Lemma collapse_test (recursive : gset Z) (prefix funcIndex : option Z) (collapse : bool) :
  (if setHas recursive prefix then
     if sameValue (Some funcToCollapse) funcIndex then Ok true
     else FUNC_MATCHES implementation thread funcIndex
            ≫= λ matches, Ok (negb matches)
   else Ok false) = Ok collapse →
  collapse = setHas recursive prefix && joinsRun matchesB funcToCollapse funcIndex.
Proof.
  unfold joinsRun, matchesImplementation.
  destruct (setHas recursive prefix); [|by intros [= <-]].
  destruct (sameValue _ _); [by intros [= <-]|].
  destruct (FUNC_MATCHES _ _ _); simpl; [|done..]. by intros [= <-].
Qed.

(** What the invariant says of the prefix of the stack being visited. *)
Lemma rci_prefix n st row parentPath newPrefix :
  RInv n st →
  callPath (stackTable thread) (frameTable thread) (s_prefix row) parentPath →
  mapGet (oldStackToNewStack (rec_rewrite st)) (s_prefix row) = Some newPrefix →
  callPath (newStackTable (rec_rewrite st)) (frameTable thread) newPrefix
    (collapseRuns matchesB funcToCollapse false parentPath)
  ∧ setHas (recursiveStacks st) (s_prefix row)
    = runOpen matchesB funcToCollapse false parentPath.
Proof.
  intros Hinv Hpath Hget. destruct (s_prefix row) as [prefix|].
  - simpl in Hget. pose proof (rci_visited _ _ _ _ _ Hinv _ _ Hget) as Hlt.
    destruct (rci_paths _ _ _ _ _ Hinv prefix parentPath Hlt Hpath)
      as (newStack & Hmap & Hnew & Hrun).
    assert (newStack = newPrefix) as -> by congruence.
    split; [done|]. simpl.
    destruct (runOpen _ _ _ _).
    + apply bool_decide_eq_true. by apply Hrun.
    + apply bool_decide_eq_false. intros Hin. by apply Hrun in Hin.
  - apply callPath_null_inv in Hpath as ->. injection Hget as <-.
    split; [constructor|done].
Qed.

Lemma rci_step n row st st' :
  elemAt (stackTable thread) n = Some row → RInv n st →
  collapseDirectRecursionBody thread funcToCollapse implementation n row st
    = Ok st' →
  RInv (n + 1) st'.
Proof.
  intros Hrow Hinv. pose proof (elemAt_Some _ _ _ Hrow) as [Hn _].
  unfold collapseDirectRecursionBody.
  intros (collapse & Hcollapse%collapse_test & Hrest)%bind_Ok.
  destruct (mapGet _ _) as [newPrefix|] eqn:Hget; [|by destruct collapse].
  assert (s_prefix row ≠ Some n) as Hpn.
  { intros Hp. rewrite Hp in Hget. simpl in Hget.
    apply (rci_visited _ _ _ _ _ Hinv) in Hget. lia. }
  assert (∀ stack path, 0 ≤ stack < n + 1 → stack ≠ n →
    callPath (stackTable thread) (frameTable thread) (Some stack) path →
    ∀ (rw : Rewrite) (more : StackTable) (v : option Z) (recursive : gset Z),
      newStackTable rw = newStackTable (rec_rewrite st) ++ more →
      oldStackToNewStack rw = <[n := v]> (oldStackToNewStack (rec_rewrite st)) →
      (recursive = recursiveStacks st ∨ recursive = {[n]} ∪ recursiveStacks st) →
      ∃ newStack,
        oldStackToNewStack rw !! stack = Some newStack
        ∧ callPath (newStackTable rw) (frameTable thread) newStack
            (collapseRuns matchesB funcToCollapse false path)
        ∧ (stack ∈ recursive ↔
           runOpen matchesB funcToCollapse false path = true)) as Hold.
  { intros stack path Hstack Hne Hpath rw more v recursive Htbl Hmap Hrec.
    destruct (rci_paths _ _ _ _ _ Hinv stack path) as (newStack & ? & ? & Hrun);
      [lia|done|].
    exists newStack. rewrite Htbl, Hmap, lookup_insert_ne by done.
    split_and!; [done|by apply callPath_app|].
    rewrite <- Hrun. destruct Hrec as [->| ->]; set_solver. }
  destruct collapse; injection Hrest as <-.
  - (* the stack joins the run of its prefix *)
    symmetry in Hcollapse. apply andb_true_iff in Hcollapse as [Hhas Hjoins].
    constructor; simpl.
    + intros stack newStack [[<- _]|[_ Hs]]%lookup_insert_Some; [lia|].
      apply (rci_visited _ _ _ _ _ Hinv) in Hs. lia.
    + intros stack [->%elem_of_singleton|Hs]%elem_of_union; [lia|].
      apply (rci_recursive _ _ _ _ _ Hinv) in Hs. lia.
    + intros stack path Hstack Hpath.
      destruct (decide (stack = n)) as [->|Hne].
      * destruct (callPath_inv _ _ _ _ _ Hpath Hrow) as (parentPath & -> & Hparent).
        destruct (rci_prefix _ _ _ _ _ Hinv Hparent Hget) as [Hnew Hopen].
        exists newPrefix. rewrite lookup_insert_eq.
        rewrite collapseRuns_snoc, runOpen_snoc, <- Hopen, Hhas.
        unfold funcOfRow in Hjoins. rewrite Hjoins. simpl.
        rewrite app_nil_r. split_and!; [done|done|set_solver].
      * apply (Hold stack path Hstack Hne Hpath
                 (redirectStack (rec_rewrite st) n newPrefix) [] newPrefix);
          [by rewrite app_nil_r|done|by right].
  - (* the stack is emitted *)
    symmetry in Hcollapse.
    constructor; simpl.
    + intros stack newStack [[<- _]|[_ Hs]]%lookup_insert_Some; [lia|].
      apply (rci_visited _ _ _ _ _ Hinv) in Hs. lia.
    + intros stack Hs.
      assert (stack = n ∨ stack ∈ recursiveStacks st) as [->|Hs']
        by (destruct (sameValue _ _); set_solver); [lia|].
      apply (rci_recursive _ _ _ _ _ Hinv) in Hs'. lia.
    + intros stack path Hstack Hpath.
      destruct (decide (stack = n)) as [->|Hne].
      * destruct (callPath_inv _ _ _ _ _ Hpath Hrow) as (parentPath & -> & Hparent).
        destruct (rci_prefix _ _ _ _ _ Hinv Hparent Hget) as [Hnew Hopen].
        eexists. rewrite lookup_insert_eq.
        rewrite collapseRuns_snoc, runOpen_snoc, <- Hopen.
        unfold funcOfRow in Hcollapse. rewrite Hcollapse.
        split_and!; [done| |].
        -- change (elemAt (frame_func (frameTable thread)) (s_frame row))
             with (elemAt (frame_func (frameTable thread))
                     (s_frame (mkStackRow newPrefix (s_frame row)
                                 (s_category row) (s_subcategory row)))).
           econstructor; [apply elemAt_app_length|]. simpl.
           by apply callPath_app.
        -- unfold funcOfRow.
           destruct (sameValue (Some funcToCollapse) _) eqn:Hsame.
           ++ split; [done|set_solver].
           ++ split; [|done]. intros Hin. exfalso.
              apply (rci_recursive _ _ _ _ _ Hinv) in Hin. lia.
      * eapply (Hold stack path Hstack Hne Hpath
                 (emitStack (rec_rewrite st) n newPrefix (s_frame row)
                    (s_category row) (s_subcategory row)));
          [done|done|].
        destruct (sameValue _ _); [by right|by left].
Qed.

Lemma collapseDirectRecursionLoop_invariant st :
  collapseDirectRecursionLoop thread funcToCollapse implementation = Ok st →
  RInv (tableLength (stackTable thread)) st.
Proof.
  apply (forStacks_invariant RInv); [apply rci_initial|].
  intros n row s s' Hrow Hinv Hbody. by eapply rci_step.
Qed.

End CollapseDirectRecursion.

(** *** Runs of the function in a call path *)

(** With a filter that every func matches, [collapseRuns] is the loop of
    [_collapseDirectRecursionInCallNodePath]. *)
Lemma collapseRuns_path_function (funcIndex : Z) (callNodePath : list Z)
    (previousFunc : option Z) :
  collapseRuns (λ _, true) funcIndex (sameValue (Some funcIndex) previousFunc)
    (Some <$> callNodePath)
  = Some <$> collapseDirectRecursionFrom funcIndex callNodePath previousFunc.
Proof.
  revert previousFunc.
  induction callNodePath as [|pathFunc rest IH]; intros previousFunc; [done|].
  simpl. rewrite fmap_app, <- IH. unfold joinsRun. rewrite orb_false_r.
  destruct (decide (pathFunc = funcIndex)) as [->|Hne].
  - assert (sameValue (Some funcIndex) (Some funcIndex) = true) as ->
      by by apply bool_decide_eq_true.
    rewrite (bool_decide_false (funcIndex ≠ funcIndex)) by auto.
    rewrite andb_true_r. simpl.
    by destruct (sameValue (Some funcIndex) previousFunc).
  - assert (sameValue (Some funcIndex) (Some pathFunc) = false) as ->
      by (apply bool_decide_eq_false; congruence).
    rewrite andb_false_r. by rewrite (bool_decide_true (pathFunc ≠ funcIndex)).
Qed.

Lemma collapseRuns_head matches funcToCollapse inRun path :
  match collapseRuns matches funcToCollapse inRun path with
  | first :: _ => inRun = true → first ≠ Some funcToCollapse
  | [] => True
  end.
Proof.
  revert inRun. induction path as [|f path IH]; intros inRun; [done|].
  simpl. destruct (inRun && joinsRun matches funcToCollapse f) eqn:Hjoin.
  - specialize (IH true). destruct (collapseRuns _ _ true path); [done|].
    intros _. by apply IH.
  - intros -> ->. unfold joinsRun, sameValue in Hjoin.
    by rewrite bool_decide_true in Hjoin.
Qed.

(** After the collapse no occurrence of the function follows another. *)
Lemma collapseRuns_noRepeat matches funcToCollapse inRun path :
  noRepeat funcToCollapse (collapseRuns matches funcToCollapse inRun path).
Proof.
  revert inRun. induction path as [|f path IH]; intros inRun; [done|].
  simpl. destruct (inRun && joinsRun matches funcToCollapse f); [apply IH|].
  pose proof (IH (sameValue (Some funcToCollapse) f)) as Hrest.
  pose proof (collapseRuns_head matches funcToCollapse
                (sameValue (Some funcToCollapse) f) path) as Hhead.
  destruct (collapseRuns _ _ (sameValue (Some funcToCollapse) f) path)
    as [|second rest]; [done|].
  split; [|done]. intros [-> ->]. apply Hhead; [|done].
  unfold sameValue. by rewrite bool_decide_true.
Qed.

(** The call paths after [collapseDirectRecursion]: the stack that a stack
    is mapped to has the call path [collapseRuns] of the old one.  In the
    result no occurrence of the function follows another; a func outside the
    filter met while a run is open is dropped without closing the run; and
    when every func matches the filter this is what
    [_collapseDirectRecursionInCallNodePath] computes, which takes
    [A, A, A, B, A, A] to [A, B, A]. *)
Lemma collapseDirectRecursion_paths :
  (∀ (thread thread' : Thread) (funcToCollapse : Z)
     (implementation : ImplementationFilter),
     collapseDirectRecursion thread funcToCollapse implementation = Ok thread' →
     ∃ st,
       collapseDirectRecursionLoop thread funcToCollapse implementation = Ok st
       ∧ stackTable thread' = newStackTable (rec_rewrite st)
       ∧ frameTable thread' = frameTable thread
       ∧ ∀ stack path,
           callPath (stackTable thread) (frameTable thread) (Some stack) path →
           ∃ newStack,
             oldStackToNewStack (rec_rewrite st) !! stack = Some newStack
             ∧ callPath (stackTable thread') (frameTable thread') newStack
                 (collapseRuns (matchesImplementation implementation thread)
                    funcToCollapse false path))
  ∧ (∀ matches funcToCollapse path,
       noRepeat funcToCollapse (collapseRuns matches funcToCollapse false path))
  ∧ (∀ matches funcToCollapse funcIndex rest,
       funcIndex ≠ Some funcToCollapse → matches funcIndex = false →
       collapseRuns matches funcToCollapse true (funcIndex :: rest)
       = collapseRuns matches funcToCollapse true rest)
  ∧ (∀ funcToCollapse callNodePath,
       collapseRuns (λ _, true) funcToCollapse false (Some <$> callNodePath)
       = Some <$> _collapseDirectRecursionInCallNodePath funcToCollapse callNodePath)
  ∧ (∀ A B, A ≠ B →
       _collapseDirectRecursionInCallNodePath A [A; A; A; B; A; A] = [A; B; A]).
Proof.
  split_and!.
  - intros thread thread' funcToCollapse implementation.
    unfold collapseDirectRecursion. intros (st & Hloop & Hupdate)%bind_Ok.
    exists st. split; [done|].
    apply (updateThreadStacks_related _ (λ _, True) (λ _ _, True)) in Hupdate
      as (Htable & Hft & _); [|done|done].
    split_and!; [done|done|].
    intros stack path Hpath.
    pose proof (collapseDirectRecursionLoop_invariant _ _ _ _ Hloop) as Hinv.
    assert (0 ≤ stack < tableLength (stackTable thread)) as Hstack.
    { inversion Hpath; subst. by eapply elemAt_Some. }
    destruct (rci_paths _ _ _ _ _ Hinv stack path Hstack Hpath)
      as (newStack & Hmap & Hnew & _).
    exists newStack. by rewrite Htable, Hft.
  - intros. apply collapseRuns_noRepeat.
  - intros matches funcToCollapse funcIndex rest Hne Hm. simpl.
    unfold joinsRun. by rewrite Hm, orb_true_r.
  - intros funcToCollapse callNodePath.
    unfold _collapseDirectRecursionInCallNodePath.
    rewrite <- collapseRuns_path_function. done.
  - intros A B Hne. unfold _collapseDirectRecursionInCallNodePath. simpl.
    unfold sameValue.
    rewrite !(bool_decide_false (A ≠ A)) by auto.
    rewrite (bool_decide_true (B ≠ A)) by auto.
    rewrite !(bool_decide_true (Some A = Some A)) by done.
    rewrite (bool_decide_false (Some A = Some B)) by congruence.
    done.
Qed.

(** ** The theorems at work on concrete inputs *)

Lemma stackTableOrderedb_correct (table : StackTable) :
  stackTableOrderedb table = true → stackTableOrdered table.
Proof.
  unfold stackTableOrderedb, stackTableOrdered. rewrite forallb_forall.
  intros Hall stack row prefix Hrow Hprefix.
  pose proof (elemAt_Some _ _ _ Hrow) as [Hstack _].
  unfold elemAt in Hrow. rewrite decide_True in Hrow by done.
  assert (In (Z.to_nat stack, row) (imap (λ stack row, (stack, row)) table))
    as Hin.
  { apply list_elem_of_In, list_elem_of_lookup.
    exists (Z.to_nat stack). by rewrite list_lookup_imap, Hrow. }
  apply Hall in Hin. simpl in Hin. rewrite Hprefix in Hin.
  apply bool_decide_eq_true in Hin. lia.
Qed.

Section Witnesses.
Import Examples.

Let encode := UintArrayEncoding.encodeUintArrayForUrlComponent.
Let decode := UintArrayEncoding.decodeUintArrayFromUrlComponent.

Lemma parseTransforms_stringifyTransforms_witness :
  Forall boundedTransform transforms
  ∧ stringifyTransforms encode transforms
    = "f-js-xFFpUMl-i~mcn-cpp-0vx0~ff-7~mf-325~df-0~cr-combined-3-1200~rec-js-12~cfs-9"%string
  ∧ parseTransforms decode (stringifyTransforms encode transforms)
    = Ok (transforms, []).
Proof.
  assert (Forall boundedTransform transforms) as Hwf.
  { unfold transforms. repeat constructor; simpl; try done; lia. }
  split_and!; [exact Hwf|by vm_compute|].
  apply (parseTransforms_stringifyTransforms encode decode
           UintArrayEncodingFacts.decode_encode
           (λ path _, UintArrayEncodingFacts.encode_no_separator path)
           transforms Hwf).
Defined.

(** C3, the claim as stated fails: the non-negative integer 10^21 is printed
    with an exponent, [mf-1e+21], and the digits that [parseInt] reads
    there are those before the [e]: the func index comes back as [1]. *)
Lemma parseTransforms_stringifyTransforms_exponent :
  Forall wellFormedTransform [MergeFunction (10 ^ 21)]
  ∧ JsString.numberValue (10 ^ 21) = 10 ^ 21
  ∧ stringifyTransforms encode [MergeFunction (10 ^ 21)] = "mf-1e+21"%string
  ∧ parseTransforms decode (stringifyTransforms encode [MergeFunction (10 ^ 21)])
    = Ok ([MergeFunction 1], [])
  ∧ parseTransforms decode (stringifyTransforms encode [MergeFunction (10 ^ 21)])
    ≠ Ok ([MergeFunction (10 ^ 21)], []).
Proof.
  split_and!; [|by vm_compute..].
  repeat constructor. simpl. lia.
Qed.

Lemma parseTransforms_negative_index_witness :
  Forall indexFieldsNonNegative [MergeFunction 3; CollapseResource 3 8 js]
  ∧ parseTransforms decode
      (stringifyTransform encode (CollapseResource 3 (-5) js))
    = Ok ([], []).
Proof.
  split.
  - apply (proj1 (parseTransforms_negative_index encode decode)
             "mf-3~mf--4~cr-js-3-8"%string
             [MergeFunction 3; CollapseResource 3 8 js] []).
    by vm_compute.
  - apply (proj2 (parseTransforms_negative_index encode decode)
             (CollapseResource 3 (-5) js)).
    simpl. lia.
Defined.

(** C10, the claim as stated fails: a token written with a negative
    [collapsedFuncIndex] is not accepted, it contributes no transform. *)
Lemma parseTransforms_negative_collapsedFuncIndex :
  stringifyTransform encode (CollapseResource 3 (-5) js) = "cr-js-3--5"%string
  ∧ JsString.split "-" "cr-js-3--5" = ["cr"; "js"; "3"; ""; "5"]%string
  ∧ parseTransforms decode "cr-js-3--5" = Ok ([], [])
  ∧ ¬ ∃ resourceIndex collapsedFuncIndex implementation logged,
        collapsedFuncIndex < 0
        ∧ parseTransforms decode "cr-js-3--5"
          = Ok ([CollapseResource resourceIndex collapsedFuncIndex implementation],
                logged).
Proof.
  split_and!; [by vm_compute..|].
  intros (r & c & impl & logged & _ & Hparse). by vm_compute in Hparse.
Qed.

Lemma dropFunction_spec_witness :
  stackTableOrdered (stackTable repeatedTip)
  ∧ ∃ dropped,
      dropFunction repeatedTip 1 = Ok dropped
      ∧ stackTable dropped = stackTable repeatedTip
      ∧ samples dropped = [Some 0; None; None; Some 3; None].
Proof.
  assert (stackTableOrdered (stackTable repeatedTip)) as Hord
    by by apply stackTableOrderedb_correct.
  split; [exact Hord|].
  destruct (dropFunction_spec repeatedTip 1 Hord) as (dropped & Hrun & Htable & _).
  exists dropped. split_and!; [done|done|].
  vm_compute in Hrun. by injection Hrun as <-.
Defined.

Lemma applyTransform_samples_valid_witness :
  stackTableOrdered (stackTable repeatedTip)
  ∧ samplesValid repeatedTip
  ∧ ∃ thread',
      applyTransform repeatedTip (MergeCallNode [0; 1] combined) 0 = Ok thread'
      ∧ samplesValid thread'.
Proof.
  assert (stackTableOrdered (stackTable repeatedTip)) as Hord
    by by apply stackTableOrderedb_correct.
  assert (samplesValid repeatedTip) as Hvalid
    by (apply (bool_decide_eq_true_1 (samplesValid repeatedTip)); by vm_compute).
  split_and!; [exact Hord|exact Hvalid|].
  eexists. split; [by vm_compute|].
  apply (applyTransform_samples_valid repeatedTip (MergeCallNode [0; 1] combined) 0
           Hord Hvalid).
  by vm_compute.
Defined.

Lemma applyTransform_ordered_witness :
  stackTableOrdered (stackTable recursion)
  ∧ ∃ thread',
      applyTransform recursion (CollapseDirectRecursion 0 combined) 0 = Ok thread'
      ∧ s_prefix <$> stackTable thread' = [None; Some 0; Some 1]
      ∧ ∀ stack row prefix,
          elemAt (stackTable thread') stack = Some row →
          s_prefix row = Some prefix → 0 ≤ prefix < stack.
Proof.
  assert (stackTableOrdered (stackTable recursion)) as Hord
    by by apply stackTableOrderedb_correct.
  split; [exact Hord|].
  eexists. split; [by vm_compute|]. split; [by vm_compute|].
  apply (applyTransform_ordered recursion (CollapseDirectRecursion 0 combined) 0 Hord).
  by vm_compute.
Defined.

(** C4, the behaviour of the code where the claim fails: with the path
    [A, B], [mergeCallNode] removes the stack [A -> B] and also the stack
    [A -> B -> B] below it, whose call path is not the path; the samples of
    both go to [A].  The transform of call node paths takes [A, B, B] to
    [A, B]: there only the node at the tip goes. *)
Theorem mergeCallNode_repeated_tip :
  (∃ thread',
     mergeCallNode repeatedTip [0; 1] combined = Ok thread'
     ∧ stackTable thread' = [mkStackRow None 0 0 0; mkStackRow (Some 0) 2 0 0]
     ∧ samples thread' = [Some 0; Some 0; Some 0; Some 1; None])
  ∧ callPath (stackTable repeatedTip) (frameTable repeatedTip) (Some 2)
      [Some 0; Some 1; Some 1]
  ∧ _mergeNodeInCallNodePath [0; 1] [0; 1; 1] = [0; 1].
Proof.
  split_and!.
  - eexists. split; [by vm_compute|]. by split.
  - apply (callPath_snoc _ _ 2 (mkStackRow (Some 1) 1 0 0) [Some 0; Some 1]); [done|done|].
    apply (callPath_snoc _ _ 1 (mkStackRow (Some 0) 1 0 0) [Some 0]); [done|done|].
    apply (callPath_snoc _ _ 0 (mkStackRow None 0 0 0) []); [done|done|].
    constructor.
  - by vm_compute.
Qed.

(** C5, the claim as stated fails: the siblings [A -> B] and [A -> C], both
    in the resource and of categories 2 and 3, collapse into the node of
    their parent [A], and that node keeps category 1; it does not get the
    default category 9. *)
Lemma collapseResource_nested_siblings_keep_category :
  elemAt (stackTable nestedSiblings) 1 = Some (mkStackRow (Some 0) 1 2 0)
  ∧ elemAt (stackTable nestedSiblings) 2 = Some (mkStackRow (Some 0) 2 3 0)
  ∧ inResource nestedSiblings 0 (mkStackRow (Some 0) 1 2 0)
  ∧ inResource nestedSiblings 0 (mkStackRow (Some 0) 2 3 0)
  ∧ ∃ thread',
      collapseResource nestedSiblings 0 combined 9 = Ok thread'
      ∧ samples thread' = [Some 0; Some 0]
      ∧ stackTable thread' = [mkStackRow None 4 1 0]
      ∧ ¬ (s_category <$> elemAt (stackTable thread') 0) = Some 9.
Proof.
  split_and!; try done.
  eexists. split; [by vm_compute|]. by split_and!.
Qed.

Lemma collapseResource_siblings_witness :
  tablesConsistent siblingsUnderHost
  ∧ ∃ thread',
      collapseResource siblingsUnderHost 0 combined 9 = Ok thread'
      ∧ stackTable thread'
        = [mkStackRow None 3 1 0; mkStackRow (Some 0) 4 9 0]
      ∧ ∃ st,
          collapseResourceLoop siblingsUnderHost 0 combined 9 = Ok st
          ∧ stackTable thread' = newStackTable (cr_rewrite st).
Proof.
  assert (tablesConsistent siblingsUnderHost) as Hcons by done.
  split; [exact Hcons|].
  eexists. split; [by vm_compute|]. split; [done|].
  destruct (collapseResource_siblings siblingsUnderHost _ 0 9 combined Hcons eq_refl)
    as (st & Hloop & Htable & _).
  by exists st.
Defined.


End Witnesses.

(** ** The transforms of a call node path *)

(** *** Array methods *)

Lemma slice_from {A} (arr : list A) (start : Z) :
  0 ≤ start → slice arr start None = drop (Z.to_nat start) arr.
Proof.
  intros Hs. unfold slice, tableLength. rewrite bool_decide_false by lia.
  destruct (decide (start ≤ Z.of_nat (length arr))).
  - rewrite Z.min_l by lia. apply take_ge. rewrite length_drop. lia.
  - rewrite Z.min_r by lia. rewrite !drop_ge by lia. by rewrite take_nil.
Qed.

Lemma slice_to {A} (arr : list A) (e : Z) :
  0 ≤ e → slice arr 0 (Some e) = take (Z.to_nat e) arr.
Proof.
  intros He. unfold slice, tableLength. rewrite !bool_decide_false by lia.
  rewrite (Z.min_l 0) by lia. change (Z.to_nat 0) with 0%nat. rewrite drop_0.
  destruct (decide (e ≤ Z.of_nat (length arr))).
  - rewrite Z.min_l by lia. f_equal. lia.
  - rewrite Z.min_r by lia. rewrite !take_ge by lia. done.
Qed.

Lemma slice_last {A} (arr : list A) :
  slice arr (-1) None = option_list (last arr).
Proof.
  unfold slice, tableLength. rewrite bool_decide_true by lia.
  destruct arr as [|x l _] using rev_ind; [done|].
  rewrite last_snoc, length_app. simpl.
  rewrite Z.max_l by lia.
  replace (Z.to_nat (Z.of_nat (length l + 1) + -1)) with (length l) by lia.
  rewrite drop_app_length. apply take_ge. simpl. lia.
Qed.

Lemma slice_sublist {A} (arr : list A) (start : Z) (end_ : option Z) :
  slice arr start end_ `sublist_of` arr.
Proof.
  unfold slice. etrans; [apply sublist_take|apply sublist_drop].
Qed.

Lemma indexOfFrom_absent (x : Z) (arr : list Z) (i : Z) :
  x ∉ arr → indexOfFrom x arr i = -1.
Proof.
  revert i. induction arr as [|y arr IH]; intros i Hx; [done|].
  simpl. apply not_elem_of_cons in Hx as [Hne Hx].
  rewrite bool_decide_false by done. by apply IH.
Qed.

Lemma indexOfFrom_first (x : Z) (before after : list Z) (i : Z) :
  x ∉ before →
  indexOfFrom x (before ++ x :: after) i = i + Z.of_nat (length before).
Proof.
  revert i. induction before as [|y before IH]; intros i Hx; simpl.
  - rewrite bool_decide_true by done. lia.
  - apply not_elem_of_cons in Hx as [Hne Hx].
    rewrite bool_decide_false by done. rewrite IH by done. lia.
Qed.

Lemma elem_of_first_split (x : Z) (arr : list Z) :
  x ∈ arr → ∃ before after, arr = before ++ x :: after ∧ x ∉ before.
Proof.
  induction arr as [|y arr IH]; [by intros ?%elem_of_nil|].
  destruct (decide (y = x)) as [->|Hne].
  - intros _. exists [], arr. split; [done|]. apply not_elem_of_nil.
  - intros [?|Hin]%elem_of_cons; [done|].
    destruct (IH Hin) as (before & after & -> & Hx).
    exists (y :: before), after. split; [done|].
    apply not_elem_of_cons. by split.
Qed.

Lemma length_omap_le {A B} (f : A → option B) (l : list A) :
  (length (omap f l) ≤ length l)%nat.
Proof.
  induction l as [|x l IH]; [done|]. csimpl. destruct (f x); csimpl; lia.
Qed.

(** [arr.filter((_, i) => i !== k)], for the rows from index [off] on. *)
Lemma filter_by_index (l : list Z) (off : nat) (k : Z) :
  omap (λ '(i, nodeFunc),
          if bool_decide (Z.of_nat i ≠ k) then Some nodeFunc else None)
    (imap (λ i nodeFunc, ((off + i)%nat, nodeFunc)) l)
  = if decide (Z.of_nat off ≤ k) then delete (Z.to_nat (k - Z.of_nat off)) l
    else l.
Proof.
  revert off. induction l as [|x l IH]; intros off.
  - simpl. by destruct (decide _).
  - rewrite imap_cons. simpl.
    rewrite (imap_ext _ (λ i nodeFunc, ((S off + i)%nat, nodeFunc)))
      by (intros; simpl; f_equal; lia).
    rewrite IH. rewrite Nat.add_0_r.
    destruct (decide (Z.of_nat off = k)) as [<-|Hne].
    + rewrite bool_decide_false by lia.
      rewrite decide_False by lia. rewrite decide_True by lia.
      by rewrite Z.sub_diag.
    + rewrite bool_decide_true by done.
      destruct (decide (Z.of_nat off ≤ k)).
      * rewrite decide_True by lia.
        replace (Z.to_nat (k - Z.of_nat off))
          with (S (Z.to_nat (k - Z.of_nat (S off)))) by lia.
        done.
      * by rewrite decide_False by lia.
Qed.

(** *** Prefix paths *)

Lemma every_at_index (prefixPath callNodePath : list Z) :
  forallb (λ '(i, prefixFunc),
             sameValue (Some prefixFunc) (callNodePath !! (i : nat)))
    (imap (λ i prefixFunc, (i, prefixFunc)) prefixPath) = true
  ↔ ∀ (i : nat) prefixFunc,
      prefixPath !! i = Some prefixFunc → callNodePath !! i = Some prefixFunc.
Proof.
  rewrite forallb_forall. split.
  - intros Hall i x Hi.
    assert (In (i, x) (imap (λ i prefixFunc, (i, prefixFunc)) prefixPath)) as Hin.
    { apply list_elem_of_In, list_elem_of_lookup. exists i.
      by rewrite list_lookup_imap, Hi. }
    apply Hall in Hin. simpl in Hin. by apply bool_decide_eq_true in Hin.
  - intros Hall [i x] [j Hj]%list_elem_of_In%list_elem_of_lookup.
    rewrite list_lookup_imap in Hj.
    destruct (prefixPath !! j) as [y|] eqn:E; [|done].
    injection Hj as <- <-. apply bool_decide_eq_true. symmetry. by apply Hall.
Qed.

Lemma prefix_pointwise (prefixPath callNodePath : list Z) :
  prefixPath `prefix_of` callNodePath
  ↔ ∀ (i : nat) prefixFunc,
      prefixPath !! i = Some prefixFunc → callNodePath !! i = Some prefixFunc.
Proof.
  split.
  - intros [rest ->] i x Hi. by apply lookup_app_l_Some.
  - revert callNodePath.
    induction prefixPath as [|x prefixPath IH]; intros callNodePath Hall.
    { apply prefix_nil. }
    destruct callNodePath as [|y callNodePath].
    { by specialize (Hall 0%nat x eq_refl). }
    pose proof (Hall 0%nat x eq_refl) as [= ->].
    apply prefix_cons, IH. intros i z Hi. apply (Hall (S i) z Hi).
Qed.

Lemma hasPrefixPath_prefix_of (prefixPath callNodePath : list Z) :
  _callNodePathHasPrefixPath prefixPath callNodePath = true
  ↔ prefixPath `prefix_of` callNodePath.
Proof.
  unfold _callNodePathHasPrefixPath.
  rewrite andb_true_iff, every_at_index, <- prefix_pointwise.
  rewrite bool_decide_eq_true. split; [by intros [_ ?]|].
  intros Hp. split; [|done]. by apply prefix_length.
Qed.

(** X1.  [_callNodePathHasPrefixPath] answers whether the first path is a prefix
    of the second; the test of the lengths adds nothing to the test of the
    funcs. *)
Theorem callNodePathHasPrefixPath_spec (prefixPath callNodePath : list Z) :
  _callNodePathHasPrefixPath prefixPath callNodePath = true
  ↔ prefixPath `prefix_of` callNodePath.
Proof. apply hasPrefixPath_prefix_of. Qed.

Lemma callNodePathHasPrefixPath_false (prefixPath callNodePath : list Z) :
  ¬ prefixPath `prefix_of` callNodePath →
  _callNodePathHasPrefixPath prefixPath callNodePath = false.
Proof.
  intros Hn. apply not_true_is_false.
  by rewrite hasPrefixPath_prefix_of.
Qed.

Lemma callNodePathHasPrefixPath_app (prefixPath rest : list Z) :
  _callNodePathHasPrefixPath prefixPath (prefixPath ++ rest) = true.
Proof. apply hasPrefixPath_prefix_of. by exists rest. Qed.

Lemma removePrefixPath_other (prefixPath callNodePath : list Z) :
  ¬ prefixPath `prefix_of` callNodePath →
  _removePrefixPathFromCallNodePath prefixPath callNodePath = [].
Proof.
  intros Hn. unfold _removePrefixPathFromCallNodePath.
  by rewrite callNodePathHasPrefixPath_false.
Qed.

Lemma removePrefixPath_through (init : list Z) (tip : Z) (rest : list Z) :
  _removePrefixPathFromCallNodePath (init ++ [tip]) ((init ++ [tip]) ++ rest)
  = tip :: rest.
Proof.
  unfold _removePrefixPathFromCallNodePath.
  rewrite callNodePathHasPrefixPath_app.
  unfold tableLength. rewrite length_app. simpl.
  rewrite slice_from by lia.
  replace (Z.to_nat (Z.of_nat (length init + 1) - 1)) with (length init) by lia.
  rewrite <- !app_assoc. by rewrite drop_app_length.
Qed.

(** X2.  [_removePrefixPathFromCallNodePath] keeps a path that goes through the
    node of a (non-empty) prefix path from that node on, and answers the
    empty path for every other path.  With the empty prefix path it keeps
    the last func of the path only: [slice(-1)]. *)
Theorem removePrefixPathFromCallNodePath_spec (prefixPath callNodePath : list Z) :
  (¬ prefixPath `prefix_of` callNodePath →
   _removePrefixPathFromCallNodePath prefixPath callNodePath = [])
  ∧ (∀ init tip rest,
       prefixPath = init ++ [tip] → callNodePath = prefixPath ++ rest →
       _removePrefixPathFromCallNodePath prefixPath callNodePath = tip :: rest)
  ∧ (prefixPath = [] →
     _removePrefixPathFromCallNodePath prefixPath callNodePath
     = option_list (last callNodePath)).
Proof.
  split_and!.
  - apply removePrefixPath_other.
  - intros init tip rest -> ->. apply removePrefixPath_through.
  - intros ->. unfold _removePrefixPathFromCallNodePath. simpl. apply slice_last.
Qed.

(** X3.  [_mergeNodeInCallNodePath] takes the func at the tip of the prefix path
    out of a path that goes through that node, and nothing else; every
    other path is left as it is. *)
Theorem mergeNodeInCallNodePath_spec (prefixPath callNodePath : list Z) :
  (¬ prefixPath `prefix_of` callNodePath →
   _mergeNodeInCallNodePath prefixPath callNodePath = callNodePath)
  ∧ (∀ init tip rest,
       prefixPath = init ++ [tip] → callNodePath = prefixPath ++ rest →
       _mergeNodeInCallNodePath prefixPath callNodePath = init ++ rest)
  ∧ (prefixPath = [] →
     _mergeNodeInCallNodePath prefixPath callNodePath = callNodePath).
Proof.
  unfold _mergeNodeInCallNodePath.
  pose proof (filter_by_index callNodePath 0) as Hfilter. simpl in Hfilter.
  split_and!.
  - intros Hn. by rewrite callNodePathHasPrefixPath_false.
  - intros init tip rest -> ->. rewrite callNodePathHasPrefixPath_app.
    rewrite Hfilter. unfold tableLength. rewrite length_app. simpl.
    rewrite decide_True by lia.
    rewrite delete_take_drop, <- !app_assoc.
    replace (Z.to_nat (Z.of_nat (length init + 1) - 1 - Z.of_nat 0))
      with (length init) by lia.
    rewrite take_app_length.
    change (S (length init)) with (1 + length init)%nat.
    rewrite Nat.add_comm, <- drop_drop, drop_app_length. done.
  - intros ->. destruct (_callNodePathHasPrefixPath _ _); [|done].
    rewrite Hfilter. by rewrite decide_False by (unfold tableLength; simpl; lia).
Qed.

(** X4.  [_startCallNodePathWithFunction] keeps a path from the first occurrence
    of the function on; a path without the function becomes the empty
    path. *)
Theorem startCallNodePathWithFunction_spec (funcIndex : Z) (callNodePath : list Z) :
  (funcIndex ∉ callNodePath →
   _startCallNodePathWithFunction funcIndex callNodePath = [])
  ∧ (∀ before after,
       callNodePath = before ++ funcIndex :: after → funcIndex ∉ before →
       _startCallNodePathWithFunction funcIndex callNodePath
       = funcIndex :: after).
Proof.
  unfold _startCallNodePathWithFunction, indexOf. split.
  - intros Hx. rewrite indexOfFrom_absent by done. done.
  - intros before after -> Hx. rewrite indexOfFrom_first by done.
    rewrite bool_decide_false by lia. rewrite slice_from by lia.
    replace (Z.to_nat (0 + Z.of_nat (length before))) with (length before) by lia.
    by rewrite drop_app_length.
Qed.

(** X5.  [_collapseFunctionSubtreeInCallNodePath] cuts a path after the first
    occurrence of the function; a path without the function is left as it
    is. *)
Theorem collapseFunctionSubtreeInCallNodePath_spec (funcIndex : Z)
    (callNodePath : list Z) :
  (funcIndex ∉ callNodePath →
   _collapseFunctionSubtreeInCallNodePath funcIndex callNodePath = callNodePath)
  ∧ (∀ before after,
       callNodePath = before ++ funcIndex :: after → funcIndex ∉ before →
       _collapseFunctionSubtreeInCallNodePath funcIndex callNodePath
       = before ++ [funcIndex]).
Proof.
  unfold _collapseFunctionSubtreeInCallNodePath, indexOf. split.
  - intros Hx. rewrite indexOfFrom_absent by done. done.
  - intros before after -> Hx. rewrite indexOfFrom_first by done.
    rewrite bool_decide_false by lia. rewrite slice_to by lia.
    replace (Z.to_nat (0 + Z.of_nat (length before) + 1))
      with (length (before ++ [funcIndex])) by (rewrite length_app; simpl; lia).
    rewrite (app_assoc before [funcIndex] after : before ++ funcIndex :: after = _).
    by rewrite take_app_length.
Qed.

(** *** collapse-resource and the dispatch *)

Lemma elemAt_before {A} (before rest : list A) :
  elemAt (before ++ rest) (tableLength before - 1) = last before.
Proof.
  unfold elemAt, tableLength.
  destruct before as [|x l _] using rev_ind.
  - by rewrite decide_False by (simpl; lia).
  - rewrite last_snoc, length_app. simpl. rewrite decide_True by lia.
    replace (Z.to_nat (Z.of_nat (length l + 1) - 1)) with (length l) by lia.
    rewrite <- app_assoc. by apply list_lookup_middle.
Qed.

Lemma filter_after_previous (collapsedFuncIndex : Z) (before rest : list Z) :
  omap (λ '(pathIndex, pathFuncIndex),
          if keepsPathFunc collapsedFuncIndex (before ++ rest) pathIndex
               pathFuncIndex
          then Some pathFuncIndex else None)
    (imap (λ pathIndex pathFuncIndex,
             ((length before + pathIndex)%nat, pathFuncIndex)) rest)
  = collapseDirectRecursionFrom collapsedFuncIndex rest (last before).
Proof.
  revert before. induction rest as [|x rest IH]; intros before; [done|].
  rewrite imap_cons. csimpl.
  rewrite (imap_ext _ (λ pathIndex pathFuncIndex,
                         ((length (before ++ [x]) + pathIndex)%nat, pathFuncIndex)))
    by (intros; simpl; rewrite length_app; simpl; f_equal; lia).
  replace (before ++ x :: rest) with ((before ++ [x]) ++ rest)
    by by rewrite <- app_assoc.
  rewrite IH, last_snoc. unfold keepsPathFunc.
  rewrite <- app_assoc. rewrite Nat.add_0_r.
  change (Z.of_nat (length before)) with (tableLength before).
  rewrite elemAt_before. rewrite orb_comm.
  by destruct (_ || _).
Qed.

(** X6.  Collapsing a resource in a call node path is collapsing the direct
    recursion of the collapsed func in the path whose funcs of the resource
    have been replaced by the collapsed func. *)
Theorem collapseResourceInCallNodePath_spec (resourceIndex collapsedFuncIndex : Z)
    (funcTable : FuncTable) (callNodePath : list Z) :
  _collapseResourceInCallNodePath resourceIndex collapsedFuncIndex funcTable
    callNodePath
  = _collapseDirectRecursionInCallNodePath collapsedFuncIndex
      (map (collapsedPathFunc resourceIndex collapsedFuncIndex funcTable)
         callNodePath).
Proof.
  unfold _collapseResourceInCallNodePath, _collapseDirectRecursionInCallNodePath.
  apply (filter_after_previous collapsedFuncIndex []).
Qed.

Lemma collapseDirectRecursionFrom_sublist (funcIndex : Z) (callNodePath : list Z)
    (previousFunc : option Z) :
  collapseDirectRecursionFrom funcIndex callNodePath previousFunc
    `sublist_of` callNodePath.
Proof.
  revert previousFunc.
  induction callNodePath as [|x l IH]; intros previousFunc; [done|].
  simpl. destruct (_ || _); simpl.
  - by apply sublist_skip.
  - by apply sublist_cons.
Qed.

(** X7.  No transform lengthens a call node path, and every transform but
    collapse-resource (which renames funcs) only takes funcs out of it:
    what it returns is the path with some funcs removed, in the same
    order. *)
Theorem applyTransformToCallNodePath_sublist (callNodePath : list Z)
    (transform : Transform) (transformedThread : Thread) :
  (length (applyTransformToCallNodePath callNodePath transform transformedThread)
   ≤ length callNodePath)%nat
  ∧ (transformType transform ≠ collapse_resource →
     applyTransformToCallNodePath callNodePath transform transformedThread
       `sublist_of` callNodePath).
Proof.
  assert (∀ prefixPath,
    _mergeNodeInCallNodePath prefixPath callNodePath `sublist_of` callNodePath)
    as Hmerge.
  { intros prefixPath. unfold _mergeNodeInCallNodePath.
    destruct (_callNodePathHasPrefixPath _ _); [|done].
    pose proof (filter_by_index callNodePath 0) as Hfilter. simpl in Hfilter.
    rewrite Hfilter. destruct (decide _); [apply sublist_delete|done]. }
  destruct transform as [prefixPath impl inv|f|prefixPath impl|f|f|r c impl|f impl|f];
    simpl.
  - assert (_removePrefixPathFromCallNodePath prefixPath callNodePath
              `sublist_of` callNodePath) as Hsub.
    { unfold _removePrefixPathFromCallNodePath.
      destruct (_callNodePathHasPrefixPath _ _);
        [apply slice_sublist|apply sublist_nil_l]. }
    split; [by apply sublist_length|done].
  - assert (_startCallNodePathWithFunction f callNodePath
              `sublist_of` callNodePath) as Hsub.
    { unfold _startCallNodePathWithFunction.
      destruct (bool_decide _); [apply sublist_nil_l|apply slice_sublist]. }
    split; [by apply sublist_length|done].
  - split; [by apply sublist_length|done].
  - assert (_mergeFunctionInCallNodePath f callNodePath
              `sublist_of` callNodePath) as Hsub
      by apply sublist_filter.
    split; [by apply sublist_length|done].
  - assert (_dropFunctionInCallNodePath f callNodePath
              `sublist_of` callNodePath) as Hsub.
    { unfold _dropFunctionInCallNodePath.
      destruct (includes _ _); [apply sublist_nil_l|done]. }
    split; [by apply sublist_length|done].
  - split; [|done]. unfold _collapseResourceInCallNodePath.
    etrans; [apply length_omap_le|]. by rewrite length_imap, length_map.
  - pose proof (collapseDirectRecursionFrom_sublist f callNodePath None) as Hsub.
    split; [by apply sublist_length|done].
  - assert (_collapseFunctionSubtreeInCallNodePath f callNodePath
              `sublist_of` callNodePath) as Hsub.
    { unfold _collapseFunctionSubtreeInCallNodePath.
      destruct (bool_decide _); [done|apply slice_sublist]. }
    split; [by apply sublist_length|done].
Qed.

(** ** Transforms and the call paths of the stacks *)

Lemma callPath_None_nil (table : StackTable) (frames : FrameTable) stack :
  callPath table frames stack [] → stack = None.
Proof.
  inversion 1 as [|s row path Hrow Hprefix Hs Hpath]; [done|]. by destruct path.
Qed.

Lemma callPath_Some_cons (table : StackTable) (frames : FrameTable) stack path :
  callPath table frames (Some stack) path → path ≠ [].
Proof. intros Hpath ->. by apply callPath_None_nil in Hpath. Qed.

(** Two tables with the same [prefix] and [frame] columns give the same
    call paths. *)
Lemma callPath_same_columns (table table' : StackTable) (frames : FrameTable)
    stack path :
  (∀ i row, elemAt table i = Some row →
     ∃ row', elemAt table' i = Some row'
             ∧ s_prefix row' = s_prefix row ∧ s_frame row' = s_frame row) →
  callPath table frames stack path → callPath table' frames stack path.
Proof.
  intros Hsame. induction 1 as [|stack row path Hrow Hprefix IH]; [constructor|].
  destruct (Hsame _ _ Hrow) as (row' & Hrow' & Hp & Hf).
  rewrite <- Hf. econstructor; [done|]. by rewrite Hp.
Qed.

Section Paths.

Variable thread : Thread.
Variable g : list (option Z) → list (option Z).
Hypothesis g_nil : g [] = [].

Lemma pi_initial : PathsInv thread g 0 emptyRewrite.
Proof.
  constructor; simpl.
  - intros; lia.
  - intros stack newStack Hs. by rewrite lookup_empty in Hs.
  - intros stack newStack path Hs. by rewrite lookup_empty in Hs.
Qed.

(** The prefix of the stack being visited has been visited. *)
Lemma pi_prefix_mapped n rw row :
  stackTableOrdered (stackTable thread) →
  PathsInv thread g n rw →
  elemAt (stackTable thread) n = Some row →
  ∃ newPrefix, mapGet (oldStackToNewStack rw) (s_prefix row) = Some newPrefix.
Proof.
  intros Hord Hinv Hrow. destruct (s_prefix row) as [prefix|] eqn:Hp.
  - simpl. apply (pi_mapped _ _ _ _ Hinv). by apply (Hord n row).
  - by exists None.
Qed.

Lemma pi_prefix_path n rw prefix newPrefix parentPath :
  PathsInv thread g n rw →
  mapGet (oldStackToNewStack rw) prefix = Some newPrefix →
  callPath (stackTable thread) (frameTable thread) prefix parentPath →
  callPath (newStackTable rw) (frameTable thread) newPrefix (g parentPath).
Proof.
  intros Hinv Hget Hpath. destruct prefix as [prefix|].
  - by apply (pi_paths _ _ _ _ Hinv prefix).
  - apply callPath_null_inv in Hpath as ->. injection Hget as <-.
    rewrite g_nil. constructor.
Qed.

(** The stack is mapped without a row of its own. *)
Lemma pi_redirect n rw row target :
  PathsInv thread g n rw →
  elemAt (stackTable thread) n = Some row →
  (∀ path,
     callPath (stackTable thread) (frameTable thread) (Some n) path →
     callPath (newStackTable rw) (frameTable thread) target (g path)) →
  PathsInv thread g (n + 1) (redirectStack rw n target).
Proof.
  intros Hinv Hrow Htarget. pose proof (elemAt_Some _ _ _ Hrow) as [Hn _].
  constructor; simpl.
  - intros stack Hstack. destruct (decide (stack = n)) as [->|Hne].
    + rewrite lookup_insert_eq. by eexists.
    + rewrite lookup_insert_ne by done. apply (pi_mapped _ _ _ _ Hinv). lia.
  - intros stack newStack [[<- _]|[_ Hs]]%lookup_insert_Some; [lia|].
    apply (pi_visited _ _ _ _ Hinv) in Hs. lia.
  - intros stack newStack path [[<- <-]|[_ Hs]]%lookup_insert_Some Hpath.
    + by apply Htarget.
    + by apply (pi_paths _ _ _ _ Hinv stack).
Qed.

(** The stack is emitted under the stack that its prefix is mapped to. *)
Lemma pi_emit n rw row newPrefix category subcategory :
  PathsInv thread g n rw →
  elemAt (stackTable thread) n = Some row →
  mapGet (oldStackToNewStack rw) (s_prefix row) = Some newPrefix →
  (∀ parentPath,
     callPath (stackTable thread) (frameTable thread) (s_prefix row) parentPath →
     g (parentPath ++ [funcOfRow thread row])
     = g parentPath ++ [funcOfRow thread row]) →
  PathsInv thread g (n + 1)
    (emitStack rw n newPrefix (s_frame row) category subcategory).
Proof.
  intros Hinv Hrow Hget Hg. pose proof (elemAt_Some _ _ _ Hrow) as [Hn _].
  constructor; simpl.
  - intros stack Hstack. destruct (decide (stack = n)) as [->|Hne].
    + rewrite lookup_insert_eq. by eexists.
    + rewrite lookup_insert_ne by done. apply (pi_mapped _ _ _ _ Hinv). lia.
  - intros stack newStack [[<- _]|[_ Hs]]%lookup_insert_Some; [lia|].
    apply (pi_visited _ _ _ _ Hinv) in Hs. lia.
  - intros stack newStack path [[<- <-]|[_ Hs]]%lookup_insert_Some Hpath.
    + destruct (callPath_inv _ _ _ _ _ Hpath Hrow) as (parentPath & -> & Hparent).
      fold (funcOfRow thread row). rewrite (Hg _ Hparent).
      eapply callPath_snoc; [apply elemAt_app_length|done|]. simpl.
      apply callPath_app. by eapply pi_prefix_path.
    + apply callPath_app. by apply (pi_paths _ _ _ _ Hinv stack).
Qed.

(** The categories of the table built so far do not matter. *)
Lemma pi_table n rw table :
  PathsInv thread g n rw →
  (∀ i row, elemAt (newStackTable rw) i = Some row →
     ∃ row', elemAt table i = Some row'
             ∧ s_prefix row' = s_prefix row ∧ s_frame row' = s_frame row) →
  PathsInv thread g n
    {| newStackTable := table; oldStackToNewStack := oldStackToNewStack rw |}.
Proof.
  intros Hinv Hsame. constructor; simpl.
  - apply (pi_mapped _ _ _ _ Hinv).
  - apply (pi_visited _ _ _ _ Hinv).
  - intros stack newStack path Hs Hpath.
    eapply callPath_same_columns; [exact Hsame|].
    by apply (pi_paths _ _ _ _ Hinv stack).
Qed.

End Paths.

(** *** Applying the mapping to the samples *)

Lemma mapStacks_getMap_total (oldStackToNewStack : StackMap)
    (stacks : list (option Z)) :
  Forall (λ stack, is_Some (mapGet oldStackToNewStack stack)) stacks →
  ∃ stacks',
    mapStacks (getMapStackUpdater oldStackToNewStack) stacks () = Ok (stacks', ())
    ∧ Forall2 (λ oldStack newStack,
                 mapGet oldStackToNewStack oldStack = Some newStack)
        stacks stacks'.
Proof.
  remember (getMapStackUpdater oldStackToNewStack) as convertStack eqn:Hconv.
  induction 1 as [|stack stacks [newStack Hget] _ (stacks' & Hrest & Hall)].
  - exists []. by split.
  - exists (newStack :: stacks'). simpl.
    assert (convertStack stack () = Ok (newStack, ())) as ->
      by (subst convertStack; unfold getMapStackUpdater; by rewrite Hget).
    simpl. rewrite Hrest. simpl. split; [done|by constructor].
Qed.

Lemma updateThreadStacks_getMap_total (thread : Thread) (table : StackTable)
    (oldStackToNewStack : StackMap) :
  Forall (Forall (λ stack, is_Some (mapGet oldStackToNewStack stack)))
    (sampleLikeTables thread) →
  ∃ thread',
    updateThreadStacks thread table (getMapStackUpdater oldStackToNewStack) ()
    = Ok thread'
    ∧ stackTable thread' = table
    ∧ frameTable thread' = frameTable thread
    ∧ funcTable thread' = funcTable thread
    ∧ stringTable thread' = stringTable thread
    ∧ resourceTable_name thread' = resourceTable_name thread
    ∧ Forall2 (Forall2 (λ oldStack newStack,
                          mapGet oldStackToNewStack oldStack = Some newStack))
        (sampleLikeTables thread) (sampleLikeTables thread').
Proof.
  unfold sampleLikeTables, updateThreadStacks.
  intros [Hsamples [Hjs Hnative]%Forall_app]%Forall_cons.
  assert (∀ column,
    Forall (Forall (λ stack, is_Some (mapGet oldStackToNewStack stack)))
      (option_list column) →
    ∃ column',
      mapStacksOpt (getMapStackUpdater oldStackToNewStack) column ()
      = Ok (column', ())
      ∧ Forall2 (Forall2 (λ oldStack newStack,
                            mapGet oldStackToNewStack oldStack = Some newStack))
          (option_list column) (option_list column')) as Hcolumn.
  { intros [stacks|] Hall; unfold mapStacksOpt.
    - apply Forall_cons in Hall as [Hall _].
      destruct (mapStacks_getMap_total _ _ Hall) as (stacks' & -> & Hrel).
      exists (Some stacks'). split; [done|]. simpl. by repeat constructor.
    - exists None. split; [done|constructor]. }
  destruct (mapStacks_getMap_total _ _ Hsamples) as (samples' & -> & Hs).
  destruct (Hcolumn _ Hjs) as (js' & Hjsrun & Hjs').
  destruct (Hcolumn _ Hnative) as (native' & Hnativerun & Hnative').
  cbn [mbind result_bind]. rewrite Hjsrun.
  cbn [mbind result_bind]. rewrite Hnativerun.
  cbn [mbind result_bind].
  eexists. split; [done|]. simpl. split_and!; try done.
  constructor; [done|]. by apply Forall2_app.
Qed.

(** A rewriting transform whose forward pass ends in [rw] returns, and each
    sample-like row gets the stack whose call path [g] gives. *)
Lemma rewritten_paths (thread : Thread) (g : list (option Z) → list (option Z))
    (rw : Rewrite) :
  g [] = [] →
  samplesValid thread →
  PathsInv thread g (tableLength (stackTable thread)) rw →
  ∃ thread',
    updateThreadStacks thread (newStackTable rw)
      (getMapStackUpdater (oldStackToNewStack rw)) () = Ok thread'
    ∧ stackTable thread' = newStackTable rw
    ∧ frameTable thread' = frameTable thread
    ∧ funcTable thread' = funcTable thread
    ∧ Forall2 (Forall2 (λ oldStack newStack,
        ∀ path,
          callPath (stackTable thread) (frameTable thread) oldStack path →
          callPath (stackTable thread') (frameTable thread') newStack (g path)))
        (sampleLikeTables thread) (sampleLikeTables thread').
Proof.
  intros Hnil Hvalid Hinv.
  destruct (updateThreadStacks_getMap_total thread (newStackTable rw)
              (oldStackToNewStack rw))
    as (thread' & Hrun & Htable & Hframes & Hfuncs & _ & _ & Hrel).
  { eapply Forall_impl; [exact Hvalid|]. intros stacks Hstacks.
    eapply Forall_impl; [exact Hstacks|]. intros [stack|] Hstack; [|by eexists].
    simpl. by apply (pi_mapped _ _ _ _ Hinv). }
  exists thread'. split_and!; try done.
  eapply Forall2_impl; [exact Hrel|]. intros stacks stacks' Hstacks.
  eapply Forall2_impl; [exact Hstacks|]. intros oldStack newStack Hget path Hpath.
  simpl in Hget. rewrite Htable, Hframes.
  exact (pi_prefix_path thread g Hnil _ rw oldStack newStack path Hinv Hget Hpath).
Qed.

(** ** The transforms of a thread agree with the transforms of a path *)

Lemma resolveCategory_columns (table : StackTable) (stack c s d : Z) :
  ∀ i row, elemAt table i = Some row →
    ∃ row', elemAt (resolveCategory table stack c s d) i = Some row'
            ∧ s_prefix row' = s_prefix row ∧ s_frame row' = s_frame row.
Proof.
  intros i row Hrow. destruct (decide (i = stack)) as [->|Hne].
  - destruct (resolveCategory_at table stack c s d row Hrow)
      as (row' & ? & ? & ? & _).
    by exists row'.
  - exists row. by rewrite resolveCategory_other.
Qed.

(** Turning the statement about all call paths into the statement about
    call node paths. *)
Lemma pathRewritten_of (thread thread' : Thread)
    (g : list (option Z) → list (option Z)) (g' : list Z → list Z) :
  (∀ callNodePath, g (Some <$> callNodePath) = Some <$> g' callNodePath) →
  Forall2 (Forall2 (λ oldStack newStack,
    ∀ path,
      callPath (stackTable thread) (frameTable thread) oldStack path →
      callPath (stackTable thread') (frameTable thread') newStack (g path)))
    (sampleLikeTables thread) (sampleLikeTables thread') →
  Forall2 (Forall2 (pathRewritten thread thread' g'))
    (sampleLikeTables thread) (sampleLikeTables thread').
Proof.
  intros Hg Hrel.
  eapply Forall2_impl; [exact Hrel|]. intros stacks stacks' Hstacks.
  eapply Forall2_impl; [exact Hstacks|].
  intros oldStack newStack Hpaths callNodePath Hpath.
  rewrite <- Hg. by apply Hpaths.
Qed.

(** *** merge-function *)

Lemma mergeFunctionLoop_paths (thread : Thread) (funcIndexToMerge : Z) :
  stackTableOrdered (stackTable thread) →
  ∃ rw,
    mergeFunctionLoop thread funcIndexToMerge = Ok rw
    ∧ PathsInv thread (filter (λ funcIndex, funcIndex ≠ Some funcIndexToMerge))
        (tableLength (stackTable thread)) rw.
Proof.
  intros Hord. apply forStacks_total; [by apply pi_initial|].
  intros n row rw Hrow Hinv.
  destruct (pi_prefix_mapped _ _ _ _ _ Hord Hinv Hrow) as [newPrefix Hget].
  unfold mergeFunctionBody. rewrite Hget. simpl orNull.
  destruct (sameValue (funcOfRow thread row) (Some funcIndexToMerge)) eqn:Hsame;
    (eexists; split; [done|]).
  - apply bool_decide_eq_true in Hsame.
    eapply pi_redirect; [done..|]. intros path Hpath.
    destruct (callPath_inv _ _ _ _ _ Hpath Hrow) as (parentPath & -> & Hparent).
    fold (funcOfRow thread row). rewrite Hsame, filter_app.
    rewrite filter_cons_False by (intros Hne; by apply Hne).
    rewrite filter_nil, app_nil_r. by eapply (pi_prefix_path _ _ eq_refl).
  - apply bool_decide_eq_false in Hsame.
    eapply pi_emit; [done..|]. intros parentPath _.
    rewrite filter_app. by rewrite filter_cons_True.
Qed.

Lemma mergeFunctionInCallNodePath_fmap (funcIndex : Z) (callNodePath : list Z) :
  filter (λ nodeFunc, nodeFunc ≠ Some funcIndex) (Some <$> callNodePath)
  = Some <$> _mergeFunctionInCallNodePath funcIndex callNodePath.
Proof.
  unfold _mergeFunctionInCallNodePath.
  induction callNodePath as [|x l IH]; [done|].
  rewrite fmap_cons. destruct (decide (x = funcIndex)) as [->|Hne].
  - rewrite !filter_cons_False by (intros Hne; by apply Hne). done.
  - rewrite !filter_cons_True by congruence. rewrite fmap_cons. by f_equal.
Qed.

Lemma mergeFunction_paths_total (thread : Thread) (funcIndexToMerge : Z) :
  stackTableOrdered (stackTable thread) → samplesValid thread →
  ∃ thread', mergeFunction thread funcIndexToMerge = Ok thread'.
Proof.
  intros Hord Hvalid.
  destruct (mergeFunctionLoop_paths thread funcIndexToMerge Hord)
    as (rw & Hloop & Hinv).
  destruct (rewritten_paths thread _ rw eq_refl Hvalid Hinv)
    as (thread' & Hrun & _).
  exists thread'. unfold mergeFunction. by rewrite Hloop.
Qed.

(** X8.  [mergeFunction] returns on every thread with an ordered stack table and
    valid samples, and it does to the call path of every sample what
    [_mergeFunctionInCallNodePath] does to a call node path: the new stack
    of a sample has the old call path without the merged function. *)
Theorem mergeFunction_call_paths (thread : Thread) (funcIndexToMerge : Z) :
  stackTableOrdered (stackTable thread) →
  samplesValid thread →
  ∃ thread',
    mergeFunction thread funcIndexToMerge = Ok thread'
    ∧ frameTable thread' = frameTable thread
    ∧ funcTable thread' = funcTable thread
    ∧ Forall2 (Forall2 (pathRewritten thread thread'
                          (_mergeFunctionInCallNodePath funcIndexToMerge)))
        (sampleLikeTables thread) (sampleLikeTables thread').
Proof.
  intros Hord Hvalid.
  destruct (mergeFunctionLoop_paths thread funcIndexToMerge Hord)
    as (rw & Hloop & Hinv).
  destruct (rewritten_paths thread _ rw eq_refl Hvalid Hinv)
    as (thread' & Hrun & _ & Hframes & Hfuncs & Hrel).
  exists thread'. unfold mergeFunction. rewrite Hloop. simpl.
  split_and!; try done.
  eapply pathRewritten_of; [|exact Hrel].
  apply mergeFunctionInCallNodePath_fmap.
Qed.

(** *** focus-function *)

Lemma fromFirst_snoc (funcIndex : Z) (path : list (option Z)) (nodeFunc : option Z) :
  fromFirst funcIndex (path ++ [nodeFunc])
  = if decide (fromFirst funcIndex path = [])
    then (if sameValue nodeFunc (Some funcIndex) then [nodeFunc] else [])
    else fromFirst funcIndex path ++ [nodeFunc].
Proof.
  induction path as [|x path IH]; [done|].
  simpl. destruct (sameValue x (Some funcIndex)); [done|]. apply IH.
Qed.

Lemma fromFirst_absent (funcIndex : Z) (path : list (option Z)) :
  Some funcIndex ∉ path → fromFirst funcIndex path = [].
Proof.
  induction path as [|x path IH]; [done|].
  intros [Hne Hx]%not_elem_of_cons. simpl. unfold sameValue.
  rewrite bool_decide_false by congruence. by apply IH.
Qed.

Lemma fromFirst_first (funcIndex : Z) (before after : list (option Z)) :
  Some funcIndex ∉ before →
  fromFirst funcIndex (before ++ Some funcIndex :: after)
  = Some funcIndex :: after.
Proof.
  induction before as [|x before IH]; simpl.
  - intros _. unfold sameValue. by rewrite bool_decide_true.
  - intros [Hne Hx]%not_elem_of_cons. unfold sameValue.
    rewrite bool_decide_false by congruence. by apply IH.
Qed.

Lemma not_elem_of_fmap_Some (x : Z) (l : list Z) :
  x ∉ l → Some x ∉ (Some <$> l : list (option Z)).
Proof.
  intros Hx (y & [= <-] & Hy)%list_elem_of_fmap. done.
Qed.

Lemma startCallNodePathWithFunction_fmap (funcIndex : Z) (callNodePath : list Z) :
  fromFirst funcIndex (Some <$> callNodePath)
  = Some <$> _startCallNodePathWithFunction funcIndex callNodePath.
Proof.
  unfold _startCallNodePathWithFunction, indexOf.
  destruct (decide (funcIndex ∈ callNodePath)) as [Hin|Hout].
  - destruct (elem_of_first_split _ _ Hin) as (before & after & -> & Hx).
    rewrite indexOfFrom_first by done.
    rewrite bool_decide_false by lia. rewrite slice_from by lia.
    replace (Z.to_nat (0 + Z.of_nat (length before))) with (length before) by lia.
    rewrite drop_app_length, fmap_app, fmap_cons.
    by rewrite fromFirst_first by by apply not_elem_of_fmap_Some.
  - rewrite indexOfFrom_absent by done. simpl.
    by rewrite fromFirst_absent by by apply not_elem_of_fmap_Some.
Qed.

Lemma focusFunctionLoop_paths (thread : Thread) (funcIndexToFocus : Z) :
  stackTableOrdered (stackTable thread) →
  ∃ rw,
    focusFunctionLoop thread funcIndexToFocus = Ok rw
    ∧ PathsInv thread (fromFirst funcIndexToFocus)
        (tableLength (stackTable thread)) rw.
Proof.
  intros Hord. apply forStacks_total; [by apply pi_initial|].
  intros n row rw Hrow Hinv.
  destruct (pi_prefix_mapped _ _ _ _ _ Hord Hinv Hrow) as [newPrefix Hget].
  unfold focusFunctionBody. rewrite Hget.
  assert (∀ parentPath,
    callPath (stackTable thread) (frameTable thread) (s_prefix row) parentPath →
    newPrefix = None ↔ fromFirst funcIndexToFocus parentPath = []) as Hnone.
  { intros parentPath Hparent.
    pose proof (pi_prefix_path _ _ eq_refl _ _ _ _ _ Hinv Hget Hparent) as Hnew.
    split.
    - intros ->. by apply callPath_null_inv in Hnew.
    - intros Hnil. rewrite Hnil in Hnew. by apply callPath_None_nil in Hnew. }
  destruct (bool_decide (newPrefix ≠ None)
            || sameValue (funcOfRow thread row) (Some funcIndexToFocus)) eqn:Hkeep;
    (eexists; split; [done|]).
  - apply pi_emit; [done..|]. intros parentPath Hparent.
    rewrite fromFirst_snoc. destruct (decide _) as [Hnil|Hcons]; [|done].
    pose proof (proj2 (Hnone _ Hparent) Hnil) as ->.
    rewrite bool_decide_false in Hkeep by (intros Hne; by apply Hne).
    simpl in Hkeep. by rewrite Hkeep, Hnil.
  - apply orb_false_iff in Hkeep as [Hnull Hsame].
    apply bool_decide_eq_false in Hnull. apply dec_stable in Hnull as ->.
    eapply pi_redirect; [done..|]. intros path Hpath.
    destruct (callPath_inv _ _ _ _ _ Hpath Hrow) as (parentPath & -> & Hparent).
    fold (funcOfRow thread row). rewrite fromFirst_snoc, Hsame.
    rewrite decide_True by by apply (Hnone _ Hparent). constructor.
Qed.

Lemma focusFunction_paths_total (thread : Thread) (funcIndexToFocus : Z) :
  stackTableOrdered (stackTable thread) → samplesValid thread →
  ∃ thread', focusFunction thread funcIndexToFocus = Ok thread'.
Proof.
  intros Hord Hvalid.
  destruct (focusFunctionLoop_paths thread funcIndexToFocus Hord)
    as (rw & Hloop & Hinv).
  destruct (rewritten_paths thread _ rw eq_refl Hvalid Hinv)
    as (thread' & Hrun & _).
  exists thread'. unfold focusFunction. by rewrite Hloop.
Qed.

(** X9.  [focusFunction] returns on every thread with an ordered stack table and
    valid samples, and it does to the call path of every sample what
    [_startCallNodePathWithFunction] does to a call node path: the new stack
    of a sample has the old call path from the first occurrence of the
    function on, and a sample without the function gets [null]. *)
Theorem focusFunction_call_paths (thread : Thread) (funcIndexToFocus : Z) :
  stackTableOrdered (stackTable thread) →
  samplesValid thread →
  ∃ thread',
    focusFunction thread funcIndexToFocus = Ok thread'
    ∧ frameTable thread' = frameTable thread
    ∧ funcTable thread' = funcTable thread
    ∧ Forall2 (Forall2 (pathRewritten thread thread'
                          (_startCallNodePathWithFunction funcIndexToFocus)))
        (sampleLikeTables thread) (sampleLikeTables thread')
    ∧ Forall2 (Forall2 (λ oldStack newStack,
        ∀ callNodePath,
          callPath (stackTable thread) (frameTable thread) oldStack
            (Some <$> callNodePath) →
          funcIndexToFocus ∉ callNodePath → newStack = None))
        (sampleLikeTables thread) (sampleLikeTables thread').
Proof.
  intros Hord Hvalid.
  destruct (focusFunctionLoop_paths thread funcIndexToFocus Hord)
    as (rw & Hloop & Hinv).
  destruct (rewritten_paths thread _ rw eq_refl Hvalid Hinv)
    as (thread' & Hrun & _ & Hframes & Hfuncs & Hrel).
  exists thread'. unfold focusFunction. rewrite Hloop. simpl.
  split_and!; try done.
  - eapply pathRewritten_of; [|exact Hrel].
    apply startCallNodePathWithFunction_fmap.
  - eapply Forall2_impl; [exact Hrel|]. intros stacks stacks' Hstacks.
    eapply Forall2_impl; [exact Hstacks|].
    intros oldStack newStack Hpaths callNodePath Hpath Hout.
    apply Hpaths in Hpath.
    rewrite fromFirst_absent in Hpath by by apply not_elem_of_fmap_Some.
    by apply callPath_None_nil in Hpath.
Qed.

(** *** collapse-function-subtree *)

Lemma upToFirst_snoc (funcIndex : Z) (path : list (option Z)) (nodeFunc : option Z) :
  upToFirst funcIndex (path ++ [nodeFunc])
  = if decide (Some funcIndex ∈ path) then upToFirst funcIndex path
    else upToFirst funcIndex path ++ [nodeFunc].
Proof.
  induction path as [|x path IH].
  - simpl. by destruct (sameValue _ _).
  - simpl. unfold sameValue. destruct (decide (x = Some funcIndex)) as [->|Hne].
    + rewrite bool_decide_true by done.
      by rewrite decide_True by (apply elem_of_cons; by left).
    + rewrite bool_decide_false by done. rewrite IH.
      destruct (decide (Some funcIndex ∈ path)) as [Hin|Hout].
      * by rewrite decide_True by (apply elem_of_cons; by right).
      * rewrite decide_False; [done|].
        intros [?|?]%elem_of_cons; congruence.
Qed.

Lemma upToFirst_absent (funcIndex : Z) (path : list (option Z)) :
  Some funcIndex ∉ path → upToFirst funcIndex path = path.
Proof.
  induction path as [|x path IH]; [done|].
  intros [Hne Hx]%not_elem_of_cons. simpl. unfold sameValue.
  rewrite bool_decide_false by congruence. f_equal. by apply IH.
Qed.

Lemma upToFirst_first (funcIndex : Z) (before after : list (option Z)) :
  Some funcIndex ∉ before →
  upToFirst funcIndex (before ++ Some funcIndex :: after)
  = before ++ [Some funcIndex].
Proof.
  induction before as [|x before IH]; simpl.
  - intros _. unfold sameValue. by rewrite bool_decide_true.
  - intros [Hne Hx]%not_elem_of_cons. unfold sameValue.
    rewrite bool_decide_false by congruence. f_equal. by apply IH.
Qed.

Lemma collapseFunctionSubtreeInCallNodePath_fmap (funcIndex : Z)
    (callNodePath : list Z) :
  upToFirst funcIndex (Some <$> callNodePath)
  = Some <$> _collapseFunctionSubtreeInCallNodePath funcIndex callNodePath.
Proof.
  unfold _collapseFunctionSubtreeInCallNodePath, indexOf.
  destruct (decide (funcIndex ∈ callNodePath)) as [Hin|Hout].
  - destruct (elem_of_first_split _ _ Hin) as (before & after & -> & Hx).
    rewrite indexOfFrom_first by done.
    rewrite bool_decide_false by lia. rewrite slice_to by lia.
    replace (Z.to_nat (0 + Z.of_nat (length before) + 1))
      with (length (before ++ [funcIndex])) by (rewrite length_app; simpl; lia).
    rewrite (app_assoc before [funcIndex] after : before ++ funcIndex :: after = _).
    rewrite take_app_length, <- app_assoc. simpl.
    rewrite !fmap_app, !fmap_cons.
    by rewrite upToFirst_first by by apply not_elem_of_fmap_Some.
  - rewrite indexOfFrom_absent by done. simpl.
    by rewrite upToFirst_absent by by apply not_elem_of_fmap_Some.
Qed.

Section CollapseFunctionSubtree.

Variable thread : Thread.
Variable funcToCollapse : Z.
Variable defaultCategory : Z.
Hypothesis ordered : stackTableOrdered (stackTable thread).

Lemma csi_initial :
  CollapseSubtreeInv thread funcToCollapse 0
    {| cfs_rewrite := emptyRewrite; cfs_collapsedStacks := ∅ |}.
Proof.
  constructor; simpl.
  - by apply pi_initial.
  - set_solver.
  - intros; lia.
Qed.

(** Whether the prefix of the stack visited is collapsed tells whether the
    function is on the call path of the prefix. *)
Lemma csi_prefix n st row parentPath :
  CollapseSubtreeInv thread funcToCollapse n st →
  elemAt (stackTable thread) n = Some row →
  callPath (stackTable thread) (frameTable thread) (s_prefix row) parentPath →
  setHas (cfs_collapsedStacks st) (s_prefix row) = true
  ↔ Some funcToCollapse ∈ parentPath.
Proof.
  intros Hinv Hrow Hparent. destruct (s_prefix row) as [prefix|] eqn:Hp; simpl.
  - rewrite bool_decide_eq_true.
    apply (csi_collapsed _ _ _ _ Hinv); [|done]. by apply (ordered n row).
  - apply callPath_null_inv in Hparent as ->. split; [done|].
    by intros ?%elem_of_nil.
Qed.

Lemma csi_step n row st :
  elemAt (stackTable thread) n = Some row →
  CollapseSubtreeInv thread funcToCollapse n st →
  ∃ st',
    collapseFunctionSubtreeBody thread funcToCollapse defaultCategory n row st
    = Ok st'
    ∧ CollapseSubtreeInv thread funcToCollapse (n + 1) st'.
Proof.
  intros Hrow Hinv. pose proof (elemAt_Some _ _ _ Hrow) as [Hn _].
  pose proof (csi_paths _ _ _ _ Hinv) as Hpaths.
  destruct (pi_prefix_mapped _ _ _ _ _ ordered Hpaths Hrow) as [newPrefix Hget].
  unfold collapseFunctionSubtreeBody. rewrite Hget.
  assert (∀ stack path (set : gset Z),
    0 ≤ stack < n + 1 → stack ≠ n →
    callPath (stackTable thread) (frameTable thread) (Some stack) path →
    (set = cfs_collapsedStacks st ∨ set = {[n]} ∪ cfs_collapsedStacks st) →
    stack ∈ set ↔ Some funcToCollapse ∈ path) as Hold.
  { intros stack path set Hstack Hne Hpath Hset.
    rewrite <- (csi_collapsed _ _ _ _ Hinv stack path) by (done || lia).
    destruct Hset as [->| ->]; set_solver. }
  destruct (setHas (cfs_collapsedStacks st) (s_prefix row)) eqn:Hhas;
    (eexists; split; [done|]).
  - (* the stack is collapsed into the stack of its prefix *)
    set (table :=
      match newPrefix with
      | Some newPrefixStack =>
          resolveCategory (newStackTable (cfs_rewrite st)) newPrefixStack
            (s_category row) (s_subcategory row) defaultCategory
      | None => newStackTable (cfs_rewrite st)
      end).
    assert (PathsInv thread (upToFirst funcToCollapse) n
              {| newStackTable := table;
                 oldStackToNewStack := oldStackToNewStack (cfs_rewrite st) |})
      as Hpaths'.
    { apply pi_table; [done|]. unfold table. destruct newPrefix.
      - apply resolveCategory_columns.
      - by eauto. }
    constructor; simpl.
    + apply (pi_redirect _ _ n _ row newPrefix Hpaths' Hrow).
      intros path Hpath.
      destruct (callPath_inv _ _ _ _ _ Hpath Hrow) as (parentPath & -> & Hparent).
      rewrite upToFirst_snoc.
      rewrite decide_True by by apply (csi_prefix n st row).
      by apply (pi_prefix_path _ _ eq_refl n _ (s_prefix row)).
    + intros stack [->%elem_of_singleton|Hs]%elem_of_union; [lia|].
      apply (csi_visited _ _ _ _ Hinv) in Hs. lia.
    + intros stack path Hstack Hpath.
      destruct (decide (stack = n)) as [->|Hne]; [|by apply Hold; auto].
      destruct (callPath_inv _ _ _ _ _ Hpath Hrow) as (parentPath & -> & Hparent).
      split; [|set_solver]. intros _. apply elem_of_app. left.
      by apply (csi_prefix n st row).
  - (* the stack is emitted *)
    assert (∀ parentPath,
      callPath (stackTable thread) (frameTable thread) (s_prefix row) parentPath →
      Some funcToCollapse ∉ parentPath) as Hout.
    { intros parentPath Hparent Hin.
      apply (csi_prefix n st row parentPath Hinv Hrow Hparent) in Hin.
      congruence. }
    constructor; simpl.
    + eapply pi_emit; [done..|]. intros parentPath Hparent.
      rewrite upToFirst_snoc. by rewrite decide_False by by apply Hout.
    + intros stack Hs.
      assert (stack = n ∨ stack ∈ cfs_collapsedStacks st) as [->|Hs']
        by (destruct (sameValue _ _); set_solver); [lia|].
      apply (csi_visited _ _ _ _ Hinv) in Hs'. lia.
    + intros stack path Hstack Hpath.
      destruct (decide (stack = n)) as [->|Hne].
      * destruct (callPath_inv _ _ _ _ _ Hpath Hrow)
          as (parentPath & -> & Hparent).
        fold (funcOfRow thread row). rewrite elem_of_app.
        rewrite list_elem_of_singleton. unfold sameValue.
        destruct (decide (Some funcToCollapse = funcOfRow thread row)) as [He|He].
        -- rewrite bool_decide_true by done. split; [by right|set_solver].
        -- rewrite bool_decide_false by done. split.
           ++ intros Hin. apply (csi_visited _ _ _ _ Hinv) in Hin. lia.
           ++ intros [Hin|?]; [|done]. by apply Hout in Hin.
      * apply Hold; [done..|]. destruct (sameValue _ _); auto.
Qed.

Lemma collapseFunctionSubtreeLoop_paths :
  ∃ st,
    collapseFunctionSubtreeLoop thread funcToCollapse defaultCategory = Ok st
    ∧ CollapseSubtreeInv thread funcToCollapse
        (tableLength (stackTable thread)) st.
Proof.
  apply forStacks_total; [apply csi_initial|].
  intros n row st Hrow Hinv. by apply csi_step.
Qed.

End CollapseFunctionSubtree.

Lemma collapseFunctionSubtree_paths_total (thread : Thread)
    (funcToCollapse defaultCategory : Z) :
  stackTableOrdered (stackTable thread) → samplesValid thread →
  ∃ thread',
    collapseFunctionSubtree thread funcToCollapse defaultCategory = Ok thread'.
Proof.
  intros Hord Hvalid.
  destruct (collapseFunctionSubtreeLoop_paths thread funcToCollapse
              defaultCategory Hord) as (st & Hloop & Hinv).
  destruct (rewritten_paths thread _ (cfs_rewrite st) eq_refl Hvalid
              (csi_paths _ _ _ _ Hinv)) as (thread' & Hrun & _).
  exists thread'. unfold collapseFunctionSubtree. by rewrite Hloop.
Qed.

(** X10.  [collapseFunctionSubtree] returns on every thread with an ordered stack
    table and valid samples, and it does to the call path of every sample
    what [_collapseFunctionSubtreeInCallNodePath] does to a call node path:
    the new stack of a sample has the old call path cut after the first
    occurrence of the function. *)
Theorem collapseFunctionSubtree_call_paths (thread : Thread)
    (funcToCollapse defaultCategory : Z) :
  stackTableOrdered (stackTable thread) →
  samplesValid thread →
  ∃ thread',
    collapseFunctionSubtree thread funcToCollapse defaultCategory = Ok thread'
    ∧ frameTable thread' = frameTable thread
    ∧ funcTable thread' = funcTable thread
    ∧ Forall2 (Forall2 (pathRewritten thread thread'
                          (_collapseFunctionSubtreeInCallNodePath funcToCollapse)))
        (sampleLikeTables thread) (sampleLikeTables thread').
Proof.
  intros Hord Hvalid.
  destruct (collapseFunctionSubtreeLoop_paths thread funcToCollapse
              defaultCategory Hord) as (st & Hloop & Hinv).
  destruct (rewritten_paths thread _ (cfs_rewrite st) eq_refl Hvalid
              (csi_paths _ _ _ _ Hinv))
    as (thread' & Hrun & _ & Hframes & Hfuncs & Hrel).
  exists thread'. unfold collapseFunctionSubtree. rewrite Hloop. simpl.
  split_and!; try done.
  eapply pathRewritten_of; [|exact Hrel].
  apply collapseFunctionSubtreeInCallNodePath_fmap.
Qed.

(** *** drop-function *)

Lemma stackContainsFunc_path (thread : Thread) (funcIndex : Z) stack path :
  callPath (stackTable thread) (frameTable thread) stack path →
  ∀ s, stack = Some s →
    stackContainsFunc thread funcIndex (Some s) ↔ Some funcIndex ∈ path.
Proof.
  induction 1 as [|stack row parentPath Hrow Hparent IH]; [done|].
  intros s [= <-]. rewrite (stackContainsFunc_row _ _ _ _ Hrow).
  rewrite elem_of_app, list_elem_of_singleton.
  fold (funcOfRow thread row).
  destruct (s_prefix row) as [prefix|] eqn:Hp.
  - rewrite <- (IH prefix eq_refl). split.
    + intros [?|(p & [= <-] & ?)]; auto.
    + intros [?|?]; [right; by exists prefix|by left].
  - apply callPath_null_inv in Hparent as ->. split.
    + intros [?|(p & ? & _)]; [by right|done].
    + intros [?%elem_of_nil|?]; [done|by left].
Qed.

(** X11.  [dropFunction] does to the call path of every sample what
    [_dropFunctionInCallNodePath] does to a call node path: a sample whose
    call path has the function gets [null], whose call path is empty, and
    every other sample keeps its stack and its call path. *)
Theorem dropFunction_call_paths (thread : Thread) (funcIndexToDrop : Z) :
  stackTableOrdered (stackTable thread) →
  ∃ dropped,
    dropFunction thread funcIndexToDrop = Ok dropped
    ∧ Forall2 (Forall2 (pathRewritten thread dropped
                          (_dropFunctionInCallNodePath funcIndexToDrop)))
        (sampleLikeTables thread) (sampleLikeTables dropped).
Proof.
  intros Hord.
  destruct (dropFunctionLoop_spec thread funcIndexToDrop Hord)
    as (flags & Hloop & Hflags).
  eexists. unfold dropFunction. rewrite Hloop. simpl.
  split; [apply updateThreadStacks_pure|].
  unfold sampleLikeTables. simpl.
  assert (∀ stacks, Forall2 (pathRewritten thread
      {| samples := map (dropStack flags) (samples thread);
         jsAllocations := map (dropStack flags) <$> jsAllocations thread;
         nativeAllocations := map (dropStack flags) <$> nativeAllocations thread;
         stackTable := stackTable thread;
         frameTable := frameTable thread;
         funcTable := funcTable thread;
         stringTable := stringTable thread;
         resourceTable_name := resourceTable_name thread |}
      (_dropFunctionInCallNodePath funcIndexToDrop))
    stacks (map (dropStack flags) stacks)) as Hcolumn.
  { intros stacks. apply Forall2_fmap_r, Forall_Forall2_diag, Forall_forall.
    intros oldStack _ callNodePath Hpath. simpl.
    unfold _dropFunctionInCallNodePath, includes.
    destruct oldStack as [s|]; simpl.
    - pose proof (stackContainsFunc_path _ funcIndexToDrop _ _ Hpath s eq_refl)
        as Hcontains.
      rewrite <- Hflags in Hcontains.
      destruct (default false (elemAt flags s)).
      + rewrite bool_decide_true; [constructor|].
        apply proj1 in Hcontains.
        specialize (Hcontains eq_refl).
        apply list_elem_of_fmap in Hcontains as (x & [= <-] & Hx). done.
      + rewrite bool_decide_false; [done|].
        intros Hin. apply proj2 in Hcontains.
        assert (false = true); [|done]. apply Hcontains.
        apply list_elem_of_fmap. by exists funcIndexToDrop.
    - apply callPath_null_inv in Hpath.
      apply fmap_nil_inv in Hpath as ->.
      rewrite bool_decide_false by apply not_elem_of_nil. constructor. }
  constructor; [apply Hcolumn|].
  apply Forall2_app.
  - destruct (jsAllocations thread); simpl; repeat constructor. apply Hcolumn.
  - destruct (nativeAllocations thread); simpl; repeat constructor. apply Hcolumn.
Qed.

(** ** funcHasRecursiveCall *)

Lemma FUNC_MATCHES_returns (implementation : ImplementationFilter)
    (thread : Thread) (funcIndex : option Z) :
  implementation ≠ cpp →
  ∃ matches, FUNC_MATCHES implementation thread funcIndex = Ok matches.
Proof. destruct implementation; [by eexists|by eexists|done]. Qed.

(** In an ordered table every stack has a call path. *)
Lemma callPath_exists (table : StackTable) (frames : FrameTable) (stack : Z) :
  stackTableOrdered table →
  is_Some (elemAt table stack) →
  ∃ path, callPath table frames (Some stack) path.
Proof.
  intros Hord. pattern stack.
  apply (well_founded_induction (Z.lt_wf 0)). clear stack.
  intros stack IH [row Hrow].
  destruct (s_prefix row) as [prefix|] eqn:Hp.
  - pose proof (Hord _ _ _ Hrow Hp) as Hlt.
    pose proof (elemAt_Some _ _ _ Hrow) as Hstack.
    destruct (IH prefix) as [parentPath Hparent]; [lia| |].
    { apply elemAt_is_Some. lia. }
    eexists. econstructor; [done|]. by rewrite Hp.
  - eexists. econstructor; [done|]. rewrite Hp. constructor.
Qed.

Section FuncHasRecursiveCall.

Variable thread : Thread.
Variable implementation : ImplementationFilter.
Variable funcToCheck : Z.
Hypothesis ordered : stackTableOrdered (stackTable thread).

Abbreviation matchesF := (matchesImplementation implementation thread).

Abbreviation recursiveStacksInv :=
  (recursiveStacksInv thread implementation funcToCheck).
Abbreviation recursiveCallAt :=
  (recursiveCallAt thread implementation funcToCheck).

Lemma recursivePrefix_runOpen n set row parentPath :
  recursiveStacksInv n set →
  elemAt (stackTable thread) n = Some row →
  callPath (stackTable thread) (frameTable thread) (s_prefix row) parentPath →
  setHas set (s_prefix row) = runOpen matchesF funcToCheck false parentPath.
Proof.
  intros [_ Hinv] Hrow Hparent. destruct (s_prefix row) as [prefix|] eqn:Hp.
  - simpl. pose proof (ordered _ _ _ Hrow Hp) as Hlt.
    specialize (Hinv prefix parentPath Hlt Hparent).
    destruct (runOpen _ _ _ _).
    + apply bool_decide_eq_true. by apply Hinv.
    + apply bool_decide_eq_false. intros Hin. by apply Hinv in Hin.
  - by apply callPath_null_inv in Hparent as ->.
Qed.

Lemma funcHasRecursiveCallFrom_spec (rows before : list StackRow)
    (recursiveStacks : gset Z) (result : bool) :
  stackTable thread = before ++ rows →
  recursiveStacksInv (tableLength before) recursiveStacks →
  (∀ stack, 0 ≤ stack < tableLength before → ¬ recursiveCallAt stack) →
  funcHasRecursiveCallFrom thread implementation funcToCheck
    (tableLength before) rows recursiveStacks = Ok result →
  result = true ↔ ∃ stack, recursiveCallAt stack.
Proof.
  revert before recursiveStacks.
  induction rows as [|row rest IH]; intros before set Htable Hinv Hnone.
  { intros [= <-]. split; [done|]. intros (stack & path & Hpath & Hopen).
    exfalso. apply (Hnone stack); [|by exists path].
    inversion Hpath as [|? r ? Hr]; subst.
    apply elemAt_Some in Hr. rewrite Htable, app_nil_r in Hr. done. }
  assert (elemAt (stackTable thread) (tableLength before) = Some row) as Hrow
    by (rewrite Htable; apply elemAt_middle).
  destruct (callPath_exists _ (frameTable thread) _ ordered (mk_is_Some _ _ Hrow))
    as [path Hpath].
  destruct (callPath_inv _ _ _ _ _ Hpath Hrow) as (parentPath & -> & Hparent).
  pose proof (recursivePrefix_runOpen _ _ _ _ Hinv Hrow Hparent) as Hhas.
  fold (funcOfRow thread row) in Hpath.
  assert (tableLength (before ++ [row]) = tableLength before + 1) as Hlen
    by (unfold tableLength; rewrite length_app; simpl; lia).
  assert (stackTable thread = (before ++ [row]) ++ rest) as Htable'
    by by rewrite <- app_assoc.
  (* what is known of the stacks visited before carries over *)
  assert (∀ set' : gset Z,
    (set' = set ∨ set' = {[tableLength before]} ∪ set) →
    (tableLength before ∈ set' ↔
     runOpen matchesF funcToCheck false
       (parentPath ++ [funcOfRow thread row]) = true) →
    recursiveStacksInv (tableLength (before ++ [row])) set') as Hstep.
  { intros set' Hset Hnew. rewrite Hlen. destruct Hinv as [Hvisited Hinv]. split.
    - intros stack Hs.
      assert (stack = tableLength before ∨ stack ∈ set) as [->|Hs']
        by (destruct Hset as [->| ->]; set_solver);
        [unfold tableLength; lia|].
      apply Hvisited in Hs'. lia.
    - intros stack path Hstack Hp.
      destruct (decide (stack = tableLength before)) as [->|Hne].
      + destruct (callPath_inv _ _ _ _ _ Hp Hrow) as (pp & -> & Hpp).
        destruct (callPath_inv _ _ _ _ _ Hpath Hrow) as (pp' & Heq & Hpp').
        apply app_inj_tail in Heq as [<- _].
        assert (pp = parentPath) as ->; [|done].
        clear -Hpp Hparent. revert pp Hpp.
        induction Hparent as [|s r p Hr Hp IH]; intros pp Hpp.
        * by apply callPath_null_inv in Hpp.
        * destruct (callPath_inv _ _ _ _ _ Hpp Hr) as (q & -> & Hq).
          f_equal. by apply IH.
      + rewrite <- (Hinv stack path) by (done || lia).
        assert (stack ∈ set → 0 ≤ stack < tableLength before) by apply Hvisited.
        destruct Hset as [->| ->]; set_solver. }
  assert (∀ pp,
    callPath (stackTable thread) (frameTable thread)
      (Some (tableLength before)) (pp ++ [Some funcToCheck]) →
    funcOfRow thread row = Some funcToCheck
    ∧ runOpen matchesF funcToCheck false pp = setHas set (s_prefix row))
    as Hhere.
  { intros pp Hp.
    destruct (callPath_inv _ _ _ _ _ Hp Hrow) as (pp' & Heq & Hpp').
    apply app_inj_tail in Heq as [-> Hfunc]. split; [done|].
    symmetry. by eapply recursivePrefix_runOpen. }
  assert (∀ stack, 0 ≤ stack < tableLength (before ++ [row]) →
    (∀ pp,
       callPath (stackTable thread) (frameTable thread)
         (Some (tableLength before)) (pp ++ [Some funcToCheck]) →
       runOpen matchesF funcToCheck false pp = false) →
    ¬ recursiveCallAt stack) as Hnone'.
  { intros stack Hstack Hn (pp & Hp & Hopen).
    destruct (decide (stack = tableLength before)) as [->|Hne].
    - rewrite (Hn pp Hp) in Hopen. done.
    - apply (Hnone stack); [lia|]. by exists pp. }
  simpl. unfold joinsRun in *. rewrite runOpen_snoc in Hstep.
  destruct (sameValue (Some funcToCheck) (funcOfRow thread row)) eqn:Hsame.
  - destruct (setHas set (s_prefix row)) eqn:Hprefix.
    + intros [= <-]. split; [|done]. intros _.
      exists (tableLength before), parentPath.
      apply bool_decide_eq_true in Hsame. rewrite Hsame. by split.
    + rewrite <- Hlen. apply IH; [done| |].
      * apply Hstep; [by right|]. unfold joinsRun. rewrite Hsame.
        destruct (runOpen _ _ _ parentPath); simpl; set_solver.
      * intros stack Hstack. apply Hnone'; [done|].
        intros pp Hp. by destruct (Hhere pp Hp) as [_ ->].
  - intros (add & Hadd & Hrest)%bind_Ok.
    assert (add = setHas set (s_prefix row)
                  && negb (matchesF (funcOfRow thread row))) as ->.
    { unfold matchesImplementation.
      destruct (setHas set (s_prefix row)); [|by injection Hadd as <-].
      destruct (FUNC_MATCHES _ _ _); simpl in *; [|done..].
      by injection Hadd as <-. }
    revert Hrest. rewrite <- Hlen. apply IH; [done| |].
    + apply Hstep.
      * destruct (setHas set (s_prefix row) && negb _); [by right|by left].
      * unfold joinsRun. rewrite Hsame, <- Hhas. simpl.
        destruct (setHas set (s_prefix row) && negb _) eqn:Hadd'; [set_solver|].
        split; [|done]. intros Hin. apply Hinv in Hin. lia.
    + intros stack Hstack. apply Hnone'; [done|].
      intros pp Hp. destruct (Hhere pp Hp) as [Hfunc _].
      rewrite Hfunc in Hsame. unfold sameValue in Hsame.
      by rewrite bool_decide_true in Hsame.
Qed.

Lemma funcHasRecursiveCallFrom_returns (rows : list StackRow) (n : Z)
    (recursiveStacks : gset Z) :
  implementation ≠ cpp →
  ∃ result,
    funcHasRecursiveCallFrom thread implementation funcToCheck n rows
      recursiveStacks = Ok result.
Proof.
  intros Himpl. revert n recursiveStacks.
  induction rows as [|row rest IH]; intros n set; [by eexists|].
  simpl. destruct (sameValue _ _).
  - destruct (setHas _ _); [by eexists|apply IH].
  - destruct (setHas _ _); [|apply IH].
    destruct (FUNC_MATCHES_returns implementation thread (funcOfRow thread row)
                Himpl) as [matches ->].
    apply IH.
Qed.

Lemma funcHasRecursiveCall_runs (result : bool) :
  funcHasRecursiveCall thread implementation funcToCheck = Ok result →
  result = true ↔ ∃ stack, recursiveCallAt stack.
Proof.
  unfold funcHasRecursiveCall.
  apply (funcHasRecursiveCallFrom_spec (stackTable thread) [] ∅); [done| |].
  - split; [set_solver|]. unfold tableLength. simpl. intros; lia.
  - unfold tableLength. simpl. intros; lia.
Qed.

End FuncHasRecursiveCall.

(** X12.  [funcHasRecursiveCall] answers [true] exactly when the thread has a
    stack whose func is the function and at the end of whose parent's call
    path a run of the function is open: the function called again from
    itself, directly or through funcs outside the implementation filter
    only.  These are the stacks that [collapseDirectRecursion] merges into
    the run.  With the filters [combined] and [js] the question is answered
    for every thread. *)
Theorem funcHasRecursiveCall_spec (thread : Thread)
    (implementation : ImplementationFilter) (funcToCheck : Z) :
  stackTableOrdered (stackTable thread) →
  (implementation ≠ cpp →
   ∃ result, funcHasRecursiveCall thread implementation funcToCheck = Ok result)
  ∧ ∀ result,
      funcHasRecursiveCall thread implementation funcToCheck = Ok result →
      result = true
      ↔ ∃ stack path,
          callPath (stackTable thread) (frameTable thread) (Some stack)
            (path ++ [Some funcToCheck])
          ∧ runOpen (matchesImplementation implementation thread) funcToCheck
              false path = true.
Proof.
  intros Hord. split.
  - intros Himpl. by apply funcHasRecursiveCallFrom_returns.
  - intros result Hrun. by apply funcHasRecursiveCall_runs.
Qed.

Lemma runOpen_combined (thread : Thread) (funcToCheck : Z) (path : list (option Z)) :
  runOpen (matchesImplementation combined thread) funcToCheck false path = true
  ↔ ∃ before, path = before ++ [Some funcToCheck].
Proof.
  destruct path as [|x path _] using rev_ind.
  - split; [done|]. intros [before Heq]. by destruct before.
  - rewrite runOpen_snoc. unfold joinsRun, matchesImplementation. simpl.
    rewrite orb_false_r. unfold sameValue.
    destruct (decide (Some funcToCheck = x)) as [<-|Hne].
    + rewrite ?bool_decide_true by done. rewrite ?andb_true_r.
      split; [by exists path|]. by destruct (runOpen _ _ _ _).
    + rewrite ?bool_decide_false by done. rewrite ?andb_false_r.
      split; [done|]. intros [before [_ Heq]%app_inj_tail]. congruence.
Qed.

(** X13.  With the filter [combined], [funcHasRecursiveCall] answers, for every
    ordered thread, whether some stack has a call path that ends in the
    function called by itself. *)
Theorem funcHasRecursiveCall_combined (thread : Thread) (funcToCheck : Z) :
  stackTableOrdered (stackTable thread) →
  ∃ result,
    funcHasRecursiveCall thread combined funcToCheck = Ok result
    ∧ (result = true
       ↔ ∃ stack path,
           callPath (stackTable thread) (frameTable thread) (Some stack)
             (path ++ [Some funcToCheck; Some funcToCheck])).
Proof.
  intros Hord.
  destruct (funcHasRecursiveCallFrom_returns thread combined funcToCheck
              (stackTable thread) 0 ∅) as [result Hrun]; [done|].
  exists result. split; [done|].
  rewrite (funcHasRecursiveCall_runs thread combined funcToCheck Hord result Hrun).
  split.
  - intros (stack & path & Hpath & [before ->]%runOpen_combined).
    exists stack, before. by rewrite <- app_assoc in Hpath.
  - intros (stack & path & Hpath). exists stack, (path ++ [Some funcToCheck]).
    split; [by rewrite <- app_assoc|]. apply runOpen_combined. by eexists.
Qed.

(** ** focus-subtree on the inverted tree *)

(** A callback that returns on every valid stack makes [updateThreadStacks]
    return. *)
Lemma mapStacks_total {S : Type} (convertStack : StackUpdater S)
    (Inv : S → Prop) (valid : option Z → Prop) (P : option Z → option Z → Prop)
    (stacks : list (option Z)) (st : S) :
  (∀ oldStack s, Inv s → valid oldStack →
     ∃ newStack s', convertStack oldStack s = Ok (newStack, s')
                    ∧ P oldStack newStack ∧ Inv s') →
  Inv st → Forall valid stacks →
  ∃ stacks' st',
    mapStacks convertStack stacks st = Ok (stacks', st')
    ∧ Forall2 P stacks stacks' ∧ Inv st'.
Proof.
  intros Hconv Hinv Hvalid. revert st Hinv.
  induction Hvalid as [|stack stacks Hstack _ IH]; intros st Hinv.
  - exists [], st. by split.
  - destruct (Hconv stack st Hinv Hstack) as (newStack & st1 & Hrun & HP & Hinv1).
    destruct (IH st1 Hinv1) as (stacks' & st2 & Hrest & HPs & Hinv2).
    exists (newStack :: stacks'), st2. cbn [mapStacks]. rewrite Hrun.
    cbn [mbind result_bind]. rewrite Hrest. cbn [mbind result_bind].
    split; [done|]. split; [by constructor|done].
Qed.

Lemma updateThreadStacks_total {S : Type} (convertStack : StackUpdater S)
    (Inv : S → Prop) (valid : option Z → Prop) (P : option Z → option Z → Prop)
    (thread : Thread) (table : StackTable) (st : S) :
  (∀ oldStack s, Inv s → valid oldStack →
     ∃ newStack s', convertStack oldStack s = Ok (newStack, s')
                    ∧ P oldStack newStack ∧ Inv s') →
  Inv st → Forall (Forall valid) (sampleLikeTables thread) →
  ∃ thread',
    updateThreadStacks thread table convertStack st = Ok thread'
    ∧ stackTable thread' = table
    ∧ frameTable thread' = frameTable thread
    ∧ funcTable thread' = funcTable thread
    ∧ Forall2 (Forall2 P) (sampleLikeTables thread) (sampleLikeTables thread').
Proof.
  intros Hconv Hinv. unfold sampleLikeTables, updateThreadStacks.
  intros [Hsamples [Hjs Hnative]%Forall_app]%Forall_cons.
  assert (∀ column s, Inv s → Forall (Forall valid) (option_list column) →
    ∃ column' s',
      mapStacksOpt convertStack column s = Ok (column', s')
      ∧ Forall2 (Forall2 P) (option_list column) (option_list column')
      ∧ Inv s') as Hcolumn.
  { intros [stacks|] s Hs Hall; unfold mapStacksOpt.
    - apply Forall_cons in Hall as [Hall _].
      destruct (mapStacks_total _ Inv valid P stacks s Hconv Hs Hall)
        as (stacks' & s' & -> & Hrel & Hs').
      exists (Some stacks'), s'. split; [done|]. simpl.
      split; [by repeat constructor|done].
    - exists None, s. split; [done|]. split; [constructor|done]. }
  destruct (mapStacks_total _ Inv valid P _ st Hconv Hinv Hsamples)
    as (samples' & st1 & -> & Hs & Hinv1).
  destruct (Hcolumn _ st1 Hinv1 Hjs) as (js' & st2 & Hjsrun & Hjs' & Hinv2).
  destruct (Hcolumn _ st2 Hinv2 Hnative) as (native' & st3 & Hnativerun & Hnative' & _).
  cbn [mbind result_bind]. rewrite Hjsrun.
  cbn [mbind result_bind]. rewrite Hnativerun.
  cbn [mbind result_bind].
  eexists. split; [done|]. simpl. split_and!; try done.
  constructor; [done|]. by apply Forall2_app.
Qed.

Lemma callPath_fmap_inv (table : StackTable) (frames : FrameTable) (stack : Z)
    (callNodePath : list Z) :
  callPath table frames (Some stack) (Some <$> callNodePath) →
  ∃ row parentPath funcIndex,
    callNodePath = parentPath ++ [funcIndex]
    ∧ elemAt table stack = Some row
    ∧ elemAt (frame_func frames) (s_frame row) = Some funcIndex
    ∧ callPath table frames (s_prefix row) (Some <$> parentPath).
Proof.
  inversion 1 as [|s row path Hrow Hparent Hs Hpath]; subst.
  destruct callNodePath as [|funcIndex parentPath _] using rev_ind.
  { by destruct path. }
  rewrite fmap_app in Hpath. apply app_inj_tail in Hpath as [-> Hfunc].
  exists row, parentPath, funcIndex. by split_and!.
Qed.

Section FocusInverted.

Variable thread : Thread.
Variable init : list Z.
Variable tip : Z.

(** The walk of [convertStack] under the filter [combined], at depth [k] of
    the postfix path [init ++ [tip]]: it finds the ancestor at which the
    postfix path is used up, when the call path of the stack ends with the
    rest of the postfix path in reverse, and answers [null] otherwise. *)
Lemma convertStackFrom_combined (fuel : nat) (k : nat) (stack : Z)
    (callNodePath : list Z) (result : option Z) :
  (k ≤ length init)%nat →
  callPath (stackTable thread) (frameTable thread) (Some stack)
    (Some <$> callNodePath) →
  convertStackFrom thread (init ++ [tip]) combined fuel stack (Z.of_nat k)
    = Ok result →
  (∀ before, callNodePath = before ++ tip :: rev (drop k init) →
     callPath (stackTable thread) (frameTable thread) result
       (Some <$> before ++ [tip]))
  ∧ ((∀ before, callNodePath ≠ before ++ tip :: rev (drop k init)) →
     result = None).
Proof.
  revert k stack callNodePath.
  induction fuel as [|fuel IH]; intros k stack callNodePath Hk Hpath; [done|].
  destruct (callPath_fmap_inv _ _ _ _ Hpath)
    as (row & parentPath & funcIndex & -> & Hrow & Hfunc & Hparent).
  simpl. rewrite Hrow. unfold funcOfRow. rewrite Hfunc.
  destruct (decide (k = length init)) as [->|Hne].
  - (* the last func of the postfix path is expected *)
    rewrite drop_all, elemAt_app_length. unfold sameValue.
    destruct (decide (funcIndex = tip)) as [->|Hfn].
    + rewrite bool_decide_true by done.
      rewrite bool_decide_true
        by (unfold tableLength; rewrite length_app; simpl; lia).
      intros [= <-]. split.
      * intros before [-> _]%app_inj_tail. done.
      * intros Hnot. by destruct (Hnot parentPath).
    + rewrite bool_decide_false by congruence. simpl. intros [= <-].
      split; [|done]. intros before [_ ?]%app_inj_tail. done.
  - assert (k < length init)%nat as Hlt by lia.
    destruct (lookup_lt_is_Some_2 init k Hlt) as [expected Hexpected].
    assert (elemAt (init ++ [tip]) (Z.of_nat k) = Some expected) as ->.
    { apply elemAt_app_l. unfold elemAt. rewrite decide_True by lia.
      by rewrite Nat2Z.id. }
    rewrite (drop_S _ _ _ Hexpected). simpl rev.
    unfold sameValue.
    destruct (decide (funcIndex = expected)) as [->|Hfn].
    + rewrite bool_decide_true by done.
      rewrite bool_decide_false
        by (unfold tableLength; rewrite length_app; simpl; lia).
      destruct (s_prefix row) as [prefix|] eqn:Hprefix.
      * replace (Z.of_nat k + 1) with (Z.of_nat (S k)) by lia.
        intros Hrun.
        destruct (IH (S k) prefix parentPath ltac:(lia) Hparent Hrun)
          as [Hfound Hnone].
        split.
        -- intros before Heq. apply Hfound.
           rewrite app_comm_cons, app_assoc in Heq.
           by apply app_inj_tail in Heq as [-> _].
        -- intros Hnot. apply Hnone. intros before ->.
           apply (Hnot before). by rewrite app_comm_cons, <- app_assoc.
      * intros [= <-]. apply callPath_null_inv in Hparent.
        apply fmap_nil_inv in Hparent as ->. split; [|done].
        intros before Heq. rewrite app_comm_cons, app_assoc in Heq.
        apply app_inj_tail in Heq as [Heq _]. by destruct before.
    + rewrite bool_decide_false by congruence. simpl. intros [= <-].
      split; [|done]. intros before Heq.
      rewrite app_comm_cons, app_assoc in Heq.
      by apply app_inj_tail in Heq as [_ ?].
Qed.

Lemma convertStackFrom_combined_no_throw (fuel : nat) (stack depth : Z)
    (msg : string) :
  convertStackFrom thread (init ++ [tip]) combined fuel stack depth ≠ Throw msg.
Proof.
  revert stack depth. induction fuel as [|fuel IH]; intros stack depth; [done|].
  simpl. destruct (elemAt (stackTable thread) stack) as [row|].
  - destruct (sameValue _ _); [|done].
    destruct (bool_decide _); [done|]. destruct (s_prefix row); [apply IH|done].
  - by destruct (sameValue _ _).
Qed.

Abbreviation focusPath := (invertedFocus (init ++ [tip])).

Lemma invertedFocus_through (before : list Z) :
  focusPath (before ++ tip :: rev init) = before ++ [tip].
Proof.
  unfold invertedFocus. rewrite rev_app_distr. simpl rev.
  rewrite rev_involutive, removePrefixPath_through. simpl.
  by rewrite rev_involutive.
Qed.

Lemma invertedFocus_other (callNodePath : list Z) :
  (∀ before, callNodePath ≠ before ++ tip :: rev init) →
  focusPath callNodePath = [].
Proof.
  intros Hnot. unfold invertedFocus. rewrite removePrefixPath_other; [done|].
  intros [rest Heq]. apply (Hnot (rev rest)).
  apply (f_equal (@rev Z)) in Heq. rewrite rev_involutive in Heq. rewrite Heq.
  rewrite !rev_app_distr. done.
Qed.

Lemma focusInvertedSubtreeUpdater_paths (oldStack : option Z) (cache : StackMap) :
  stackTableOrdered (stackTable thread) →
  (∀ leaf newStack, cache !! leaf = Some newStack →
     pathRewritten thread thread focusPath (Some leaf) newStack) →
  validStack (stackTable thread) oldStack →
  ∃ newStack cache',
    focusInvertedSubtreeUpdater thread (init ++ [tip]) combined oldStack cache
    = Ok (newStack, cache')
    ∧ pathRewritten thread thread focusPath oldStack newStack
    ∧ ∀ leaf newStack, cache' !! leaf = Some newStack →
        pathRewritten thread thread focusPath (Some leaf) newStack.
Proof.
  intros Hord Hcache Hvalid. unfold focusInvertedSubtreeUpdater.
  destruct oldStack as [leaf|].
  - destruct (cache !! leaf) as [newStack|] eqn:Hleaf.
    { exists newStack, cache. split; [done|]. split; [by apply Hcache|done]. }
    unfold convertStack.
    pose proof (walkBound_rows thread (init ++ [tip])) as Hbound.
    destruct (convertStackFrom thread (init ++ [tip]) combined
                (walkBound thread (init ++ [tip])) leaf 0)
      as [result|msg|] eqn:Hrun.
    + assert (pathRewritten thread thread focusPath (Some leaf) result)
        as Hresult.
      { intros callNodePath Hpath.
        destruct (convertStackFrom_combined _ 0 _ _ _ ltac:(lia) Hpath Hrun)
          as [Hfound Hnone].
        rewrite drop_0 in Hfound, Hnone.
        destruct (decide ((tip :: rev init) `suffix_of` callNodePath))
          as [[before Heq]|Hno].
        - rewrite Heq. rewrite invertedFocus_through. by apply Hfound.
        - assert (∀ before, callNodePath ≠ before ++ tip :: rev init) as Hnot.
          { intros before Heq. apply Hno. by exists before. }
          rewrite (Hnone Hnot), (invertedFocus_other _ Hnot). constructor. }
      exists result, (<[leaf := result]> cache). split; [done|].
      split; [done|].
      intros k v [[<- <-]|[_ Hold]]%lookup_insert_Some; [done|by apply Hcache].
    + by apply convertStackFrom_combined_no_throw in Hrun.
    + exfalso. revert Hrun. simpl in Hvalid.
      apply convertStackFrom_not_Diverge; [done|done|].
      unfold tableLength in Hvalid. lia.
  - exists None, cache. split; [done|]. split; [|done].
    intros callNodePath Hpath. apply callPath_null_inv in Hpath.
    apply fmap_nil_inv in Hpath as ->.
    rewrite invertedFocus_other; [constructor|]. intros before Heq.
    by destruct before.
Qed.

End FocusInverted.

(** X14.  On a thread with an ordered stack table and valid samples,
    [focusInvertedSubtree] with the filter [combined] and a non-empty path
    returns, keeps the stack table, and does to every sample what
    [_removePrefixPathFromCallNodePath] does to its inverted call node path
    (its call path read from the leaf): a sample whose inverted path starts
    with the path given keeps the ancestor at which that path is used up,
    and every other sample gets [null]. *)
Theorem focusInvertedSubtree_call_paths (thread : Thread)
    (postfixCallNodePath : list Z) :
  stackTableOrdered (stackTable thread) →
  samplesValid thread →
  postfixCallNodePath ≠ [] →
  ∃ thread',
    focusInvertedSubtree thread postfixCallNodePath combined = Ok thread'
    ∧ stackTable thread' = stackTable thread
    ∧ frameTable thread' = frameTable thread
    ∧ funcTable thread' = funcTable thread
    ∧ Forall2 (Forall2 (pathRewritten thread thread'
                          (invertedFocus postfixCallNodePath)))
        (sampleLikeTables thread) (sampleLikeTables thread').
Proof.
  intros Hord Hvalid Hne.
  destruct postfixCallNodePath as [|tip init _] using rev_ind; [done|].
  destruct (updateThreadStacks_total
              (focusInvertedSubtreeUpdater thread (init ++ [tip]) combined)
              (λ cache, ∀ leaf newStack, cache !! leaf = Some newStack →
                 pathRewritten thread thread (invertedFocus (init ++ [tip]))
                   (Some leaf) newStack)
              (validStack (stackTable thread))
              (pathRewritten thread thread (invertedFocus (init ++ [tip])))
              thread (stackTable thread) ∅)
    as (thread' & Hrun & Htable & Hframes & Hfuncs & Hrel).
  - intros oldStack cache Hcache Hstack.
    by apply focusInvertedSubtreeUpdater_paths.
  - intros leaf newStack. by rewrite lookup_empty.
  - exact Hvalid.
  - exists thread'. split_and!; try done.
    eapply Forall2_impl; [exact Hrel|]. intros stacks stacks' Hstacks.
    eapply Forall2_impl; [exact Hstacks|].
    intros oldStack newStack Hpaths callNodePath Hpath.
    rewrite Htable, Hframes. by apply Hpaths.
Qed.

(** ** focus-subtree *)

Lemma prefix_snoc_new (focusPath path : list Z) (funcIndex : Z) :
  ¬ focusPath `prefix_of` path →
  focusPath `prefix_of` path ++ [funcIndex] →
  focusPath = path ++ [funcIndex].
Proof.
  intros Hnot [rest Heq]. destruct rest as [|x rest _] using rev_ind.
  - by rewrite app_nil_r in Heq.
  - rewrite app_assoc in Heq. apply app_inj_tail in Heq as [-> _].
    destruct Hnot. by exists rest.
Qed.

Lemma prefix_proper (path focusPath : list Z) :
  path `prefix_of` focusPath → ¬ focusPath `prefix_of` path →
  ∃ expected rest, focusPath = path ++ expected :: rest.
Proof.
  intros [rest ->] Hnot. destruct rest as [|expected rest].
  - destruct Hnot. by rewrite app_nil_r.
  - by exists expected, rest.
Qed.

Lemma matchedDepth_nil (focusPath : list Z) :
  focusPath ≠ [] → matchedDepth focusPath [] = 0.
Proof.
  intros Hne. unfold matchedDepth.
  rewrite decide_False by (intros ?%prefix_nil_inv; done).
  by rewrite decide_True by apply prefix_nil.
Qed.

(** The matching of the loop computes [matchedDepth]. *)
Lemma matchedDepth_snoc (focusPath path : list Z) (funcIndex : Z) :
  matchedDepth focusPath (path ++ [funcIndex])
  = matchStep focusPath (matchedDepth focusPath path) (Some funcIndex).
Proof.
  unfold matchedDepth at 2.
  destruct (decide (focusPath `prefix_of` path)) as [Hthrough|Hnot].
  { unfold matchedDepth, matchStep.
    rewrite decide_True by by apply prefix_app_r.
    rewrite bool_decide_false by (unfold tableLength; lia).
    by rewrite bool_decide_true. }
  destruct (decide (path `prefix_of` focusPath)) as [Hway|Hoff].
  - destruct (prefix_proper _ _ Hway Hnot) as (expected & rest & ->).
    unfold matchStep.
    rewrite bool_decide_false by (unfold tableLength; lia).
    rewrite bool_decide_false
      by (unfold tableLength; rewrite length_app; simpl; lia).
    rewrite elemAt_middle. unfold sameValue, matchedDepth.
    destruct (decide (funcIndex = expected)) as [->|Hne].
    + rewrite bool_decide_true by done.
      destruct rest as [|next rest].
      * rewrite decide_True by done. unfold tableLength.
        rewrite length_app. simpl. lia.
      * rewrite decide_False.
        2:{ intros Hp%prefix_length. rewrite !length_app in Hp. simpl in Hp. lia. }
        rewrite decide_True.
        2:{ exists (next :: rest). by rewrite <- app_assoc. }
        unfold tableLength. rewrite length_app. simpl. lia.
    + rewrite bool_decide_false by congruence.
      rewrite decide_False.
      2:{ intros Hp. apply prefix_snoc_new in Hp; [|done].
          apply (f_equal length) in Hp as Hl. rewrite !length_app in Hl.
          simpl in Hl. destruct rest; [|simpl in Hl; lia].
          apply app_inj_tail in Hp as [_ ?]. congruence. }
      rewrite decide_False; [done|].
      intros [k Hk]. rewrite <- !app_assoc in Hk.
      apply app_inv_head in Hk. simpl in Hk. congruence.
  - unfold matchStep, matchedDepth. rewrite bool_decide_true by done.
    rewrite decide_False.
    2:{ intros Hp. apply prefix_snoc_new in Hp; [|done]. subst.
        apply Hoff. by exists [funcIndex]. }
    rewrite decide_False; [done|].
    intros [k Hk]. apply Hoff. exists (funcIndex :: k).
    by rewrite <- app_assoc in Hk.
Qed.

Lemma matchedDepth_through (focusPath path : list Z) :
  matchedDepth focusPath path = tableLength focusPath
  ↔ focusPath `prefix_of` path.
Proof.
  unfold matchedDepth. destruct (decide (focusPath `prefix_of` path)) as [?|Hnot].
  { done. }
  split; [|done]. destruct (decide (path `prefix_of` focusPath)) as [Hway|?].
  - destruct (prefix_proper _ _ Hway Hnot) as (expected & rest & ->).
    unfold tableLength. rewrite length_app. simpl. lia.
  - unfold tableLength. lia.
Qed.

Section FocusSubtree.

Variable thread : Thread.
Variable focusPath : list Z.
Hypothesis ordered : stackTableOrdered (stackTable thread).
Hypothesis nonempty : focusPath ≠ [].

Lemma focusSubtreeBody_combined n row st :
  elemAt (stackTable thread) n = Some row →
  tableLength (fs_stackMatches st) = n →
  focusSubtreeBody thread focusPath combined n row st
  = Ok (let matchesUpTo :=
          matchStep focusPath (prefixDepthRead st row) (funcOfRow thread row) in
        {| fs_rewrite :=
             if bool_decide (matchesUpTo = tableLength focusPath) then
               emitStack (fs_rewrite st) n
                 (orNull (mapGet (oldStackToNewStack (fs_rewrite st))
                            (s_prefix row)))
                 (s_frame row) (s_category row) (s_subcategory row)
             else fs_rewrite st;
           fs_stackMatches := fs_stackMatches st ++ [matchesUpTo] |}).
Proof.
  intros Hrow Hlen. pose proof (elemAt_Some _ _ _ Hrow) as Hn.
  unfold focusSubtreeBody, prefixDepthRead, matchStep.
  assert (match s_prefix row with
          | Some p =>
              readStackMatches (tableLength (stackTable thread))
                (fs_stackMatches st) p
          | None => Some 0
          end
          = Some match s_prefix row with
                 | Some prefix => default 0 (elemAt (fs_stackMatches st) prefix)
                 | None => 0
                 end) as ->.
  { destruct (s_prefix row) as [prefix|] eqn:Hp; [|done].
    pose proof (ordered _ _ _ Hrow Hp). unfold readStackMatches.
    by rewrite bool_decide_true by (unfold tableLength; lia). }
  set (upTo := match s_prefix row with
               | Some prefix => default 0 (elemAt (fs_stackMatches st) prefix)
               | None => 0
               end).
  assert (∀ m : Z,
    sameValue (Some m) (Some (tableLength focusPath))
    = bool_decide (m = tableLength focusPath)) as Hsame.
  { intros m. unfold sameValue. apply bool_decide_ext. split; congruence. }
  destruct (bool_decide (upTo = -1)); simpl.
  { by rewrite Hsame. }
  destruct (bool_decide (upTo = tableLength focusPath)); simpl.
  { by rewrite Hsame. }
  destruct (sameValue (funcOfRow thread row) (elemAt focusPath upTo)); simpl.
  { by rewrite Hsame. }
  by rewrite Hsame.
Qed.

Lemma fsi_initial :
  FocusSubtreeInv thread focusPath 0
    {| fs_rewrite := emptyRewrite; fs_stackMatches := [] |}.
Proof.
  constructor; simpl.
  - done.
  - intros stack newStack Hs. by rewrite lookup_empty in Hs.
  - intros stack Hs. unfold elemAt in Hs. by case_decide.
  - intros; lia.
  - intros; lia.
Qed.

Lemma fsi_step n row st :
  elemAt (stackTable thread) n = Some row →
  FocusSubtreeInv thread focusPath n st →
  ∃ st',
    focusSubtreeBody thread focusPath combined n row st = Ok st'
    ∧ FocusSubtreeInv thread focusPath (n + 1) st'.
Proof.
  intros Hrow Hinv. pose proof (elemAt_Some _ _ _ Hrow) as [Hn _].
  pose proof (fsi_length _ _ _ _ Hinv) as Hlen.
  pose proof Hlen as Hlength. unfold tableLength in Hlength.
  eexists. split; [by apply focusSubtreeBody_combined|].
  cbv zeta.
  set (m := matchStep focusPath (prefixDepthRead st row) (funcOfRow thread row)).
  (* the stack visited, when its call path is a call node path *)
  assert (∀ callNodePath,
    callPath (stackTable thread) (frameTable thread) (Some n)
      (Some <$> callNodePath) →
    ∃ parentPath funcIndex,
      callNodePath = parentPath ++ [funcIndex]
      ∧ callPath (stackTable thread) (frameTable thread) (s_prefix row)
          (Some <$> parentPath)
      ∧ prefixDepthRead st row = matchedDepth focusPath parentPath
      ∧ m = matchedDepth focusPath callNodePath) as Hhere.
  { intros callNodePath Hpath.
    destruct (callPath_fmap_inv _ _ _ _ Hpath)
      as (row' & parentPath & funcIndex & -> & Hrow' & Hfunc & Hparent).
    assert (row' = row) as -> by congruence.
    exists parentPath, funcIndex.
    assert (prefixDepthRead st row = matchedDepth focusPath parentPath) as Hread.
    { unfold prefixDepthRead. destruct (s_prefix row) as [prefix|] eqn:Hp.
      - pose proof (ordered _ _ _ Hrow Hp).
        by rewrite (fsi_depth _ _ _ _ Hinv prefix parentPath).
      - apply callPath_null_inv, fmap_nil_inv in Hparent as ->.
        by rewrite matchedDepth_nil. }
    split_and!; [done..|].
    unfold m, funcOfRow. by rewrite Hfunc, Hread, matchedDepth_snoc. }
  destruct (decide (m = tableLength focusPath)) as [Hm|Hm].
  - (* the stack is emitted *)
    rewrite bool_decide_true by done. constructor; simpl.
    + unfold tableLength in *. rewrite length_app. simpl. lia.
    + intros stack newStack [[<- _]|[_ Hs]]%lookup_insert_Some; [lia|].
      apply (fsi_visited _ _ _ _ Hinv) in Hs. lia.
    + intros stack Hs. destruct (decide (stack = n)) as [->|Hne].
      * rewrite lookup_insert_eq. by eexists.
      * rewrite lookup_insert_ne by done. apply (fsi_mapped _ _ _ _ Hinv).
        apply elemAt_snoc in Hs as [[? _]|?]; [lia|done].
    + intros stack callNodePath Hstack Hpath.
      destruct (decide (stack = n)) as [->|Hne].
      * destruct (Hhere _ Hpath) as (_ & _ & _ & _ & _ & <-).
        rewrite <- Hlen. apply elemAt_app_length.
      * apply elemAt_app_l. apply (fsi_depth _ _ _ _ Hinv); [lia|done].
    + intros stack callNodePath Hstack Hpath.
      destruct (decide (stack = n)) as [->|Hne].
      * destruct (Hhere _ Hpath)
          as (parentPath & funcIndex & -> & Hparent & Hread & Hdepth).
        rewrite Hm in Hdepth. symmetry in Hdepth.
        apply matchedDepth_through in Hdepth as Hthrough.
        rewrite decide_True by done. eexists.
        rewrite lookup_insert_eq. split; [done|].
        pose proof (callPath_fmap_inv _ _ _ _ Hpath)
          as (row' & pp & fi & [<- <-]%app_inj_tail & Hrow' & Hfunc & _).
        assert (row' = row) as -> by congruence.
        destruct (decide (focusPath `prefix_of` parentPath)) as [Hbefore|Hnew].
        -- (* the prefix is in the subtree already *)
           destruct (s_prefix row) as [prefix|] eqn:Hp.
           2:{ apply callPath_null_inv, fmap_nil_inv in Hparent as ->.
               by apply prefix_nil_inv in Hbefore. }
           pose proof (ordered _ _ _ Hrow Hp) as Hlt.
           pose proof (fsi_paths _ _ _ _ Hinv prefix parentPath Hlt Hparent)
             as Hprefix.
           rewrite decide_True in Hprefix by done.
           destruct Hprefix as (newPrefix & Hmap & Hnew).
           simpl. rewrite Hmap. simpl.
           rewrite drop_app_le
             by (apply prefix_length in Hbefore; lia).
           rewrite fmap_app.
           eapply callPath_snoc; [apply elemAt_app_length| |].
           ++ simpl. by rewrite Hfunc.
           ++ simpl. by apply callPath_app.
        -- (* the stack is the node of the path: a root of the new table *)
           apply prefix_snoc_new in Hthrough as ->; [|done].
           assert (mapGet (oldStackToNewStack (fs_rewrite st)) (s_prefix row)
                   = None ∨ mapGet (oldStackToNewStack (fs_rewrite st))
                              (s_prefix row) = Some None) as Hget.
           { destruct (s_prefix row) as [prefix|] eqn:Hp; [|by right].
             left. simpl. pose proof (ordered _ _ _ Hrow Hp) as Hlt.
             pose proof (fsi_paths _ _ _ _ Hinv prefix parentPath Hlt Hparent)
               as Hprefix.
             by rewrite decide_False in Hprefix. }
           assert (orNull (mapGet (oldStackToNewStack (fs_rewrite st))
                             (s_prefix row)) = None) as ->
             by (destruct Hget as [-> | ->]; done).
           rewrite length_app. simpl.
           replace (length parentPath + 1 - 1)%nat with (length parentPath) by lia.
           rewrite drop_app_length. simpl.
           eapply (callPath_snoc _ _ _ _ []); [apply elemAt_app_length| |].
           ++ simpl. by rewrite Hfunc.
           ++ simpl. constructor.
      * pose proof (fsi_paths _ _ _ _ Hinv stack callNodePath) as Hold.
        rewrite lookup_insert_ne by done.
        destruct (decide _).
        -- destruct Hold as (newStack & ? & ?); [lia|done|].
           exists newStack. split; [done|]. by apply callPath_app.
        -- apply Hold; [lia|done].
  - (* the stack is left out *)
    rewrite bool_decide_false by done. constructor; simpl.
    + unfold tableLength in *. rewrite length_app. simpl. lia.
    + intros stack newStack Hs.
      apply (fsi_visited _ _ _ _ Hinv) in Hs. lia.
    + intros stack Hs. apply (fsi_mapped _ _ _ _ Hinv).
      apply elemAt_snoc in Hs as [[_ ?]|?]; [congruence|done].
    + intros stack callNodePath Hstack Hpath.
      destruct (decide (stack = n)) as [->|Hne].
      * destruct (Hhere _ Hpath) as (_ & _ & _ & _ & _ & <-).
        rewrite <- Hlen. apply elemAt_app_length.
      * apply elemAt_app_l. apply (fsi_depth _ _ _ _ Hinv); [lia|done].
    + intros stack callNodePath Hstack Hpath.
      destruct (decide (stack = n)) as [->|Hne].
      * destruct (Hhere _ Hpath) as (_ & _ & _ & _ & _ & Hdepth).
        rewrite decide_False.
        2:{ intros Hthrough%matchedDepth_through. congruence. }
        destruct (oldStackToNewStack (fs_rewrite st) !! n) eqn:Hs; [|done].
        apply (fsi_visited _ _ _ _ Hinv) in Hs. lia.
      * apply (fsi_paths _ _ _ _ Hinv); [lia|done].
Qed.

Lemma focusSubtreeLoop_paths :
  ∃ st,
    focusSubtreeLoop thread focusPath combined = Ok st
    ∧ FocusSubtreeInv thread focusPath (tableLength (stackTable thread)) st.
Proof.
  apply forStacks_total; [apply fsi_initial|].
  intros n row st Hrow Hinv. by apply fsi_step.
Qed.

End FocusSubtree.

Lemma removePrefixPath_drop (focusPath callNodePath : list Z) :
  focusPath ≠ [] → focusPath `prefix_of` callNodePath →
  _removePrefixPathFromCallNodePath focusPath callNodePath
  = drop (length focusPath - 1) callNodePath.
Proof.
  intros Hne Hthrough. unfold _removePrefixPathFromCallNodePath.
  apply hasPrefixPath_prefix_of in Hthrough as ->.
  assert (0 < length focusPath)%nat by (destruct focusPath; [done|simpl; lia]).
  rewrite slice_from by (unfold tableLength; lia).
  f_equal. unfold tableLength. lia.
Qed.

(** X15.  On a thread with an ordered stack table and valid samples,
    [focusSubtree] with the filter [combined] and a non-empty path returns,
    and it does to the call path of every sample what
    [_removePrefixPathFromCallNodePath] does to a call node path: a sample
    whose call path goes through the node of the path keeps its call path
    from that node on, and every other sample gets [null]. *)
Theorem focusSubtree_call_paths (thread : Thread) (callNodePath : list Z) :
  stackTableOrdered (stackTable thread) →
  samplesValid thread →
  callNodePath ≠ [] →
  ∃ thread',
    focusSubtree thread callNodePath combined = Ok thread'
    ∧ frameTable thread' = frameTable thread
    ∧ funcTable thread' = funcTable thread
    ∧ Forall2 (Forall2 (pathRewritten thread thread'
                          (_removePrefixPathFromCallNodePath callNodePath)))
        (sampleLikeTables thread) (sampleLikeTables thread').
Proof.
  intros Hord Hvalid Hne.
  destruct (focusSubtreeLoop_paths thread callNodePath Hord Hne)
    as (st & Hloop & Hinv).
  destruct (updateThreadStacks_total
              (focusSubtreeUpdater (tableLength callNodePath) st)
              (λ _, True) (validStack (stackTable thread))
              (λ oldStack newStack,
                 ∀ path,
                   callPath (stackTable thread) (frameTable thread) oldStack
                     (Some <$> path) →
                   callPath (newStackTable (fs_rewrite st)) (frameTable thread)
                     newStack
                     (Some <$> _removePrefixPathFromCallNodePath callNodePath path))
              thread (newStackTable (fs_rewrite st)) ())
    as (thread' & Hrun & Htable & Hframes & Hfuncs & Hrel); [|done|exact Hvalid|].
  - intros oldStack [] _ Hstack. unfold focusSubtreeUpdater.
    destruct oldStack as [stack|].
    + simpl in Hstack.
      destruct (sameValue (elemAt (fs_stackMatches st) stack)
                  (Some (tableLength callNodePath))) eqn:Hsame; simpl.
      * apply bool_decide_eq_true in Hsame.
        destruct (fsi_mapped _ _ _ _ Hinv stack Hsame) as [newStack Hmap].
        rewrite Hmap. exists newStack, (). split_and!; [done| |done].
        intros path Hpath.
        pose proof (fsi_depth _ _ _ _ Hinv stack path Hstack Hpath) as Hdepth.
        assert (callNodePath `prefix_of` path) as Hthrough
          by (apply matchedDepth_through; congruence).
        pose proof (fsi_paths _ _ _ _ Hinv stack path Hstack Hpath) as Hnew.
        rewrite decide_True in Hnew by done.
        destruct Hnew as (newStack' & Hmap' & Hnew).
        rewrite removePrefixPath_drop by done. congruence.
      * apply bool_decide_eq_false in Hsame.
        exists None, (). split_and!; [done| |done].
        intros path Hpath.
        pose proof (fsi_depth _ _ _ _ Hinv stack path Hstack Hpath) as Hdepth.
        rewrite removePrefixPath_other; [constructor|].
        intros Hthrough%matchedDepth_through. congruence.
    + exists None, (). split_and!; [done| |done].
      intros path Hpath. apply callPath_null_inv, fmap_nil_inv in Hpath as ->.
      rewrite removePrefixPath_other; [constructor|].
      by intros ?%prefix_nil_inv.
  - exists thread'. unfold focusSubtree. rewrite Hloop. simpl.
    split_and!; try done.
    eapply Forall2_impl; [exact Hrel|]. intros stacks stacks' Hstacks.
    eapply Forall2_impl; [exact Hstacks|].
    intros oldStack newStack Hpaths path Hpath.
    rewrite Htable, Hframes. by apply Hpaths.
Qed.

(** ** Questions about the funcs of a thread *)

(** X16.  [getStackType]: a func flagged [isJS] is a JS func, and the string
    table is not read for it; a func is native only when it is not flagged
    [isJS]; and a func is unsymbolicated only when it has neither flag, no
    resource and an address for a name. *)
Theorem getStackType_spec (thread : Thread) (funcIndex : Z) :
  (elemAt (func_isJS (funcTable thread)) funcIndex = Some true →
   getStackType thread funcIndex = Ok js_stack)
  ∧ (getStackType thread funcIndex = Ok native →
     default false (elemAt (func_isJS (funcTable thread)) funcIndex) = false)
  ∧ (getStackType thread funcIndex = Ok unsymbolicated →
     default false (elemAt (func_isJS (funcTable thread)) funcIndex) = false
     ∧ default false (elemAt (func_relevantForJS (funcTable thread)) funcIndex)
       = false
     ∧ elemAt (func_resource (funcTable thread)) funcIndex = Some (-1)
     ∧ ∃ locationString,
         getString (stringTable thread)
           (elemAt (func_name (funcTable thread)) funcIndex) = Ok locationString
         ∧ JsString.startsWith "0x" locationString = true).
Proof.
  unfold getStackType, FUNC_MATCHES. simpl.
  set (isJS := default false (elemAt (func_isJS (funcTable thread)) funcIndex)).
  set (relevant :=
    default false (elemAt (func_relevantForJS (funcTable thread)) funcIndex)).
  split_and!.
  - intros HisJS. unfold isJS. by rewrite HisJS.
  - by destruct isJS.
  - destruct isJS; simpl; [done|].
    destruct (getString _ _) as [locationString| |]; simpl; [|done..].
    destruct (sameValue _ _) eqn:Hresource; simpl; [|done].
    destruct (JsString.startsWith "0x" locationString) eqn:Hloc; simpl; [|done].
    destruct relevant; [done|]. intros _.
    apply bool_decide_eq_true in Hresource. split_and!; try done.
    by exists locationString.
Qed.

Lemma filterCallNodePath_sublist (thread : Thread)
    (implementationFilter : ImplementationFilter) (callNodePath filtered : list Z) :
  filterCallNodePathByImplementation thread implementationFilter callNodePath
    = Ok filtered →
  filtered `sublist_of` callNodePath
  ∧ Forall (λ funcIndex,
              FUNC_MATCHES implementationFilter thread (Some funcIndex) = Ok true)
      filtered.
Proof.
  revert filtered. induction callNodePath as [|funcIndex rest IH]; intros filtered.
  { intros [= <-]. by split. }
  simpl. intros (matches & Hmatches & (rest' & Hrest & [= <-])%bind_Ok)%bind_Ok.
  destruct (IH rest' Hrest) as [Hsub Hall]. destruct matches.
  - split; [by apply sublist_skip|by constructor].
  - split; [by apply sublist_cons|done].
Qed.

Lemma filterCallNodePath_fixed (thread : Thread)
    (implementationFilter : ImplementationFilter) (callNodePath : list Z) :
  Forall (λ funcIndex,
            FUNC_MATCHES implementationFilter thread (Some funcIndex) = Ok true)
    callNodePath →
  filterCallNodePathByImplementation thread implementationFilter callNodePath
  = Ok callNodePath.
Proof.
  induction 1 as [|funcIndex rest Hmatches _ IH]; [done|].
  simpl. by rewrite Hmatches, IH.
Qed.

(** X17.  [filterCallNodePathByImplementation] returns with the filters
    [combined] and [js]; what it returns is the path with some funcs taken
    out, every func left matches the filter, and filtering the result again
    changes nothing.  With the filter [combined] it returns the path
    given. *)
Theorem filterCallNodePathByImplementation_spec (thread : Thread)
    (implementationFilter : ImplementationFilter) (callNodePath : list Z) :
  (implementationFilter ≠ cpp →
   ∃ filtered,
     filterCallNodePathByImplementation thread implementationFilter callNodePath
     = Ok filtered)
  ∧ (∀ filtered,
       filterCallNodePathByImplementation thread implementationFilter
         callNodePath = Ok filtered →
       filtered `sublist_of` callNodePath
       ∧ Forall (λ funcIndex,
                   FUNC_MATCHES implementationFilter thread (Some funcIndex)
                   = Ok true) filtered
       ∧ filterCallNodePathByImplementation thread implementationFilter filtered
         = Ok filtered)
  ∧ filterCallNodePathByImplementation thread combined callNodePath
    = Ok callNodePath.
Proof.
  split_and!.
  - intros Himpl. induction callNodePath as [|funcIndex rest [filtered IH]].
    { by eexists. }
    simpl.
    destruct (FUNC_MATCHES_returns implementationFilter thread (Some funcIndex)
                Himpl) as [matches ->].
    rewrite IH. simpl. by eexists.
  - intros filtered Hrun.
    destruct (filterCallNodePath_sublist _ _ _ _ Hrun) as [Hsub Hall].
    split_and!; [done..|]. by apply filterCallNodePath_fixed.
  - apply filterCallNodePath_fixed. by apply Forall_forall.
Qed.

(** X23.  [filterCallNodeAndCategoryPathByImplementation] filters the funcs of a
    path as [filterCallNodePathByImplementation] does: it returns when the
    other returns on the funcs of the path, the funcs of what it returns are
    what the other returns, and each node kept is a node of the path given,
    with its category. *)
Theorem filterCallNodeAndCategoryPathByImplementation_spec (thread : Thread)
    (implementationFilter : ImplementationFilter)
    (path : list CallNodeAndCategory) :
  (∀ funcs,
     filterCallNodePathByImplementation thread implementationFilter
       (cnc_func <$> path) = Ok funcs →
     ∃ filtered,
       filterCallNodeAndCategoryPathByImplementation thread
         implementationFilter path = Ok filtered
       ∧ cnc_func <$> filtered = funcs
       ∧ filtered `sublist_of` path)
  ∧ (∀ filtered,
       filterCallNodeAndCategoryPathByImplementation thread
         implementationFilter path = Ok filtered →
       filterCallNodePathByImplementation thread implementationFilter
         (cnc_func <$> path) = Ok (cnc_func <$> filtered)).
Proof.
  split.
  - induction path as [|node rest IH]; intros funcs.
    { intros [= <-]. by exists []. }
    rewrite fmap_cons. simpl.
    intros (matches & Hmatches & (funcs' & Hrest & [= <-])%bind_Ok)%bind_Ok.
    destruct (IH funcs' Hrest) as (filtered & Hrun & Hfuncs & Hsub).
    rewrite Hmatches, Hrun. simpl. eexists. split; [done|].
    destruct matches.
    + split; [by rewrite fmap_cons, Hfuncs|by apply sublist_skip].
    + split; [done|by apply sublist_cons].
  - induction path as [|node rest IH]; intros filtered.
    { by intros [= <-]. }
    rewrite fmap_cons. simpl.
    intros (matches & Hmatches & (rest' & Hrest & [= <-])%bind_Ok)%bind_Ok.
    rewrite Hmatches, (IH rest' Hrest). simpl. by destruct matches.
Qed.

(** ** Every transform returns *)

Lemma mappedBelow_insert (n : Z) (map : StackMap) (newStack : option Z) :
  mappedBelow n map → mappedBelow (n + 1) (<[n := newStack]> map).
Proof.
  intros Hmapped stack Hstack. destruct (decide (stack = n)) as [->|Hne].
  - rewrite lookup_insert_eq. by eexists.
  - rewrite lookup_insert_ne by done. apply Hmapped. lia.
Qed.

Lemma mappedBelow_prefix (table : StackTable) (n : Z) (row : StackRow)
    (map : StackMap) :
  stackTableOrdered table → elemAt table n = Some row → mappedBelow n map →
  ∃ newPrefix, mapGet map (s_prefix row) = Some newPrefix.
Proof.
  intros Hord Hrow Hmapped. destruct (s_prefix row) as [prefix|] eqn:Hp.
  - simpl. apply Hmapped. by apply (Hord n row).
  - by exists None.
Qed.

Lemma mappedBelow_samples (thread : Thread) (map : StackMap) :
  samplesValid thread →
  mappedBelow (tableLength (stackTable thread)) map →
  Forall (Forall (λ stack, is_Some (mapGet map stack))) (sampleLikeTables thread).
Proof.
  intros Hvalid Hmapped.
  eapply Forall_impl; [exact Hvalid|]. intros stacks Hstacks.
  eapply Forall_impl; [exact Hstacks|]. intros [stack|] Hstack; [|by eexists].
  simpl. by apply Hmapped.
Qed.

Section Returns.

Variable thread : Thread.
Hypothesis ordered : stackTableOrdered (stackTable thread).
Hypothesis valid : samplesValid thread.

Lemma mergeCallNode_returns callNodePath implementation :
  filterReturns thread implementation →
  ∃ thread', mergeCallNode thread callNodePath implementation = Ok thread'.
Proof.
  intros Hfilter.
  destruct (forStacks_total
              (λ n st, mappedBelow n (oldStackToNewStack (mcn_rewrite st)))
              (mergeCallNodeBody thread callNodePath implementation)
              (stackTable thread)
              {| mcn_rewrite := emptyRewrite; stackDepths := [];
                 stackMatches := [] |})
    as (st & Hloop & Hmapped).
  - intros stack Hstack. lia.
  - intros n row st Hrow Hmapped.
    destruct (Hfilter n row Hrow) as [matches Hmatches].
    unfold mergeCallNodeBody. rewrite Hmatches.
    destruct matches; repeat case_match; simpl; (eexists; split; [done|]);
      simpl; by apply mappedBelow_insert.
  - unfold mergeCallNode, mergeCallNodeLoop. rewrite Hloop. simpl.
    destruct (updateThreadStacks_getMap_total thread
                (newStackTable (mcn_rewrite st))
                (oldStackToNewStack (mcn_rewrite st))) as (thread' & Hrun & _).
    { by apply mappedBelow_samples. }
    by exists thread'.
Qed.

Lemma collapseDirectRecursion_returns funcToCollapse implementation :
  filterReturns thread implementation →
  ∃ thread',
    collapseDirectRecursion thread funcToCollapse implementation = Ok thread'.
Proof.
  intros Hfilter.
  destruct (forStacks_total
              (λ n st, mappedBelow n (oldStackToNewStack (rec_rewrite st)))
              (collapseDirectRecursionBody thread funcToCollapse implementation)
              (stackTable thread)
              {| rec_rewrite := emptyRewrite; recursiveStacks := ∅ |})
    as (st & Hloop & Hmapped).
  - intros stack Hstack. lia.
  - intros n row st Hrow Hmapped.
    destruct (Hfilter n row Hrow) as [matches Hmatches].
    destruct (mappedBelow_prefix _ _ _ _ ordered Hrow Hmapped)
      as [newPrefix Hget].
    unfold collapseDirectRecursionBody. rewrite Hmatches, Hget.
    destruct matches; repeat case_match; simpl; (eexists; split; [done|]);
      simpl; by apply mappedBelow_insert.
  - unfold collapseDirectRecursion, collapseDirectRecursionLoop.
    rewrite Hloop. simpl.
    destruct (updateThreadStacks_getMap_total thread
                (newStackTable (rec_rewrite st))
                (oldStackToNewStack (rec_rewrite st))) as (thread' & Hrun & _).
    { by apply mappedBelow_samples. }
    by exists thread'.
Qed.

Lemma collapseResource_returns resourceIndex implementation defaultCategory :
  filterReturns thread implementation →
  ∃ thread',
    collapseResource thread resourceIndex implementation defaultCategory
    = Ok thread'.
Proof.
  intros Hfilter.
  destruct (forStacks_total
              (λ n st,
                 mappedBelow n (oldStackToNewStack (cr_rewrite st))
                 ∧ ∀ prefix, prefixStackToCollapsedStack st !! prefix ≠ Some None)
              (collapseResourceBody thread resourceIndex implementation
                 defaultCategory)
              (stackTable thread)
              {| cr_rewrite := emptyRewrite;
                 newFrameTable := frameTable thread;
                 newFuncTable := funcTable thread;
                 prefixStackToCollapsedStack := ∅;
                 collapsedStacks := ∅;
                 collapsedFrameIndex := None;
                 collapsedFuncIndex := None |})
    as (st & Hloop & Hmapped & _).
  - split; [intros stack Hstack; lia|]. intros prefix. simpl.
    by rewrite lookup_empty.
  - intros n row st Hrow [Hmapped Hcollapsed].
    destruct (Hfilter n row Hrow) as [matches Hmatches].
    destruct (mappedBelow_prefix _ _ _ _ ordered Hrow Hmapped)
      as [newPrefix Hget].
    unfold collapseResourceBody. rewrite Hmatches, Hget.
    destruct (sameValue _ (Some resourceIndex)).
    + destruct (negb _).
      * destruct (prefixStackToCollapsedStack st !! s_prefix row)
          as [[existing|]|] eqn:Hexisting.
        -- eexists; split; [done|]. simpl.
           split; [by apply mappedBelow_insert|done].
        -- by apply Hcollapsed in Hexisting.
        -- eexists; split; [done|]. simpl.
           split; [by apply mappedBelow_insert|].
           intros prefix [[_ ?]|[_ ?]]%lookup_insert_Some; [done|].
           by eapply Hcollapsed.
      * eexists; split; [done|]. simpl.
        split; [by apply mappedBelow_insert|done].
    + simpl. destruct (_ && _); (eexists; split; [done|]); simpl;
        (split; [by apply mappedBelow_insert|done]).
  - unfold collapseResource, collapseResourceLoop. rewrite Hloop. simpl.
    match goal with
    | |- ∃ thread', updateThreadStacks ?t _ _ _ = _ =>
        destruct (updateThreadStacks_getMap_total t
                    (newStackTable (cr_rewrite st))
                    (oldStackToNewStack (cr_rewrite st)))
          as (thread' & Hrun & _)
    end.
    { by apply mappedBelow_samples. }
    by exists thread'.
Qed.

Lemma focusSubtree_returns callNodePath implementation :
  filterReturns thread implementation →
  ∃ thread', focusSubtree thread callNodePath implementation = Ok thread'.
Proof.
  intros Hfilter.
  destruct (forStacks_total
              (λ n st,
                 tableLength (fs_stackMatches st) = n
                 ∧ ∀ stack,
                     elemAt (fs_stackMatches st) stack
                     = Some (tableLength callNodePath) →
                     is_Some (oldStackToNewStack (fs_rewrite st) !! stack))
              (focusSubtreeBody thread callNodePath implementation)
              (stackTable thread)
              {| fs_rewrite := emptyRewrite; fs_stackMatches := [] |})
    as (st & Hloop & Hlen & Hmapped).
  - split; [done|]. intros stack Hs. simpl in Hs. unfold elemAt in Hs.
    by case_decide.
  - intros n row st Hrow [Hlen Hmapped].
    pose proof (elemAt_Some _ _ _ Hrow) as Hn.
    destruct (Hfilter n row Hrow) as [matches Hmatches].
    unfold focusSubtreeBody. rewrite Hmatches.
    assert (∃ upTo,
      match s_prefix row with
      | Some p =>
          readStackMatches (tableLength (stackTable thread))
            (fs_stackMatches st) p
      | None => Some 0
      end = Some upTo) as [upTo ->].
    { destruct (s_prefix row) as [prefix|] eqn:Hp; [|by eexists].
      pose proof (ordered _ _ _ Hrow Hp). unfold readStackMatches.
      rewrite bool_decide_true by (unfold tableLength; lia). by eexists. }
    assert (∀ matchesUpTo : Z,
      ∃ st',
        Ok {| fs_rewrite :=
                if sameValue (Some matchesUpTo) (Some (tableLength callNodePath))
                then emitStack (fs_rewrite st) n
                       (orNull (mapGet (oldStackToNewStack (fs_rewrite st))
                                  (s_prefix row)))
                       (s_frame row) (s_category row) (s_subcategory row)
                else fs_rewrite st;
              fs_stackMatches := fs_stackMatches st ++ [default 0 (Some matchesUpTo)]
           |} = Ok st'
        ∧ tableLength (fs_stackMatches st') = n + 1
        ∧ ∀ stack,
            elemAt (fs_stackMatches st') stack = Some (tableLength callNodePath) →
            is_Some (oldStackToNewStack (fs_rewrite st') !! stack)) as Hstep.
    { intros matchesUpTo. eexists. split; [done|]. simpl. split.
      { unfold tableLength in *. rewrite length_app. simpl. lia. }
      intros stack Hs. unfold sameValue.
      apply elemAt_snoc in Hs as [[-> Hm]|Hs].
      - rewrite bool_decide_true by congruence. simpl.
        unfold tableLength in Hlen. rewrite Hlen, lookup_insert_eq. by eexists.
      - destruct (bool_decide _); simpl; [|by apply Hmapped].
        destruct (decide (stack = n)) as [->|Hne].
        + rewrite lookup_insert_eq. by eexists.
        + rewrite lookup_insert_ne by done. by apply Hmapped. }
    destruct (bool_decide (upTo = -1)); simpl; [apply Hstep|].
    destruct (bool_decide (upTo = tableLength callNodePath)); simpl;
      [apply Hstep|].
    destruct (sameValue (funcOfRow thread row) (elemAt callNodePath upTo));
      simpl; [apply Hstep|].
    destruct matches; simpl; apply Hstep.
  - unfold focusSubtree, focusSubtreeLoop. rewrite Hloop. simpl.
    destruct (updateThreadStacks_total
                (focusSubtreeUpdater (tableLength callNodePath) st)
                (λ _, True) (validStack (stackTable thread)) (λ _ _, True)
                thread (newStackTable (fs_rewrite st)) ())
      as (thread' & Hrun & _); [|done|exact valid|by exists thread'].
    intros oldStack [] _ Hstack. unfold focusSubtreeUpdater.
    destruct oldStack as [stack|]; [|by exists None, ()].
    destruct (negb _) eqn:Hsame; [by exists None, ()|].
    apply negb_false_iff, bool_decide_eq_true in Hsame.
    destruct (Hmapped stack Hsame) as [newStack ->]. by exists newStack, ().
Qed.

Lemma convertStackFrom_returns path implementation (fuel : nat) (stack depth : Z) :
  filterReturns thread implementation →
  0 ≤ stack < tableLength (stackTable thread) →
  stack < Z.of_nat fuel →
  ∃ newStack,
    convertStackFrom thread path implementation fuel stack depth = Ok newStack.
Proof.
  intros Hfilter. revert stack depth.
  induction fuel as [|fuel IH]; intros stack depth Hstack Hfuel; [lia|].
  simpl. destruct (elemAt_is_Some _ _ Hstack) as [row Hrow]. rewrite Hrow.
  destruct (Hfilter stack row Hrow) as [matches ->].
  assert (∀ d, ∃ newStack,
    match s_prefix row with
    | Some prefix => convertStackFrom thread path implementation fuel prefix d
    | None => Ok None
    end = Ok newStack) as Hnext.
  { intros d. destruct (s_prefix row) as [prefix|] eqn:Hp; [|by eexists].
    pose proof (ordered _ _ _ Hrow Hp). apply IH; lia. }
  destruct (sameValue _ _).
  - destruct (bool_decide _); [by eexists|apply Hnext].
  - simpl. destruct matches; [by eexists|apply Hnext].
Qed.

Lemma focusInvertedSubtree_returns path implementation :
  filterReturns thread implementation →
  ∃ thread', focusInvertedSubtree thread path implementation = Ok thread'.
Proof.
  intros Hfilter. unfold focusInvertedSubtree.
  destruct (updateThreadStacks_total
              (focusInvertedSubtreeUpdater thread path implementation)
              (λ _, True) (validStack (stackTable thread)) (λ _ _, True)
              thread (stackTable thread) ∅)
    as (thread' & Hrun & _); [|done|exact valid|by exists thread'].
  intros oldStack cache _ Hstack. unfold focusInvertedSubtreeUpdater.
  destruct oldStack as [leaf|]; [|by exists None, cache].
  destruct (cache !! leaf) as [newStack|]; [by exists newStack, cache|].
  unfold convertStack. simpl in Hstack.
  destruct (convertStackFrom_returns path implementation
              (walkBound thread path) leaf 0 Hfilter Hstack)
    as [newStack ->];
    [pose proof (walkBound_rows thread path); unfold tableLength in Hstack; lia|].
  simpl. by eexists _, _.
Qed.

End Returns.

Lemma filterReturns_not_cpp (thread : Thread)
    (implementation : ImplementationFilter) :
  implementation ≠ cpp → filterReturns thread implementation.
Proof. intros Hne stack row _. by apply FUNC_MATCHES_returns. Qed.

(** X18.  On a thread with an ordered stack table and valid samples, every
    transform returns a thread: it neither throws nor runs for ever,
    provided that the implementation filter of the transform answers for
    the func of every stack.  The filters [combined] and [js] always do;
    [cpp] does when the name of every func that is not a JS func is in the
    string table. *)
Theorem applyTransform_returns (thread : Thread) (transform : Transform)
    (defaultCategory : Z) :
  stackTableOrdered (stackTable thread) →
  samplesValid thread →
  filterReturns thread (implementationOf transform) →
  ∃ thread', applyTransform thread transform defaultCategory = Ok thread'.
Proof.
  intros Hord Hvalid Hfilter.
  destruct transform as [path impl inverted|f|path impl|f|f|r c impl|f impl|f];
    simpl in *.
  - destruct inverted.
    + by apply focusInvertedSubtree_returns.
    + by apply focusSubtree_returns.
  - destruct (focusFunction_paths_total thread f Hord Hvalid) as [thread' ?].
    by exists thread'.
  - by apply mergeCallNode_returns.
  - destruct (mergeFunction_paths_total thread f Hord Hvalid) as [thread' ?].
    by exists thread'.
  - destruct (dropFunctionLoop_returns thread f) as [flags Hloop].
    unfold dropFunction. rewrite Hloop. simpl.
    rewrite updateThreadStacks_pure. by eexists.
  - by apply collapseResource_returns.
  - by apply collapseDirectRecursion_returns.
  - destruct (collapseFunctionSubtree_paths_total thread f defaultCategory
                Hord Hvalid) as [thread' ?].
    by exists thread'.
Qed.

(** ** Restoring the funcs that an implementation filter took out *)

Lemma callPath_unique (table : StackTable) (frames : FrameTable) stack path path' :
  callPath table frames stack path → callPath table frames stack path' →
  path = path'.
Proof.
  intros Hpath. revert path'.
  induction Hpath as [|s row parentPath Hrow Hparent IH]; intros path' Hpath'.
  - by apply callPath_null_inv in Hpath'.
  - destruct (callPath_inv _ _ _ _ _ Hpath' Hrow) as (parentPath' & -> & Hparent').
    f_equal. by apply IH.
Qed.

Lemma filterCallNodePath_snoc (thread : Thread)
    (implementation : ImplementationFilter) (full filtered : list Z)
    (funcIndex : Z) (matches : bool) :
  filterCallNodePathByImplementation thread implementation full = Ok filtered →
  FUNC_MATCHES implementation thread (Some funcIndex) = Ok matches →
  filterCallNodePathByImplementation thread implementation (full ++ [funcIndex])
  = Ok (if matches then filtered ++ [funcIndex] else filtered).
Proof.
  intros Hfull Hmatches. revert filtered Hfull.
  induction full as [|x full IH]; intros filtered.
  - intros [= <-]. simpl. rewrite Hmatches. simpl. by destruct matches.
  - simpl. intros (mx & Hmx & (rest & Hrest & [= <-])%bind_Ok)%bind_Ok.
    rewrite Hmx. simpl. rewrite (IH rest Hrest). simpl.
    by destruct mx, matches.
Qed.

Lemma take_snoc_lookup (path : list Z) (depth : Z) (funcIndex : Z) :
  0 ≤ depth → elemAt path depth = Some funcIndex →
  take (Z.to_nat (depth + 1)) path = take (Z.to_nat depth) path ++ [funcIndex].
Proof.
  intros Hd Hfunc. unfold elemAt in Hfunc. rewrite decide_True in Hfunc by done.
  replace (Z.to_nat (depth + 1)) with (S (Z.to_nat depth)) by lia.
  by apply take_S_r.
Qed.

Section Restore.

Variable thread : Thread.
Variable implementation : ImplementationFilter.
Variable callNodePath : list Z.
Hypothesis ordered : stackTableOrdered (stackTable thread).
Hypothesis filtered :
  Forall (λ funcIndex,
            FUNC_MATCHES implementation thread (Some funcIndex) = Ok true)
    callNodePath.

Abbreviation RestoreInv := (restoreInv thread implementation callNodePath).

(** What the loop knows of the stack it visits, when the call path of the
    stack is a call node path. *)
Lemma restore_prefix n depths row full :
  RestoreInv n depths →
  elemAt (stackTable thread) n = Some row →
  callPath (stackTable thread) (frameTable thread) (Some n) (Some <$> full) →
  ∃ parentPath funcIndex,
    full = parentPath ++ [funcIndex]
    ∧ funcOfRow thread row = Some funcIndex
    ∧ ∀ depth,
        match s_prefix row with
        | None => depthNumber (-1)
        | Some prefix => default depthUndefined (elemAt depths prefix)
        end = depthNumber depth →
        -1 ≤ depth
        ∧ (depth < tableLength callNodePath →
           filterCallNodePathByImplementation thread implementation parentPath
           = Ok (take (Z.to_nat (depth + 1)) callNodePath)).
Proof.
  intros [_ Hinv] Hrow Hpath.
  destruct (callPath_fmap_inv _ _ _ _ Hpath)
    as (row' & parentPath & funcIndex & -> & Hrow' & Hfunc & Hparent).
  assert (row' = row) as -> by congruence.
  exists parentPath, funcIndex. split_and!; [done..|].
  intros depth Hdepth. destruct (s_prefix row) as [prefix|] eqn:Hp.
  - pose proof (ordered _ _ _ Hrow Hp) as Hlt.
    apply (Hinv prefix parentPath depth Hlt Hparent).
    destruct (elemAt depths prefix) as [entry|]; simpl in Hdepth; [|done].
    by rewrite Hdepth.
  - injection Hdepth as <-.
    apply callPath_null_inv, fmap_nil_inv in Hparent as ->. by split.
Qed.

Lemma restoreInv_snoc n depths row entry :
  RestoreInv n depths →
  elemAt (stackTable thread) n = Some row →
  (∀ full depth,
     callPath (stackTable thread) (frameTable thread) (Some n) (Some <$> full) →
     entry = depthNumber depth →
     -1 ≤ depth
     ∧ (depth < tableLength callNodePath →
        filterCallNodePathByImplementation thread implementation full
        = Ok (take (Z.to_nat (depth + 1)) callNodePath))) →
  RestoreInv (n + 1) (depths ++ [entry]).
Proof.
  intros [Hlen Hinv] Hrow Hentry. split.
  { unfold tableLength in *. rewrite length_app. simpl. lia. }
  intros stack full depth Hstack Hpath Hdepth.
  apply elemAt_snoc in Hdepth as [[-> Heq]|Hdepth].
  - apply Hentry; [|done]. unfold tableLength in Hlen. by rewrite Hlen in Hpath.
  - apply (Hinv stack full depth); [|done..].
    apply elemAt_Some in Hdepth. unfold tableLength in Hlen. lia.
Qed.

Lemma restoreFindTip_spec (rows before : list StackRow)
    (depths : list PathDepth) (tip : Z) :
  stackTable thread = before ++ rows →
  RestoreInv (tableLength before) depths →
  restoreFindTip thread implementation callNodePath (tableLength before) rows
    depths = Ok (Some tip) →
  is_Some (elemAt (stackTable thread) tip)
  ∧ ∀ full,
      callPath (stackTable thread) (frameTable thread) (Some tip)
        (Some <$> full) →
      filterCallNodePathByImplementation thread implementation full
      = Ok callNodePath.
Proof.
  revert before depths.
  induction rows as [|row rest IH]; intros before depths Htable Hinv; [done|].
  assert (elemAt (stackTable thread) (tableLength before) = Some row) as Hrow
    by (rewrite Htable; apply elemAt_middle).
  assert (tableLength (before ++ [row]) = tableLength before + 1) as Hlen
    by (unfold tableLength; rewrite length_app; simpl; lia).
  assert (stackTable thread = (before ++ [row]) ++ rest) as Htable'
    by by rewrite <- app_assoc.
  assert (∀ entry,
    (∀ full depth,
       callPath (stackTable thread) (frameTable thread)
         (Some (tableLength before)) (Some <$> full) →
       entry = depthNumber depth →
       -1 ≤ depth
       ∧ (depth < tableLength callNodePath →
          filterCallNodePathByImplementation thread implementation full
          = Ok (take (Z.to_nat (depth + 1)) callNodePath))) →
    restoreFindTip thread implementation callNodePath (tableLength before + 1)
      rest (depths ++ [entry]) = Ok (Some tip) →
    is_Some (elemAt (stackTable thread) tip)
    ∧ ∀ full,
        callPath (stackTable thread) (frameTable thread) (Some tip)
          (Some <$> full) →
        filterCallNodePathByImplementation thread implementation full
        = Ok callNodePath) as Hcontinue.
  { intros entry Hentry. rewrite <- Hlen. apply IH; [done|].
    rewrite Hlen. by apply (restoreInv_snoc _ _ row). }
  (* the stack matches the next func of the path *)
  assert (∀ full depth,
    callPath (stackTable thread) (frameTable thread)
      (Some (tableLength before)) (Some <$> full) →
    sameValue
      (funcAtDepth callNodePath
         (nextDepth match s_prefix row with
                    | None => depthNumber (-1)
                    | Some prefix =>
                        default depthUndefined (elemAt depths prefix)
                    end))
      (funcOfRow thread row) = true →
    nextDepth match s_prefix row with
              | None => depthNumber (-1)
              | Some prefix => default depthUndefined (elemAt depths prefix)
              end = depthNumber depth →
    -1 ≤ depth
    ∧ (depth < tableLength callNodePath →
       filterCallNodePathByImplementation thread implementation full
       = Ok (take (Z.to_nat (depth + 1)) callNodePath))) as Hmatch.
  { intros full depth Hpath Hsame Hdepth.
    destruct (restore_prefix _ _ _ _ Hinv Hrow Hpath)
      as (parentPath & funcIndex & -> & Hfunc & Hprefix).
    destruct (match s_prefix row with
              | None => depthNumber (-1)
              | Some prefix => default depthUndefined (elemAt depths prefix)
              end) as [d| | |] eqn:Hpd; try done.
    simpl in Hdepth, Hsame. injection Hdepth as <-.
    destruct (Hprefix d eq_refl) as [Hd Hfilter]. split; [lia|].
    intros Hin. rewrite Hfunc in Hsame. apply bool_decide_eq_true in Hsame.
    assert (FUNC_MATCHES implementation thread (Some funcIndex) = Ok true)
      as Hmatches.
    { eapply (proj1 (Forall_forall _ _) filtered).
      unfold elemAt in Hsame. case_decide; [|done].
      apply list_elem_of_lookup. eauto. }
    rewrite (filterCallNodePath_snoc _ _ _ _ _ _ (Hfilter ltac:(lia)) Hmatches).
    f_equal. symmetry. apply take_snoc_lookup; [lia|done]. }
  simpl.
  set (prefixPathDepth :=
    match s_prefix row with
    | None => depthNumber (-1)
    | Some prefix => default depthUndefined (elemAt depths prefix)
    end) in *.
  destruct (bool_decide (prefixPathDepth = depthNull)) eqn:Hnull.
  { apply Hcontinue. by intros. }
  destruct (sameValue _ _) eqn:Hsame.
  - destruct (bool_decide (nextDepth prefixPathDepth = _)) eqn:Htip.
    + intros [= <-]. split; [by eexists|]. intros full Hpath.
      apply bool_decide_eq_true in Htip.
      destruct (Hmatch full _ Hpath eq_refl Htip) as [Hd Hfilter].
      rewrite Hfilter by lia.
      f_equal. apply take_ge. unfold tableLength. lia.
    + apply Hcontinue. intros full depth Hpath Hdepth.
      by apply (Hmatch full depth Hpath eq_refl).
  - intros (matches & Hmatches & Hrest)%bind_Ok. revert Hrest.
    destruct matches; simpl; apply Hcontinue; [by intros|].
    intros full depth Hpath Hdepth.
    destruct (restore_prefix _ _ _ _ Hinv Hrow Hpath)
      as (parentPath & funcIndex & -> & Hfunc & Hprefix).
    destruct (Hprefix depth Hdepth) as [Hd Hfilter]. split; [done|].
    intros Hin. rewrite Hfunc in Hmatches.
    by rewrite (filterCallNodePath_snoc _ _ _ _ _ _ (Hfilter Hin) Hmatches).
Qed.

Lemma restoreFindTip_returns (rows : list StackRow) (n : Z)
    (depths : list PathDepth) :
  implementation ≠ cpp →
  ∃ tip, restoreFindTip thread implementation callNodePath n rows depths = Ok tip.
Proof.
  intros Himpl. revert n depths.
  induction rows as [|row rest IH]; intros n depths; [by eexists|].
  simpl. destruct (bool_decide _); [apply IH|].
  destruct (sameValue _ _).
  - destruct (bool_decide _); [by eexists|apply IH].
  - destruct (FUNC_MATCHES_returns implementation thread (funcOfRow thread row)
                Himpl) as [matches ->].
    simpl. destruct matches; apply IH.
Qed.

Lemma pathToRoot_callPath (fuel : nat) (stack : Z) :
  is_Some (elemAt (stackTable thread) stack) →
  stack < Z.of_nat fuel →
  ∃ leafFirst,
    pathToRoot thread fuel stack = Ok leafFirst
    ∧ callPath (stackTable thread) (frameTable thread) (Some stack)
        (rev leafFirst).
Proof.
  revert stack. induction fuel as [|fuel IH]; intros stack [row Hrow] Hfuel;
    pose proof (elemAt_Some _ _ _ Hrow) as Hstack; [lia|].
  simpl. rewrite Hrow. destruct (s_prefix row) as [prefix|] eqn:Hp.
  - pose proof (ordered _ _ _ Hrow Hp) as Hlt.
    destruct (IH prefix) as (rest & -> & Hrest); [|lia|].
    { apply elemAt_is_Some. lia. }
    simpl. eexists. split; [done|]. simpl.
    eapply callPath_snoc; [done|done|]. by rewrite Hp.
  - simpl. eexists. split; [done|]. simpl.
    eapply (callPath_snoc _ _ _ _ []); [done|done|]. rewrite Hp. constructor.
Qed.

Lemma restoreAllFunctions_round_trip (restored : list (option Z)) :
  restoreAllFunctionsInCallNodePath thread implementation callNodePath
    = Ok restored →
  restored = []
  ∨ ∃ tip,
      callPath (stackTable thread) (frameTable thread) (Some tip) restored
      ∧ ∀ full,
          restored = Some <$> full →
          filterCallNodePathByImplementation thread implementation full
          = Ok callNodePath.
Proof.
  unfold restoreAllFunctionsInCallNodePath.
  intros ([tip|] & Htip & Hrest)%bind_Ok; [|left; by injection Hrest as <-].
  right. exists tip.
  destruct (restoreFindTip_spec (stackTable thread) [] [] tip eq_refl)
    as [Hrow Hfilter]; [|done|].
  { split; [done|]. unfold tableLength. simpl. intros; lia. }
  destruct (pathToRoot_callPath (S (length (stackTable thread))) tip Hrow)
    as (leafFirst & Hwalk & Hpath).
  { destruct Hrow as [row Hrow%elemAt_Some]. lia. }
  rewrite Hwalk in Hrest. injection Hrest as <-.
  split; [done|]. intros full Heq. apply Hfilter. by rewrite <- Heq.
Qed.

Lemma restoreAllFunctions_returns :
  implementation ≠ cpp →
  ∃ restored,
    restoreAllFunctionsInCallNodePath thread implementation callNodePath
    = Ok restored.
Proof.
  intros Himpl. unfold restoreAllFunctionsInCallNodePath.
  destruct (restoreFindTip_returns (stackTable thread) 0 [] Himpl)
    as [[tip|] Htip]; rewrite Htip; cbn [mbind result_bind]; [|by eexists].
  destruct (restoreFindTip_spec (stackTable thread) [] [] tip eq_refl)
    as [Hrow _]; [|done|].
  { split; [done|]. unfold tableLength. simpl. intros; lia. }
  destruct (pathToRoot_callPath (S (length (stackTable thread))) tip Hrow)
    as (leafFirst & -> & _).
  { destruct Hrow as [row Hrow%elemAt_Some]. lia. }
  cbn [mbind result_bind]. by eexists.
Qed.

End Restore.

(** X19.  [restoreAllFunctionsInCallNodePath] undoes
    [filterCallNodePathByImplementation]: for a path whose funcs all match
    the previous implementation filter, what it returns is the empty path
    (no stack found) or the call path of a stack, and filtering that call
    path by the previous implementation gives the path back.  With the
    filters [combined] and [js] it returns on every ordered thread. *)
Theorem restoreAllFunctionsInCallNodePath_spec (thread : Thread)
    (previousImplementationFilter : ImplementationFilter)
    (callNodePath : list Z) :
  stackTableOrdered (stackTable thread) →
  Forall (λ funcIndex,
            FUNC_MATCHES previousImplementationFilter thread (Some funcIndex)
            = Ok true) callNodePath →
  (previousImplementationFilter ≠ cpp →
   ∃ restored,
     restoreAllFunctionsInCallNodePath thread previousImplementationFilter
       callNodePath = Ok restored)
  ∧ ∀ restored,
      restoreAllFunctionsInCallNodePath thread previousImplementationFilter
        callNodePath = Ok restored →
      restored = []
      ∨ ∃ tip,
          callPath (stackTable thread) (frameTable thread) (Some tip) restored
          ∧ ∀ full,
              restored = Some <$> full →
              filterCallNodePathByImplementation thread
                previousImplementationFilter full = Ok callNodePath.
Proof.
  intros Hord Hfiltered. split.
  - by apply restoreAllFunctions_returns.
  - intros restored. by apply restoreAllFunctions_round_trip.
Qed.

(** ** Transforms that change nothing the second time *)

Lemma identity_initial (table : StackTable) : identityRewrite table 0 emptyRewrite.
Proof.
  split; [done|]. intros stack. simpl.
  rewrite lookup_empty. by rewrite bool_decide_false by lia.
Qed.

Lemma identity_prefix (table : StackTable) (n : Z) (row : StackRow) (rw : Rewrite) :
  stackTableOrdered table → elemAt table n = Some row →
  identityRewrite table n rw →
  mapGet (oldStackToNewStack rw) (s_prefix row) = Some (s_prefix row).
Proof.
  intros Hord Hrow [_ Hmap]. destruct (s_prefix row) as [prefix|] eqn:Hp; [|done].
  simpl. rewrite Hmap. by rewrite bool_decide_true by by apply (Hord n row).
Qed.

Lemma identity_emit (table : StackTable) (n : Z) (row : StackRow) (rw : Rewrite) :
  elemAt table n = Some row → identityRewrite table n rw →
  identityRewrite table (n + 1)
    (emitStack rw n (s_prefix row) (s_frame row) (s_category row)
       (s_subcategory row)).
Proof.
  intros Hrow [Htable Hmap]. pose proof (elemAt_Some _ _ _ Hrow) as Hn.
  unfold elemAt in Hrow. rewrite decide_True in Hrow by lia.
  split; simpl.
  - rewrite Htable. replace (Z.to_nat (n + 1)) with (S (Z.to_nat n)) by lia.
    rewrite (take_S_r _ _ _ Hrow). by destruct row.
  - intros stack. rewrite Htable. unfold tableLength.
    rewrite length_take, Nat.min_l by lia. rewrite Z2Nat.id by lia.
    destruct (decide (stack = n)) as [->|Hne].
    + rewrite lookup_insert_eq. by rewrite bool_decide_true by lia.
    + rewrite lookup_insert_ne by done. rewrite Hmap.
      destruct (decide (0 ≤ stack < n)).
      * by rewrite !bool_decide_true by lia.
      * by rewrite !bool_decide_false by lia.
Qed.

Lemma identity_updater (thread : Thread) (table : StackTable)
    (convertStack : StackUpdater unit) :
  samplesValid thread → table = stackTable thread →
  (∀ stack, validStack (stackTable thread) stack →
     convertStack stack () = Ok (stack, ())) →
  updateThreadStacks thread table convertStack () = Ok thread.
Proof.
  intros Hvalid -> Hconv.
  assert (∀ stacks, Forall (validStack (stackTable thread)) stacks →
    mapStacks convertStack stacks () = Ok (stacks, ())) as Hcolumn.
  { induction 1 as [|stack stacks Hstack _ IH]; [done|].
    cbn [mapStacks]. rewrite (Hconv _ Hstack).
    cbn [mbind result_bind]. by rewrite IH. }
  unfold samplesValid, sampleLikeTables in Hvalid.
  apply Forall_cons in Hvalid as [Hsamples [Hjs Hnative]%Forall_app].
  unfold updateThreadStacks. rewrite (Hcolumn _ Hsamples).
  cbn [mbind result_bind].
  assert (∀ column, Forall (Forall (validStack (stackTable thread)))
                      (option_list column) →
    mapStacksOpt convertStack column () = Ok (column, ())) as Hopt.
  { intros [stacks|] Hall; unfold mapStacksOpt; [|done].
    apply Forall_cons in Hall as [Hall _]. by rewrite (Hcolumn _ Hall). }
  rewrite (Hopt _ Hjs). cbn [mbind result_bind].
  rewrite (Hopt _ Hnative). cbn [mbind result_bind].
  by destruct thread.
Qed.

Lemma identity_table (table : StackTable) (rw : Rewrite) :
  identityRewrite table (tableLength table) rw → newStackTable rw = table.
Proof.
  intros [-> _]. unfold tableLength. by rewrite Nat2Z.id, firstn_all.
Qed.

Lemma identity_thread (thread : Thread) (rw : Rewrite) :
  samplesValid thread →
  identityRewrite (stackTable thread) (tableLength (stackTable thread)) rw →
  updateThreadStacks thread (newStackTable rw)
    (getMapStackUpdater (oldStackToNewStack rw)) () = Ok thread.
Proof.
  intros Hvalid Hid.
  apply identity_updater; [done|by apply identity_table|].
  intros [s|] Hstack; [|done]. destruct Hid as [_ Hmap].
  unfold getMapStackUpdater. simpl in *. rewrite Hmap.
  by rewrite bool_decide_true.
Qed.

(** *** merge-function *)

Lemma mergeFunction_identity (thread : Thread) (funcIndexToMerge : Z) :
  stackTableOrdered (stackTable thread) → samplesValid thread →
  (∀ stack row, elemAt (stackTable thread) stack = Some row →
     funcOfRow thread row ≠ Some funcIndexToMerge) →
  mergeFunction thread funcIndexToMerge = Ok thread.
Proof.
  intros Hord Hvalid Hnone.
  destruct (forStacks_total (identityRewrite (stackTable thread))
              (mergeFunctionBody thread funcIndexToMerge) (stackTable thread)
              emptyRewrite) as (rw & Hloop & Hid).
  - apply identity_initial.
  - intros n row rw Hrow Hid. unfold mergeFunctionBody.
    rewrite (identity_prefix _ _ _ _ Hord Hrow Hid). simpl orNull.
    unfold sameValue. rewrite bool_decide_false by by apply (Hnone n).
    eexists. split; [done|]. by apply identity_emit.
  - unfold mergeFunction, mergeFunctionLoop. rewrite Hloop. simpl.
    by apply identity_thread.
Qed.

Lemma mergeFunction_removes (thread thread' : Thread) (funcIndexToMerge : Z) :
  mergeFunction thread funcIndexToMerge = Ok thread' →
  ∀ stack row, elemAt (stackTable thread') stack = Some row →
    funcOfRow thread' row ≠ Some funcIndexToMerge.
Proof.
  unfold mergeFunction. intros (rw & Hloop & Hupdate)%bind_Ok.
  apply (updateThreadStacks_related _ (λ _, True) (λ _ _, True)) in Hupdate
    as (Htable & Hframes & _); [|done|done].
  unfold funcOfRow. rewrite Htable, Hframes. revert Hloop.
  apply (forStacks_invariant
           (λ _ rw, ∀ stack row, elemAt (newStackTable rw) stack = Some row →
              funcOfRow thread row ≠ Some funcIndexToMerge)).
  - intros stack row Hrow. unfold elemAt in Hrow. by case_decide.
  - intros n row rw' rw1 Hrow Hinv. unfold mergeFunctionBody.
    destruct (sameValue _ _) eqn:Hsame; intros [= <-]; [done|].
    simpl. intros stack new [[_ ->]|Hold]%elemAt_snoc; [|by eapply Hinv].
    unfold funcOfRow. simpl. by apply bool_decide_eq_false in Hsame.
Qed.

(** X20.  Merging a function twice gives the thread that merging it once gives:
    on a thread with an ordered stack table and valid samples
    [mergeFunction] returns a thread without a stack of the function, and
    on that thread it returns the thread itself. *)
Theorem mergeFunction_idempotent (thread : Thread) (funcIndexToMerge : Z) :
  stackTableOrdered (stackTable thread) →
  samplesValid thread →
  ∃ merged,
    mergeFunction thread funcIndexToMerge = Ok merged
    ∧ (∀ stack row, elemAt (stackTable merged) stack = Some row →
         funcOfRow merged row ≠ Some funcIndexToMerge)
    ∧ mergeFunction merged funcIndexToMerge = Ok merged.
Proof.
  intros Hord Hvalid.
  destruct (mergeFunction_paths_total thread funcIndexToMerge Hord Hvalid)
    as [merged Hrun].
  exists merged. split; [done|].
  pose proof (mergeFunction_removes _ _ _ Hrun) as Hnone.
  split; [done|].
  destruct (mergeFunction_wf _ _ _ Hrun) as [Hord' Hvalid'].
  by apply mergeFunction_identity.
Qed.

(** *** focus-function *)

Lemma focusFunction_identity (thread : Thread) (funcIndexToFocus : Z) :
  stackTableOrdered (stackTable thread) → samplesValid thread →
  (∀ stack row, elemAt (stackTable thread) stack = Some row →
     s_prefix row = None → funcOfRow thread row = Some funcIndexToFocus) →
  focusFunction thread funcIndexToFocus = Ok thread.
Proof.
  intros Hord Hvalid Hroots.
  destruct (forStacks_total (identityRewrite (stackTable thread))
              (focusFunctionBody thread funcIndexToFocus) (stackTable thread)
              emptyRewrite) as (rw & Hloop & Hid).
  - apply identity_initial.
  - intros n row rw Hrow Hid. unfold focusFunctionBody.
    rewrite (identity_prefix _ _ _ _ Hord Hrow Hid).
    assert (bool_decide (s_prefix row ≠ None)
            || sameValue (funcOfRow thread row) (Some funcIndexToFocus) = true)
      as ->.
    { destruct (s_prefix row) as [prefix|] eqn:Hp; [done|]. simpl.
      apply bool_decide_eq_true. by apply (Hroots n). }
    eexists. split; [done|]. by apply identity_emit.
  - unfold focusFunction, focusFunctionLoop. rewrite Hloop. simpl.
    by apply identity_thread.
Qed.

Lemma focusFunction_roots (thread thread' : Thread) (funcIndexToFocus : Z) :
  focusFunction thread funcIndexToFocus = Ok thread' →
  ∀ stack row, elemAt (stackTable thread') stack = Some row →
    s_prefix row = None → funcOfRow thread' row = Some funcIndexToFocus.
Proof.
  unfold focusFunction. intros (rw & Hloop & Hupdate)%bind_Ok.
  apply (updateThreadStacks_related _ (λ _, True) (λ _ _, True)) in Hupdate
    as (Htable & Hframes & _); [|done|done].
  unfold funcOfRow. rewrite Htable, Hframes. revert Hloop.
  apply (forStacks_invariant
           (λ _ rw, ∀ stack row, elemAt (newStackTable rw) stack = Some row →
              s_prefix row = None →
              funcOfRow thread row = Some funcIndexToFocus)).
  - intros stack row Hrow. unfold elemAt in Hrow. by case_decide.
  - intros n row rw' rw1 Hrow Hinv. unfold focusFunctionBody.
    destruct (mapGet _ _) as [newPrefix|]; [|done].
    destruct (bool_decide (newPrefix ≠ None)) eqn:Hprefix; simpl.
    + intros [= <-]. simpl.
      intros stack new [[_ ->]|Hold]%elemAt_snoc; [|by eapply Hinv].
      simpl. intros ->. by apply bool_decide_eq_true in Hprefix.
    + destruct (sameValue _ _) eqn:Hsame; intros [= <-]; [|done].
      simpl. intros stack new [[_ ->]|Hold]%elemAt_snoc; [|by eapply Hinv].
      intros _. unfold funcOfRow. simpl. by apply bool_decide_eq_true in Hsame.
Qed.

(** X21.  Focusing on a function twice gives the thread that focusing on it once
    gives: on a thread with an ordered stack table and valid samples
    [focusFunction] returns a thread in which every root stack is a stack
    of the function, and on that thread it returns the thread itself. *)
Theorem focusFunction_idempotent (thread : Thread) (funcIndexToFocus : Z) :
  stackTableOrdered (stackTable thread) →
  samplesValid thread →
  ∃ focused,
    focusFunction thread funcIndexToFocus = Ok focused
    ∧ (∀ stack row, elemAt (stackTable focused) stack = Some row →
         s_prefix row = None → funcOfRow focused row = Some funcIndexToFocus)
    ∧ focusFunction focused funcIndexToFocus = Ok focused.
Proof.
  intros Hord Hvalid.
  destruct (focusFunction_paths_total thread funcIndexToFocus Hord Hvalid)
    as [focused Hrun].
  exists focused. split; [done|].
  pose proof (focusFunction_roots _ _ _ Hrun) as Hroots.
  split; [done|].
  destruct (focusFunction_wf _ _ _ Hrun) as [Hord' Hvalid'].
  by apply focusFunction_identity.
Qed.

(** *** drop-function *)

Lemma dropStack_comm (flags flags' : list bool) (stack : option Z) :
  dropStack flags (dropStack flags' stack) = dropStack flags' (dropStack flags stack).
Proof.
  destruct stack as [s|]; [|done]. simpl.
  destruct (default false (elemAt flags' s)) eqn:E';
    destruct (default false (elemAt flags s)) eqn:E; simpl;
    by rewrite ?E, ?E'.
Qed.

(** X22.  Dropping two functions gives the same thread in either order:
    [dropFunction] returns on every thread, and dropping [g] from the
    thread without [f] gives what dropping [f] from the thread without [g]
    gives. *)
Theorem dropFunction_commutes (thread : Thread) (f g : Z) :
  ∃ withoutF withoutG without,
    dropFunction thread f = Ok withoutF
    ∧ dropFunction thread g = Ok withoutG
    ∧ dropFunction withoutF g = Ok without
    ∧ dropFunction withoutG f = Ok without.
Proof.
  destruct (dropFunctionLoop_returns thread f) as [flagsF HloopF].
  destruct (dropFunctionLoop_returns thread g) as [flagsG HloopG].
  eexists _, _, _. split_and!.
  - unfold dropFunction. rewrite HloopF. simpl. apply updateThreadStacks_pure.
  - unfold dropFunction. rewrite HloopG. simpl. apply updateThreadStacks_pure.
  - unfold dropFunction.
    match goal with
    | |- dropFunctionLoop ?t _ ≫= _ = _ =>
        change (dropFunctionLoop t g) with (dropFunctionLoop thread g)
    end.
    rewrite HloopG. simpl. rewrite updateThreadStacks_pure. simpl. reflexivity.
  - unfold dropFunction.
    match goal with
    | |- dropFunctionLoop ?t _ ≫= _ = _ =>
        change (dropFunctionLoop t f) with (dropFunctionLoop thread f)
    end.
    rewrite HloopF. simpl. rewrite updateThreadStacks_pure. simpl.
    f_equal. f_equal.
    + rewrite !map_map. apply map_ext. intros. apply dropStack_comm.
    + destruct (jsAllocations thread); [|done]. simpl. f_equal.
      rewrite !map_map. apply map_ext. intros. apply dropStack_comm.
    + destruct (nativeAllocations thread); [|done]. simpl. f_equal.
      rewrite !map_map. apply map_ext. intros. apply dropStack_comm.
Qed.

(** ** What the transforms leave alone *)

Lemma mapStacks_length {S : Type} (convertStack : StackUpdater S)
    (stacks stacks' : list (option Z)) (st st' : S) :
  mapStacks convertStack stacks st = Ok (stacks', st') →
  length stacks' = length stacks.
Proof.
  revert stacks' st. induction stacks as [|stack stacks IH]; intros stacks' st.
  { by intros [= <- _]. }
  simpl. intros ([newStack st1] & _ & Hrest)%bind_Ok.
  apply bind_Ok in Hrest as ([rest st2] & Hrest & [= <- <-]).
  rewrite !length_cons. f_equal. by eapply IH.
Qed.

(** The shape of the sample-like tables: the number of rows of each, and
    which of the optional tables there are. *)
Lemma updateThreadStacks_shape {S : Type} (convertStack : StackUpdater S)
    (thread thread' : Thread) (table : StackTable) (st : S) :
  updateThreadStacks thread table convertStack st = Ok thread' →
  length (samples thread') = length (samples thread)
  ∧ length <$> jsAllocations thread' = length <$> jsAllocations thread
  ∧ length <$> nativeAllocations thread' = length <$> nativeAllocations thread
  ∧ frameTable thread' = frameTable thread
  ∧ funcTable thread' = funcTable thread
  ∧ stringTable thread' = stringTable thread
  ∧ resourceTable_name thread' = resourceTable_name thread.
Proof.
  unfold updateThreadStacks.
  intros ([smp st1] & Hsmp & Hrest)%bind_Ok.
  apply bind_Ok in Hrest as ([js st2] & Hjs & Hrest).
  apply bind_Ok in Hrest as ([na st3] & Hna & [= <-]).
  simpl. split_and!; try done.
  - by eapply mapStacks_length.
  - unfold mapStacksOpt in Hjs. destruct (jsAllocations thread) as [l|].
    + apply bind_Ok in Hjs as ([l' s'] & Hl & [= <- _]). simpl. f_equal.
      by eapply mapStacks_length.
    + by injection Hjs as <- _.
  - unfold mapStacksOpt in Hna. destruct (nativeAllocations thread) as [l|].
    + apply bind_Ok in Hna as ([l' s'] & Hl & [= <- _]). simpl. f_equal.
      by eapply mapStacks_length.
    + by injection Hna as <- _.
Qed.

(** *** The rows that a forward pass writes *)

Lemma rows_initial (table : StackTable) (extraFrame : option Z) :
  RowsInv table extraFrame 0 (newStackTable emptyRewrite).
Proof.
  split; [done|]. intros stack row Hrow. unfold elemAt in Hrow.
  by case_decide.
Qed.

Lemma rows_keep (table : StackTable) (extraFrame : option Z) (n : Z)
    (newTable : StackTable) :
  RowsInv table extraFrame n newTable →
  RowsInv table extraFrame (n + 1) newTable.
Proof. intros [Hlength Hrows]. split; [lia|done]. Qed.

Lemma rows_emit (table : StackTable) (extraFrame : option Z) (n : Z)
    (row : StackRow) (newTable : StackTable) (prefix : option Z)
    (category subcategory : Z) :
  elemAt table n = Some row →
  RowsInv table extraFrame n newTable →
  RowsInv table extraFrame (n + 1)
    (newTable ++ [mkStackRow prefix (s_frame row) category subcategory]).
Proof.
  intros Hrow [Hlength Hrows]. split.
  - unfold tableLength in *. rewrite length_app. simpl. lia.
  - intros stack new [[_ ->]|Hold]%elemAt_snoc; [|by apply (Hrows stack)].
    left. by exists n, row.
Qed.

Lemma rows_extra (table : StackTable) (frameIndex : Z) (n : Z)
    (newTable : StackTable) (prefix : option Z) (category subcategory : Z) :
  RowsInv table (Some frameIndex) n newTable →
  RowsInv table (Some frameIndex) (n + 1)
    (newTable ++ [mkStackRow prefix frameIndex category subcategory]).
Proof.
  intros [Hlength Hrows]. split.
  - unfold tableLength in *. rewrite length_app. simpl. lia.
  - intros stack new [[_ ->]|Hold]%elemAt_snoc; [|by apply (Hrows stack)].
    by right.
Qed.

Lemma rows_resolveCategory (table : StackTable) (extraFrame : option Z) (n : Z)
    (newTable : StackTable) (stack c s d : Z) :
  RowsInv table extraFrame n newTable →
  RowsInv table extraFrame (n + 1) (resolveCategory newTable stack c s d).
Proof.
  intros [Hlength Hrows]. split.
  - rewrite resolveCategory_length. lia.
  - intros i row Hrow.
    apply resolveCategory_elemAt in Hrow as (row0 & Hrow0 & _ & ->).
    by apply (Hrows i).
Qed.

Lemma mergeCallNodeLoop_rows (thread : Thread) (callNodePath : list Z)
    (implementation : ImplementationFilter) (st : MergeCallNodeState) :
  mergeCallNodeLoop thread callNodePath implementation = Ok st →
  RowsInv (stackTable thread) None (tableLength (stackTable thread))
    (newStackTable (mcn_rewrite st)).
Proof.
  apply (forStacks_invariant
           (λ n st, RowsInv (stackTable thread) None n
                      (newStackTable (mcn_rewrite st))));
    [apply rows_initial|].
  intros n row s s1 Hrow Hinv. unfold mergeCallNodeBody.
  intros ([[doMerge depth] matches] & _ & [= <-])%bind_Ok. simpl.
  destruct doMerge; [by apply rows_keep|by apply rows_emit].
Qed.

Lemma mergeFunctionLoop_rows (thread : Thread) (funcIndexToMerge : Z)
    (rw : Rewrite) :
  mergeFunctionLoop thread funcIndexToMerge = Ok rw →
  RowsInv (stackTable thread) None (tableLength (stackTable thread))
    (newStackTable rw).
Proof.
  apply (forStacks_invariant
           (λ n rw, RowsInv (stackTable thread) None n (newStackTable rw)));
    [apply rows_initial|].
  intros n row s s1 Hrow Hinv. unfold mergeFunctionBody.
  case_match; intros [= <-]; [by apply rows_keep|by apply rows_emit].
Qed.

Lemma focusFunctionLoop_rows (thread : Thread) (funcIndexToFocus : Z)
    (rw : Rewrite) :
  focusFunctionLoop thread funcIndexToFocus = Ok rw →
  RowsInv (stackTable thread) None (tableLength (stackTable thread))
    (newStackTable rw).
Proof.
  apply (forStacks_invariant
           (λ n rw, RowsInv (stackTable thread) None n (newStackTable rw)));
    [apply rows_initial|].
  intros n row s s1 Hrow Hinv. unfold focusFunctionBody.
  destruct (mapGet _ _) as [newPrefix|]; [|done].
  case_match; intros [= <-]; [by apply rows_emit|by apply rows_keep].
Qed.

Lemma focusSubtreeLoop_rows (thread : Thread) (callNodePath : list Z)
    (implementation : ImplementationFilter) (st : FocusSubtreeState) :
  focusSubtreeLoop thread callNodePath implementation = Ok st →
  RowsInv (stackTable thread) None (tableLength (stackTable thread))
    (newStackTable (fs_rewrite st)).
Proof.
  apply (forStacks_invariant
           (λ n st, RowsInv (stackTable thread) None n
                      (newStackTable (fs_rewrite st))));
    [apply rows_initial|].
  intros n row s s1 Hrow Hinv. unfold focusSubtreeBody.
  intros (upTo & _ & [= <-])%bind_Ok. simpl.
  case_match; [by apply rows_emit|by apply rows_keep].
Qed.

Lemma collapseDirectRecursionLoop_rows (thread : Thread) (funcToCollapse : Z)
    (implementation : ImplementationFilter) (st : CollapseRecursionState) :
  collapseDirectRecursionLoop thread funcToCollapse implementation = Ok st →
  RowsInv (stackTable thread) None (tableLength (stackTable thread))
    (newStackTable (rec_rewrite st)).
Proof.
  apply (forStacks_invariant
           (λ n st, RowsInv (stackTable thread) None n
                      (newStackTable (rec_rewrite st))));
    [apply rows_initial|].
  intros n row s s1 Hrow Hinv. unfold collapseDirectRecursionBody.
  intros (collapse & _ & Hrest)%bind_Ok.
  destruct collapse; destruct (mapGet _ _) as [v|]; try done;
    injection Hrest as <-; simpl; [by apply rows_keep|by apply rows_emit].
Qed.

Lemma collapseFunctionSubtreeLoop_rows (thread : Thread)
    (funcToCollapse defaultCategory : Z) (st : CollapseSubtreeState) :
  collapseFunctionSubtreeLoop thread funcToCollapse defaultCategory = Ok st →
  RowsInv (stackTable thread) None (tableLength (stackTable thread))
    (newStackTable (cfs_rewrite st)).
Proof.
  apply (forStacks_invariant
           (λ n st, RowsInv (stackTable thread) None n
                      (newStackTable (cfs_rewrite st))));
    [apply rows_initial|].
  intros n row s s1 Hrow Hinv. unfold collapseFunctionSubtreeBody.
  case_match; destruct (mapGet _ _) as [v|]; try done; intros [= <-]; simpl.
  - destruct v as [newPrefix|];
      [by apply rows_resolveCategory|by apply rows_keep].
  - by apply rows_emit.
Qed.

(** The forward pass of [collapseResource]: its rows, and the frame and the
    func that it appends when it meets the first stack of the resource. *)
Lemma collapseResourceLoop_tables (thread : Thread)
    (resourceIndex : Z) (implementation : ImplementationFilter)
    (defaultCategory : Z) (st : CollapseResourceState) :
  collapseResourceLoop thread resourceIndex implementation defaultCategory
    = Ok st →
  CollapsedFrameInv thread resourceIndex (tableLength (stackTable thread)) st
  ∧ RowsInv (stackTable thread) (Some (frame_length (frameTable thread)))
      (tableLength (stackTable thread)) (newStackTable (cr_rewrite st)).
Proof.
  apply (forStacks_invariant (λ n st,
    CollapsedFrameInv thread resourceIndex n st
    ∧ RowsInv (stackTable thread) (Some (frame_length (frameTable thread)))
        n (newStackTable (cr_rewrite st)))).
  { split; [|apply rows_initial]. left. split_and!; try done. lia. }
  intros n row s s1 Hrow [Hinv Hrows]. unfold collapseResourceBody.
  pose proof (elemAt_Some _ _ _ Hrow) as Hn.
  destruct (mapGet _ _) as [newStackPrefix|]; [|done].
  destruct (sameValue _ (Some resourceIndex)) eqn:Hres.
  - apply bool_decide_eq_true in Hres.
    assert (inResource thread resourceIndex row) as Hin by exact Hres.
    assert (∃ stack row0,
      0 ≤ stack < n + 1 ∧ elemAt (stackTable thread) stack = Some row0
      ∧ inResource thread resourceIndex row0) as Hmet.
    { exists n, row. split_and!; [lia..|done|done]. }
    destruct Hinv as [(Hnone & Hempty & Hnomap & Hframes & Hfuncs & Hnot)
                     |(Hsome & Htables & _)].
    + rewrite Hempty, Hnomap, lookup_empty.
      assert (setHas ∅ newStackPrefix = false) as ->.
      { destruct newStackPrefix; [|done]. simpl.
        apply bool_decide_eq_false. set_solver. }
      simpl. intros [= <-]. unfold createCollapsedFrame. rewrite Hnone.
      simpl. rewrite Hframes, Hfuncs. split.
      * right. split_and!; [done| |done].
        unfold collapsedTables. simpl. split_and!; try done. by eexists.
      * by apply rows_extra.
    + destruct (negb _).
      * destruct (prefixStackToCollapsedStack s !! s_prefix row)
          as [[existing|]|]; [|done|].
        -- intros [= <-]. simpl. split; [by right|].
           by apply rows_resolveCategory.
        -- intros [= <-]. unfold createCollapsedFrame. rewrite Hsome. simpl.
           rewrite ?Hsome. split; [by right|]. by apply rows_extra.
      * intros [= <-]. simpl. split; [by right|]. by apply rows_keep.
  - apply bool_decide_eq_false in Hres.
    assert (CollapsedFrameInv thread resourceIndex (n + 1) s) as Hnext.
    { destruct Hinv as [(Hnone & Hempty & Hnomap & Hframes & Hfuncs & Hnot)
                       |(Hsome & Htables & stack & row0 & Hstack & Hrow0 & Hin)].
      - left. split_and!; try done. intros stack row0 Hstack Hrow0.
        destruct (decide (stack = n)) as [->|Hne].
        + assert (row0 = row) as -> by congruence. exact Hres.
        + apply (Hnot stack); [lia|done].
      - right. split_and!; try done. exists stack, row0.
        split_and!; [lia..|done|done]. }
    intros (matches & _ & Hrest)%bind_Ok.
    destruct (_ && _); injection Hrest as <-; simpl.
    + split; [done|]. by apply rows_keep.
    + split; [done|]. by apply rows_emit.
Qed.

(** X24.  On a thread with an ordered stack table, no transform adds a
    stack: the stack table returned has at most as many rows as the one
    given, and each of its rows has the frame of a stack given, or, after
    collapse-resource alone, the one frame appended.  No transform adds or
    removes a row of a sample-like table, none touches the string table or
    the names of the resources, and only collapse-resource touches the frame
    table and the func table. *)
Theorem applyTransform_frame (thread thread' : Thread) (transform : Transform)
    (defaultCategory : Z) :
  stackTableOrdered (stackTable thread) →
  applyTransform thread transform defaultCategory = Ok thread' →
  tableLength (stackTable thread') ≤ tableLength (stackTable thread)
  ∧ (∀ stack row,
       elemAt (stackTable thread') stack = Some row →
       (∃ old oldRow,
          elemAt (stackTable thread) old = Some oldRow
          ∧ s_frame row = s_frame oldRow)
       ∨ (transformType transform = collapse_resource
          ∧ s_frame row = frame_length (frameTable thread)))
  ∧ length (samples thread') = length (samples thread)
  ∧ length <$> jsAllocations thread' = length <$> jsAllocations thread
  ∧ length <$> nativeAllocations thread' = length <$> nativeAllocations thread
  ∧ stringTable thread' = stringTable thread
  ∧ resourceTable_name thread' = resourceTable_name thread
  ∧ (transformType transform ≠ collapse_resource →
     frameTable thread' = frameTable thread
     ∧ funcTable thread' = funcTable thread).
Proof.
  intros _.
  assert (∀ {S : Type} (convertStack : StackUpdater S) table (st : S) extra,
    RowsInv (stackTable thread) extra (tableLength (stackTable thread)) table →
    (extra ≠ None →
     transformType transform = collapse_resource
     ∧ extra = Some (frame_length (frameTable thread))) →
    updateThreadStacks thread table convertStack st = Ok thread' →
    tableLength (stackTable thread') ≤ tableLength (stackTable thread)
    ∧ (∀ stack row,
         elemAt (stackTable thread') stack = Some row →
         (∃ old oldRow,
            elemAt (stackTable thread) old = Some oldRow
            ∧ s_frame row = s_frame oldRow)
         ∨ (transformType transform = collapse_resource
            ∧ s_frame row = frame_length (frameTable thread)))
    ∧ length (samples thread') = length (samples thread)
    ∧ length <$> jsAllocations thread' = length <$> jsAllocations thread
    ∧ length <$> nativeAllocations thread' = length <$> nativeAllocations thread
    ∧ stringTable thread' = stringTable thread
    ∧ resourceTable_name thread' = resourceTable_name thread
    ∧ frameTable thread' = frameTable thread
    ∧ funcTable thread' = funcTable thread) as Hupdate.
  { intros S convertStack table st extra [Hlength Hrows] Hextra Hrun.
    pose proof Hrun as Hshape.
    apply updateThreadStacks_shape in Hshape as (? & ? & ? & ? & ? & ? & ?).
    apply (updateThreadStacks_related _ (λ _, True) (λ _ _, True)) in Hrun
      as (-> & _); [|done|done].
    split_and!; try done.
    intros stack row [Hold|Hnew]%Hrows; [by left|].
    right. destruct (Hextra ltac:(by rewrite <- Hnew)) as [? ->].
    split; [done|]. by injection Hnew. }
  assert (RowsInv (stackTable thread) None (tableLength (stackTable thread))
            (stackTable thread)) as Hsame.
  { split; [done|]. intros stack row Hrow. left. by exists stack, row. }
  destruct transform as [path impl inverted|f|path impl|f|f|r c impl|f impl|f];
    simpl.
  - destruct inverted.
    + unfold focusInvertedSubtree. intros Hrun.
      apply (Hupdate _ _ _ _ None) in Hrun; [|done..].
      destruct Hrun as (? & ? & ? & ? & ? & ? & ? & ? & ?). by split_and!.
    + unfold focusSubtree. intros (st & Hloop%focusSubtreeLoop_rows & Hrun)%bind_Ok.
      apply (Hupdate _ _ _ _ None) in Hrun; [|done..].
      destruct Hrun as (? & ? & ? & ? & ? & ? & ? & ? & ?). by split_and!.
  - unfold focusFunction. intros (st & Hloop%focusFunctionLoop_rows & Hrun)%bind_Ok.
    apply (Hupdate _ _ _ _ None) in Hrun; [|done..].
    destruct Hrun as (? & ? & ? & ? & ? & ? & ? & ? & ?). by split_and!.
  - unfold mergeCallNode. intros (st & Hloop%mergeCallNodeLoop_rows & Hrun)%bind_Ok.
    apply (Hupdate _ _ _ _ None) in Hrun; [|done..].
    destruct Hrun as (? & ? & ? & ? & ? & ? & ? & ? & ?). by split_and!.
  - unfold mergeFunction. intros (st & Hloop%mergeFunctionLoop_rows & Hrun)%bind_Ok.
    apply (Hupdate _ _ _ _ None) in Hrun; [|done..].
    destruct Hrun as (? & ? & ? & ? & ? & ? & ? & ? & ?). by split_and!.
  - unfold dropFunction. intros (st & _ & Hrun)%bind_Ok.
    apply (Hupdate _ _ _ _ None) in Hrun; [|done..].
    destruct Hrun as (? & ? & ? & ? & ? & ? & ? & ? & ?). by split_and!.
  - unfold collapseResource.
    intros (st & [_ Hrows]%collapseResourceLoop_tables & Hrun)%bind_Ok.
    pose proof Hrun as Hshape.
    apply updateThreadStacks_shape in Hshape as (? & ? & ? & _ & _ & ? & ?).
    apply (updateThreadStacks_related _ (λ _, True) (λ _ _, True)) in Hrun
      as (Htable & _); [|done|done].
    rewrite Htable. destruct Hrows as [Hlength Hrows].
    split_and!; try done.
    intros stack row [Hold|[= Hnew]]%Hrows; [by left|by right].
  - unfold collapseDirectRecursion.
    intros (st & Hloop%collapseDirectRecursionLoop_rows & Hrun)%bind_Ok.
    apply (Hupdate _ _ _ _ None) in Hrun; [|done..].
    destruct Hrun as (? & ? & ? & ? & ? & ? & ? & ? & ?). by split_and!.
  - unfold collapseFunctionSubtree.
    intros (st & Hloop%collapseFunctionSubtreeLoop_rows & Hrun)%bind_Ok.
    apply (Hupdate _ _ _ _ None) in Hrun; [|done..].
    destruct Hrun as (? & ? & ? & ? & ? & ? & ? & ? & ?). by split_and!.
Qed.

(** X25.  [collapseResource] leaves the frame table and the func table as they
    are when no stack of the thread has a func of the resource, and when
    some stack has one it appends one frame and one func, whatever the
    number of stacks collapsed: the entries there were stay where they are,
    the new frame refers to the new func, and the new func has the resource
    and its name.  The new func gets no entry in the column
    [relevantForJS]. *)
Theorem collapseResource_tables (thread thread' : Thread)
    (resourceIndex : Z) (implementation : ImplementationFilter)
    (defaultCategory : Z) :
  collapseResource thread resourceIndex implementation defaultCategory
    = Ok thread' →
  ((∀ stack row,
      elemAt (stackTable thread) stack = Some row →
      ¬ inResource thread resourceIndex row) →
   frameTable thread' = frameTable thread ∧ funcTable thread' = funcTable thread)
  ∧ (∀ stack row,
       elemAt (stackTable thread) stack = Some row →
       inResource thread resourceIndex row →
       collapsedTables thread resourceIndex (frameTable thread')
         (funcTable thread')).
Proof.
  unfold collapseResource.
  intros (st & [Hinv _]%collapseResourceLoop_tables & Hrun)%bind_Ok.
  apply updateThreadStacks_shape in Hrun as (_ & _ & _ & -> & -> & _).
  simpl. split.
  - intros Hnone.
    destruct Hinv as [(_ & _ & _ & -> & -> & _)
                     |(_ & _ & stack & row & _ & Hrow & Hin)]; [done|].
    by destruct (Hnone stack row).
  - intros stack row Hrow Hin.
    destruct Hinv as [(_ & _ & _ & _ & _ & Hnot)|(_ & Htables & _)]; [|done].
    destruct (Hnot stack row); [by eapply elemAt_Some|done|done].
Qed.

(** ** Transforms that have nothing to do *)

(** *** collapse-direct-recursion without recursion *)

Lemma collapseDirectRecursion_identity (thread : Thread) (funcToCollapse : Z) :
  stackTableOrdered (stackTable thread) → samplesValid thread →
  (∀ stack path,
     ¬ callPath (stackTable thread) (frameTable thread) (Some stack)
         (path ++ [Some funcToCollapse; Some funcToCollapse])) →
  collapseDirectRecursion thread funcToCollapse combined = Ok thread.
Proof.
  intros Hord Hvalid Hnone.
  destruct (forStacks_total
              (λ n st,
                 identityRewrite (stackTable thread) n (rec_rewrite st)
                 ∧ ∀ stack row,
                     stack ∈ recursiveStacks st →
                     elemAt (stackTable thread) stack = Some row →
                     funcOfRow thread row = Some funcToCollapse)
              (collapseDirectRecursionBody thread funcToCollapse combined)
              (stackTable thread)
              {| rec_rewrite := emptyRewrite; recursiveStacks := ∅ |})
    as (st & Hloop & Hid & _).
  - split; [apply identity_initial|]. set_solver.
  - intros n row st Hrow [Hid Hrec]. unfold collapseDirectRecursionBody.
    rewrite (identity_prefix _ _ _ _ Hord Hrow Hid). simpl.
    assert (setHas (recursiveStacks st) (s_prefix row)
            && sameValue (Some funcToCollapse) (funcOfRow thread row) = false)
      as Htest.
    { apply not_true_is_false. intros [Hhas Hsame]%andb_true_iff.
      destruct (s_prefix row) as [prefix|] eqn:Hp; [|done]. simpl in Hhas.
      apply bool_decide_eq_true in Hhas, Hsame.
      pose proof (Hord _ _ _ Hrow Hp) as Hlt.
      pose proof (elemAt_Some _ _ _ Hrow) as Hn.
      destruct (elemAt_is_Some (stackTable thread) prefix ltac:(lia))
        as [prefixRow Hprefix].
      destruct (callPath_exists _ (frameTable thread) _ Hord
                  (mk_is_Some _ _ Hprefix)) as [path Hpath].
      destruct (callPath_inv _ _ _ _ _ Hpath Hprefix)
        as (parentPath & -> & _).
      apply (Hnone n parentPath).
      eapply callPath_snoc; [exact Hrow| |rewrite Hp; exact Hpath].
      rewrite <- app_assoc. simpl. f_equal. f_equal.
      + symmetry. by apply (Hrec prefix).
      + f_equal. by symmetry. }
    destruct (setHas (recursiveStacks st) (s_prefix row));
      cbn [andb] in Htest.
    + rewrite Htest. simpl. eexists. split; [done|]. simpl.
      split; [by apply identity_emit|]. done.
    + simpl. eexists. split; [done|]. simpl. split; [by apply identity_emit|].
      intros stack stackRow Hin Hstack.
      destruct (sameValue (Some funcToCollapse) (funcOfRow thread row))
        eqn:Hsame; [|by eapply Hrec].
      apply elem_of_union in Hin as [->%elem_of_singleton|Hin];
        [|by eapply Hrec].
      assert (stackRow = row) as -> by congruence.
      symmetry. by apply bool_decide_eq_true in Hsame.
  - unfold collapseDirectRecursion, collapseDirectRecursionLoop.
    rewrite Hloop. simpl. by apply identity_thread.
Qed.

(** X26.  When [funcHasRecursiveCall] finds no recursion of the function (filter
    [combined]), [collapseDirectRecursion] returns the thread it is given,
    unchanged. *)
Theorem collapseDirectRecursion_without_recursion (thread : Thread)
    (funcToCollapse : Z) :
  stackTableOrdered (stackTable thread) →
  samplesValid thread →
  funcHasRecursiveCall thread combined funcToCollapse = Ok false →
  collapseDirectRecursion thread funcToCollapse combined = Ok thread.
Proof.
  intros Hord Hvalid Hnone.
  apply collapseDirectRecursion_identity; [done..|].
  intros stack path Hpath.
  pose proof (funcHasRecursiveCall_runs thread combined funcToCollapse Hord
                false Hnone) as Hruns.
  assert (false = true); [|done]. apply Hruns.
  exists stack, (path ++ [Some funcToCollapse]).
  split; [by rewrite <- app_assoc|]. apply runOpen_combined. by eexists.
Qed.

(** *** An empty call node path *)

Lemma mergeCallNode_nil (thread : Thread) (implementation : ImplementationFilter) :
  stackTableOrdered (stackTable thread) → samplesValid thread →
  mergeCallNode thread [] implementation = Ok thread.
Proof.
  intros Hord Hvalid.
  destruct (forStacks_total
              (λ n st,
                 identityRewrite (stackTable thread) n (mcn_rewrite st)
                 ∧ Forall (λ depth, ∀ d, depth = Some d → -1 ≤ d)
                     (stackDepths st))
              (mergeCallNodeBody thread [] implementation)
              (stackTable thread)
              {| mcn_rewrite := emptyRewrite; stackDepths := [];
                 stackMatches := [] |})
    as (st & Hloop & Hid & _).
  - split; [apply identity_initial|]. by apply Forall_nil.
  - intros n row st Hrow [Hid Hdepths]. unfold mergeCallNodeBody.
    rewrite (identity_prefix _ _ _ _ Hord Hrow Hid).
    set (prefixDepth := match s_prefix row with
                        | None => Some (-1)
                        | Some p => mjoin (elemAt (stackDepths st) p)
                        end).
    assert (∀ d, prefixDepth = Some d → -1 ≤ d) as Hdepth.
    { intros d. unfold prefixDepth. destruct (s_prefix row) as [p|].
      - unfold elemAt. case_decide; [|done].
        destruct (stackDepths st !! Z.to_nat p) as [depth|] eqn:Hp; [|done].
        simpl. intros ->.
        by apply (proj1 (Forall_lookup _ _) Hdepths _ _ Hp).
      - intros [= <-]. lia. }
    destruct prefixDepth as [depth|].
    + specialize (Hdepth depth eq_refl).
      change (tableLength (@nil Z) - 1) with (-1).
      rewrite (bool_decide_false (depth < -1)) by lia.
      rewrite andb_false_r. simpl. eexists. split; [done|]. simpl.
      split; [by apply identity_emit|].
      apply Forall_app. split; [done|]. apply Forall_singleton.
      intros d [= <-]. done.
    + simpl. eexists. split; [done|]. simpl.
      split; [by apply identity_emit|].
      apply Forall_app. split; [done|]. by apply Forall_singleton.
  - unfold mergeCallNode, mergeCallNodeLoop. rewrite Hloop. simpl.
    by apply identity_thread.
Qed.

Lemma focusSubtree_nil (thread : Thread) (implementation : ImplementationFilter) :
  stackTableOrdered (stackTable thread) → samplesValid thread →
  focusSubtree thread [] implementation = Ok thread.
Proof.
  intros Hord Hvalid.
  destruct (forStacks_total
              (λ n st,
                 identityRewrite (stackTable thread) n (fs_rewrite st)
                 ∧ fs_stackMatches st = replicate (Z.to_nat n) 0)
              (focusSubtreeBody thread [] implementation)
              (stackTable thread)
              {| fs_rewrite := emptyRewrite; fs_stackMatches := [] |})
    as (st & Hloop & Hid & Hmatches).
  - split; [apply identity_initial|done].
  - intros n row st Hrow [Hid Hmatches]. unfold focusSubtreeBody.
    pose proof (elemAt_Some _ _ _ Hrow) as Hn.
    rewrite (identity_prefix _ _ _ _ Hord Hrow Hid).
    assert (match s_prefix row with
            | Some p =>
                readStackMatches (tableLength (stackTable thread))
                  (fs_stackMatches st) p
            | None => Some 0
            end = Some 0) as ->.
    { destruct (s_prefix row) as [p|] eqn:Hp; [|done].
      pose proof (Hord _ _ _ Hrow Hp) as Hlt.
      unfold readStackMatches, tableLength. rewrite bool_decide_true by lia.
      rewrite Hmatches. unfold elemAt. rewrite decide_True by lia.
      by rewrite lookup_replicate_2 by lia. }
    simpl. eexists. split; [done|]. simpl.
    split; [by apply identity_emit|].
    rewrite Hmatches. replace (Z.to_nat (n + 1)) with (S (Z.to_nat n)) by lia.
    by rewrite replicate_S_end.
  - unfold focusSubtree, focusSubtreeLoop. rewrite Hloop. simpl.
    apply identity_updater; [done|by apply identity_table|].
    intros [s|] Hstack; [|done]. destruct Hid as [_ Hmap].
    unfold focusSubtreeUpdater. simpl in Hstack. rewrite Hmatches.
    unfold elemAt. rewrite decide_True by lia.
    rewrite lookup_replicate_2 by (unfold tableLength in *; lia).
    simpl. rewrite Hmap. by rewrite bool_decide_true.
Qed.

(** X27.  With the empty call node path, [mergeCallNode] and the not inverted
    [focusSubtree] both return the thread they are given, unchanged, under
    every implementation filter. *)
Theorem empty_callNodePath_identity (thread : Thread)
    (implementation : ImplementationFilter) :
  stackTableOrdered (stackTable thread) →
  samplesValid thread →
  mergeCallNode thread [] implementation = Ok thread
  ∧ focusSubtree thread [] implementation = Ok thread.
Proof.
  intros Hord Hvalid.
  split; [by apply mergeCallNode_nil|by apply focusSubtree_nil].
Qed.

(** *** collapse-function-subtree, a second time *)

Lemma collapseFunctionSubtree_identity (thread : Thread)
    (funcToCollapse defaultCategory : Z) :
  stackTableOrdered (stackTable thread) → samplesValid thread →
  funcIsLeaf (stackTable thread) (frameTable thread) funcToCollapse →
  collapseFunctionSubtree thread funcToCollapse defaultCategory = Ok thread.
Proof.
  intros Hord Hvalid Hleaf.
  destruct (forStacks_total
              (λ n st,
                 identityRewrite (stackTable thread) n (cfs_rewrite st)
                 ∧ ∀ stack row,
                     stack ∈ cfs_collapsedStacks st →
                     elemAt (stackTable thread) stack = Some row →
                     funcOfRow thread row = Some funcToCollapse)
              (collapseFunctionSubtreeBody thread funcToCollapse defaultCategory)
              (stackTable thread)
              {| cfs_rewrite := emptyRewrite; cfs_collapsedStacks := ∅ |})
    as (st & Hloop & Hid & _).
  - split; [apply identity_initial|]. set_solver.
  - intros n row st Hrow [Hid Hcollapsed].
    unfold collapseFunctionSubtreeBody.
    rewrite (identity_prefix _ _ _ _ Hord Hrow Hid).
    assert (setHas (cfs_collapsedStacks st) (s_prefix row) = false) as ->.
    { destruct (s_prefix row) as [prefix|] eqn:Hp; [|done]. simpl.
      apply bool_decide_eq_false. intros Hin.
      pose proof (Hord _ _ _ Hrow Hp) as Hlt.
      pose proof (elemAt_Some _ _ _ Hrow) as Hn.
      destruct (elemAt_is_Some (stackTable thread) prefix ltac:(lia))
        as [prefixRow Hprefix].
      apply (Hleaf _ _ _ _ Hrow Hp Hprefix).
      by apply (Hcollapsed prefix). }
    eexists. split; [done|]. simpl. split; [by apply identity_emit|].
    intros stack stackRow Hin Hstack.
    destruct (sameValue (Some funcToCollapse) (funcOfRow thread row))
      eqn:Hsame; [|by eapply Hcollapsed].
    apply elem_of_union in Hin as [->%elem_of_singleton|Hin];
      [|by eapply Hcollapsed].
    assert (stackRow = row) as -> by congruence.
    symmetry. by apply bool_decide_eq_true in Hsame.
  - unfold collapseFunctionSubtree, collapseFunctionSubtreeLoop.
    rewrite Hloop. simpl. by apply identity_thread.
Qed.

Lemma collapseFunctionSubtreeLoop_leaf (thread : Thread)
    (funcToCollapse defaultCategory : Z) (st : CollapseSubtreeState) :
  collapseFunctionSubtreeLoop thread funcToCollapse defaultCategory = Ok st →
  LeafInv thread funcToCollapse st.
Proof.
  revert st. intros final.
  apply (forStacks_invariant (λ _ st, LeafInv thread funcToCollapse st)).
  { split; [apply RewriteInv_empty| |].
    - intros stack row prefix prefixRow Hrow. unfold elemAt in Hrow.
      by case_decide.
    - intros stack newStack newRow _ Hmap. simpl in Hmap.
      by rewrite lookup_empty in Hmap. }
  intros n row st st1 Hrow [Hinv Hleaf Hkept].
  unfold collapseFunctionSubtreeBody.
  destruct (setHas (cfs_collapsedStacks st) (s_prefix row)) eqn:Hhas;
    destruct (mapGet _ _) as [v|] eqn:Hget; try done; intros [= <-].
  - pose proof (mapGet_valid _ _ _ Hinv Hget) as Hv.
    assert (∀ i newRow,
      elemAt match v with
             | Some newPrefix =>
                 resolveCategory (newStackTable (cfs_rewrite st)) newPrefix
                   (s_category row) (s_subcategory row) defaultCategory
             | None => newStackTable (cfs_rewrite st)
             end i = Some newRow →
      ∃ row0, elemAt (newStackTable (cfs_rewrite st)) i = Some row0
              ∧ s_prefix newRow = s_prefix row0
              ∧ s_frame newRow = s_frame row0) as Hrows.
    { intros i newRow. destruct v as [newPrefix|];
        [apply resolveCategory_elemAt|by eauto]. }
    split; simpl.
    + destruct v as [newPrefix|].
      * apply RewriteInv_table_redirect.
        -- by apply RewriteInv_resolveCategory.
        -- simpl. by rewrite resolveCategory_length.
      * apply (RewriteInv_redirect (cfs_rewrite st)); done.
    + intros stack newRow prefix prefixRow
        (row0 & Hrow0 & Hp0 & _)%Hrows Hp (prefixRow0 & Hprefix0 & _ & ->)%Hrows.
      apply (Hleaf stack row0 prefix prefixRow0); [done|congruence|done].
    + intros stack newStack newRow Hnot Hmap (row0 & Hrow0 & _ & ->)%Hrows.
      assert (stack ≠ n) as Hne by set_solver.
      rewrite lookup_insert_ne in Hmap by done.
      eapply Hkept; [|exact Hmap|exact Hrow0]. set_solver.
  - pose proof (mapGet_valid _ _ _ Hinv Hget) as Hv.
    pose proof Hinv as [Hnew Hvalues].
    split; simpl.
    + by apply RewriteInv_emit.
    + intros stack newRow prefix prefixRow Hnewrow Hp Hprefix.
      apply elemAt_snoc in Hprefix as [[-> ->]|Hprefix].
      { exfalso. apply elemAt_snoc in Hnewrow as [[_ ->]|Hold].
        - simpl in Hp. subst v. simpl in Hv. unfold tableLength in Hv. lia.
        - pose proof (Hnew _ _ _ Hold Hp) as Hlt.
          apply elemAt_Some in Hold. lia. }
      apply elemAt_snoc in Hnewrow as [[_ ->]|Hold];
        [|by apply (Hleaf stack newRow prefix prefixRow)].
      simpl in Hp. subst v.
      destruct (s_prefix row) as [oldPrefix|] eqn:Hold; [|done].
      simpl in Hhas, Hget. apply bool_decide_eq_false in Hhas.
      by eapply Hkept.
    + intros stack newStack newRow Hnot Hmap Hnewrow.
      destruct (decide (stack = n)) as [->|Hne].
      * rewrite lookup_insert_eq in Hmap. injection Hmap as <-.
        apply elemAt_snoc in Hnewrow as [[_ ->]|Hold];
          [|apply elemAt_Some in Hold; unfold tableLength in Hold; lia].
        simpl. intros Hfunc. apply Hnot.
        unfold sameValue, funcOfRow. rewrite bool_decide_true by done.
        set_solver.
      * rewrite lookup_insert_ne in Hmap by done.
        pose proof (Hvalues _ _ Hmap) as Hlt.
        apply elemAt_snoc in Hnewrow as [[-> _]|Hold];
          [unfold tableLength in Hlt; lia|].
        eapply Hkept; [|exact Hmap|exact Hold].
        destruct (sameValue _ _); set_solver.
Qed.

(** X28.  Collapsing the subtrees of a function twice gives the thread that
    collapsing them once gives: on a thread with an ordered stack table and
    valid samples [collapseFunctionSubtree] returns a thread in which no
    stack has a parent of the function, and on that thread it returns the
    thread itself, whatever the default category. *)
Theorem collapseFunctionSubtree_idempotent (thread : Thread)
    (funcToCollapse defaultCategory : Z) :
  stackTableOrdered (stackTable thread) →
  samplesValid thread →
  ∃ collapsed,
    collapseFunctionSubtree thread funcToCollapse defaultCategory = Ok collapsed
    ∧ funcIsLeaf (stackTable collapsed) (frameTable collapsed) funcToCollapse
    ∧ ∀ category,
        collapseFunctionSubtree collapsed funcToCollapse category = Ok collapsed.
Proof.
  intros Hord Hvalid.
  destruct (collapseFunctionSubtree_paths_total thread funcToCollapse
              defaultCategory Hord Hvalid) as [collapsed Hrun].
  exists collapsed. split; [done|].
  destruct (collapseFunctionSubtree_wf _ _ _ _ Hrun) as [Hord' Hvalid'].
  assert (funcIsLeaf (stackTable collapsed) (frameTable collapsed)
            funcToCollapse) as Hleaf.
  { revert Hrun. unfold collapseFunctionSubtree.
    intros (st & Hloop & Hupdate)%bind_Ok.
    apply (updateThreadStacks_related _ (λ _, True) (λ _ _, True)) in Hupdate
      as (Htable & Hframes & _); [|done|done].
    rewrite Htable, Hframes.
    by destruct (collapseFunctionSubtreeLoop_leaf _ _ _ _ Hloop). }
  split; [done|]. intros category.
  by apply collapseFunctionSubtree_identity.
Qed.

(** ** The further properties at work on concrete inputs *)

Section MoreWitnesses.
Import Examples.

Lemma repeatedTip_wf :
  stackTableOrdered (stackTable repeatedTip) ∧ samplesValid repeatedTip.
Proof.
  split; [by apply stackTableOrderedb_correct|].
  apply (bool_decide_eq_true_1 (samplesValid repeatedTip)). by vm_compute.
Defined.

Lemma recursion_wf :
  stackTableOrdered (stackTable recursion) ∧ samplesValid recursion.
Proof.
  split; [by apply stackTableOrderedb_correct|].
  apply (bool_decide_eq_true_1 (samplesValid recursion)). by vm_compute.
Defined.

Lemma removePrefixPathFromCallNodePath_spec_witness :
  _removePrefixPathFromCallNodePath [0; 1] [0; 1; 2; 3] = [1; 2; 3]
  ∧ _removePrefixPathFromCallNodePath [] [0; 1; 2; 3] = [3].
Proof.
  destruct (removePrefixPathFromCallNodePath_spec [0; 1] [0; 1; 2; 3])
    as (_ & Hthrough & _).
  destruct (removePrefixPathFromCallNodePath_spec [] [0; 1; 2; 3])
    as (_ & _ & Hempty).
  split; [exact (Hthrough [0] 1 [2; 3] eq_refl eq_refl)|exact (Hempty eq_refl)].
Defined.

Lemma mergeNodeInCallNodePath_spec_witness :
  _mergeNodeInCallNodePath [0; 1] [0; 1; 2; 3] = [0; 2; 3].
Proof.
  destruct (mergeNodeInCallNodePath_spec [0; 1] [0; 1; 2; 3])
    as (_ & Hthrough & _).
  exact (Hthrough [0] 1 [2; 3] eq_refl eq_refl).
Defined.

Lemma startCallNodePathWithFunction_spec_witness :
  _startCallNodePathWithFunction 1 [0; 1; 2; 1] = [1; 2; 1].
Proof.
  apply (proj2 (startCallNodePathWithFunction_spec 1 [0; 1; 2; 1]) [0] [2; 1]);
    [done|].
  apply not_elem_of_cons. split; [done|apply not_elem_of_nil].
Defined.

Lemma collapseFunctionSubtreeInCallNodePath_spec_witness :
  _collapseFunctionSubtreeInCallNodePath 1 [0; 1; 2; 1] = [0; 1].
Proof.
  apply (proj2 (collapseFunctionSubtreeInCallNodePath_spec 1 [0; 1; 2; 1])
           [0] [2; 1]); [done|].
  apply not_elem_of_cons. split; [done|apply not_elem_of_nil].
Defined.

Lemma applyTransformToCallNodePath_sublist_witness :
  applyTransformToCallNodePath [0; 1; 2; 1] (MergeFunction 1) repeatedTip
    `sublist_of` [0; 1; 2; 1].
Proof.
  by apply (proj2 (applyTransformToCallNodePath_sublist [0; 1; 2; 1]
                     (MergeFunction 1) repeatedTip)).
Defined.

Lemma mergeFunction_call_paths_witness :
  stackTableOrdered (stackTable repeatedTip)
  ∧ samplesValid repeatedTip
  ∧ ∃ thread',
      mergeFunction repeatedTip 1 = Ok thread'
      ∧ samples thread' = [Some 0; Some 0; Some 0; Some 1; None]
      ∧ Forall2 (Forall2 (pathRewritten repeatedTip thread'
                            (_mergeFunctionInCallNodePath 1)))
          (sampleLikeTables repeatedTip) (sampleLikeTables thread').
Proof.
  destruct repeatedTip_wf as [Hord Hvalid]. split_and!; [done..|].
  destruct (mergeFunction_call_paths repeatedTip 1 Hord Hvalid)
    as (thread' & Hrun & _ & _ & Hrel).
  exists thread'. split_and!; [done| |done].
  vm_compute in Hrun. by injection Hrun as <-.
Defined.

Lemma focusFunction_call_paths_witness :
  stackTableOrdered (stackTable repeatedTip)
  ∧ samplesValid repeatedTip
  ∧ ∃ thread',
      focusFunction repeatedTip 1 = Ok thread'
      ∧ samples thread' = [None; Some 0; Some 1; None; None]
      ∧ Forall2 (Forall2 (pathRewritten repeatedTip thread'
                            (_startCallNodePathWithFunction 1)))
          (sampleLikeTables repeatedTip) (sampleLikeTables thread').
Proof.
  destruct repeatedTip_wf as [Hord Hvalid]. split_and!; [done..|].
  destruct (focusFunction_call_paths repeatedTip 1 Hord Hvalid)
    as (thread' & Hrun & _ & _ & Hrel & _).
  exists thread'. split_and!; [done| |done].
  vm_compute in Hrun. by injection Hrun as <-.
Defined.

Lemma collapseFunctionSubtree_call_paths_witness :
  stackTableOrdered (stackTable repeatedTip)
  ∧ samplesValid repeatedTip
  ∧ ∃ thread',
      collapseFunctionSubtree repeatedTip 1 0 = Ok thread'
      ∧ samples thread' = [Some 0; Some 1; Some 1; Some 2; None]
      ∧ Forall2 (Forall2 (pathRewritten repeatedTip thread'
                            (_collapseFunctionSubtreeInCallNodePath 1)))
          (sampleLikeTables repeatedTip) (sampleLikeTables thread').
Proof.
  destruct repeatedTip_wf as [Hord Hvalid]. split_and!; [done..|].
  destruct (collapseFunctionSubtree_call_paths repeatedTip 1 0 Hord Hvalid)
    as (thread' & Hrun & _ & _ & Hrel).
  exists thread'. split_and!; [done| |done].
  vm_compute in Hrun. by injection Hrun as <-.
Defined.

Lemma dropFunction_call_paths_witness :
  stackTableOrdered (stackTable repeatedTip)
  ∧ ∃ dropped,
      dropFunction repeatedTip 2 = Ok dropped
      ∧ samples dropped = [Some 0; Some 1; Some 2; None; None]
      ∧ Forall2 (Forall2 (pathRewritten repeatedTip dropped
                            (_dropFunctionInCallNodePath 2)))
          (sampleLikeTables repeatedTip) (sampleLikeTables dropped).
Proof.
  destruct repeatedTip_wf as [Hord _]. split; [done|].
  destruct (dropFunction_call_paths repeatedTip 2 Hord)
    as (dropped & Hrun & Hrel).
  exists dropped. split_and!; [done| |done].
  vm_compute in Hrun. by injection Hrun as <-.
Defined.

Lemma funcHasRecursiveCall_spec_witness :
  stackTableOrdered (stackTable recursion)
  ∧ funcHasRecursiveCall recursion js 0 = Ok true
  ∧ ∃ stack path,
      callPath (stackTable recursion) (frameTable recursion) (Some stack)
        (path ++ [Some 0])
      ∧ runOpen (matchesImplementation js recursion) 0 false path = true.
Proof.
  destruct recursion_wf as [Hord _]. split_and!; [done|by vm_compute|].
  by apply (proj2 (funcHasRecursiveCall_spec recursion js 0 Hord) true eq_refl).
Defined.

Lemma funcHasRecursiveCall_combined_witness :
  stackTableOrdered (stackTable repeatedTip)
  ∧ funcHasRecursiveCall repeatedTip combined 0 = Ok false
  ∧ ¬ ∃ stack path,
        callPath (stackTable repeatedTip) (frameTable repeatedTip) (Some stack)
          (path ++ [Some 0; Some 0]).
Proof.
  destruct repeatedTip_wf as [Hord _]. split_and!; [done|by vm_compute|].
  destruct (funcHasRecursiveCall_combined repeatedTip 0 Hord)
    as (result & Hrun & Hresult).
  intros Hcall. apply Hresult in Hcall. subst result. by vm_compute in Hrun.
Defined.

Lemma focusInvertedSubtree_call_paths_witness :
  stackTableOrdered (stackTable repeatedTip)
  ∧ samplesValid repeatedTip
  ∧ ∃ thread',
      focusInvertedSubtree repeatedTip [1; 1] combined = Ok thread'
      ∧ samples thread' = [None; None; Some 1; None; None]
      ∧ Forall2 (Forall2 (pathRewritten repeatedTip thread' (invertedFocus [1; 1])))
          (sampleLikeTables repeatedTip) (sampleLikeTables thread').
Proof.
  destruct repeatedTip_wf as [Hord Hvalid]. split_and!; [done..|].
  destruct (focusInvertedSubtree_call_paths repeatedTip [1; 1] Hord Hvalid)
    as (thread' & Hrun & _ & _ & _ & Hrel); [done|].
  exists thread'. split_and!; [done| |done].
  vm_compute in Hrun. by injection Hrun as <-.
Defined.

Lemma focusSubtree_call_paths_witness :
  stackTableOrdered (stackTable repeatedTip)
  ∧ samplesValid repeatedTip
  ∧ ∃ thread',
      focusSubtree repeatedTip [0; 1] combined = Ok thread'
      ∧ samples thread' = [None; Some 0; Some 1; None; None]
      ∧ Forall2 (Forall2 (pathRewritten repeatedTip thread'
                            (_removePrefixPathFromCallNodePath [0; 1])))
          (sampleLikeTables repeatedTip) (sampleLikeTables thread').
Proof.
  destruct repeatedTip_wf as [Hord Hvalid]. split_and!; [done..|].
  destruct (focusSubtree_call_paths repeatedTip [0; 1] Hord Hvalid)
    as (thread' & Hrun & _ & _ & Hrel); [done|].
  exists thread'. split_and!; [done| |done].
  vm_compute in Hrun. by injection Hrun as <-.
Defined.

Lemma getStackType_spec_witness :
  getStackType repeatedTip 3 = Ok js_stack.
Proof. by apply (proj1 (getStackType_spec repeatedTip 3)). Defined.

Lemma filterCallNodePathByImplementation_spec_witness :
  filterCallNodePathByImplementation repeatedTip js [0; 3; 1; 3] = Ok [3; 3]
  ∧ filterCallNodePathByImplementation repeatedTip js [3; 3] = Ok [3; 3].
Proof.
  split; [by vm_compute|].
  by apply (proj1 (proj2 (filterCallNodePathByImplementation_spec repeatedTip js
                            [0; 3; 1; 3])) [3; 3]).
Defined.

Lemma applyTransform_returns_witness :
  stackTableOrdered (stackTable repeatedTip)
  ∧ samplesValid repeatedTip
  ∧ filterReturns repeatedTip js
  ∧ ∃ thread',
      applyTransform repeatedTip (CollapseResource 0 4 js) 0 = Ok thread'.
Proof.
  destruct repeatedTip_wf as [Hord Hvalid].
  assert (filterReturns repeatedTip js) as Hfilter
    by by apply filterReturns_not_cpp.
  split_and!; [done..|].
  apply (applyTransform_returns repeatedTip (CollapseResource 0 4 js) 0
           Hord Hvalid Hfilter).
Defined.

Lemma restoreAllFunctionsInCallNodePath_spec_witness :
  stackTableOrdered (stackTable recursion)
  ∧ restoreAllFunctionsInCallNodePath recursion combined [0; 0; 0; 1]
    = Ok [Some 0; Some 0; Some 0; Some 1]
  ∧ filterCallNodePathByImplementation recursion combined [0; 0; 0; 1]
    = Ok [0; 0; 0; 1].
Proof.
  destruct recursion_wf as [Hord _]. split_and!; [done|by vm_compute|].
  destruct (proj2 (restoreAllFunctionsInCallNodePath_spec recursion combined
                     [0; 0; 0; 1] Hord ltac:(by repeat constructor))
              [Some 0; Some 0; Some 0; Some 1] eq_refl)
    as [?|(tip & _ & Hfilter)]; [done|].
  by apply Hfilter.
Defined.

Lemma mergeFunction_idempotent_witness :
  stackTableOrdered (stackTable repeatedTip)
  ∧ samplesValid repeatedTip
  ∧ ∃ merged,
      mergeFunction repeatedTip 1 = Ok merged
      ∧ stackTable merged = [mkStackRow None 0 0 0; mkStackRow (Some 0) 2 0 0]
      ∧ mergeFunction merged 1 = Ok merged.
Proof.
  destruct repeatedTip_wf as [Hord Hvalid]. split_and!; [done..|].
  destruct (mergeFunction_idempotent repeatedTip 1 Hord Hvalid)
    as (merged & Hrun & _ & Hagain).
  exists merged. split_and!; [done| |done].
  vm_compute in Hrun. by injection Hrun as <-.
Defined.

Lemma focusFunction_idempotent_witness :
  stackTableOrdered (stackTable repeatedTip)
  ∧ samplesValid repeatedTip
  ∧ ∃ focused,
      focusFunction repeatedTip 1 = Ok focused
      ∧ stackTable focused = [mkStackRow None 1 0 0; mkStackRow (Some 0) 1 0 0]
      ∧ focusFunction focused 1 = Ok focused.
Proof.
  destruct repeatedTip_wf as [Hord Hvalid]. split_and!; [done..|].
  destruct (focusFunction_idempotent repeatedTip 1 Hord Hvalid)
    as (focused & Hrun & _ & Hagain).
  exists focused. split_and!; [done| |done].
  vm_compute in Hrun. by injection Hrun as <-.
Defined.

Lemma filterCallNodeAndCategoryPathByImplementation_spec_witness :
  filterCallNodeAndCategoryPathByImplementation repeatedTip js
    [mkCallNodeAndCategory 0 5; mkCallNodeAndCategory 3 6]
  = Ok [mkCallNodeAndCategory 3 6]
  ∧ filterCallNodePathByImplementation repeatedTip js [0; 3] = Ok [3].
Proof.
  split; [by vm_compute|].
  by apply (proj2 (filterCallNodeAndCategoryPathByImplementation_spec
                     repeatedTip js
                     [mkCallNodeAndCategory 0 5; mkCallNodeAndCategory 3 6])
              [mkCallNodeAndCategory 3 6]).
Defined.

Lemma applyTransform_frame_witness :
  stackTableOrdered (stackTable siblingsUnderHost)
  ∧ ∃ thread',
      applyTransform siblingsUnderHost (CollapseResource 0 4 combined) 9
      = Ok thread'
      ∧ s_frame <$> stackTable thread' = [3; 4]
      ∧ tableLength (stackTable thread')
        ≤ tableLength (stackTable siblingsUnderHost)
      ∧ length (samples thread') = 2%nat.
Proof.
  assert (stackTableOrdered (stackTable siblingsUnderHost)) as Hord
    by by apply stackTableOrderedb_correct.
  split; [exact Hord|].
  eexists. split; [by vm_compute|]. split; [done|].
  destruct (applyTransform_frame siblingsUnderHost _ (CollapseResource 0 4 combined)
              9 Hord eq_refl) as (Hlength & _ & Hsamples & _).
  split; [exact Hlength|exact Hsamples].
Defined.

Lemma collapseResource_tables_witness :
  ∃ thread',
    collapseResource siblingsUnderHost 0 combined 9 = Ok thread'
    ∧ inResource siblingsUnderHost 0 (mkStackRow (Some 0) 1 2 0)
    ∧ collapsedTables siblingsUnderHost 0 (frameTable thread') (funcTable thread')
    ∧ func_relevantForJS (funcTable thread') = [false; false; false; false]
    ∧ func_length (funcTable thread') = 5.
Proof.
  eexists. split; [by vm_compute|]. split; [done|].
  destruct (collapseResource_tables siblingsUnderHost _ 0 combined 9 eq_refl)
    as [_ Htables].
  split; [|by split].
  by apply (Htables 1 (mkStackRow (Some 0) 1 2 0)).
Defined.

Lemma collapseDirectRecursion_without_recursion_witness :
  stackTableOrdered (stackTable recursion)
  ∧ samplesValid recursion
  ∧ funcHasRecursiveCall recursion combined 1 = Ok false
  ∧ funcHasRecursiveCall recursion combined 0 = Ok true
  ∧ collapseDirectRecursion recursion 1 combined = Ok recursion.
Proof.
  destruct recursion_wf as [Hord Hvalid].
  split_and!; [done|done|by vm_compute|by vm_compute|].
  apply (collapseDirectRecursion_without_recursion recursion 1 Hord Hvalid).
  by vm_compute.
Defined.

Lemma empty_callNodePath_identity_witness :
  stackTableOrdered (stackTable repeatedTip)
  ∧ samplesValid repeatedTip
  ∧ mergeCallNode repeatedTip [] cpp = Ok repeatedTip
  ∧ focusSubtree repeatedTip [] cpp = Ok repeatedTip.
Proof.
  destruct repeatedTip_wf as [Hord Hvalid]. split_and!; [done..| |];
    by apply (empty_callNodePath_identity repeatedTip cpp Hord Hvalid).
Defined.

Lemma collapseFunctionSubtree_idempotent_witness :
  stackTableOrdered (stackTable repeatedTip)
  ∧ samplesValid repeatedTip
  ∧ ∃ collapsed,
      collapseFunctionSubtree repeatedTip 1 0 = Ok collapsed
      ∧ stackTable collapsed
        = [mkStackRow None 0 0 0; mkStackRow (Some 0) 1 0 0;
           mkStackRow (Some 0) 2 0 0]
      ∧ collapseFunctionSubtree collapsed 1 7 = Ok collapsed.
Proof.
  destruct repeatedTip_wf as [Hord Hvalid]. split_and!; [done..|].
  destruct (collapseFunctionSubtree_idempotent repeatedTip 1 0 Hord Hvalid)
    as (collapsed & Hrun & _ & Hagain).
  exists collapsed. split_and!; [done| |by apply Hagain].
  vm_compute in Hrun. by injection Hrun as <-.
Defined.

End MoreWitnesses.
